(** * BookArchive: the persistence and concurrency-control layer

    A shallow embedding of [BookArchive.cpp] and [main.cpp].  The C++ object
    becomes a record of its fields, every method becomes a function that
    threads that record, and everything the program does to the outside
    (SQLite calls, lock operations, sleeps, log lines, console output) is
    appended to an event trace, so that ordering properties can be stated.

    The SQLite library is not part of the program: its answers are given by
    an oracle record ([Sqlite]) and, for [sqlite3_step], by a script of
    pending results stored in the state. *)

From stdpp Require Import gmap strings list pretty sorting.
From Stdlib Require Import Ascii.

Open Scope Z_scope.

(** ** Constants *)

(** Result codes, with the values of [sqlite3.h]. *)
Definition SQLITE_OK : Z := 0.
Definition SQLITE_BUSY : Z := 5.
Definition SQLITE_ROW : Z := 100.
Definition SQLITE_DONE : Z := 101.

(** [#define SQLITE_MAX_RETRIES 5] *)
Definition SQLITE_MAX_RETRIES : Z := 5.

(** [SIGINT] and [SIGTERM] of [<csignal>] (POSIX numbering). *)
Definition SIGINT : Z := 2.
Definition SIGTERM : Z := 15.

(** ** Data model *)

(** [enum class LogLevel { INFO, DEBUG, ERROR }]: the declaration order is
    the order used by [level < current_log_level]. *)
Inductive LogLevel := INFO | DEBUG | ERROR.

Definition level_rank (l : LogLevel) : Z :=
  match l with INFO => 0 | DEBUG => 1 | ERROR => 2 end.

Definition logLevelToString (l : LogLevel) : string :=
  match l with DEBUG => "DEBUG" | INFO => "INFO" | ERROR => "ERROR" end.

Definition is_ERROR (l : LogLevel) : bool :=
  match l with ERROR => true | _ => false end.

(** [struct Book { int id; std::string title; std::string author; }] *)
Record Book := mkBook { id : Z; title : string; author : string }.

(** A compiled statement handle; [sqlite3_stmt*] is [option sqlite3_stmt],
    with [None] for [nullptr]. *)
Definition sqlite3_stmt := nat.

(** The columns of the row a statement is positioned on:
    [sqlite3_column_int(stmt, 0)], [sqlite3_column_text(stmt, 1)] and
    [sqlite3_column_text(stmt, 2)]; a text column may be [NULL]. *)
Record sqlite3_row := mkRow {
  column_int_0 : Z;
  column_text_1 : option string;
  column_text_2 : option string
}.

(** The answers of the SQLite library, of the file system and of the
    standard library. *)
Record Sqlite := mkSqlite {
  sqlite3_open : string -> Z;
  (** result code and [*errmsg] of [sqlite3_exec], by SQL text *)
  sqlite3_exec : string -> Z * string;
  (** [sqlite3_prepare_v2]: the n-th call overall, on this SQL text, gives a
      result code and the statement written to [*ppStmt] *)
  sqlite3_prepare_v2 : nat -> string -> Z * option sqlite3_stmt;
  sqlite3_bind_text : sqlite3_stmt -> Z -> string -> Z;
  sqlite3_errmsg : string;
  (** whether [log_file.open("book_archive.log")] succeeds *)
  log_file_opens : bool;
  (** the place of a key in the iteration order of [stmt_cache]: the order
      of a [std::unordered_map] is unspecified, it is the hash table's *)
  unordered_position : string -> nat
}.

Inductive LockMode := Exclusive | Shared.

(** [db_mutex] and [stmt_cache_mutex] are [std::shared_mutex]; [log_mutex]
    is a plain [std::mutex], always taken exclusively. *)
Inductive Mutex := db_mutex | stmt_cache_mutex | log_mutex.

(** The fifth argument of [sqlite3_bind_text]. *)
Inductive Destructor := SQLITE_STATIC | SQLITE_TRANSIENT.

Inductive Event :=
| ELogOpen
| ELogClose
| ELog (level : LogLevel) (message : string)
| ECout (text : string)
| ECoutBooks (heading : string) (books : list Book)
| ECerr (text : string)
| ELock (m : Mutex) (mode : LockMode)
| EUnlock (m : Mutex) (mode : LockMode)
| EOpen (filename : string) (rc : Z)
| EClose
| EExec (sql : string) (rc : Z)
| EPrepare (sql : string) (rc : Z)
| EFinalize (h : sqlite3_stmt)
| EReset (h : sqlite3_stmt)
| EClearBindings (h : sqlite3_stmt)
| EBindText (h : sqlite3_stmt) (index : Z) (text : string) (d : Destructor) (rc : Z)
| EStep (h : sqlite3_stmt) (rc : Z)
| ESleep (ms : Z).

(** The fields of the [BookArchive] object, the pending [sqlite3_step]
    results, and the history. *)
Record World := mkWorld {
  db : bool;                                      (* [db != nullptr] *)
  log_file_is_open : bool;
  current_log_level : LogLevel;
  stmt_cache : gmap string (option sqlite3_stmt);
  running : bool;
  prepare_calls : nat;
  steps : list (Z * sqlite3_row);
  trace : list Event
}.

Definition emit (e : Event) (w : World) : World :=
  mkWorld (db w) (log_file_is_open w) (current_log_level w) (stmt_cache w)
          (running w) (prepare_calls w) (steps w) (trace w ++ [e]).

Definition set_db (b : bool) (w : World) : World :=
  mkWorld b (log_file_is_open w) (current_log_level w) (stmt_cache w)
          (running w) (prepare_calls w) (steps w) (trace w).

Definition set_log_file_is_open (b : bool) (w : World) : World :=
  mkWorld (db w) b (current_log_level w) (stmt_cache w)
          (running w) (prepare_calls w) (steps w) (trace w).

Definition set_current_log_level (l : LogLevel) (w : World) : World :=
  mkWorld (db w) (log_file_is_open w) l (stmt_cache w)
          (running w) (prepare_calls w) (steps w) (trace w).

Definition set_stmt_cache (c : gmap string (option sqlite3_stmt)) (w : World) : World :=
  mkWorld (db w) (log_file_is_open w) (current_log_level w) c
          (running w) (prepare_calls w) (steps w) (trace w).

Definition set_running (b : bool) (w : World) : World :=
  mkWorld (db w) (log_file_is_open w) (current_log_level w) (stmt_cache w)
          b (prepare_calls w) (steps w) (trace w).

Definition set_prepare_calls (n : nat) (w : World) : World :=
  mkWorld (db w) (log_file_is_open w) (current_log_level w) (stmt_cache w)
          (running w) n (steps w) (trace w).

Definition set_steps (s : list (Z * sqlite3_row)) (w : World) : World :=
  mkWorld (db w) (log_file_is_open w) (current_log_level w) (stmt_cache w)
          (running w) (prepare_calls w) s (trace w).

(** [std::to_string] on the integers the program prints. *)
Definition to_string (z : Z) : string := pretty z.

(** The delay of the retry numbered [retries]: [10 * (1 << retries)]. *)
Definition backoff_ms (retries : Z) : Z := 10 * Z.shiftl 1 retries.

(** Row marshalling of [executeQuery]:
    [book.title = title ? title : ""], the same for the author. *)
Definition marshal (r : sqlite3_row) : Book :=
  mkBook (column_int_0 r)
         (match column_text_1 r with Some t => t | None => "" end)
         (match column_text_2 r with Some a => a | None => "" end).

(** Membership in a concatenation of explicit lists. *)
Ltac in_list :=
  solve [ repeat first
    [ apply list_elem_of_here
    | apply list_elem_of_further
    | apply elem_of_app; right ] ].

Global Instance LockMode_eq_dec : EqDecision LockMode.
Proof. solve_decision. Defined.

Global Instance Mutex_eq_dec : EqDecision Mutex.
Proof. solve_decision. Defined.

Global Instance LogLevel_eq_dec : EqDecision LogLevel.
Proof. solve_decision. Defined.

Section Archive.

(** The build flag [-DDEBUG_MODE] and the SQLite library in use. *)
Variable DEBUG_MODE : bool.
Variable sq : Sqlite.

(** ** Logging *)

(** A line of the log file is recorded by its level and message: the
    timestamp in front of it is the wall clock, and the flush after an
    ERROR line leaves no event. *)
Definition log (level : LogLevel) (message : string) (w : World) : World :=
  if level_rank level <? level_rank (current_log_level w) then w
  else if negb DEBUG_MODE && negb (is_ERROR level) then w
  else if negb (log_file_is_open w) then w
  else emit (EUnlock log_mutex Exclusive)
         (emit (ELog level message)
            (emit (ELock log_mutex Exclusive) w)).

(** ** Statement cache *)

Definition finalize_entry (w : World) (p : string * option sqlite3_stmt) : World :=
  match p.2 with
  | Some h => emit (EFinalize h) w
  | None => w
  end.

(** The entries of a cache in the order in which
    [for (auto& stmt_pair : stmt_cache)] visits them: by their place in the
    hash table. *)
Definition visited_before (p q : string * option sqlite3_stmt) : Prop :=
  (unordered_position sq p.1 ≤ unordered_position sq q.1)%nat.

Global Instance visited_before_dec : RelDecision visited_before.
Proof. intros p q. unfold visited_before. apply _. Defined.

Definition cache_iteration (c : gmap string (option sqlite3_stmt))
  : list (string * option sqlite3_stmt) :=
  merge_sort visited_before (map_to_list c).

Definition cleanupStatements (w : World) : World :=
  let w := emit (ELock stmt_cache_mutex Exclusive) w in
  let w := foldl finalize_entry w (cache_iteration (stmt_cache w)) in
  let w := set_stmt_cache ∅ w in
  emit (EUnlock stmt_cache_mutex Exclusive) w.

(** First block of [getPreparedStatement]: the lookup under the shared
    lock.  [None] is a miss; [Some p] is the cached pointer. *)
Definition lookup_shared (sql : string) (w : World)
  : option (option sqlite3_stmt) * World :=
  let w := emit (ELock stmt_cache_mutex Shared) w in
  let it := stmt_cache w !! sql in
  (it, emit (EUnlock stmt_cache_mutex Shared) w).

(** Second block: under the exclusive lock, look again, and only on a miss
    prepare the statement and add it to the cache. *)
Definition compile_exclusive (sql : string) (w : World)
  : option sqlite3_stmt * World :=
  let w := emit (ELock stmt_cache_mutex Exclusive) w in
  match stmt_cache w !! sql with
  | Some p => (p, emit (EUnlock stmt_cache_mutex Exclusive) w)
  | None =>
      let '(rc, stmt) := sqlite3_prepare_v2 sq (prepare_calls w) sql in
      let w := emit (EPrepare sql rc) (set_prepare_calls (S (prepare_calls w)) w) in
      if negb (rc =? SQLITE_OK) then
        let w := log ERROR ("Failed to prepare statement: " +:+ sqlite3_errmsg sq
                            +:+ " for SQL: " +:+ sql) w in
        (None, emit (EUnlock stmt_cache_mutex Exclusive) w)
      else
        let w := set_stmt_cache (<[sql := stmt]> (stmt_cache w)) w in
        (stmt, emit (EUnlock stmt_cache_mutex Exclusive) w)
  end.

Definition getPreparedStatement (sql : string) (w : World)
  : option sqlite3_stmt * World :=
  match lookup_shared sql w with
  | (Some p, w) => (p, w)
  | (None, w) => compile_exclusive sql w
  end.

(** ** Execution engine *)

(** The binding loop shared by both entry points; [i] is the loop index.
    [true] when every parameter was bound. *)
Fixpoint bind_params (h : sqlite3_stmt) (i : Z) (params : list string) (w : World)
  : bool * World :=
  match params with
  | [] => (true, w)
  | p :: params' =>
      let rc := sqlite3_bind_text sq h (i + 1) p in
      let w := emit (EBindText h (i + 1) p SQLITE_TRANSIENT rc) w in
      if negb (rc =? SQLITE_OK) then
        (false, log ERROR ("Failed to bind parameter " +:+ to_string (i + 1)
                           +:+ ": " +:+ sqlite3_errmsg sq) w)
      else bind_params h (i + 1) params' w
  end.

Definition busy_message (retries : Z) : string :=
  "Database busy, retrying... (" +:+ to_string (retries + 1) +:+ "/"
  +:+ to_string SQLITE_MAX_RETRIES +:+ ")".

(** The [while] loop of [executeSQLWithParams]; [script] is the list of
    pending [sqlite3_step] results, [None] when it runs out.  Returns the
    last result code. *)
Fixpoint write_loop (h : sqlite3_stmt) (script : list (Z * sqlite3_row))
    (retries : Z) (w : World) : option (Z * World) :=
  match script with
  | [] => None
  | (rc, _) :: script' =>
      let w := emit (EStep h rc) (set_steps script' w) in
      if (rc =? SQLITE_BUSY) && (retries <? SQLITE_MAX_RETRIES) then
        let w := log DEBUG (busy_message retries) w in
        let w := emit (ESleep (backoff_ms retries)) w in
        write_loop h script' (retries + 1) w
      else Some (rc, w)
  end.

Definition executeSQLWithParams (sql : string) (params : list string) (w : World)
  : option (bool * World) :=
  let w := log DEBUG ("Executing SQL: " +:+ sql +:+ " with "
                      +:+ to_string (Z.of_nat (length params)) +:+ " parameters") w in
  match getPreparedStatement sql w with
  | (None, w) => Some (false, w)
  | (Some stmt, w) =>
      let w := emit (EReset stmt) w in
      let w := emit (EClearBindings stmt) w in
      match bind_params stmt 0 params w with
      | (false, w) => Some (false, w)
      | (true, w) =>
          let w := emit (ELock db_mutex Exclusive) w in
          match write_loop stmt (steps w) 0 w with
          | None => None
          | Some (rc, w) =>
              let w := emit (EUnlock db_mutex Exclusive) w in
              if negb (rc =? SQLITE_DONE) then
                Some (false, log ERROR ("Failed to execute SQL: " +:+ sqlite3_errmsg sq) w)
              else Some (true, w)
          end
      end
  end.

(** The [while (true)] loop of [executeQuery]. *)
Fixpoint query_loop (h : sqlite3_stmt) (script : list (Z * sqlite3_row))
    (retries : Z) (results : list Book) (w : World) : option (list Book * World) :=
  match script with
  | [] => None
  | (rc, row) :: script' =>
      let w := emit (ELock db_mutex Shared) w in
      let w := emit (EStep h rc) (set_steps script' w) in
      let w := emit (EUnlock db_mutex Shared) w in
      if rc =? SQLITE_ROW then
        query_loop h script' retries (results ++ [marshal row]) w
      else if (rc =? SQLITE_BUSY) && (retries <? SQLITE_MAX_RETRIES) then
        let w := log DEBUG (busy_message retries) w in
        let w := emit (ESleep (backoff_ms retries)) w in
        query_loop h script' (retries + 1) results w
      else if rc =? SQLITE_DONE then Some (results, w)
      else Some (results, log ERROR ("Failed to execute query: " +:+ sqlite3_errmsg sq) w)
  end.

Definition log_result_count (results : list Book) (w : World) : World :=
  match results with
  | _ :: _ => log DEBUG ("Query returned " +:+ to_string (Z.of_nat (length results))
                         +:+ " results") w
  | [] => log DEBUG "Query returned no results" w
  end.

Definition executeQuery (sql : string) (params : list string) (w : World)
  : option (list Book * World) :=
  let w := log DEBUG ("Executing query: " +:+ sql) w in
  match getPreparedStatement sql w with
  | (None, w) => Some ([], w)
  | (Some stmt, w) =>
      let w := emit (EReset stmt) w in
      let w := emit (EClearBindings stmt) w in
      match bind_params stmt 0 params w with
      | (false, w) => Some ([], w)
      | (true, w) =>
          match query_loop stmt (steps w) 0 [] w with
          | None => None
          | Some (results, w) => Some (results, log_result_count results w)
          end
      end
  end.

(** ** Record operations *)

Definition addBook (id : Z) (title author : string) (w : World)
  : option (bool * World) :=
  let w := log INFO ("Adding book: ID=" +:+ to_string id +:+ ", Title='" +:+ title
                     +:+ "', Author='" +:+ author +:+ "'") w in
  let sql := "INSERT INTO books (id, title, author) VALUES (?, ?, ?);" in
  let params := [to_string id; title; author] in
  match executeSQLWithParams sql params w with
  | None => None
  | Some (false, w) =>
      let w := log ERROR "Failed to add book" w in
      Some (false, emit (ECout "Error: Failed to add the book. Check logs for details.") w)
  | Some (true, w) => Some (true, emit (ECout "Book added successfully!") w)
  end.

Definition deleteBook (id : Z) (w : World) : option (bool * World) :=
  let w := log INFO ("Deleting book with ID: " +:+ to_string id) w in
  let sql := "DELETE FROM books WHERE id = ?;" in
  let params := [to_string id] in
  match executeSQLWithParams sql params w with
  | None => None
  | Some (false, w) =>
      let w := log ERROR "Failed to delete book" w in
      Some (false, emit (ECout "Error: Failed to delete the book. Check logs for details.") w)
  | Some (true, w) => Some (true, emit (ECout "Book deleted successfully!") w)
  end.

Definition updateBook (id : Z) (newTitle newAuthor : string) (w : World)
  : option (bool * World) :=
  let w := log INFO ("Updating book: ID=" +:+ to_string id +:+ ", New Title='"
                     +:+ newTitle +:+ "', New Author='" +:+ newAuthor +:+ "'") w in
  let sql := "UPDATE books SET title = ?, author = ? WHERE id = ?;" in
  let params := [newTitle; newAuthor; to_string id] in
  match executeSQLWithParams sql params w with
  | None => None
  | Some (false, w) =>
      let w := log ERROR "Failed to update book" w in
      Some (false, emit (ECout "Error: Failed to update the book. Check logs for details.") w)
  | Some (true, w) => Some (true, emit (ECout "Book updated successfully!") w)
  end.

(** The table printed for a non-empty result is one [ECoutBooks] event:
    column layout and truncation are console rendering only. *)
Definition searchBook (keyword : string) (w : World) : option (list Book * World) :=
  let w := log INFO ("Searching for books with keyword: '" +:+ keyword +:+ "'") w in
  let sql := "SELECT * FROM books WHERE title LIKE ? OR author LIKE ? ORDER BY id;" in
  let searchPattern := "%" +:+ keyword +:+ "%" in
  let params := [searchPattern; searchPattern] in
  match executeQuery sql params w with
  | None => None
  | Some ([], w) =>
      Some ([], emit (ECout ("No books found matching '" +:+ keyword +:+ "'.")) w)
  | Some (results, w) =>
      Some (results, emit (ECoutBooks ("Search Results for '" +:+ keyword +:+ "':") results) w)
  end.

Definition displayBooks (w : World) : option World :=
  let w := log INFO "Displaying all books" w in
  let sql := "SELECT * FROM books ORDER BY id;" in
  match executeQuery sql [] w with
  | None => None
  | Some ([], w) => Some (emit (ECout "No books found in the database.") w)
  | Some (results, w) => Some (emit (ECoutBooks "Book Archive - All Books:" results) w)
  end.

Definition setLogLevel (level : LogLevel) (w : World) : World :=
  log INFO ("Log level set to: " +:+ logLevelToString level) (set_current_log_level level w).

(** ** Construction and teardown *)

Definition pragmas : list string :=
  [ "PRAGMA foreign_keys = ON;";
    "PRAGMA journal_mode = WAL;";
    "PRAGMA synchronous = NORMAL;";
    "PRAGMA cache_size = 1000;";
    "PRAGMA temp_store = MEMORY;" ].

Definition createTableSQL : string :=
  "CREATE TABLE IF NOT EXISTS books (" +:+
  "id INTEGER PRIMARY KEY, " +:+
  "title TEXT NOT NULL, " +:+
  "author TEXT NOT NULL, " +:+
  "created_at TIMESTAMP DEFAULT CURRENT_TIMESTAMP);".

Definition createIndexSQL : string :=
  "CREATE INDEX IF NOT EXISTS idx_books_title_author ON books(title, author);".

(** One round of the [for (const auto& pragma : pragmas)] loop. *)
Definition set_pragma (w : World) (pragma : string) : World :=
  let '(rc, errmsg) := sqlite3_exec sq pragma in
  let w := emit (EExec pragma rc) w in
  if negb (rc =? SQLITE_OK) then log ERROR ("Failed to set pragma: " +:+ errmsg) w
  else w.

Definition initializeDatabase (db_filename : string) (w : World) : bool * World :=
  let w := emit (ELock db_mutex Exclusive) w in
  let rc := sqlite3_open sq db_filename in
  let w := set_db true (emit (EOpen db_filename rc) w) in
  if negb (rc =? SQLITE_OK) then
    let w := log ERROR ("Cannot open database: " +:+ sqlite3_errmsg sq) w in
    let w := emit EClose w in
    (false, emit (EUnlock db_mutex Exclusive) w)
  else
    let w := foldl set_pragma w pragmas in
    let '(rc, errmsg) := sqlite3_exec sq createTableSQL in
    let w := emit (EExec createTableSQL rc) w in
    if negb (rc =? SQLITE_OK) then
      let w := log ERROR ("Failed to create table: " +:+ errmsg) w in
      (false, emit (EUnlock db_mutex Exclusive) w)
    else
      let '(rc, errmsg) := sqlite3_exec sq createIndexSQL in
      let w := emit (EExec createIndexSQL rc) w in
      let w := if negb (rc =? SQLITE_OK)
               then log ERROR ("Failed to create index: " +:+ errmsg) w
               else w in
      (true, emit (EUnlock db_mutex Exclusive) w).

(** The object before its constructor body runs:
    [db(nullptr), running(true), current_log_level(log_level)]. *)
Definition unconstructed (log_level : LogLevel) (script : list (Z * sqlite3_row)) : World :=
  mkWorld false false log_level ∅ true 0%nat script [].

(** [Some what] is the [std::runtime_error] thrown.  When the constructor
    throws, the members built so far are destroyed and no destructor body
    runs; the only member with an effect is [log_file], whose destructor
    closes the file. *)
Definition BookArchive_ctor (db_file : string) (log_level : LogLevel) (w : World)
  : option string * World :=
  let w := if log_file_opens sq
           then set_log_file_is_open true (emit ELogOpen w)
           else emit (ECerr "Warning: Could not open log file. Logging disabled.") w in
  match initializeDatabase db_file w with
  | (false, w) =>
      let w := if log_file_is_open w
               then set_log_file_is_open false (emit ELogClose w) else w in
      (Some ("Failed to initialize database: " +:+ db_file), w)
  | (true, w) =>
      let w := log INFO "********************************************************" w in
      let w := log INFO ("Book Archive initialized with database: " +:+ db_file
                         +:+ " and logging level: " +:+ logLevelToString log_level) w in
      (None, w)
  end.

Definition BookArchive_dtor (w : World) : World :=
  let w := log INFO "Shutting down Book Archive" w in
  let w := cleanupStatements w in
  let w := if db w then set_db false (emit EClose w) else w in
  if log_file_is_open w then set_log_file_is_open false (emit ELogClose w) else w.

(** ** Command loop *)

(** A command line after the parsing done at the head of each branch of
    [processCommand]; [CmdMalformed] is a line whose parsing throws.  Of
    the texts of [help] and [version] the first line is kept. *)
Inductive Command :=
| CmdAdd (id : Z) (title author : string)
| CmdDelete (id : Z)
| CmdUpdate (id : Z) (newTitle newAuthor : string)
| CmdSearch (keyword : string)
| CmdDisplay
| CmdHelp
| CmdVersion
| CmdDebug
| CmdExit
| CmdInvalid
| CmdMalformed (what command : string).

Definition processCommand (c : Command) (w : World) : option World :=
  match c with
  | CmdAdd id title author => snd <$> addBook id title author w
  | CmdDelete id => snd <$> deleteBook id w
  | CmdUpdate id newTitle newAuthor => snd <$> updateBook id newTitle newAuthor w
  | CmdSearch keyword => snd <$> searchBook keyword w
  | CmdDisplay => displayBooks w
  | CmdHelp => Some (emit (ECout "Book Archive 1.0.0 - Command List") w)
  | CmdVersion => Some (emit (ECout "Book Archive Version: 1.0.0") w)
  | CmdDebug =>
      if DEBUG_MODE then
        match current_log_level w with
        | DEBUG =>
            Some (emit (ECout "Logging level switched to INFO. Showing all logs.")
                    (setLogLevel INFO w))
        | _ =>
            Some (emit (ECout "Logging level switched to DEBUG. Recording all DEBUG and ERROER logs only.")
                    (setLogLevel DEBUG w))
        end
      else
        Some (emit (ECout "Logging level switching is not available in release build. Log level set to ERROR") w)
  | CmdExit =>
      Some (emit (ECout "Exiting Book Archive. Goodbye!") (set_running false w))
  | CmdInvalid =>
      Some (emit (ECout "Invalid command. Type 'help' for a list of commands.") w)
  | CmdMalformed what command =>
      let w := emit (ECout ("Error: " +:+ what)) w in
      Some (log ERROR ("Command error: " +:+ what +:+ " (Command: " +:+ command +:+ ")") w)
  end.

(** [while (running)]: returns with [running = false] after [exit], or
    with [running = true] when the input is used up and the loop is
    waiting in [std::getline]. *)
Fixpoint run_loop (input : list Command) (w : World) : option World :=
  if negb (running w) then Some w
  else
    let w := emit (ECout "> ") w in
    match input with
    | [] => Some w
    | c :: input' =>
        match processCommand c w with
        | None => None
        | Some w => run_loop input' w
        end
    end.

Definition run (input : list Command) (w : World) : option World :=
  let w := emit (ECout "Book Archive 1.0.0 - Library Management Tool") w in
  let w := emit (ECout "Type 'help' for available commands, 'exit' to quit.") w in
  run_loop input w.

(** [signalHandler], for a signal it is installed for; [g_archive] tells
    whether the global pointer is set.  It ends in [exit(0)]. *)
Definition signalHandler (g_archive : bool) (w : World) : World :=
  let w := emit (ECout "Received termination signal. Shutting down gracefully...") w in
  if g_archive then BookArchive_dtor w else w.

Inductive Exit := ExitCode (status : Z) | Killed (signal : Z).

(** ** Vocabulary of the statements *)

(** [extend d w] is [w] with the events [d] appended to its history. *)
Definition extend (d : list Event) (w : World) : World :=
  mkWorld (db w) (log_file_is_open w) (current_log_level w) (stmt_cache w)
          (running w) (prepare_calls w) (steps w) (trace w ++ d).

(** What a call of [log] appends. *)
Definition log_events (level : LogLevel) (message : string) (w : World) : list Event :=
  if level_rank level <? level_rank (current_log_level w) then []
  else if negb DEBUG_MODE && negb (is_ERROR level) then []
  else if negb (log_file_is_open w) then []
  else [ELock log_mutex Exclusive; ELog level message; EUnlock log_mutex Exclusive].

(** Statement execution events: reset, bindings, steps, sleeps and the
    operations on [db_mutex]. *)
Definition exec_event (e : Event) : option Event :=
  match e with
  | EReset _ | EClearBindings _ | EBindText _ _ _ _ _ | EStep _ _ | ESleep _ => Some e
  | ELock m _ | EUnlock m _ =>
      match m with db_mutex => Some e | _ => None end
  | _ => None
  end.

Definition exec (d : list Event) : list Event := omap exec_event d.

(** The same without the binding prelude: [db_mutex], steps and sleeps. *)
Definition engine_event (e : Event) : option Event :=
  match e with
  | EStep _ _ | ESleep _ => Some e
  | ELock m _ | EUnlock m _ =>
      match m with db_mutex => Some e | _ => None end
  | _ => None
  end.

Definition engine (d : list Event) : list Event := omap engine_event d.

Definition sleep_ms (e : Event) : option Z :=
  match e with ESleep ms => Some ms | _ => None end.

Definition sleeps (d : list Event) : list Z := omap sleep_ms d.

Definition step_rc (e : Event) : option Z :=
  match e with EStep _ rc => Some rc | _ => None end.

(** The result codes of the [sqlite3_step] calls in a history. *)
Definition step_results (d : list Event) : list Z := omap step_rc d.

Definition is_db_lock (e : Event) : bool :=
  match e with
  | ELock m _ | EUnlock m _ => match m with db_mutex => true | _ => false end
  | _ => false
  end.

(** The statement [sql] is at hand as [h]: cached, or absent from the cache
    and compiled by the next [sqlite3_prepare_v2]. *)
Definition compiles_to (sql : string) (w : World) (h : sqlite3_stmt) : Prop :=
  stmt_cache w !! sql = Some (Some h) ∨
  (stmt_cache w !! sql = None ∧
   sqlite3_prepare_v2 sq (prepare_calls w) sql = (SQLITE_OK, Some h)).

(** The events of binding [params] from loop index [i] on. *)
Fixpoint bind_events (h : sqlite3_stmt) (i : Z) (params : list string) : list Event :=
  match params with
  | [] => []
  | p :: params' =>
      EBindText h (i + 1) p SQLITE_TRANSIENT (sqlite3_bind_text sq h (i + 1) p)
      :: bind_events h (i + 1) params'
  end.

(** Every parameter of [params], from loop index [i] on, binds. *)
Definition binds_ok (h : sqlite3_stmt) (i : Z) (params : list string) : Prop :=
  ∀ (j : nat) p, params !! j = Some p →
    sqlite3_bind_text sq h (i + Z.of_nat j + 1) p = SQLITE_OK.

(** The message logged when the parameter at [index] (1-based) fails to bind. *)
Definition bind_failure_message (index : Z) : string :=
  "Failed to bind parameter " +:+ to_string index +:+ ": " +:+ sqlite3_errmsg sq.

(** The retry/backoff table: the delays of retries 0 to 4. *)
Definition backoff_table : list Z := [10; 20; 40; 80; 160].

(** [n] rounds "step reports busy, sleep" from retry counter [r] on. *)
Fixpoint busy_rounds (h : sqlite3_stmt) (r : Z) (n : nat) : list Event :=
  match n with
  | O => []
  | S n' => EStep h SQLITE_BUSY :: ESleep (backoff_ms r) :: busy_rounds h (r + 1) n'
  end.

Definition row_of (o : Z * sqlite3_row) : option sqlite3_row :=
  if o.1 =? SQLITE_ROW then Some o.2 else None.

(** The rows delivered by a list of step results. *)
Definition rows (script : list (Z * sqlite3_row)) : list sqlite3_row :=
  omap row_of script.

(** How many step results of a list report contention. *)
Definition busy_count (script : list (Z * sqlite3_row)) : nat :=
  length (filter (λ o : Z * sqlite3_row, o.1 = SQLITE_BUSY) script).

(** A step result that ends a scan: neither a row nor contention. *)
Definition ends_scan (o : Z * sqlite3_row) : Prop :=
  o.1 ≠ SQLITE_ROW ∧ o.1 ≠ SQLITE_BUSY.

(** Pending step results on which a write comes to an end: one of them is
    not contention, or there are six of them. *)
Definition ends_write (script : list (Z * sqlite3_row)) : Prop :=
  Exists (λ o : Z * sqlite3_row, o.1 ≠ SQLITE_BUSY) script ∨ (6 ≤ length script)%nat.

(** A step result after which a scan goes on: a row or contention. *)
Definition scan_goes_on (o : Z * sqlite3_row) : Prop :=
  o.1 = SQLITE_ROW ∨ o.1 = SQLITE_BUSY.

(** Pending step results on which a scan comes to an end: one of them is
    neither a row nor contention, or six of them are contention. *)
Definition ends_read (script : list (Z * sqlite3_row)) : Prop :=
  Exists ends_scan script ∨ (6 ≤ busy_count script)%nat.

(** The message a scan logs when it ends on anything but [SQLITE_DONE]. *)
Definition scan_failure_message : string :=
  "Failed to execute query: " +:+ sqlite3_errmsg sq.

(** The locking pattern of a scan: each step alone between a shared lock
    and its unlock, sleeps outside of any lock. *)
Fixpoint read_locked (d : list Event) : bool :=
  match d with
  | [] => true
  | ELock db_mutex Shared :: EStep _ _ :: EUnlock db_mutex Shared :: d' => read_locked d'
  | ESleep _ :: d' => read_locked d'
  | _ => false
  end.

(** What the closing [log] of [executeQuery] appends. *)
Definition result_count_events (results : list Book) (w : World) : list Event :=
  match results with
  | _ :: _ => log_events DEBUG ("Query returned " +:+ to_string (Z.of_nat (length results))
                                +:+ " results") w
  | [] => log_events DEBUG "Query returned no results" w
  end.

(** The locking pattern of a write: nothing, or one exclusive section of
    [db_mutex] around lock-free events. *)
Definition write_locked (d : list Event) : Prop :=
  d = [] ∨
  ∃ inner, d = ELock db_mutex Exclusive :: inner ++ [EUnlock db_mutex Exclusive] ∧
           Forall (λ e, is_db_lock e = false) inner.

(** A reader/writer lock as seen by the other threads: whether some thread
    holds it exclusively, and how many hold it shared. *)
Record rwlock := mkLock { writer : bool; readers : nat }.

Definition lock_step (l : rwlock) (e : Event) : rwlock :=
  match e with
  | ELock db_mutex Exclusive => mkLock true (readers l)
  | EUnlock db_mutex Exclusive => mkLock false (readers l)
  | ELock db_mutex Shared => mkLock (writer l) (S (readers l))
  | EUnlock db_mutex Shared => mkLock (writer l) (pred (readers l))
  | _ => l
  end.

(** The state of [db_mutex] after the events [d]. *)
Definition lock_after (l : rwlock) (d : list Event) : rwlock := foldl lock_step l d.

(** [lock_shared()] of another thread does not block. *)
Definition shared_available (l : rwlock) : bool := negb (writer l).

(** What one round of the pragma loop appends. *)
Definition pragma_events (w : World) (pragma : string) : list Event :=
  EExec pragma (sqlite3_exec sq pragma).1 ::
  (if negb ((sqlite3_exec sq pragma).1 =? SQLITE_OK)
   then log_events ERROR ("Failed to set pragma: " +:+ (sqlite3_exec sq pragma).2) w
   else []).

(** What the creation of the index appends. *)
Definition index_events (w : World) : list Event :=
  EExec createIndexSQL (sqlite3_exec sq createIndexSQL).1 ::
  (if negb ((sqlite3_exec sq createIndexSQL).1 =? SQLITE_OK)
   then log_events ERROR ("Failed to create index: " +:+
                          (sqlite3_exec sq createIndexSQL).2) w
   else []).

(** The events a step loop can produce. *)
Definition loop_event (e : Event) : bool :=
  match e with
  | ELock _ _ | EUnlock _ _ | ELog _ _ | EStep _ _ | ESleep _ => true
  | _ => false
  end.

Definition sql_text (e : Event) : option string :=
  match e with
  | EPrepare sql _ | EExec sql _ => Some sql
  | _ => None
  end.

(** The SQL texts handed to SQLite in a history. *)
Definition sql_texts (d : list Event) : list string := omap sql_text d.

Definition bound_text (e : Event) : option string :=
  match e with EBindText _ _ text _ _ => Some text | _ => None end.

(** The values handed to SQLite as bound parameters in a history. *)
Definition bound_texts (d : list Event) : list string := omap bound_text d.

(** The SQL text a request for [sql] hands to [sqlite3_prepare_v2]: none
    when [sql] is cached, [sql] itself otherwise. *)
Definition compiled_now (w : World) (sql : string) : list string :=
  match stmt_cache w !! sql with Some _ => [] | None => [sql] end.

(** A call that took [w] to [w'] handed SQLite the template [sql] at most,
    and values only as bound parameters, in the order of [params]. *)
Definition passes_template (sql : string) (params : list string) (w w' : World) : Prop :=
  ∃ d n, trace w' = trace w ++ d ∧
         sql_texts d = compiled_now w sql ∧
         bound_texts d = take n params.

(** The SQL texts handed to SQLite between [w] and [w']. *)
Definition sql_requested (w w' : World) : list string :=
  sql_texts (drop (length (trace w)) (trace w')).

Definition finalize_event (p : string * option sqlite3_stmt) : option Event :=
  EFinalize <$> p.2.

(** The [sqlite3_finalize] calls of [cleanupStatements] on a cache. *)
Definition finalize_events (c : gmap string (option sqlite3_stmt)) : list Event :=
  omap finalize_event (cache_iteration c).

(** ** Concurrent callers of the statement cache

    [getPreparedStatement] cut into its operations on what the threads
    share: taking and releasing [stmt_cache_mutex], the two lookups, the
    compilation and the insertion.  A caller stands before one of them. *)
Inductive pc :=
| Start                                        (* before the shared lock is taken *)
| Reading                                      (* before the first [find] *)
| Found (it : option (option sqlite3_stmt))    (* before the shared lock is released *)
| Missed                                       (* before the exclusive lock is taken *)
| Writing                                      (* before the second [find] *)
| Compiling                                    (* before [sqlite3_prepare_v2] *)
| Compiled (rc : Z) (stmt : option sqlite3_stmt) (* before the log line or the insertion *)
| Leaving (result : option sqlite3_stmt)       (* before the exclusive lock is released *)
| Done (result : option sqlite3_stmt).

(** The next operation of a caller that asks for [sql]. *)
Definition thread_step (sql : string) (p : pc) (w : World) : option (pc * World) :=
  match p with
  | Start => Some (Reading, emit (ELock stmt_cache_mutex Shared) w)
  | Reading => Some (Found (stmt_cache w !! sql), w)
  | Found (Some r) => Some (Done r, emit (EUnlock stmt_cache_mutex Shared) w)
  | Found None => Some (Missed, emit (EUnlock stmt_cache_mutex Shared) w)
  | Missed => Some (Writing, emit (ELock stmt_cache_mutex Exclusive) w)
  | Writing =>
      Some (match stmt_cache w !! sql with Some r => Leaving r | None => Compiling end, w)
  | Compiling =>
      let '(rc, stmt) := sqlite3_prepare_v2 sq (prepare_calls w) sql in
      Some (Compiled rc stmt,
            emit (EPrepare sql rc) (set_prepare_calls (S (prepare_calls w)) w))
  | Compiled rc stmt =>
      if negb (rc =? SQLITE_OK) then
        Some (Leaving None,
              log ERROR ("Failed to prepare statement: " +:+ sqlite3_errmsg sq
                         +:+ " for SQL: " +:+ sql) w)
      else Some (Leaving stmt, set_stmt_cache (<[sql := stmt]> (stmt_cache w)) w)
  | Leaving r => Some (Done r, emit (EUnlock stmt_cache_mutex Exclusive) w)
  | Done _ => None
  end.

(** A caller running alone, for at most [fuel] operations. *)
Fixpoint thread_run (fuel : nat) (sql : string) (p : pc) (w : World)
  : option (option sqlite3_stmt * World) :=
  match p, fuel with
  | Done r, _ => Some (r, w)
  | _, O => None
  | _, S fuel' =>
      match thread_step sql p w with
      | Some (p', w') => thread_run fuel' sql p' w'
      | None => None
      end
  end.

(** A thread: the SQL text it asks for, where it stands, and the mutexes
    it holds. *)
Record Thread := mkThread {
  request : string;
  at_pc : pc;
  holds : list (Mutex * LockMode)
}.

(** What a thread holds changes with the lock events of its own steps. *)
Definition holds_step (held : list (Mutex * LockMode)) (e : Event)
  : list (Mutex * LockMode) :=
  match e with
  | ELock m mode => (m, mode) :: held
  | EUnlock m mode => filter (λ l, l ≠ (m, mode)) held
  | _ => held
  end.

Definition holds_after (held : list (Mutex * LockMode)) (d : list Event)
  : list (Mutex * LockMode) :=
  foldl holds_step held d.

(** An event of one thread next to what another thread holds: a mutex is
    taken exclusively only when the other thread does not hold it, and
    shared only when the other thread does not hold it exclusively. *)
Definition compatible (other : list (Mutex * LockMode)) (e : Event) : bool :=
  match e with
  | ELock m Exclusive => forallb (λ l : Mutex * LockMode, negb (bool_decide (l.1 = m))) other
  | ELock m Shared => negb (bool_decide ((m, Exclusive) ∈ other))
  | _ => true
  end.

Definition permitted (others : list (list (Mutex * LockMode))) (d : list Event) : bool :=
  forallb (λ other, forallb (compatible other) d) others.

(** The events a step appended to the history. *)
Definition appended (w w' : World) : list Event := drop (length (trace w)) (trace w').

(** Any caller may make its next operation, as long as the locks held by
    the other callers permit it; a caller that is refused waits. *)
Inductive conc_step : World * list Thread → World * list Thread → Prop :=
| conc_step_thread w ts (i : nat) t p' w' :
    ts !! i = Some t →
    thread_step (request t) (at_pc t) w = Some (p', w') →
    permitted (holds <$> delete i ts) (appended w w') = true →
    conc_step (w, ts)
      (w', <[i := mkThread (request t) p' (holds_after (holds t) (appended w w'))]> ts).

(** The step of caller [i], when the locks permit it, and the steps of the
    callers named by a schedule, one after the other. *)
Definition conc_next (i : nat) (st : World * list Thread) : option (World * list Thread) :=
  match st.2 !! i with
  | Some t =>
      match thread_step (request t) (at_pc t) st.1 with
      | Some (p', w') =>
          if permitted (holds <$> delete i st.2) (appended st.1 w')
          then Some (w', <[i := mkThread (request t) p'
                                  (holds_after (holds t) (appended st.1 w'))]> st.2)
          else None
      | None => None
      end
  | None => None
  end.

Fixpoint schedule (callers : list nat) (st : World * list Thread)
  : option (World * list Thread) :=
  match callers with
  | [] => Some st
  | i :: callers' =>
      match conc_next i st with
      | Some st' => schedule callers' st'
      | None => None
      end
  end.

Definition prepare_result (sql : string) (e : Event) : option Z :=
  match e with
  | EPrepare s rc => if bool_decide (s = sql) then Some rc else None
  | _ => None
  end.

(** The result codes of the [sqlite3_prepare_v2] calls on [sql]. *)
Definition prepare_results (sql : string) (d : list Event) : list Z :=
  omap (prepare_result sql) d.

(** How many times [sql] was compiled successfully. *)
Definition compilations (sql : string) (d : list Event) : nat :=
  length (filter (λ rc, rc = SQLITE_OK) (prepare_results sql d)).

(** A connection on which nothing was compiled yet. *)
Definition fresh_connection (w : World) : Prop :=
  stmt_cache w = ∅ ∧ ∀ sql, prepare_results sql (trace w) = [].

(** What a caller holds at each point, if the locks are what the blocks
    of [getPreparedStatement] say. *)
Definition locks_at (p : pc) : list (Mutex * LockMode) :=
  match p with
  | Reading | Found _ => [(stmt_cache_mutex, Shared)]
  | Writing | Compiling | Compiled _ _ | Leaving _ => [(stmt_cache_mutex, Exclusive)]
  | Start | Missed | Done _ => []
  end.

(** The points inside the first and inside the second block. *)
Definition in_shared_block (p : pc) : bool :=
  match p with Reading | Found _ => true | _ => false end.

Definition in_exclusive_block (p : pc) : bool :=
  match p with Writing | Compiling | Compiled _ _ | Leaving _ => true | _ => false end.

(** What a caller knows where it stands: after the second miss, that the
    text is not cached; after a successful compilation, that it is the
    only one of that text; with a statement in hand, that it is the cached
    one. *)
Definition pc_inv (w : World) (t : Thread) : Prop :=
  match at_pc t with
  | Compiling => stmt_cache w !! request t = None
  | Compiled rc _ =>
      stmt_cache w !! request t = None ∧
      (rc = SQLITE_OK → compilations (request t) (trace w) = 1%nat)
  | Found (Some (Some h)) | Leaving (Some h) | Done (Some h) =>
      stmt_cache w !! request t = Some (Some h)
  | _ => True
  end.

Definition cache_inv (st : World * list Thread) : Prop :=
  (∀ (i : nat) t, st.2 !! i = Some t → holds t = locks_at (at_pc t) ∧ pc_inv st.1 t) ∧
  (∀ (i j : nat) ti tj, i ≠ j → st.2 !! i = Some ti → st.2 !! j = Some tj →
     (stmt_cache_mutex, Exclusive) ∈ holds ti → holds tj = []) ∧
  (∀ sql, (compilations sql (trace st.1) ≤ 1)%nat) ∧
  (∀ sql, stmt_cache st.1 !! sql = None →
     compilations sql (trace st.1) = 0%nat ∨
     ∃ (i : nat) t stmt, st.2 !! i = Some t ∧ request t = sql ∧
                         at_pc t = Compiled SQLITE_OK stmt) ∧
  (∀ sql, is_Some (stmt_cache st.1 !! sql) → compilations sql (trace st.1) = 1%nat).

(** ** Sample environments and states *)

(** A library on which every call succeeds; the n-th compilation yields
    the handle [n + 1]. *)
Definition sqlite_ok : Sqlite :=
  mkSqlite (λ _, SQLITE_OK) (λ _, (SQLITE_OK, ""))
           (λ n _, (SQLITE_OK, Some (S n))) (λ _ _ _, SQLITE_OK)
           "database is locked" true (λ _, 0%nat).

(** A library on which no statement compiles ([SQLITE_ERROR]). *)
Definition sqlite_no_compile : Sqlite :=
  mkSqlite (λ _, SQLITE_OK) (λ _, (SQLITE_OK, ""))
           (λ _ _, (1, None)) (λ _ _ _, SQLITE_OK)
           "no such table: books" true (λ _, 0%nat).

(** A library on which the second parameter does not bind
    ([SQLITE_RANGE]). *)
Definition sqlite_bind_fails : Sqlite :=
  mkSqlite (λ _, SQLITE_OK) (λ _, (SQLITE_OK, ""))
           (λ n _, (SQLITE_OK, Some (S n)))
           (λ _ index _, if index =? 2 then 25 else SQLITE_OK)
           "column index out of range" true (λ _, 0%nat).

(** A database on which the journal mode cannot be set. *)
Definition sqlite_pragma_fails : Sqlite :=
  mkSqlite (λ _, SQLITE_OK)
           (λ sql, if bool_decide (sql = "PRAGMA journal_mode = WAL;")
                   then (1, "not authorized") else (SQLITE_OK, ""))
           (λ n _, (SQLITE_OK, Some (S n))) (λ _ _ _, SQLITE_OK)
           "not authorized" true (λ _, 0%nat).

(** A read-only database file: the table cannot be created
    ([SQLITE_READONLY]). *)
Definition sqlite_no_table : Sqlite :=
  mkSqlite (λ _, SQLITE_OK)
           (λ sql, if bool_decide (sql = createTableSQL)
                   then (8, "attempt to write a readonly database")
                   else (SQLITE_OK, ""))
           (λ n _, (SQLITE_OK, Some (S n))) (λ _ _ _, SQLITE_OK)
           "attempt to write a readonly database" true (λ _, 0%nat).

Definition busy : Z * sqlite3_row := (SQLITE_BUSY, mkRow 0 None None).
Definition finished : Z * sqlite3_row := (SQLITE_DONE, mkRow 0 None None).
Definition failed : Z * sqlite3_row := (1, mkRow 0 None None).
Definition dune : Z * sqlite3_row := (SQLITE_ROW, mkRow 1 (Some "Dune") (Some "Frank Herbert")).
Definition untitled : Z * sqlite3_row := (SQLITE_ROW, mkRow 2 None (Some "Anonymous")).

(** A constructed archive with an open log, an empty cache and the given
    pending step results. *)
Definition opened (script : list (Z * sqlite3_row)) : World :=
  mkWorld true true ERROR ∅ true 0%nat script [].

Definition resource_event (e : Event) : option Event :=
  match e with
  | ELogOpen | ELogClose | EOpen _ _ | EClose | EFinalize _ => Some e
  | _ => None
  end.

(** The events that acquire or release the log file, the connection and
    the statements. *)
Definition resource_events (d : list Event) : list Event := omap resource_event d.

(** ** Reading a command line

    The head of each branch of [processCommand]: the line is read through
    a [std::istringstream], here the text that is left in the stream. *)

(** [std::isspace] in the "C" locale: the space and [\t \n \v \f \r]. *)
Definition isspace (c : Ascii.ascii) : bool :=
  let n := Ascii.N_of_ascii c in
  (n =? 32)%N || ((9 <=? n)%N && (n <=? 13)%N).

Definition isdigit (c : Ascii.ascii) : bool :=
  let n := Ascii.N_of_ascii c in (48 <=? n)%N && (n <=? 57)%N.

(** [iss >> std::ws]: the stream without its leading white space. *)
Fixpoint skip_ws (s : string) : string :=
  match s with
  | String c s' => if isspace c then skip_ws s' else s
  | EmptyString => EmptyString
  end.

(** The characters up to the next white space, and what follows them. *)
Fixpoint read_word (s : string) : string * string :=
  match s with
  | String c s' =>
      if isspace c then (EmptyString, s)
      else let '(word, rest) := read_word s' in (String c word, rest)
  | EmptyString => (EmptyString, EmptyString)
  end.

(** [iss >> word]: leading white space is skipped; the word is empty when
    nothing else is left. *)
Definition extract (s : string) : string * string := read_word (skip_ws s).

(** [std::getline(iss, line)]: the characters up to the next newline. *)
Fixpoint getline (s : string) : string :=
  match s with
  | String c s' => if Ascii.eqb c "010"%char then EmptyString else String c (getline s')
  | EmptyString => EmptyString
  end.

Definition digit_value (c : Ascii.ascii) : Z := Z.of_N (Ascii.N_of_ascii c) - 48.

(** The run of digits at the head of [s], read in base 10 onto [acc]. *)
Fixpoint read_digits (acc : Z) (s : string) : Z :=
  match s with
  | String c s' => if isdigit c then read_digits (10 * acc + digit_value c) s' else acc
  | EmptyString => acc
  end.

(** The range of [int]. *)
Definition INT_MIN : Z := -2147483648.
Definition INT_MAX : Z := 2147483647.

(** [std::stoi(s)]: white space is skipped, then a sign and the longest run
    of digits are read, and what follows them is ignored.  [None] is one of
    its two exceptions: [std::invalid_argument] when no digit is found,
    [std::out_of_range] when the value is not an [int]. *)
Definition stoi (s : string) : option Z :=
  let s := skip_ws s in
  let '(negative, s) :=
    match s with
    | String "-"%char s' => (true, s')
    | String "+"%char s' => (false, s')
    | _ => (false, s)
    end in
  match s with
  | String c _ =>
      if isdigit c then
        let v := read_digits 0 s in
        let v := if negative then - v else v in
        if (INT_MIN <=? v) && (v <=? INT_MAX) then Some v else None
      else None
  | EmptyString => None
  end.

(** [pos = s.find(',')] with [s.substr(0, pos)] and [s.substr(pos + 1)];
    [None] is [std::string::npos]. *)
Fixpoint split_comma (s : string) : option (string * string) :=
  match s with
  | String c s' =>
      if Ascii.eqb c ","%char then Some (EmptyString, s')
      else match split_comma s' with
           | Some (before, after) => Some (String c before, after)
           | None => None
           end
  | EmptyString => None
  end.

(** A character of [" \t"]. *)
Definition blank (c : Ascii.ascii) : bool := Ascii.eqb c " "%char || Ascii.eqb c "009"%char.

(** [s.erase(0, s.find_first_not_of(" \t"))]: a string of blanks only is
    erased as a whole ([npos] characters). *)
Fixpoint erase_leading_blanks (s : string) : string :=
  match s with
  | String c s' => if blank c then erase_leading_blanks s' else s
  | EmptyString => EmptyString
  end.

(** [s.erase(s.find_last_not_of(" \t") + 1)]: on a string of blanks only
    [npos + 1] is 0 and everything is erased. *)
Fixpoint erase_trailing_blanks (s : string) : string :=
  match s with
  | String c s' =>
      match erase_trailing_blanks s' with
      | EmptyString => if blank c then EmptyString else String c EmptyString
      | kept => String c kept
      end
  | EmptyString => EmptyString
  end.

Definition trim (s : string) : string :=
  erase_trailing_blanks (erase_leading_blanks s).

(** The id of [add], [delete] and [update]; [inl what] is the
    [std::runtime_error] thrown. *)
Definition parse_id (s : string) : string + Z * string :=
  let '(idStr, s) := extract s in
  if bool_decide (idStr = "") then inl "Missing book ID"
  else match stoi idStr with
       | None => inl ("Invalid book ID: " +:+ idStr)
       | Some id => inr (id, s)
       end.

(** The title and the author of [add] and [update]. *)
Definition parse_title_author (usage s : string) : string + string * string :=
  let remainder := getline s in
  match split_comma remainder with
  | None => inl ("Invalid format. Use: " +:+ usage)
  | Some (title, author) =>
      let title := trim title in
      let author := trim author in
      if bool_decide (title = "") || bool_decide (author = "")
      then inl "Title and author cannot be empty"
      else inr (title, author)
  end.

(** What [processCommand] makes of a line before it calls an operation. *)
Definition parseCommand (command : string) : Command :=
  let '(action, s) := extract command in
  if bool_decide (action = "add") then
    match parse_id s with
    | inl what => CmdMalformed what command
    | inr (id, s) =>
        match parse_title_author "add <id> <title>, <author>" s with
        | inl what => CmdMalformed what command
        | inr (title, author) => CmdAdd id title author
        end
    end
  else if bool_decide (action = "delete") then
    match parse_id s with
    | inl what => CmdMalformed what command
    | inr (id, _) => CmdDelete id
    end
  else if bool_decide (action = "update") then
    match parse_id s with
    | inl what => CmdMalformed what command
    | inr (id, s) =>
        match parse_title_author "update <id> <new_title>, <new_author>" s with
        | inl what => CmdMalformed what command
        | inr (newTitle, newAuthor) => CmdUpdate id newTitle newAuthor
        end
    end
  else if bool_decide (action = "search") then
    let keyword := getline (skip_ws s) in
    if bool_decide (keyword = "") then CmdMalformed "Missing search keyword" command
    else CmdSearch keyword
  else if bool_decide (action = "display") then CmdDisplay
  else if bool_decide (action = "help") then CmdHelp
  else if bool_decide (action = "version") then CmdVersion
  else if bool_decide (action = "debug") then CmdDebug
  else if bool_decide (action = "exit") then CmdExit
  else CmdInvalid.

(** [processCommand] on the text of a line. *)
Definition processLine (command : string) (w : World) : option World :=
  processCommand (parseCommand command) w.

(** The loop of [run] on lines of text: an empty line is not processed. *)
Fixpoint run_lines (lines : list string) (w : World) : option World :=
  if negb (running w) then Some w
  else
    let w := emit (ECout "> ") w in
    match lines with
    | [] => Some w
    | command :: lines' =>
        if bool_decide (command = "") then run_lines lines' w
        else match processLine command w with
             | None => None
             | Some w => run_lines lines' w
             end
    end.

(** ** The table of [searchBook] and [displayBooks] *)

Fixpoint spaces (n : nat) : string :=
  match n with
  | O => EmptyString
  | S n' => String " " (spaces n')
  end.

(** [std::setw(n) << s] with the default fill and adjustment: spaces on
    the left up to the width [n], nothing for a longer [s]. *)
Definition setw (n : nat) (s : string) : string :=
  spaces (n - String.length s) +:+ s.

(** [s.length() > width ? s.substr(0, width - 3) + "..." : s], which the
    table has with the widths 30 and 20. *)
Definition shorten (width : nat) (s : string) : string :=
  if (width <? String.length s)%nat
  then String.substring 0 (width - 3) s +:+ "..."
  else s.

(** The line of one book. *)
Definition table_row (b : Book) : string :=
  setw 5 (to_string (id b)) +:+ " | " +:+
  setw 30 (shorten 30 (title b)) +:+ " | " +:+
  setw 20 (shorten 20 (author b)).

(** The line of the column names. *)
Definition table_header : string :=
  setw 5 "ID" +:+ " | " +:+ setw 30 "Title" +:+ " | " +:+ setw 20 "Author".

(** ** Termination signals

    [main] installs [signalHandler] before it builds the archive, and the
    handler runs wherever the signal finds the process.  To say where that
    is, the methods on the path of [main] are given once more, as
    computations that a signal can cut short.  Such a computation takes the
    number of events that are still to happen before the signal is
    delivered ([None]: no signal is), and the state; it stops in front of
    the event the signal comes before, with the fields as they are at that
    point. *)

Inductive Outcome (A : Type) :=
| Returned (a : A) (due : option nat) (w : World)
| Signalled (w : World)
| Stuck.

Arguments Returned {A} a due w.
Arguments Signalled {A} w.
Arguments Stuck {A}.

Definition Proc (A : Type) : Type := option nat → World → Outcome A.

Definition ret {A} (a : A) : Proc A := λ n w, Returned a n w.

Definition bind {A B} (m : Proc A) (k : A → Proc B) : Proc B := λ n w,
  match m n w with
  | Returned a n w => k a n w
  | Signalled w => Signalled w
  | Stuck => Stuck
  end.

Declare Scope proc_scope.
Delimit Scope proc_scope with proc.
Bind Scope proc_scope with Proc.
Notation "x ← y ; z" := (bind y (λ x, z)) : proc_scope.
Notation "y ;; z" := (bind y (λ _, z)) : proc_scope.

(** A read and a write of the fields: no event, so no signal in front. *)
Definition read {A} (f : World → A) : Proc A := λ n w, Returned (f w) n w.
Definition write (f : World → World) : Proc unit := λ n w, Returned tt n (f w).

(** An event of the library that moves a cursor of the model
    ([prepare_calls], [steps]) forward. *)
Definition event_advancing (advance : World → World) (e : Event) : Proc unit := λ n w,
  match n with
  | Some O => Signalled w
  | Some (S n) => Returned tt (Some n) (emit e (advance w))
  | None => Returned tt None (emit e (advance w))
  end.

Definition event (e : Event) : Proc unit := λ n w,
  match n with
  | Some O => Signalled w
  | Some (S n) => Returned tt (Some n) (emit e w)
  | None => Returned tt None (emit e w)
  end.

(** [std::getline] with no line to read: it blocks until the signal. *)
Definition wait : Proc unit := λ n w,
  match n with
  | Some _ => Signalled w
  | None => Stuck
  end.

(** The step script ran out. *)
Definition out_of_steps {A} : Proc A := λ _ _, Stuck.

Definition log_i (level : LogLevel) (message : string) : Proc unit :=
  (current ← read current_log_level;
   if level_rank level <? level_rank current then ret tt
   else if negb DEBUG_MODE && negb (is_ERROR level) then ret tt
   else
     is_open ← read log_file_is_open;
     if negb is_open then ret tt
     else
       event (ELock log_mutex Exclusive) ;;
       event (ELog level message) ;;
       event (EUnlock log_mutex Exclusive))%proc.

Fixpoint finalize_entries (l : list (string * option sqlite3_stmt)) : Proc unit :=
  match l with
  | [] => ret tt
  | p :: l' =>
      (match p.2 with
       | Some h => event (EFinalize h)
       | None => ret tt
       end ;;
       finalize_entries l')%proc
  end.

Definition cleanupStatements_i : Proc unit :=
  (event (ELock stmt_cache_mutex Exclusive) ;;
   c ← read stmt_cache;
   finalize_entries (cache_iteration c) ;;
   write (set_stmt_cache ∅) ;;
   event (EUnlock stmt_cache_mutex Exclusive))%proc.

Definition lookup_shared_i (sql : string) : Proc (option (option sqlite3_stmt)) :=
  (event (ELock stmt_cache_mutex Shared) ;;
   it ← read (λ w, stmt_cache w !! sql);
   event (EUnlock stmt_cache_mutex Shared) ;;
   ret it)%proc.

Definition compile_exclusive_i (sql : string) : Proc (option sqlite3_stmt) :=
  (event (ELock stmt_cache_mutex Exclusive) ;;
   it ← read (λ w, stmt_cache w !! sql);
   match it with
   | Some p => event (EUnlock stmt_cache_mutex Exclusive) ;; ret p
   | None =>
       calls ← read prepare_calls;
       let '(rc, stmt) := sqlite3_prepare_v2 sq calls sql in
       event_advancing (set_prepare_calls (S calls)) (EPrepare sql rc) ;;
       if negb (rc =? SQLITE_OK) then
         log_i ERROR ("Failed to prepare statement: " +:+ sqlite3_errmsg sq
                      +:+ " for SQL: " +:+ sql) ;;
         event (EUnlock stmt_cache_mutex Exclusive) ;;
         ret None
       else
         write (λ w, set_stmt_cache (<[sql := stmt]> (stmt_cache w)) w) ;;
         event (EUnlock stmt_cache_mutex Exclusive) ;;
         ret stmt
   end)%proc.

Definition getPreparedStatement_i (sql : string) : Proc (option sqlite3_stmt) :=
  (it ← lookup_shared_i sql;
   match it with
   | Some p => ret p
   | None => compile_exclusive_i sql
   end)%proc.

Fixpoint bind_params_i (h : sqlite3_stmt) (i : Z) (params : list string) : Proc bool :=
  match params with
  | [] => ret true
  | p :: params' =>
      let rc := sqlite3_bind_text sq h (i + 1) p in
      (event (EBindText h (i + 1) p SQLITE_TRANSIENT rc) ;;
       if negb (rc =? SQLITE_OK) then
         log_i ERROR ("Failed to bind parameter " +:+ to_string (i + 1)
                      +:+ ": " +:+ sqlite3_errmsg sq) ;;
         ret false
       else bind_params_i h (i + 1) params')%proc
  end.

Fixpoint write_loop_i (h : sqlite3_stmt) (script : list (Z * sqlite3_row))
    (retries : Z) : Proc Z :=
  match script with
  | [] => out_of_steps
  | (rc, _) :: script' =>
      (event_advancing (set_steps script') (EStep h rc) ;;
       if (rc =? SQLITE_BUSY) && (retries <? SQLITE_MAX_RETRIES) then
         log_i DEBUG (busy_message retries) ;;
         event (ESleep (backoff_ms retries)) ;;
         write_loop_i h script' (retries + 1)
       else ret rc)%proc
  end.

Definition executeSQLWithParams_i (sql : string) (params : list string) : Proc bool :=
  (log_i DEBUG ("Executing SQL: " +:+ sql +:+ " with "
                +:+ to_string (Z.of_nat (length params)) +:+ " parameters") ;;
   p ← getPreparedStatement_i sql;
   match p with
   | None => ret false
   | Some stmt =>
       event (EReset stmt) ;;
       event (EClearBindings stmt) ;;
       ok ← bind_params_i stmt 0 params;
       match ok with
       | false => ret false
       | true =>
           event (ELock db_mutex Exclusive) ;;
           script ← read steps;
           rc ← write_loop_i stmt script 0;
           event (EUnlock db_mutex Exclusive) ;;
           if negb (rc =? SQLITE_DONE) then
             log_i ERROR ("Failed to execute SQL: " +:+ sqlite3_errmsg sq) ;;
             ret false
           else ret true
       end
   end)%proc.

Fixpoint query_loop_i (h : sqlite3_stmt) (script : list (Z * sqlite3_row))
    (retries : Z) (results : list Book) : Proc (list Book) :=
  match script with
  | [] => out_of_steps
  | (rc, row) :: script' =>
      (event (ELock db_mutex Shared) ;;
       event_advancing (set_steps script') (EStep h rc) ;;
       event (EUnlock db_mutex Shared) ;;
       if rc =? SQLITE_ROW then
         query_loop_i h script' retries (results ++ [marshal row])
       else if (rc =? SQLITE_BUSY) && (retries <? SQLITE_MAX_RETRIES) then
         log_i DEBUG (busy_message retries) ;;
         event (ESleep (backoff_ms retries)) ;;
         query_loop_i h script' (retries + 1) results
       else if rc =? SQLITE_DONE then ret results
       else
         log_i ERROR ("Failed to execute query: " +:+ sqlite3_errmsg sq) ;;
         ret results)%proc
  end.

Definition log_result_count_i (results : list Book) : Proc unit :=
  match results with
  | _ :: _ => log_i DEBUG ("Query returned " +:+ to_string (Z.of_nat (length results))
                           +:+ " results")
  | [] => log_i DEBUG "Query returned no results"
  end.

Definition executeQuery_i (sql : string) (params : list string) : Proc (list Book) :=
  (log_i DEBUG ("Executing query: " +:+ sql) ;;
   p ← getPreparedStatement_i sql;
   match p with
   | None => ret []
   | Some stmt =>
       event (EReset stmt) ;;
       event (EClearBindings stmt) ;;
       ok ← bind_params_i stmt 0 params;
       match ok with
       | false => ret []
       | true =>
           script ← read steps;
           results ← query_loop_i stmt script 0 [];
           log_result_count_i results ;;
           ret results
       end
   end)%proc.

Definition addBook_i (id : Z) (title author : string) : Proc bool :=
  (log_i INFO ("Adding book: ID=" +:+ to_string id +:+ ", Title='" +:+ title
               +:+ "', Author='" +:+ author +:+ "'") ;;
   let sql := "INSERT INTO books (id, title, author) VALUES (?, ?, ?);" in
   let params := [to_string id; title; author] in
   ok ← executeSQLWithParams_i sql params;
   match ok with
   | false =>
       log_i ERROR "Failed to add book" ;;
       event (ECout "Error: Failed to add the book. Check logs for details.") ;;
       ret false
   | true => event (ECout "Book added successfully!") ;; ret true
   end)%proc.

Definition deleteBook_i (id : Z) : Proc bool :=
  (log_i INFO ("Deleting book with ID: " +:+ to_string id) ;;
   let sql := "DELETE FROM books WHERE id = ?;" in
   let params := [to_string id] in
   ok ← executeSQLWithParams_i sql params;
   match ok with
   | false =>
       log_i ERROR "Failed to delete book" ;;
       event (ECout "Error: Failed to delete the book. Check logs for details.") ;;
       ret false
   | true => event (ECout "Book deleted successfully!") ;; ret true
   end)%proc.

Definition updateBook_i (id : Z) (newTitle newAuthor : string) : Proc bool :=
  (log_i INFO ("Updating book: ID=" +:+ to_string id +:+ ", New Title='"
               +:+ newTitle +:+ "', New Author='" +:+ newAuthor +:+ "'") ;;
   let sql := "UPDATE books SET title = ?, author = ? WHERE id = ?;" in
   let params := [newTitle; newAuthor; to_string id] in
   ok ← executeSQLWithParams_i sql params;
   match ok with
   | false =>
       log_i ERROR "Failed to update book" ;;
       event (ECout "Error: Failed to update the book. Check logs for details.") ;;
       ret false
   | true => event (ECout "Book updated successfully!") ;; ret true
   end)%proc.

Definition searchBook_i (keyword : string) : Proc (list Book) :=
  (log_i INFO ("Searching for books with keyword: '" +:+ keyword +:+ "'") ;;
   let sql := "SELECT * FROM books WHERE title LIKE ? OR author LIKE ? ORDER BY id;" in
   let searchPattern := "%" +:+ keyword +:+ "%" in
   let params := [searchPattern; searchPattern] in
   results ← executeQuery_i sql params;
   match results with
   | [] => event (ECout ("No books found matching '" +:+ keyword +:+ "'.")) ;; ret []
   | _ =>
       event (ECoutBooks ("Search Results for '" +:+ keyword +:+ "':") results) ;;
       ret results
   end)%proc.

Definition displayBooks_i : Proc unit :=
  (log_i INFO "Displaying all books" ;;
   let sql := "SELECT * FROM books ORDER BY id;" in
   results ← executeQuery_i sql [];
   match results with
   | [] => event (ECout "No books found in the database.")
   | _ => event (ECoutBooks "Book Archive - All Books:" results)
   end)%proc.

Definition setLogLevel_i (level : LogLevel) : Proc unit :=
  (write (set_current_log_level level) ;;
   log_i INFO ("Log level set to: " +:+ logLevelToString level))%proc.

Definition set_pragma_i (pragma : string) : Proc unit :=
  let '(rc, errmsg) := sqlite3_exec sq pragma in
  (event (EExec pragma rc) ;;
   if negb (rc =? SQLITE_OK) then log_i ERROR ("Failed to set pragma: " +:+ errmsg)
   else ret tt)%proc.

Fixpoint set_pragmas_i (l : list string) : Proc unit :=
  match l with
  | [] => ret tt
  | pragma :: l' => (set_pragma_i pragma ;; set_pragmas_i l')%proc
  end.

Definition initializeDatabase_i (db_filename : string) : Proc bool :=
  (event (ELock db_mutex Exclusive) ;;
   let rc := sqlite3_open sq db_filename in
   event (EOpen db_filename rc) ;;
   write (set_db true) ;;
   if negb (rc =? SQLITE_OK) then
     log_i ERROR ("Cannot open database: " +:+ sqlite3_errmsg sq) ;;
     event EClose ;;
     event (EUnlock db_mutex Exclusive) ;;
     ret false
   else
     set_pragmas_i pragmas ;;
     let '(rc, errmsg) := sqlite3_exec sq createTableSQL in
     event (EExec createTableSQL rc) ;;
     if negb (rc =? SQLITE_OK) then
       log_i ERROR ("Failed to create table: " +:+ errmsg) ;;
       event (EUnlock db_mutex Exclusive) ;;
       ret false
     else
       let '(rc, errmsg) := sqlite3_exec sq createIndexSQL in
       event (EExec createIndexSQL rc) ;;
       (if negb (rc =? SQLITE_OK)
        then log_i ERROR ("Failed to create index: " +:+ errmsg)
        else ret tt) ;;
       event (EUnlock db_mutex Exclusive) ;;
       ret true)%proc.

Definition BookArchive_ctor_i (db_file : string) (log_level : LogLevel)
  : Proc (option string) :=
  ((if log_file_opens sq
    then event ELogOpen ;; write (set_log_file_is_open true)
    else event (ECerr "Warning: Could not open log file. Logging disabled.")) ;;
   ok ← initializeDatabase_i db_file;
   match ok with
   | false =>
       is_open ← read log_file_is_open;
       (if is_open then event ELogClose ;; write (set_log_file_is_open false)
        else ret tt) ;;
       ret (Some ("Failed to initialize database: " +:+ db_file))
   | true =>
       log_i INFO "********************************************************" ;;
       log_i INFO ("Book Archive initialized with database: " +:+ db_file
                   +:+ " and logging level: " +:+ logLevelToString log_level) ;;
       ret None
   end)%proc.

Definition BookArchive_dtor_i : Proc unit :=
  (log_i INFO "Shutting down Book Archive" ;;
   cleanupStatements_i ;;
   connected ← read db;
   (if connected then event EClose ;; write (set_db false) else ret tt) ;;
   is_open ← read log_file_is_open;
   if is_open then event ELogClose ;; write (set_log_file_is_open false)
   else ret tt)%proc.

Definition processCommand_i (c : Command) : Proc unit :=
  match c with
  | CmdAdd id title author => (addBook_i id title author ;; ret tt)%proc
  | CmdDelete id => (deleteBook_i id ;; ret tt)%proc
  | CmdUpdate id newTitle newAuthor => (updateBook_i id newTitle newAuthor ;; ret tt)%proc
  | CmdSearch keyword => (searchBook_i keyword ;; ret tt)%proc
  | CmdDisplay => displayBooks_i
  | CmdHelp => event (ECout "Book Archive 1.0.0 - Command List")
  | CmdVersion => event (ECout "Book Archive Version: 1.0.0")
  | CmdDebug =>
      if DEBUG_MODE then
        (current ← read current_log_level;
         match current with
         | DEBUG =>
             setLogLevel_i INFO ;;
             event (ECout "Logging level switched to INFO. Showing all logs.")
         | _ =>
             setLogLevel_i DEBUG ;;
             event (ECout "Logging level switched to DEBUG. Recording all DEBUG and ERROER logs only.")
         end)%proc
      else
        event (ECout "Logging level switching is not available in release build. Log level set to ERROR")
  | CmdExit =>
      (write (set_running false) ;;
       event (ECout "Exiting Book Archive. Goodbye!"))%proc
  | CmdInvalid =>
      event (ECout "Invalid command. Type 'help' for a list of commands.")
  | CmdMalformed what command =>
      (event (ECout ("Error: " +:+ what)) ;;
       log_i ERROR ("Command error: " +:+ what +:+ " (Command: " +:+ command +:+ ")"))%proc
  end.

(** [while (running)]: when the input is used up the loop waits in
    [std::getline], and only a signal ends the wait. *)
Fixpoint run_loop_i (input : list Command) : Proc unit :=
  (on ← read running;
   if negb on then ret tt
   else
     event (ECout "> ") ;;
     match input with
     | [] => wait
     | c :: input' => processCommand_i c ;; run_loop_i input'
     end)%proc.

Definition run_i (input : list Command) : Proc unit :=
  (event (ECout "Book Archive 1.0.0 - Library Management Tool") ;;
   event (ECout "Type 'help' for available commands, 'exit' to quit.") ;;
   run_loop_i input)%proc.

(** Whether the thread holds [m] after the history [d]. *)
Definition owns (m : Mutex) (d : list Event) : bool :=
  foldl (λ held e,
           match e with
           | ELock m' _ => if decide (m' = m) then true else held
           | EUnlock m' _ => if decide (m' = m) then false else held
           | _ => held
           end) false d.

(** The handler destroys the archive on the thread it has interrupted.  The
    destructor writes a line to the log, which takes [log_mutex] when the
    line passes the filters, and it takes [stmt_cache_mutex].  When the
    interrupted thread holds the mutex already, the destructor waits for
    its own thread (the behaviour is undefined) and the process does not
    exit. *)
Definition relocks (w : World) : bool :=
  owns stmt_cache_mutex (trace w) ||
  owns log_mutex (trace w) &&
    match log_events INFO "Shutting down Book Archive" w with
    | [] => false
    | _ => true
    end.

(** The signals [signalHandler] is installed for. *)
Definition handled (s : Z) : bool := (s =? SIGINT) || (s =? SIGTERM).

(** The process is in state [w] when [signal] is delivered; [g_archive]
    tells whether the global pointer is set.  A signal that is not handled
    ends the process where it is. *)
Definition deliver (signal : option (Z * nat)) (g_archive : bool) (w : World)
  : option (Exit * World) :=
  match signal with
  | None => None
  | Some (s, _) =>
      if handled s then
        if g_archive && relocks w then None
        else Some (ExitCode 0, signalHandler g_archive w)
      else Some (Killed s, w)
  end.

(** [main] from the point where the handlers are installed.  [signal] is
    the signal that is delivered and the number of events of the process
    that happen before it.  While the constructor runs and in the [catch]
    block [g_archive] is null; from the return of the constructor to the
    end of [delete g_archive] it points to the archive.  [None]: the
    process does not exit (it waits for input and no signal comes, or it
    waits for a mutex it holds), or the step script ran out. *)
Definition main (db_file : string) (log_level : LogLevel)
    (script : list (Z * sqlite3_row)) (input : list Command)
    (signal : option (Z * nat)) : option (Exit * World) :=
  match BookArchive_ctor_i db_file log_level (snd <$> signal)
          (unconstructed log_level script) with
  | Stuck => None
  | Signalled w => deliver signal false w
  | Returned (Some what) due w =>
      match event (ECerr ("Fatal error: " +:+ what)) due w with
      | Returned _ _ w => Some (ExitCode 1, w)
      | Signalled w => deliver signal false w
      | Stuck => None
      end
  | Returned None due w =>
      match (run_i input ;; BookArchive_dtor_i)%proc due w with
      | Returned _ _ w => Some (ExitCode 0, w)
      | Signalled w => deliver signal true w
      | Stuck => None
      end
  end.

(** ** The options of [main] *)

(** The level [main] starts from. *)
Definition default_log_level : LogLevel := if DEBUG_MODE then DEBUG else ERROR.

(** [parseLogLevel], with what it writes to [std::cerr]. *)
Definition parseLogLevel (level : string) : LogLevel * list Event :=
  if bool_decide (level = "DEBUG") then (DEBUG, [])
  else if bool_decide (level = "INFO") then (INFO, [])
  else if bool_decide (level = "ERROR") then (ERROR, [])
  else (default_log_level,
        [ECerr ("Warning: Unknown log level '" +:+ level +:+ "'. Using default.")]).

(** Of the text of [printUsage] the first line is kept. *)
Definition printUsage (programName : string) : Event :=
  ECout ("Usage: " +:+ programName +:+ " [options]").

(** How the option loop ends: with the settings for the archive, or with
    a [return] from [main]. *)
Inductive Options :=
| Proceed (db_file : string) (log_level : LogLevel)
| Return (status : Z).

(** The loop over [argv[1..]]; [db_file] and [log_level] are the values of
    the two variables when the loop reaches [args].  Of the text printed
    for [--version] the first line is kept. *)
Fixpoint parse_options (programName : string) (args : list string)
    (db_file : string) (log_level : LogLevel) : Options * list Event :=
  match args with
  | [] => (Proceed db_file log_level, [])
  | arg :: args' =>
      if bool_decide (arg = "--db") || bool_decide (arg = "-d") then
        match args' with
        | value :: args'' => parse_options programName args'' value log_level
        | [] => (Return 1, [ECerr ("Error: Missing database filename after " +:+ arg)])
        end
      else if bool_decide (arg = "--log-level") || bool_decide (arg = "-l") then
        match args' with
        | value :: args'' =>
            let '(level, warning) := parseLogLevel value in
            let '(result, out) := parse_options programName args'' db_file level in
            (result, warning ++ out)
        | [] => (Return 1, [ECerr ("Error: Missing log level after " +:+ arg)])
        end
      else if bool_decide (arg = "--help") || bool_decide (arg = "-h") then
        (Return 0, [printUsage programName])
      else if bool_decide (arg = "--version") || bool_decide (arg = "-v") then
        (Return 0, [ECout "Book Archive Version: 1.0.0"])
      else
        (Return 1, [ECerr ("Unknown option: " +:+ arg); printUsage programName])
  end.

(** What follows the option loop. *)
Definition after_options (options : Options) (out : list Event)
    (script : list (Z * sqlite3_row)) (input : list Command)
    (signal : option (Z * nat)) : option (Exit * list Event) :=
  match options with
  | Return status => Some (ExitCode status, out)
  | Proceed db_file log_level =>
      match main db_file log_level script input signal with
      | None => None
      | Some (e, w) => Some (e, out ++ trace w)
      end
  end.

(** [main] from its first line: the exit and everything the process did.
    A signal that comes while the options are read finds no handler
    installed and ends the process. *)
Definition program (argv : list string) (script : list (Z * sqlite3_row))
    (input : list Command) (signal : option (Z * nat)) : option (Exit * list Event) :=
  let '(options, out) := parse_options (default "" (head argv)) (tail argv)
                           "book_archive.db" default_log_level in
  match signal with
  | Some (s, n) =>
      if (n <? length out)%nat then Some (Killed s, take n out)
      else after_options options out script input (Some (s, (n - length out)%nat))
  | None => after_options options out script input None
  end.

(** ** Vocabulary of the properties of whole runs *)

(** Every SQL text that occurs in the program. *)
Definition program_sql : list string :=
  pragmas ++
  [ createTableSQL; createIndexSQL;
    "INSERT INTO books (id, title, author) VALUES (?, ?, ?);";
    "DELETE FROM books WHERE id = ?;";
    "UPDATE books SET title = ?, author = ? WHERE id = ?;";
    "SELECT * FROM books WHERE title LIKE ? OR author LIKE ? ORDER BY id;";
    "SELECT * FROM books ORDER BY id;" ].





Definition log_level_of (e : Event) : option LogLevel :=
  match e with ELog level _ => Some level | _ => None end.

(** The levels of the lines written to the log file in a history. *)
Definition log_levels (d : list Event) : list LogLevel := omap log_level_of d.

(** Output to [std::cout] or [std::cerr]. *)
Definition console (e : Event) : bool :=
  match e with ECout _ | ECerr _ => true | _ => false end.

(** An event that is no lock operation and no log line, and whose SQL text,
    if it has one, is a text of the program. *)
Definition plain (e : Event) : bool :=
  match e with
  | ELock _ _ | EUnlock _ _ | ELog _ _ => false
  | EPrepare sql _ | EExec sql _ => bool_decide (sql ∈ program_sql)
  | _ => true
  end.

(** The histories the methods are built from; [call_trace true] inside a
    section of [db_mutex] or [stmt_cache_mutex], [call_trace false]
    outside. *)
Inductive call_trace : bool → list Event → Prop :=
| call_nil inside : call_trace inside []
| call_app inside d1 d2 :
    call_trace inside d1 → call_trace inside d2 → call_trace inside (d1 ++ d2)
| call_plain inside e : plain e = true → call_trace inside [e]
| call_log inside level message w : call_trace inside (log_events level message w)
| call_section m mode d :
    m ≠ log_mutex → call_trace true d →
    call_trace false (ELock m mode :: d ++ [EUnlock m mode]).

(** [w'] is reached from [w] by such a history. *)
Definition reaches (inside : bool) (w w' : World) : Prop :=
  ∃ d, trace w' = trace w ++ d ∧ call_trace inside d.

(** No SQL text was compiled successfully more than once, and none that is
    missing from the cache was compiled successfully at all. *)
Definition compiled_once (w : World) : Prop :=
  ∀ sql, (compilations sql (trace w) ≤ 1)%nat ∧
         (stmt_cache w !! sql = None → compilations sql (trace w) = 0%nat).

(** [w'] is reached from [w] without a compilation and with the cache as
    it was. *)
Definition untouched (w w' : World) : Prop :=
  stmt_cache w' = stmt_cache w ∧
  ∃ d, trace w' = trace w ++ d ∧ ∀ sql, prepare_results sql d = [].

(** From [w] to [w'] the compilations stay single and the cache loses
    nothing. *)
Definition carries (w w' : World) : Prop :=
  compiled_once w → compiled_once w' ∧ stmt_cache w ⊆ stmt_cache w'.

(** The entries that the successful compilations of a history add to the
    cache; [n] is the number of compilations before the history. *)
Fixpoint prepared (n : nat) (d : list Event) : list (string * option sqlite3_stmt) :=
  match d with
  | [] => []
  | EPrepare sql rc :: d' =>
      (if rc =? SQLITE_OK then [(sql, (sqlite3_prepare_v2 sq n sql).2)] else [])
      ++ prepared (S n) d'
  | _ :: d' => prepared n d'
  end.

Definition prepare_count (d : list Event) : nat :=
  length (omap (λ e, match e with EPrepare _ _ => Some e | _ => None end) d).

(** The cache holds what the successful compilations of the history have
    given, and [prepare_calls] counts the compilations of the history. *)
Definition tied (w : World) : Prop :=
  prepare_calls w = prepare_count (trace w) ∧
  map_to_list (stmt_cache w) ≡ₚ prepared 0 (trace w).

(** An event that a release build never logs below ERROR and whose SQL
    text, if it has one, is a text of the program. *)
Definition tame (e : Event) : Prop :=
  match e with
  | ELog level _ => DEBUG_MODE = true ∨ level = ERROR
  | EPrepare sql _ | EExec sql _ => sql ∈ program_sql
  | _ => True
  end.

(** What the command loop keeps from [w] to [w'], at the end of a method
    and wherever a signal cuts it short: the connection and the log file
    stay as they are and nothing is released, and the cache stays in step
    with the compilations. *)
Definition steady (w w' : World) : Prop :=
  (∃ d, trace w' = trace w ++ d ∧ Forall tame d ∧ resource_events d = []) ∧
  db w' = db w ∧ log_file_is_open w' = log_file_is_open w ∧
  (compiled_once w → tied w → compiled_once w' ∧ tied w').

(** An interruptible method against the method: what it returns, the
    method returns, and it stops in steady states only. *)
Definition agrees {A} (w : World) (o : Outcome A) (r : option (A * World)) : Prop :=
  match o with
  | Returned a _ w' => r = Some (a, w') ∧ steady w w'
  | Signalled w' => steady w w'
  | Stuck => True
  end.

(** An interruptible method without a loop over the step script, against
    the method: it returns what the method returns when the signal comes
    after the events of the method, and it stops after the events before
    the signal when it comes sooner. *)
Definition cut_of {A} (m : Proc A) (n : option nat) (w : World) (r : A * World) : Prop :=
  ∃ d, trace r.2 = trace w ++ d ∧
       match n with
       | None => m n w = Returned r.1 None r.2
       | Some k =>
           if (length d <=? k)%nat
           then m n w = Returned r.1 (Some (k - length d)%nat) r.2
           else ∃ w', m n w = Signalled w' ∧ trace w' = trace w ++ take k d
       end.

(** The signal, if any, comes after the first [k] events. *)
Definition arrives_after (k : nat) (signal : option (Z * nat)) : Prop :=
  match signal with
  | Some (_, n) => (k ≤ n)%nat
  | None => True
  end.

(** What a teardown that starts in [w] releases, in order. *)
Definition teardown_releases (w : World) : list Event :=
  finalize_events (stmt_cache w) ++
  (if db w then [EClose] else []) ++
  (if log_file_is_open w then [ELogClose] else []).

(** Nothing is left to release. *)
Definition torn_down (w : World) : Prop :=
  stmt_cache w = ∅ ∧ db w = false ∧ log_file_is_open w = false.

(** How a run of the archive ends from the state [w2] in which the last
    teardown starts: its events compile nothing, and either they release
    what is left to release in [w2], in order, and the process exits with
    status 0, or a signal that is not handled ends the process. *)
Definition ends_run (signal : option (Z * nat)) (w2 : World) (e : Exit) (w' : World) : Prop :=
  ∃ T, trace w' = trace w2 ++ T ∧ Forall tame T ∧ prepare_count T = 0%nat ∧
    (e = ExitCode 0 ∧ resource_events T = teardown_releases w2 ∧ torn_down w' ∨
     ∃ s k, signal = Some (s, k) ∧ handled s = false ∧ e = Killed s).

(** The sum of the delays of a history, in milliseconds. *)
Definition total_sleep (d : list Event) : Z := foldr Z.add 0 (sleeps d).

(** The characters of a string. *)
Fixpoint chars (s : string) : list Ascii.ascii :=
  match s with
  | String c s' => c :: chars s'
  | EmptyString => []
  end.

Definition starts_blank (s : string) : bool :=
  match s with String c _ => blank c | EmptyString => false end.

Fixpoint ends_blank (s : string) : bool :=
  match s with
  | String c EmptyString => blank c
  | String _ s' => ends_blank s'
  | EmptyString => false
  end.

(** A string that neither starts nor ends with a blank. *)
Definition trimmed (s : string) : Prop := starts_blank s = false ∧ ends_blank s = false.

Definition starts_with_space (s : string) : bool :=
  match s with String c _ => isspace c | EmptyString => false end.

Definition starts_with_digit (s : string) : bool :=
  match s with String c _ => isdigit c | EmptyString => false end.

(** A title or an author as a command line can carry it: not empty, no
    blank at either end and no newline. *)
Definition field (s : string) : Prop :=
  s ≠ "" ∧ trimmed s ∧ "010"%char ∉ chars s.

(** The commands that call an operation or change the state, with
    arguments a command line can carry. *)
Definition well_formed (c : Command) : Prop :=
  match c with
  | CmdAdd id title author | CmdUpdate id title author =>
      INT_MIN ≤ id ≤ INT_MAX ∧ field title ∧ field author ∧ ","%char ∉ chars title
  | CmdDelete id => INT_MIN ≤ id ≤ INT_MAX
  | CmdSearch keyword =>
      keyword ≠ "" ∧ starts_with_space keyword = false ∧ "010"%char ∉ chars keyword
  | CmdInvalid | CmdMalformed _ _ => False
  | _ => True
  end.

(** The line for a command, in the format shown by [help]. *)
Definition command_line (c : Command) : string :=
  match c with
  | CmdAdd id title author =>
      "add " +:+ to_string id +:+ " " +:+ title +:+ ", " +:+ author
  | CmdDelete id => "delete " +:+ to_string id
  | CmdUpdate id newTitle newAuthor =>
      "update " +:+ to_string id +:+ " " +:+ newTitle +:+ ", " +:+ newAuthor
  | CmdSearch keyword => "search " +:+ keyword
  | CmdDisplay => "display"
  | CmdHelp => "help"
  | CmdVersion => "version"
  | CmdDebug => "debug"
  | CmdExit => "exit"
  | CmdInvalid => "?"
  | CmdMalformed _ command => command
  end.

(** The level the [debug] command switches to. *)
Definition debug_toggle (level : LogLevel) : LogLevel :=
  match level with DEBUG => INFO | _ => DEBUG end.

(** The state of the constructor before it calls [initializeDatabase]. *)
Definition log_opened (w : World) : World :=
  if log_file_opens sq
  then set_log_file_is_open true (emit ELogOpen w)
  else emit (ECerr "Warning: Could not open log file. Logging disabled.") w.

(** A library on which the database file cannot be opened
    ([SQLITE_CANTOPEN]). *)
Definition sqlite_no_open : Sqlite :=
  mkSqlite (λ _, 14) (λ _, (SQLITE_OK, ""))
           (λ n _, (SQLITE_OK, Some (S n))) (λ _ _ _, SQLITE_OK)
           "unable to open database file" true (λ _, 0%nat).

(** ** Basic facts *)

Lemma emit_extend e w : emit e w = extend [e] w.
Proof. reflexivity. Qed.

Lemma extend_extend d1 d2 w : extend d2 (extend d1 w) = extend (d1 ++ d2) w.
Proof. unfold extend; simpl. by rewrite app_assoc. Qed.

Lemma extend_nil w : extend [] w = w.
Proof. destruct w; unfold extend; simpl. by rewrite app_nil_r. Qed.

Lemma log_extend level message w :
  log level message w = extend (log_events level message w) w.
Proof.
  unfold log, log_events.
  repeat case_match; try (by rewrite extend_nil).
  by rewrite !emit_extend, !extend_extend.
Qed.

Lemma log_events_ERROR message w :
  log_file_is_open w = true →
  log_events ERROR message w =
    [ELock log_mutex Exclusive; ELog ERROR message; EUnlock log_mutex Exclusive].
Proof.
  intros Hopen. unfold log_events. rewrite Hopen.
  destruct (current_log_level w), DEBUG_MODE; reflexivity.
Qed.

Lemma exec_log_events level message w : exec (log_events level message w) = [].
Proof. unfold log_events. repeat case_match; reflexivity. Qed.

Lemma exec_app d1 d2 : exec (d1 ++ d2) = exec d1 ++ exec d2.
Proof. apply omap_app. Qed.

Lemma engine_exec d : engine (exec d) = engine d.
Proof.
  induction d as [|e d IH]; [done|].
  destruct e as [| | | | | |[]|[]| | | | | | | | | |]; simpl; by rewrite ?IH.
Qed.

Lemma sleeps_exec d : sleeps (exec d) = sleeps d.
Proof.
  induction d as [|e d IH]; [done|].
  destruct e as [| | | | | |[]|[]| | | | | | | | | |]; simpl; by rewrite ?IH.
Qed.

Lemma step_results_exec d : step_results (exec d) = step_results d.
Proof.
  induction d as [|e d IH]; [done|].
  destruct e as [| | | | | |[]|[]| | | | | | | | | |]; simpl; by rewrite ?IH.
Qed.

Lemma engine_app d1 d2 : engine (d1 ++ d2) = engine d1 ++ engine d2.
Proof. apply omap_app. Qed.

Lemma sleeps_app d1 d2 : sleeps (d1 ++ d2) = sleeps d1 ++ sleeps d2.
Proof. apply omap_app. Qed.

Lemma step_results_app d1 d2 :
  step_results (d1 ++ d2) = step_results d1 ++ step_results d2.
Proof. apply omap_app. Qed.

Lemma log_events_extend level message d w :
  log_events level message (extend d w) = log_events level message w.
Proof. reflexivity. Qed.

(** ** The statement cache, sequentially *)

Lemma lookup_shared_eq sql w :
  lookup_shared sql w =
    (stmt_cache w !! sql,
     extend [ELock stmt_cache_mutex Shared; EUnlock stmt_cache_mutex Shared] w).
Proof. unfold lookup_shared. by rewrite !emit_extend, extend_extend. Qed.

(** [getPreparedStatement] touches the cache, the call counter and the
    history only, and performs no statement execution event. *)
Lemma getPreparedStatement_frame sql w p w' :
  getPreparedStatement sql w = (p, w') →
  ∃ d, trace w' = trace w ++ d ∧ exec d = [] ∧
       steps w' = steps w ∧ log_file_is_open w' = log_file_is_open w ∧
       current_log_level w' = current_log_level w ∧
       db w' = db w ∧ running w' = running w.
Proof.
  unfold getPreparedStatement. rewrite lookup_shared_eq.
  destruct (stmt_cache w !! sql) as [q|] eqn:Hc.
  - intros [= <- <-]. eexists; split; [reflexivity|]. by simpl.
  - unfold compile_exclusive. simpl. rewrite Hc.
    destruct (sqlite3_prepare_v2 sq (prepare_calls w) sql) as [rc stmt].
    destruct (rc =? SQLITE_OK); simpl.
    + intros [= <- <-]. simpl. rewrite <- !app_assoc.
      eexists; split; [reflexivity|]. by simpl.
    + rewrite log_extend. intros [= <- <-]. simpl. rewrite <- !app_assoc.
      eexists; split; [reflexivity|].
      simpl. rewrite exec_app, exec_log_events. by simpl.
Qed.

Lemma getPreparedStatement_compiles sql w h :
  compiles_to sql w h →
  ∃ w', getPreparedStatement sql w = (Some h, w').
Proof.
  unfold getPreparedStatement. rewrite lookup_shared_eq.
  intros [Hc | [Hc Hp]]; rewrite Hc; [by eexists|].
  unfold compile_exclusive. simpl. rewrite Hc, Hp. simpl. by eexists.
Qed.

(** ** The binding loop *)

Lemma binds_ok_cons h i p params :
  binds_ok h i (p :: params) →
  sqlite3_bind_text sq h (i + 1) p = SQLITE_OK ∧ binds_ok h (i + 1) params.
Proof.
  intros H. split.
  - specialize (H 0%nat p eq_refl). by replace (i + Z.of_nat 0 + 1) with (i + 1) in H by lia.
  - intros j q Hj. specialize (H (S j) q Hj).
    by replace (i + Z.of_nat (S j) + 1) with (i + 1 + Z.of_nat j + 1) in H by lia.
Qed.

Lemma bind_params_ok h params : ∀ i w,
  binds_ok h i params →
  bind_params h i params w = (true, extend (bind_events h i params) w).
Proof.
  induction params as [|p params IH]; intros i w Hok; simpl.
  - by rewrite extend_nil.
  - apply binds_ok_cons in Hok as [Hp Hok].
    rewrite Hp. simpl. rewrite (IH _ _ Hok).
    by rewrite emit_extend, extend_extend.
Qed.

Lemma bind_params_fail h params : ∀ (k : nat) p i w,
  params !! k = Some p →
  binds_ok h i (take k params) →
  sqlite3_bind_text sq h (i + Z.of_nat k + 1) p ≠ SQLITE_OK →
  bind_params h i params w =
    (false, extend (bind_events h i (take (S k) params) ++
                    log_events ERROR (bind_failure_message (i + Z.of_nat k + 1)) w) w).
Proof.
  induction params as [|q params IH]; intros k p i w Hk Hok Hbad; [done|].
  destruct k as [|k]; simpl in *.
  - injection Hk as ->. replace (i + Z.of_nat 0 + 1) with (i + 1) in * by lia.
    apply Z.eqb_neq in Hbad. rewrite Hbad. simpl.
    by rewrite log_extend, emit_extend, extend_extend.
  - apply binds_ok_cons in Hok as [Hq Hok]. rewrite Hq. simpl.
    replace (i + Z.of_nat (S k) + 1) with (i + 1 + Z.of_nat k + 1) in * by lia.
    rewrite (IH k p (i + 1) _ Hk Hok Hbad).
    by rewrite emit_extend, extend_extend.
Qed.

Lemma engine_log_events level message w : engine (log_events level message w) = [].
Proof. unfold log_events. repeat case_match; reflexivity. Qed.

Lemma sleeps_log_events level message w : sleeps (log_events level message w) = [].
Proof. unfold log_events. repeat case_match; reflexivity. Qed.

Lemma step_results_log_events level message w :
  step_results (log_events level message w) = [].
Proof. unfold log_events. repeat case_match; reflexivity. Qed.

(** ** The retry loop of a write *)

Lemma write_loop_busy h : ∀ bs r w rc row rest,
  Forall (λ o : Z * sqlite3_row, o.1 = SQLITE_BUSY) bs →
  r + Z.of_nat (length bs) ≤ 5 →
  rc ≠ SQLITE_BUSY ∨ r + Z.of_nat (length bs) = 5 →
  ∃ d, write_loop h (bs ++ (rc, row) :: rest) r w = Some (rc, set_steps rest (extend d w)) ∧
       exec d = busy_rounds h r (length bs) ++ [EStep h rc].
Proof.
  induction bs as [|[b brow] bs IH]; intros r w rc row rest Hbusy Hle Hlast; simpl.
  - assert (((rc =? SQLITE_BUSY) && (r <? SQLITE_MAX_RETRIES)) = false) as ->.
    { apply andb_false_iff. destruct Hlast as [H|H].
      - left. by apply Z.eqb_neq.
      - right. apply Z.ltb_ge. unfold SQLITE_MAX_RETRIES. simpl in H. lia. }
    exists [EStep h rc]. by rewrite emit_extend.
  - apply Forall_cons in Hbusy as [Hb Hbusy]. simpl in Hb. subst b.
    simpl length in *.
    assert ((r <? SQLITE_MAX_RETRIES) = true) as ->.
    { apply Z.ltb_lt. unfold SQLITE_MAX_RETRIES. lia. }
    simpl.
    edestruct (IH (r + 1)) as (d & -> & Hd); [done|lia| |].
    { destruct Hlast; [by left|right; lia]. }
    rewrite log_extend, !emit_extend, !extend_extend.
    eexists; split; [reflexivity|].
    rewrite !exec_app, exec_log_events, Hd. reflexivity.
Qed.

(** Whatever the script, a write steps and sleeps without touching
    [db_mutex] inside the loop. *)
Lemma write_loop_shape h : ∀ script r w rc w',
  write_loop h script r w = Some (rc, w') →
  ∃ d rest, w' = set_steps rest (extend d w) ∧
            Forall (λ e, is_db_lock e = false) (engine d) ∧
            exec d = engine d.
Proof.
  induction script as [|[c row] script IH]; intros r w rc w' H; simpl in H; [done|].
  destruct ((c =? SQLITE_BUSY) && (r <? SQLITE_MAX_RETRIES)).
  - apply IH in H as (d & rest & -> & Hd & He).
    rewrite log_extend, !emit_extend, !extend_extend.
    eexists _, rest; split; [reflexivity|].
    rewrite !engine_app, !exec_app, engine_log_events, exec_log_events, He. simpl.
    split; [by repeat constructor|done].
  - injection H as <- <-. rewrite emit_extend.
    exists [EStep h c], script. split; [reflexivity|]. split; [by repeat constructor|done].
Qed.

(** ** The loop of a scan *)

Lemma backoff_table_drop r :
  0 ≤ r < 5 →
  drop (Z.to_nat r) backoff_table = backoff_ms r :: drop (Z.to_nat (r + 1)) backoff_table.
Proof.
  intros Hr.
  assert (r = 0 ∨ r = 1 ∨ r = 2 ∨ r = 3 ∨ r = 4) as Hc by lia.
  destruct Hc as [->|[->|[->|[->| ->]]]]; reflexivity.
Qed.

Lemma extend_set_steps d s w : extend d (set_steps s w) = set_steps s (extend d w).
Proof. reflexivity. Qed.

Lemma set_steps_set_steps s s' w : set_steps s (set_steps s' w) = set_steps s w.
Proof. reflexivity. Qed.

(** Equality of two states that differ in how their histories are
    bracketed. *)
Ltac world_eq :=
  rewrite ?log_extend, ?emit_extend;
  repeat first [ rewrite extend_set_steps | rewrite set_steps_set_steps
               | rewrite extend_extend ];
  cbn [app]; rewrite <- ?app_assoc; reflexivity.

Lemma query_loop_spec h : ∀ script r res w res' w',
  0 ≤ r ≤ 5 →
  query_loop h script r res w = Some (res', w') →
  ∃ consumed rest d,
    script = consumed ++ rest ∧
    w' = set_steps rest (extend d w) ∧
    res' = res ++ (marshal <$> rows consumed) ∧
    read_locked (engine d) = true ∧
    sleeps d = take (busy_count consumed) (drop (Z.to_nat r) backoff_table) ∧
    (busy_count consumed ≤ 6 - Z.to_nat r)%nat ∧
    step_results d = consumed.*1 ∧
    exec d = engine d.
Proof.
  induction script as [|[c row] script IH]; intros r res w res' w' Hr H;
    simpl in H; [done|].
  destruct (c =? SQLITE_ROW) eqn:Hrow.
  { apply IH in H
      as (consumed & rest & d & -> & -> & -> & Hlock & Hsl & Hbc & Hst & Hex); [|done].
    apply Z.eqb_eq in Hrow as ->.
    exists ((SQLITE_ROW, row) :: consumed), rest,
      ([ELock db_mutex Shared; EStep h SQLITE_ROW; EUnlock db_mutex Shared] ++ d).
    split; [done|]. split; [world_eq|].
    split; [by rewrite <- app_assoc|].
    rewrite !engine_app, !exec_app, !sleeps_app, !step_results_app, Hex. simpl.
    split; [done|]. rewrite Hst. unfold busy_count in *.
    rewrite filter_cons_False by done. done. }
  destruct ((c =? SQLITE_BUSY) && (r <? SQLITE_MAX_RETRIES)) eqn:Hbusy.
  { apply andb_true_iff in Hbusy as [Hc Hlt].
    apply Z.eqb_eq in Hc as ->. apply Z.ltb_lt in Hlt. unfold SQLITE_MAX_RETRIES in Hlt.
    apply IH in H
      as (consumed & rest & d & -> & -> & -> & Hlock & Hsl & Hbc & Hst & Hex); [|lia].
    exists ((SQLITE_BUSY, row) :: consumed), rest,
      ([ELock db_mutex Shared; EStep h SQLITE_BUSY; EUnlock db_mutex Shared] ++
       log_events DEBUG (busy_message r) w ++ [ESleep (backoff_ms r)] ++ d).
    split; [done|]. split; [world_eq|]. split; [done|].
    rewrite !engine_app, !exec_app, !sleeps_app, !step_results_app,
      engine_log_events, exec_log_events, sleeps_log_events, step_results_log_events, Hex.
    simpl.
    split; [done|]. rewrite Hst, Hsl. unfold busy_count in *.
    rewrite filter_cons_True by done. simpl.
    rewrite (backoff_table_drop r) by lia. simpl.
    split; [done|]. split; [lia|done]. }
  exists [(c, row)], script.
  assert (rows [(c, row)] = []) as Hnorows.
  { unfold rows, row_of. simpl. by rewrite Hrow. }
  assert (sleeps [ELock db_mutex Shared; EStep h c; EUnlock db_mutex Shared] =
          take (busy_count [(c, row)]) (drop (Z.to_nat r) backoff_table) ∧
          (busy_count [(c, row)] ≤ 6 - Z.to_nat r)%nat) as [Hsl Hbc].
  { unfold busy_count. rewrite filter_cons. case_decide as Hc; simpl in *.
    - subst c. simpl in Hbusy. apply Z.ltb_ge in Hbusy. unfold SQLITE_MAX_RETRIES in Hbusy.
      assert (r = 5) as -> by lia. by simpl.
    - split; [done|lia]. }
  destruct (c =? SQLITE_DONE).
  - injection H as <- <-.
    exists [ELock db_mutex Shared; EStep h c; EUnlock db_mutex Shared].
    split; [done|]. split; [world_eq|].
    rewrite Hnorows. simpl. by rewrite app_nil_r.
  - injection H as <- <-.
    exists ([ELock db_mutex Shared; EStep h c; EUnlock db_mutex Shared] ++
            log_events ERROR ("Failed to execute query: " +:+ sqlite3_errmsg sq) w).
    split; [done|]. split; [world_eq|].
    rewrite Hnorows, !engine_app, !exec_app, !sleeps_app, !step_results_app,
      engine_log_events, exec_log_events, sleeps_log_events, step_results_log_events.
    simpl. by rewrite !app_nil_r.
Qed.

(** A scan ends as soon as a step answers neither a row nor contention. *)
Lemma query_loop_terminates h : ∀ script r res w,
  Exists ends_scan script →
  is_Some (query_loop h script r res w).
Proof.
  induction script as [|[c row] script IH]; intros r res w Hex.
  { by apply Exists_nil in Hex. }
  simpl. destruct (c =? SQLITE_ROW) eqn:Hrow.
  { apply Z.eqb_eq in Hrow. apply Exists_cons in Hex as [[? _]|Hex]; [done|]. by apply IH. }
  destruct ((c =? SQLITE_BUSY) && (r <? SQLITE_MAX_RETRIES)) eqn:Hbusy.
  { apply andb_true_iff in Hbusy as [Hc _]. apply Z.eqb_eq in Hc.
    apply Exists_cons in Hex as [[_ ?]|Hex]; [done|]. by apply IH. }
  destruct (c =? SQLITE_DONE); by eexists.
Qed.

Lemma query_loop_rows h : ∀ rs r res w rc row rest,
  Forall (λ o : Z * sqlite3_row, o.1 = SQLITE_ROW) rs →
  rc ≠ SQLITE_ROW → rc ≠ SQLITE_BUSY →
  ∃ d, query_loop h (rs ++ (rc, row) :: rest) r res w =
         Some (res ++ (marshal <$> rs.*2), set_steps rest (extend d w)) ∧
       (rc ≠ SQLITE_DONE → log_file_is_open w = true →
        ELog ERROR ("Failed to execute query: " +:+ sqlite3_errmsg sq) ∈ d).
Proof.
  induction rs as [|[c crow] rs IH]; intros r res w rc row rest Hrows Hnr Hnb; simpl.
  - apply Z.eqb_neq in Hnr, Hnb. rewrite Hnr, Hnb. simpl.
    destruct (rc =? SQLITE_DONE) eqn:Hdone.
    + exists [ELock db_mutex Shared; EStep h rc; EUnlock db_mutex Shared].
      rewrite app_nil_r. split; [f_equal; f_equal; world_eq|].
      by apply Z.eqb_eq in Hdone.
    + exists ([ELock db_mutex Shared; EStep h rc; EUnlock db_mutex Shared] ++
              log_events ERROR ("Failed to execute query: " +:+ sqlite3_errmsg sq) w).
      rewrite app_nil_r. split; [f_equal; f_equal; world_eq|].
      intros _ Hopen. rewrite log_events_ERROR by done.
      in_list.
  - apply Forall_cons in Hrows as [Hc Hrows]. simpl in Hc. subst c. simpl.
    edestruct (IH r (res ++ [marshal crow])) as (d & -> & Herr); [done..|].
    exists ([ELock db_mutex Shared; EStep h SQLITE_ROW; EUnlock db_mutex Shared] ++ d).
    split; [rewrite <- app_assoc; f_equal; f_equal; world_eq|].
    intros ? ?. apply elem_of_app. right. by apply Herr.
Qed.

(** A scan also ends on its sixth busy result. *)
Lemma query_loop_returns h : ∀ script r res w,
  0 ≤ r ≤ 5 →
  Exists ends_scan script ∨ (6 - Z.to_nat r ≤ busy_count script)%nat →
  is_Some (query_loop h script r res w).
Proof.
  induction script as [|[c row] script IH]; intros r res w Hr Hend.
  { destruct Hend as [Hex|Hn]; [by apply Exists_nil in Hex|].
    unfold busy_count in Hn. simpl in Hn. lia. }
  simpl. destruct (c =? SQLITE_ROW) eqn:Hrow.
  { apply Z.eqb_eq in Hrow. subst c. apply IH; [done|]. destruct Hend as [Hex|Hn].
    - apply Exists_cons in Hex as [[? _]|Hex]; [done|by left].
    - right. unfold busy_count in *. by rewrite filter_cons_False in Hn. }
  destruct ((c =? SQLITE_BUSY) && (r <? SQLITE_MAX_RETRIES)) eqn:Hbusy.
  { apply andb_true_iff in Hbusy as [Hc Hlt]. apply Z.eqb_eq in Hc. subst c.
    apply Z.ltb_lt in Hlt. unfold SQLITE_MAX_RETRIES in Hlt.
    apply IH; [lia|]. destruct Hend as [Hex|Hn].
    - apply Exists_cons in Hex as [[_ ?]|Hex]; [done|by left].
    - right. unfold busy_count in *. rewrite filter_cons_True in Hn by done.
      simpl in Hn. lia. }
  destruct (c =? SQLITE_DONE); by eexists.
Qed.

(** What a scan consumed: rows and busy results, at most five of which
    are busy, and then the result that ended it: one that is neither, or
    the sixth busy one.  Anything but [SQLITE_DONE] goes to the log. *)
Lemma query_loop_ends h : ∀ script r res w res' w',
  0 ≤ r ≤ 5 →
  query_loop h script r res w = Some (res', w') →
  ∃ body last rest d,
    script = body ++ last :: rest ∧
    w' = set_steps rest (extend d w) ∧
    Forall scan_goes_on body ∧
    (busy_count body ≤ 5 - Z.to_nat r)%nat ∧
    (ends_scan last ∨ last.1 = SQLITE_BUSY ∧ busy_count body = (5 - Z.to_nat r)%nat) ∧
    (last.1 ≠ SQLITE_DONE → log_file_is_open w = true →
     ELog ERROR scan_failure_message ∈ d).
Proof.
  induction script as [|[c row] script IH]; intros r res w res' w' Hr H;
    simpl in H; [done|].
  destruct (c =? SQLITE_ROW) eqn:Hrow.
  { apply IH in H as (body & last & rest & d & -> & -> & Hbody & Hbc & Hlast & Herr); [|done].
    apply Z.eqb_eq in Hrow as ->.
    exists ((SQLITE_ROW, row) :: body), last, rest,
      ([ELock db_mutex Shared; EStep h SQLITE_ROW; EUnlock db_mutex Shared] ++ d).
    split; [done|]. split; [world_eq|].
    split; [apply Forall_cons; split; [by left|done]|].
    unfold busy_count in *. rewrite filter_cons_False by done.
    split; [done|]. split; [done|].
    intros Hnd Ho. apply elem_of_app. right. by apply Herr. }
  destruct ((c =? SQLITE_BUSY) && (r <? SQLITE_MAX_RETRIES)) eqn:Hbusy.
  { apply andb_true_iff in Hbusy as [Hc Hlt].
    apply Z.eqb_eq in Hc as ->. apply Z.ltb_lt in Hlt. unfold SQLITE_MAX_RETRIES in Hlt.
    apply IH in H as (body & last & rest & d & -> & -> & Hbody & Hbc & Hlast & Herr); [|lia].
    exists ((SQLITE_BUSY, row) :: body), last, rest,
      ([ELock db_mutex Shared; EStep h SQLITE_BUSY; EUnlock db_mutex Shared] ++
       log_events DEBUG (busy_message r) w ++ [ESleep (backoff_ms r)] ++ d).
    split; [done|]. split; [world_eq|].
    split; [apply Forall_cons; split; [by right|done]|].
    unfold busy_count in *. rewrite filter_cons_True by done. simpl.
    split; [lia|]. split.
    - destruct Hlast as [?|[? Hn]]; [by left|right]. split; [done|lia].
    - intros Hnd Ho. do 3 apply list_elem_of_further. apply elem_of_app. right.
      apply list_elem_of_further. apply Herr; [done|]. rewrite log_extend. exact Ho. }
  exists [], (c, row), script.
  destruct (c =? SQLITE_DONE) eqn:Hdone; injection H as <- <-.
  - exists [ELock db_mutex Shared; EStep h c; EUnlock db_mutex Shared].
    split; [done|]. split; [world_eq|]. split; [constructor|].
    split; [unfold busy_count; simpl; lia|]. apply Z.eqb_eq in Hdone. split.
    + left. subst c. by split.
    + by intros Hnd.
  - exists ([ELock db_mutex Shared; EStep h c; EUnlock db_mutex Shared] ++
            log_events ERROR scan_failure_message w).
    split; [done|]. split; [world_eq|]. split; [constructor|].
    split; [unfold busy_count; simpl; lia|]. split.
    + apply Z.eqb_neq in Hrow. destruct (decide (c = SQLITE_BUSY)) as [->|Hnb].
      * right. simpl in Hbusy. apply Z.ltb_ge in Hbusy. unfold SQLITE_MAX_RETRIES in Hbusy.
        split; [done|]. unfold busy_count. simpl. lia.
      * by left.
    + intros _ Ho. rewrite log_events_ERROR by done. in_list.
Qed.

(** The rows and the first five busy results of a scan, in any order,
    followed by a sixth busy result. *)
Lemma query_loop_sixth_busy h : ∀ body r res w row rest,
  0 ≤ r ≤ 5 → Forall scan_goes_on body →
  busy_count body = (5 - Z.to_nat r)%nat →
  ∃ d, query_loop h (body ++ (SQLITE_BUSY, row) :: rest) r res w =
         Some (res ++ (marshal <$> rows body), set_steps rest (extend d w)) ∧
       step_results d = body.*1 ++ [SQLITE_BUSY] ∧
       sleeps d = drop (Z.to_nat r) backoff_table ∧
       (log_file_is_open w = true → ELog ERROR scan_failure_message ∈ d).
Proof.
  induction body as [|[c crow] body IH]; intros r res w row rest Hr Hbody Hbc.
  - unfold busy_count in Hbc. simpl in Hbc. assert (r = 5) as -> by lia. simpl.
    exists ([ELock db_mutex Shared; EStep h SQLITE_BUSY; EUnlock db_mutex Shared] ++
            log_events ERROR scan_failure_message w).
    rewrite app_nil_r. split; [f_equal; f_equal; world_eq|].
    rewrite step_results_app, sleeps_app, step_results_log_events, sleeps_log_events.
    split; [done|]. split; [done|].
    intros Ho. rewrite log_events_ERROR by done. in_list.
  - apply Forall_cons in Hbody as [[Hc|Hc] Hbody]; simpl in Hc; subst c.
    + unfold busy_count in Hbc. rewrite filter_cons_False in Hbc by done.
      edestruct (IH r (res ++ [marshal crow])) as (d & Hq & Hst & Hsl & Herr); [done..|].
      exists ([ELock db_mutex Shared; EStep h SQLITE_ROW; EUnlock db_mutex Shared] ++ d).
      split.
      { simpl. rewrite Hq, <- app_assoc. f_equal. f_equal. world_eq. }
      rewrite step_results_app, sleeps_app, Hst, Hsl. split; [done|]. split; [done|].
      intros Ho. apply elem_of_app. right. by apply Herr.
    + unfold busy_count in Hbc. rewrite filter_cons_True in Hbc by done. simpl in Hbc.
      assert (r < 5) as Hlt by lia.
      edestruct (IH (r + 1) res) as (d & Hq & Hst & Hsl & Herr); [lia|done| |].
      { unfold busy_count. lia. }
      exists ([ELock db_mutex Shared; EStep h SQLITE_BUSY; EUnlock db_mutex Shared] ++
              log_events DEBUG (busy_message r) w ++ [ESleep (backoff_ms r)] ++ d).
      split.
      { simpl. apply Z.ltb_lt in Hlt. unfold SQLITE_MAX_RETRIES. rewrite Hlt. simpl.
        rewrite Hq. f_equal. f_equal. world_eq. }
      rewrite !step_results_app, !sleeps_app, step_results_log_events, sleeps_log_events,
        Hst, Hsl, (backoff_table_drop r) by lia.
      split; [done|]. split; [done|].
      intros Ho. rewrite !elem_of_app. right. right. right. apply Herr.
      rewrite log_extend. exact Ho.
Qed.

Lemma engine_bind_events h params : ∀ i, engine (bind_events h i params) = [].
Proof. induction params as [|p params IH]; intros i; simpl; [done|apply IH]. Qed.

Lemma exec_bind_events h params : ∀ i,
  exec (bind_events h i params) = bind_events h i params.
Proof. induction params as [|p params IH]; intros i; simpl; [done|]. by rewrite <- IH at 2. Qed.

(** Binding issues bind calls for a prefix of the parameters, in order,
    and nothing else that concerns the statement. *)
Lemma bind_params_prefix h params : ∀ i w,
  ∃ ok n d, bind_params h i params w = (ok, extend d w) ∧
            exec d = bind_events h i (take n params) ∧
            (ok = true → take n params = params).
Proof.
  induction params as [|p params IH]; intros i w; simpl.
  - exists true, 0%nat, []. by rewrite extend_nil.
  - destruct (sqlite3_bind_text sq h (i + 1) p =? SQLITE_OK); simpl.
    + destruct (IH (i + 1) (emit (EBindText h (i + 1) p SQLITE_TRANSIENT
                                    (sqlite3_bind_text sq h (i + 1) p)) w))
        as (ok & n & d & -> & Hd & Hall).
      exists ok, (S n). eexists. rewrite emit_extend, extend_extend.
      split; [reflexivity|]. rewrite exec_app, Hd. split; [reflexivity|].
      intros Hok. simpl. by rewrite Hall.
    + exists false, 1%nat. eexists. rewrite log_extend, emit_extend, extend_extend.
      split; [reflexivity|]. by rewrite exec_app, exec_log_events.
Qed.

(** ** The two entry points of the engine *)

Lemma getPreparedStatement_obtain sql w h p w' :
  compiles_to sql w h → getPreparedStatement sql w = (p, w') → p = Some h.
Proof.
  intros Hc Hg. apply getPreparedStatement_compiles in Hc as [w'' Hc]. congruence.
Qed.

Lemma engine_nil_of_exec d : exec d = [] → engine d = [].
Proof. intros H. by rewrite <- engine_exec, H. Qed.

Lemma executeSQLWithParams_spec sql params w res w' :
  executeSQLWithParams sql params w = Some (res, w') →
  ∃ d, trace w' = trace w ++ d ∧
    (engine d = [] ∨
     ∃ inner, engine d = ELock db_mutex Exclusive :: inner ++ [EUnlock db_mutex Exclusive] ∧
              Forall (λ e, is_db_lock e = false) inner) ∧
    (∀ h, compiles_to sql w h →
       ∃ n, exec d = EReset h :: EClearBindings h :: bind_events h 0 (take n params)
                     ++ engine d ∧
            (engine d ≠ [] → take n params = params)).
Proof.
  unfold executeSQLWithParams. rewrite log_extend.
  set (d0 := log_events _ _ w).
  destruct (getPreparedStatement sql (extend d0 w)) as [p w1] eqn:Hg.
  destruct (getPreparedStatement_frame _ _ _ _ Hg) as (dg & Htr & Hdg & Hst & _).
  assert (exec d0 = []) as Hd0 by apply exec_log_events.
  destruct p as [stmt|]; cycle 1.
  { intros [= <- <-]. exists (d0 ++ dg). split; [by rewrite Htr, app_assoc|].
    rewrite engine_app, !engine_nil_of_exec by done. split; [by left|].
    intros h Hc. change (compiles_to sql (extend d0 w) h) in Hc.
    by pose proof (getPreparedStatement_obtain _ _ _ _ _ Hc Hg). }
  destruct (bind_params_prefix stmt params 0
              (emit (EClearBindings stmt) (emit (EReset stmt) w1)))
    as (ok & n & db & -> & Hdb & Hall).
  assert (engine db = []) as Hedb.
  { by rewrite <- engine_exec, Hdb, engine_bind_events. }
  destruct ok; cycle 1.
  { intros [= <- <-].
    exists (d0 ++ dg ++ [EReset stmt; EClearBindings stmt] ++ db).
    split; [simpl; rewrite Htr; simpl; by rewrite <- !app_assoc|].
    rewrite !engine_app, !exec_app, Hedb, Hdb, Hd0, Hdg,
      (engine_nil_of_exec d0), (engine_nil_of_exec dg) by done.
    simpl. split; [by left|].
    intros h Hc. change (compiles_to sql (extend d0 w) h) in Hc.
    pose proof (getPreparedStatement_obtain _ _ _ _ _ Hc Hg) as [= ->].
    exists n. by rewrite app_nil_r. }
  specialize (Hall eq_refl).
  destruct (write_loop _ _ _ _) as [[rc w2]|] eqn:Hw; [|done].
  apply write_loop_shape in Hw as (dl & rest & -> & Hdl & Hel).
  set (dlog := if negb (rc =? SQLITE_DONE)
               then log_events ERROR ("Failed to execute SQL: " +:+ sqlite3_errmsg sq) w1
               else []).
  assert (exec dlog = []) as Hdlog.
  { unfold dlog. destruct (negb _); [apply exec_log_events|done]. }
  intros H.
  exists (d0 ++ dg ++ [EReset stmt; EClearBindings stmt] ++ db ++
          [ELock db_mutex Exclusive] ++ dl ++ [EUnlock db_mutex Exclusive] ++ dlog).
  split.
  { unfold dlog. destruct (negb (rc =? SQLITE_DONE)); injection H as <- <-.
    - rewrite log_extend. simpl. rewrite Htr. simpl. rewrite <- !app_assoc. reflexivity.
    - simpl. rewrite Htr. simpl. rewrite <- !app_assoc. reflexivity. }
  rewrite !engine_app, !exec_app, Hedb, Hdb, Hd0, Hdg, Hdlog, Hel,
    (engine_nil_of_exec d0), (engine_nil_of_exec dg), (engine_nil_of_exec dlog) by done.
  simpl. rewrite ?app_nil_r. split.
  - right. by exists (engine dl).
  - intros h Hc. change (compiles_to sql (extend d0 w) h) in Hc.
    pose proof (getPreparedStatement_obtain _ _ _ _ _ Hc Hg) as [= ->].
    by exists n.
Qed.

Lemma log_result_count_extend results w :
  log_result_count results w = extend (result_count_events results w) w.
Proof. destruct results; apply log_extend. Qed.

Lemma executeQuery_spec sql params w res w' :
  executeQuery sql params w = Some (res, w') →
  ∃ d consumed,
    trace w' = trace w ++ d ∧
    steps w = consumed ++ steps w' ∧
    res = marshal <$> rows consumed ∧
    read_locked (engine d) = true ∧
    sleeps d = take (busy_count consumed) backoff_table ∧
    (busy_count consumed ≤ 6)%nat ∧
    step_results d = consumed.*1 ∧
    (∀ h, compiles_to sql w h →
       ∃ n, exec d = EReset h :: EClearBindings h :: bind_events h 0 (take n params)
                     ++ engine d ∧
            (engine d ≠ [] → take n params = params)).
Proof.
  unfold executeQuery. rewrite log_extend.
  set (d0 := log_events _ _ w).
  destruct (getPreparedStatement sql (extend d0 w)) as [p w1] eqn:Hg.
  destruct (getPreparedStatement_frame _ _ _ _ Hg) as (dg & Htr & Hdg & Hst & _).
  assert (exec d0 = []) as Hd0 by apply exec_log_events.
  pose proof (engine_nil_of_exec _ Hd0) as Hed0.
  pose proof (engine_nil_of_exec _ Hdg) as Hedg.
  assert (sleeps d0 = [] ∧ sleeps dg = [] ∧ step_results d0 = [] ∧ step_results dg = [])
    as (Hsd0 & Hsdg & Hrd0 & Hrdg).
  { by rewrite <- (sleeps_exec d0), <- (sleeps_exec dg), <- (step_results_exec d0),
      <- (step_results_exec dg), Hd0, Hdg. }
  destruct p as [stmt|]; cycle 1.
  { intros [= <- <-]. exists (d0 ++ dg), [].
    split; [by rewrite Htr, app_assoc|]. split; [done|]. split; [done|].
    rewrite engine_app, sleeps_app, step_results_app, Hed0, Hedg, Hsd0, Hsdg, Hrd0, Hrdg.
    repeat (split; [done || (unfold busy_count; simpl; lia)|]).
    intros h Hc. change (compiles_to sql (extend d0 w) h) in Hc.
    by pose proof (getPreparedStatement_obtain _ _ _ _ _ Hc Hg). }
  destruct (bind_params_prefix stmt params 0
              (emit (EClearBindings stmt) (emit (EReset stmt) w1)))
    as (ok & n & db & -> & Hdb & Hall).
  assert (engine db = [] ∧ sleeps db = [] ∧ step_results db = []) as (Hedb & Hsdb & Hrdb).
  { rewrite <- engine_exec, <- sleeps_exec, <- step_results_exec, Hdb.
    rewrite engine_bind_events. clear. generalize 0.
    induction (take n params) as [|q l IH]; intros i; simpl; [done|apply IH]. }
  destruct ok; cycle 1.
  { intros [= <- <-].
    exists (d0 ++ dg ++ [EReset stmt; EClearBindings stmt] ++ db), [].
    split; [simpl; rewrite Htr; simpl; by rewrite <- !app_assoc|].
    split; [done|]. split; [done|].
    rewrite !engine_app, !exec_app, !sleeps_app, !step_results_app,
      Hed0, Hedg, Hedb, Hsd0, Hsdg, Hsdb, Hrd0, Hrdg, Hrdb, Hd0, Hdg, Hdb.
    simpl. repeat (split; [done || (unfold busy_count; simpl; lia)|]).
    intros h Hc. change (compiles_to sql (extend d0 w) h) in Hc.
    pose proof (getPreparedStatement_obtain _ _ _ _ _ Hc Hg) as [= ->].
    exists n. by rewrite app_nil_r. }
  specialize (Hall eq_refl).
  destruct (query_loop _ _ _ _ _) as [[results w2]|] eqn:Hq; [|done].
  apply query_loop_spec in Hq
    as (consumed & rest & dl & Hscript & -> & -> & Hlock & Hsl & Hbc & Hres & Hel); [|lia].
  simpl in Hscript. rewrite Hst in Hscript. simpl in Hscript.
  intros [= <- <-].
  rewrite log_result_count_extend.
  set (dlog := result_count_events _ _).
  assert (exec dlog = []) as Hdlog.
  { unfold dlog, result_count_events. case_match; apply exec_log_events. }
  exists (d0 ++ dg ++ [EReset stmt; EClearBindings stmt] ++ db ++ dl ++ dlog), consumed.
  split; [simpl; rewrite Htr; simpl; by rewrite <- !app_assoc|].
  split; [done|].
  split; [done|].
  rewrite !engine_app, !exec_app, !sleeps_app, !step_results_app,
    Hed0, Hedg, Hedb, Hsd0, Hsdg, Hsdb, Hrd0, Hrdg, Hrdb, Hd0, Hdg, Hdb, Hel, Hdlog,
    (engine_nil_of_exec dlog Hdlog), <- (sleeps_exec dlog), <- (step_results_exec dlog),
    Hdlog.
  simpl. rewrite ?app_nil_r. simpl in Hsl, Hbc.
  repeat (split; [done || lia|]).
  intros h Hc. change (compiles_to sql (extend d0 w) h) in Hc.
  pose proof (getPreparedStatement_obtain _ _ _ _ _ Hc Hg) as [= ->].
  by exists n.
Qed.

Lemma getPreparedStatement_ok sql w h :
  compiles_to sql w h →
  ∃ w1 dg, getPreparedStatement sql w = (Some h, w1) ∧
           trace w1 = trace w ++ dg ∧ exec dg = [] ∧ steps w1 = steps w ∧
           log_file_is_open w1 = log_file_is_open w.
Proof.
  intros Hc. destruct (getPreparedStatement_compiles _ _ _ Hc) as [w1 Hg].
  destruct (getPreparedStatement_frame _ _ _ _ Hg) as (dg & ? & ? & ? & ? & _).
  by exists w1, dg.
Qed.

(** A write whose statement compiles and whose parameters bind, on a
    script starting with [length bs] busy results followed by [rc]. *)
Lemma executeSQLWithParams_busy sql params w h bs rc row rest :
  compiles_to sql w h → binds_ok h 0 params →
  steps w = bs ++ (rc, row) :: rest →
  Forall (λ o : Z * sqlite3_row, o.1 = SQLITE_BUSY) bs →
  (length bs ≤ 5)%nat →
  rc ≠ SQLITE_BUSY ∨ length bs = 5%nat →
  ∃ w' d, executeSQLWithParams sql params w = Some (rc =? SQLITE_DONE, w') ∧
          steps w' = rest ∧ trace w' = trace w ++ d ∧
          exec d = EReset h :: EClearBindings h :: bind_events h 0 params ++
                   ELock db_mutex Exclusive :: busy_rounds h 0 (length bs) ++
                   [EStep h rc; EUnlock db_mutex Exclusive].
Proof.
  intros Hc Hb Hsteps Hbusy Hlen Hlast.
  unfold executeSQLWithParams. rewrite log_extend. set (d0 := log_events _ _ w).
  destruct (getPreparedStatement_ok sql (extend d0 w) h Hc)
    as (w1 & dg & -> & Htr & Hdg & Hst & _).
  rewrite (bind_params_ok _ _ _ _ Hb). simpl steps. rewrite Hst. simpl steps.
  rewrite Hsteps.
  edestruct (write_loop_busy h bs 0) as (dl & -> & Hdl); [done|lia| |].
  { destruct Hlast as [?|Hl]; [by left|right; lia]. }
  assert (exec d0 = []) as Hd0 by apply exec_log_events.
  destruct (rc =? SQLITE_DONE); simpl; rewrite ?log_extend; eexists _, _;
    (split; [reflexivity|]); (split; [reflexivity|]); simpl;
    rewrite Htr; simpl; rewrite <- !app_assoc;
    (split; [reflexivity|]);
    rewrite !exec_app, ?exec_log_events, Hd0, Hdg, Hdl, exec_bind_events; simpl;
    by rewrite <- ?app_assoc, ?app_nil_r.
Qed.

(** A bind failure at position [k] (0-based) ends a write before any step. *)
Lemma executeSQLWithParams_bind_fail sql params w h (k : nat) p :
  compiles_to sql w h →
  params !! k = Some p →
  binds_ok h 0 (take k params) →
  sqlite3_bind_text sq h (Z.of_nat k + 1) p ≠ SQLITE_OK →
  ∃ w' d, executeSQLWithParams sql params w = Some (false, w') ∧
          steps w' = steps w ∧ trace w' = trace w ++ d ∧
          exec d = EReset h :: EClearBindings h :: bind_events h 0 (take (S k) params) ∧
          (log_file_is_open w = true →
           ELog ERROR (bind_failure_message (Z.of_nat k + 1)) ∈ d).
Proof.
  intros Hc Hk Hb Hbad.
  unfold executeSQLWithParams. rewrite log_extend. set (d0 := log_events _ _ w).
  destruct (getPreparedStatement_ok sql (extend d0 w) h Hc)
    as (w1 & dg & -> & Htr & Hdg & Hst & Hopen).
  rewrite (bind_params_fail _ _ k p 0 _ Hk Hb Hbad).
  assert (exec d0 = []) as Hd0 by apply exec_log_events.
  eexists _, _. split; [reflexivity|]. split; [done|].
  simpl. rewrite Htr. simpl. rewrite <- !app_assoc. split; [reflexivity|].
  split.
  - rewrite !exec_app, exec_log_events, Hd0, Hdg, exec_bind_events. simpl.
    by rewrite app_nil_r.
  - intros Ho. rewrite log_events_ERROR by (simpl; by rewrite Hopen).
    in_list.
Qed.

Lemma executeQuery_bind_fail sql params w h (k : nat) p :
  compiles_to sql w h →
  params !! k = Some p →
  binds_ok h 0 (take k params) →
  sqlite3_bind_text sq h (Z.of_nat k + 1) p ≠ SQLITE_OK →
  ∃ w' d, executeQuery sql params w = Some ([], w') ∧
          steps w' = steps w ∧ trace w' = trace w ++ d ∧
          exec d = EReset h :: EClearBindings h :: bind_events h 0 (take (S k) params) ∧
          (log_file_is_open w = true →
           ELog ERROR (bind_failure_message (Z.of_nat k + 1)) ∈ d).
Proof.
  intros Hc Hk Hb Hbad.
  unfold executeQuery. rewrite log_extend. set (d0 := log_events _ _ w).
  destruct (getPreparedStatement_ok sql (extend d0 w) h Hc)
    as (w1 & dg & -> & Htr & Hdg & Hst & Hopen).
  rewrite (bind_params_fail _ _ k p 0 _ Hk Hb Hbad).
  assert (exec d0 = []) as Hd0 by apply exec_log_events.
  eexists _, _. split; [reflexivity|]. split; [done|].
  simpl. rewrite Htr. simpl. rewrite <- !app_assoc. split; [reflexivity|].
  split.
  - rewrite !exec_app, exec_log_events, Hd0, Hdg, exec_bind_events. simpl.
    by rewrite app_nil_r.
  - intros Ho. rewrite log_events_ERROR by (simpl; by rewrite Hopen).
    in_list.
Qed.

(** A scan that delivers the rows [rs] and then ends on [rc]. *)
Lemma executeQuery_rows sql params w h rs rc row rest :
  compiles_to sql w h → binds_ok h 0 params →
  steps w = rs ++ (rc, row) :: rest →
  Forall (λ o : Z * sqlite3_row, o.1 = SQLITE_ROW) rs →
  rc ≠ SQLITE_ROW → rc ≠ SQLITE_BUSY →
  ∃ w' d, executeQuery sql params w = Some (marshal <$> rs.*2, w') ∧
          steps w' = rest ∧ trace w' = trace w ++ d ∧
          (rc ≠ SQLITE_DONE → log_file_is_open w = true →
           ELog ERROR ("Failed to execute query: " +:+ sqlite3_errmsg sq) ∈ d).
Proof.
  intros Hc Hb Hsteps Hrows Hnr Hnb.
  unfold executeQuery. rewrite log_extend. set (d0 := log_events _ _ w).
  destruct (getPreparedStatement_ok sql (extend d0 w) h Hc)
    as (w1 & dg & -> & Htr & Hdg & Hst & Hopen).
  rewrite (bind_params_ok _ _ _ _ Hb). simpl steps. rewrite Hst. simpl steps.
  rewrite Hsteps.
  edestruct (query_loop_rows h rs 0 []) as (dl & -> & Herr); [done..|].
  rewrite log_result_count_extend.
  eexists _, _. split; [reflexivity|]. split; [done|].
  simpl. rewrite Htr. simpl. rewrite <- !app_assoc. split; [reflexivity|].
  intros Hnd Ho.
  assert (ELog ERROR ("Failed to execute query: " +:+ sqlite3_errmsg sq) ∈ dl) as Hin.
  { apply Herr; [done|]. simpl. by rewrite Hopen. }
  rewrite !elem_of_app. tauto.
Qed.

Lemma bind_events_lookup h params : ∀ i (j : nat) p,
  params !! j = Some p →
  bind_events h i params !! j =
    Some (EBindText h (i + Z.of_nat j + 1) p SQLITE_TRANSIENT
            (sqlite3_bind_text sq h (i + Z.of_nat j + 1) p)).
Proof.
  induction params as [|q params IH]; intros i j p Hj; [done|].
  destruct j as [|j].
  - injection Hj as ->. change (Z.of_nat 0) with 0.
    replace (i + 0 + 1) with (i + 1) by lia. reflexivity.
  - change ((q :: params) !! S j) with (params !! j) in Hj.
    change (bind_events h i (q :: params) !! S j)
      with (bind_events h (i + 1) params !! j).
    rewrite (IH (i + 1) j p Hj).
    replace (i + 1 + Z.of_nat j + 1) with (i + Z.of_nat (S j) + 1) by lia. reflexivity.
Qed.

Lemma sleeps_bind_events h params : ∀ i, sleeps (bind_events h i params) = [].
Proof. induction params as [|p params IH]; intros i; simpl; [done|apply IH]. Qed.

Lemma step_results_bind_events h params : ∀ i, step_results (bind_events h i params) = [].
Proof. induction params as [|p params IH]; intros i; simpl; [done|apply IH]. Qed.

Lemma engine_busy_rounds h n : ∀ r, engine (busy_rounds h r n) = busy_rounds h r n.
Proof. induction n as [|n IH]; intros r; [done|]. simpl. f_equal. f_equal. apply IH. Qed.

Lemma lock_after_lock_free d : ∀ l,
  Forall (λ e, is_db_lock e = false) d → lock_after l d = l.
Proof.
  induction d as [|e d IH]; intros l Hd; [done|].
  apply Forall_cons in Hd as [He Hd]. simpl.
  replace (lock_step l e) with l; [by apply IH|].
  by destruct e as [| | | | | |[] []|[] []| | | | | | | | | |].
Qed.

(** Inside the exclusive section of a write the lock is held exclusively
    at every event. *)
Lemma write_locked_held d l d1 e d2 :
  write_locked d → d = d1 ++ e :: d2 → is_db_lock e = false →
  writer (lock_after l d1) = true.
Proof.
  intros [->|(inner & -> & Hin)] Hd He.
  { by destruct d1. }
  destruct d1 as [|e1 d1]; simpl in Hd.
  { injection Hd as <- _. done. }
  injection Hd as <- Hd. simpl.
  assert (Forall (λ e, is_db_lock e = false) d1) as Hd1.
  { assert (length d1 < length inner)%nat as Hlen.
    { destruct (decide (length d1 < length inner)%nat) as [|Hge]; [done|].
      assert (length (inner ++ [EUnlock db_mutex Exclusive]) =
              length (d1 ++ e :: d2)) as Hl by by rewrite Hd.
      rewrite !length_app in Hl. simpl in Hl.
      assert (length d1 = length inner ∧ d2 = []) as [Hl1 ->].
      { destruct d2; simpl in Hl; split; (done || lia). }
      apply app_inj_1 in Hd as [_ [= <-]]; done. }
    assert (d1 = take (length d1) inner) as ->.
    { apply (f_equal (take (length d1))) in Hd.
      rewrite take_app_le in Hd by lia. rewrite take_app_length in Hd. done. }
    by apply Forall_take. }
  by rewrite lock_after_lock_free.
Qed.

(** During a scan the lock is never held exclusively. *)
Lemma read_locked_shared : ∀ d l d1 d2,
  read_locked d = true → d = d1 ++ d2 →
  shared_available (lock_after l d1) = shared_available l.
Proof.
  assert (∀ (n : nat) d l d1 d2, (length d ≤ n)%nat → read_locked d = true →
            d = d1 ++ d2 → shared_available (lock_after l d1) = shared_available l)
    as Hind; [|intros d l d1 d2; by apply (Hind (length d))].
  induction n as [|n IH]; intros d l d1 d2 Hlen Hd Heq.
  { destruct d; [|simpl in Hlen; lia]. by destruct d1. }
  destruct d1 as [|e1 d1]; [done|].
  destruct d as [|e d]; [done|]. simpl in Heq. injection Heq as -> Heq.
  destruct e1 as [| | | | | |[] []|[] []| | | | | | | | | |]; try done.
  - destruct d as [|[] d]; try done. destruct d as [|[| | | | | | |[] []| | | | | | | | | |] d]; try done.
    simpl in Hd.
    destruct d1 as [|e2 d1]; [done|]. simpl in Heq. injection Heq as <- Heq.
    destruct d1 as [|e3 d1]; [done|]. simpl in Heq. injection Heq as <- Heq.
    simpl. destruct l as [wr rd]. simpl.
    apply (IH d (mkLock wr rd) d1 d2); [simpl in Hlen; lia|done|done].
  - simpl in Hd. simpl.
    apply (IH d l d1 d2); [simpl in Hlen; lia|done|done].
Qed.

(** ** Both entry points return *)

Lemma write_loop_terminates h : ∀ script r w,
  r ≤ 5 →
  Exists (λ o : Z * sqlite3_row, o.1 ≠ SQLITE_BUSY) script ∨
    5 - r < Z.of_nat (length script) →
  is_Some (write_loop h script r w).
Proof.
  induction script as [|[c row] script IH]; intros r w Hr Hend.
  { destruct Hend as [Hex|Hlen]; [by apply Exists_nil in Hex|simpl in Hlen; lia]. }
  simpl. destruct ((c =? SQLITE_BUSY) && (r <? SQLITE_MAX_RETRIES)) eqn:Hbusy; [|by eexists].
  apply andb_true_iff in Hbusy as [Hc Hlt].
  apply Z.eqb_eq in Hc. apply Z.ltb_lt in Hlt. unfold SQLITE_MAX_RETRIES in Hlt.
  apply IH; [lia|]. destruct Hend as [Hex|Hlen].
  - apply Exists_cons in Hex as [?|?]; [done|by left].
  - right. simpl length in Hlen. lia.
Qed.

Lemma executeSQLWithParams_returns sql params w :
  ends_write (steps w) → is_Some (executeSQLWithParams sql params w).
Proof.
  intros Hend. unfold executeSQLWithParams. rewrite log_extend.
  set (d0 := log_events _ _ w).
  destruct (getPreparedStatement sql (extend d0 w)) as [p w1] eqn:Hg.
  destruct (getPreparedStatement_frame _ _ _ _ Hg) as (_ & _ & _ & Hst & _).
  destruct p as [stmt|]; [|by eexists].
  destruct (bind_params_prefix stmt params 0
              (emit (EClearBindings stmt) (emit (EReset stmt) w1)))
    as (ok & n & dbind & -> & _).
  destruct ok; [|by eexists].
  change (steps (emit _ (extend dbind (emit _ (emit _ w1))))) with (steps w1).
  rewrite Hst. change (steps (extend d0 w)) with (steps w).
  edestruct (write_loop_terminates stmt (steps w) 0) as [[rc w2] ->]; [lia| |].
  { destruct Hend as [?|?]; [by left|right; lia]. }
  destruct (negb (rc =? SQLITE_DONE)); by eexists.
Qed.

Lemma executeQuery_returns sql params w :
  Exists ends_scan (steps w) → is_Some (executeQuery sql params w).
Proof.
  intros Hend. unfold executeQuery. rewrite log_extend.
  set (d0 := log_events _ _ w).
  destruct (getPreparedStatement sql (extend d0 w)) as [p w1] eqn:Hg.
  destruct (getPreparedStatement_frame _ _ _ _ Hg) as (_ & _ & _ & Hst & _).
  destruct p as [stmt|]; [|by eexists].
  destruct (bind_params_prefix stmt params 0
              (emit (EClearBindings stmt) (emit (EReset stmt) w1)))
    as (ok & n & dbind & -> & _).
  destruct ok; [|by eexists].
  change (steps (extend dbind (emit _ (emit _ w1)))) with (steps w1).
  rewrite Hst. change (steps (extend d0 w)) with (steps w).
  edestruct (query_loop_terminates stmt (steps w) 0 []) as [[res w2] ->]; [done|].
  by eexists.
Qed.

Lemma executeQuery_ends_read sql params w :
  ends_read (steps w) → is_Some (executeQuery sql params w).
Proof.
  intros Hend. unfold executeQuery. rewrite log_extend.
  set (d0 := log_events _ _ w).
  destruct (getPreparedStatement sql (extend d0 w)) as [p w1] eqn:Hg.
  destruct (getPreparedStatement_frame _ _ _ _ Hg) as (_ & _ & _ & Hst & _).
  destruct p as [stmt|]; [|by eexists].
  destruct (bind_params_prefix stmt params 0
              (emit (EClearBindings stmt) (emit (EReset stmt) w1)))
    as (ok & n & dbind & -> & _).
  destruct ok; [|by eexists].
  change (steps (extend dbind (emit _ (emit _ w1)))) with (steps w1).
  rewrite Hst. change (steps (extend d0 w)) with (steps w).
  edestruct (query_loop_returns stmt (steps w) 0 []) as [[res w2] ->]; [lia| |by eexists].
  destruct Hend as [?|?]; [by left|by right].
Qed.

(** What a read consumed, and what ended it. *)
Lemma executeQuery_ends sql params w res w' :
  executeQuery sql params w = Some (res, w') →
  ∃ d consumed,
    trace w' = trace w ++ d ∧ steps w = consumed ++ steps w' ∧
    (consumed = [] ∨
     ∃ body last,
       consumed = body ++ [last] ∧ Forall scan_goes_on body ∧
       (busy_count body ≤ 5)%nat ∧
       (ends_scan last ∨ last.1 = SQLITE_BUSY ∧ busy_count body = 5%nat) ∧
       (last.1 ≠ SQLITE_DONE → log_file_is_open w = true →
        ELog ERROR scan_failure_message ∈ d)).
Proof.
  unfold executeQuery. rewrite log_extend.
  set (d0 := log_events _ _ w).
  destruct (getPreparedStatement sql (extend d0 w)) as [p w1] eqn:Hg.
  destruct (getPreparedStatement_frame _ _ _ _ Hg) as (dg & Htr & _ & Hst & Hopen & _).
  destruct p as [stmt|]; cycle 1.
  { intros [= <- <-]. exists (d0 ++ dg), [].
    split; [by rewrite Htr, app_assoc|]. split; [done|by left]. }
  destruct (bind_params_prefix stmt params 0
              (emit (EClearBindings stmt) (emit (EReset stmt) w1)))
    as (ok & n & db & -> & _).
  destruct ok; cycle 1.
  { intros [= <- <-].
    exists (d0 ++ dg ++ [EReset stmt; EClearBindings stmt] ++ db), [].
    split; [simpl; rewrite Htr; simpl; by rewrite <- !app_assoc|].
    split; [done|by left]. }
  destruct (query_loop _ _ _ _ _) as [[results w2]|] eqn:Hq; [|done].
  apply query_loop_ends in Hq
    as (body & last & rest & dl & Hscript & -> & Hbody & Hbc & Hlast & Herr); [|lia].
  simpl in Hscript. rewrite Hst in Hscript. simpl in Hscript.
  intros [= <- <-]. rewrite log_result_count_extend.
  set (dlog := result_count_events _ _).
  exists (d0 ++ dg ++ [EReset stmt; EClearBindings stmt] ++ db ++ dl ++ dlog),
    (body ++ [last]).
  split; [simpl; rewrite Htr; simpl; by rewrite <- !app_assoc|].
  split; [by rewrite <- app_assoc|]. right. exists body, last.
  split; [done|]. split; [done|]. split; [simpl in Hbc; lia|]. split.
  { destruct Hlast as [?|[? ->]]; [by left|by right]. }
  intros Hnd Ho. rewrite !elem_of_app. do 4 right. left.
  apply Herr; [done|]. simpl. by rewrite Hopen.
Qed.

(** A read whose statement compiles and whose parameters bind, on rows and
    five busy results followed by a sixth busy result. *)
Lemma executeQuery_sixth_busy sql params w h body row rest :
  compiles_to sql w h → binds_ok h 0 params →
  steps w = body ++ (SQLITE_BUSY, row) :: rest →
  Forall scan_goes_on body → busy_count body = 5%nat →
  ∃ w' d, executeQuery sql params w = Some (marshal <$> rows body, w') ∧
          steps w' = rest ∧ trace w' = trace w ++ d ∧
          step_results d = body.*1 ++ [SQLITE_BUSY] ∧
          sleeps d = backoff_table ∧
          (log_file_is_open w = true → ELog ERROR scan_failure_message ∈ d).
Proof.
  intros Hc Hb Hsteps Hbody Hbc.
  unfold executeQuery. rewrite log_extend. set (d0 := log_events _ _ w).
  destruct (getPreparedStatement_ok sql (extend d0 w) h Hc)
    as (w1 & dg & -> & Htr & Hdg & Hst & Hopen).
  rewrite (bind_params_ok _ _ _ _ Hb). simpl steps. rewrite Hst. simpl steps.
  rewrite Hsteps.
  edestruct (query_loop_sixth_busy h body 0 []) as (dl & -> & Hres & Hsl & Herr);
    [lia|done|done|].
  rewrite log_result_count_extend. set (dlog := result_count_events _ _).
  assert (exec dlog = []) as Hdlog.
  { unfold dlog, result_count_events. case_match; apply exec_log_events. }
  assert (exec d0 = []) as Hd0 by apply exec_log_events.
  eexists _, _. split; [reflexivity|]. split; [reflexivity|].
  simpl. rewrite Htr. simpl. rewrite <- !app_assoc. split; [reflexivity|].
  rewrite <- !(step_results_exec (_ ++ _)), <- !(sleeps_exec (_ ++ _)).
  rewrite !exec_app, Hd0, Hdg, Hdlog, exec_bind_events.
  change (exec [EReset h; EClearBindings h]) with [EReset h; EClearBindings h].
  rewrite app_nil_r. simpl.
  rewrite step_results_app, sleeps_app, step_results_bind_events, sleeps_bind_events,
    step_results_exec, sleeps_exec, Hres, Hsl.
  split; [done|]. split; [done|].
  intros Ho.
  assert (ELog ERROR scan_failure_message ∈ dl) as Hin.
  { apply Herr. simpl. by rewrite Hopen. }
  rewrite !elem_of_app, !elem_of_cons, !elem_of_app. tauto.
Qed.

(** ** Claims on the execution engine *)

(** C1 (as amended): when the statement compiles and the parameters bind, a
    write whose every step reports contention performs six [sqlite3_step]
    calls (the first attempt and [SQLITE_MAX_RETRIES = 5] retries), sleeps
    10, 20, 40, 80 and 160 ms after the first five, all inside one exclusive
    section of [db_mutex], and returns [false]; a write whose contention
    clears by the sixth step (so also by the third) returns [true]. *)
Theorem executeSQLWithParams_retry_backoff sql params w h :
  compiles_to sql w h → binds_ok h 0 params →
  (∀ bs rest,
     steps w = bs ++ rest → length bs = 6%nat →
     Forall (λ o : Z * sqlite3_row, o.1 = SQLITE_BUSY) bs →
     ∃ w' d, executeSQLWithParams sql params w = Some (false, w') ∧
             steps w' = rest ∧ trace w' = trace w ++ d ∧
             engine d = [ELock db_mutex Exclusive;
                         EStep h SQLITE_BUSY; ESleep 10;
                         EStep h SQLITE_BUSY; ESleep 20;
                         EStep h SQLITE_BUSY; ESleep 40;
                         EStep h SQLITE_BUSY; ESleep 80;
                         EStep h SQLITE_BUSY; ESleep 160;
                         EStep h SQLITE_BUSY;
                         EUnlock db_mutex Exclusive] ∧
             sleeps d = backoff_table ∧
             length (step_results d) = 6%nat) ∧
  (∀ bs row rest,
     steps w = bs ++ (SQLITE_DONE, row) :: rest → (length bs ≤ 5)%nat →
     Forall (λ o : Z * sqlite3_row, o.1 = SQLITE_BUSY) bs →
     ∃ w' d, executeSQLWithParams sql params w = Some (true, w') ∧
             steps w' = rest ∧ trace w' = trace w ++ d ∧
             engine d = ELock db_mutex Exclusive :: busy_rounds h 0 (length bs) ++
                        [EStep h SQLITE_DONE; EUnlock db_mutex Exclusive]).
Proof.
  intros Hc Hb. split.
  - intros bs rest Hsteps Hlen Hbusy.
    destruct bs as [|b1 [|b2 [|b3 [|b4 [|b5 [|[rc row] [|? ?]]]]]]]; try done.
    repeat (apply Forall_cons in Hbusy as [? Hbusy]).
    simpl in *. subst rc.
    edestruct (executeSQLWithParams_busy sql params w h [b1; b2; b3; b4; b5])
      as (w' & d & Hrun & Hrest & Htr & Hd); [done|done|exact Hsteps| | |by right|].
    { by repeat constructor. }
    { simpl. lia. }
    exists w', d. split; [done|]. split; [done|]. split; [done|].
    rewrite <- engine_exec, <- sleeps_exec, <- step_results_exec, Hd.
    change (EReset h :: EClearBindings h :: bind_events h 0 params ++ ?l)
      with ([EReset h; EClearBindings h] ++ bind_events h 0 params ++ l).
    rewrite !engine_app, !sleeps_app, !step_results_app,
      engine_bind_events, sleeps_bind_events, step_results_bind_events.
    done.
  - intros bs row rest Hsteps Hlen Hbusy.
    edestruct (executeSQLWithParams_busy sql params w h bs SQLITE_DONE)
      as (w' & d & Hrun & Hrest & Htr & Hd); [done|done|exact Hsteps|done|done|by left|].
    exists w', d. split; [done|]. split; [done|]. split; [done|].
    rewrite <- engine_exec, Hd.
    change (EReset h :: EClearBindings h :: bind_events h 0 params ++ ?l)
      with ([EReset h; EClearBindings h] ++ bind_events h 0 params ++ l).
    rewrite !engine_app, engine_bind_events. simpl. f_equal.
    rewrite engine_app. simpl. f_equal. apply engine_busy_rounds.
Qed.

(** C2 (as amended): a read has one retry budget for the whole scan, not
    one per step.  A read returns as soon as a pending step result is
    neither a row nor contention, or the sixth busy result is met.  Whatever
    the step results are, the result of a read is made of the rows it
    consumed, and its sleeps are the first [n] entries of the table 10, 20,
    40, 80, 160, where [n] counts the busy results of the whole scan (rows
    in between do not reset the counter): the n-th busy result is followed
    by the n-th delay.  When the scan made a step, the results before the
    last one consumed are rows and at most five busy results, and the last
    one is what ended the scan: a result that is neither, or the sixth busy
    result; unless it is [SQLITE_DONE], the error goes to the log.  So on
    rows and five busy results followed by a sixth busy result, the read
    stops at that result, leaves what follows unread, returns the rows
    collected so far and logs the error. *)
Theorem executeQuery_retry_budget_per_scan sql params w :
  (ends_read (steps w) → is_Some (executeQuery sql params w)) ∧
  (∀ res w', executeQuery sql params w = Some (res, w') →
     ∃ d consumed,
       trace w' = trace w ++ d ∧
       steps w = consumed ++ steps w' ∧
       step_results d = consumed.*1 ∧
       sleeps d = take (busy_count consumed) backoff_table ∧
       (busy_count consumed ≤ 6)%nat ∧
       res = marshal <$> rows consumed ∧
       (consumed = [] ∨
        ∃ body last,
          consumed = body ++ [last] ∧ Forall scan_goes_on body ∧
          (busy_count body ≤ 5)%nat ∧
          (ends_scan last ∨ last.1 = SQLITE_BUSY ∧ busy_count body = 5%nat) ∧
          (last.1 ≠ SQLITE_DONE → log_file_is_open w = true →
           ELog ERROR scan_failure_message ∈ d))) ∧
  (∀ h body row rest,
     compiles_to sql w h → binds_ok h 0 params →
     steps w = body ++ (SQLITE_BUSY, row) :: rest →
     Forall scan_goes_on body → busy_count body = 5%nat →
     ∃ w' d, executeQuery sql params w = Some (marshal <$> rows body, w') ∧
             steps w' = rest ∧ trace w' = trace w ++ d ∧
             step_results d = body.*1 ++ [SQLITE_BUSY] ∧
             sleeps d = backoff_table ∧
             (log_file_is_open w = true → ELog ERROR scan_failure_message ∈ d)).
Proof.
  split; [apply executeQuery_ends_read|]. split.
  - intros res w' H.
    destruct (executeQuery_spec _ _ _ _ _ H)
      as (d & consumed & Htr & Hst & Hres & _ & Hsl & Hbc & Hsteps & _).
    destruct (executeQuery_ends _ _ _ _ _ H) as (d' & consumed' & Htr' & Hst' & Hend).
    assert (d' = d) as -> by (apply (app_inv_head (trace w)); congruence).
    assert (consumed' = consumed) as -> by (apply (app_inv_tail (steps w')); congruence).
    by exists d, consumed.
  - intros h body row rest. apply executeQuery_sixth_busy.
Qed.

(** C3: a write holds [db_mutex] exclusively over its whole retry loop:
    its steps and sleeps all lie inside one exclusive section, where the
    lock is held exclusively at each of them.  A read takes [db_mutex] in
    shared mode around each single step and releases it before anything
    else happens (the next step, a sleep); at no point of a scan is the
    lock held exclusively, so a shared acquisition by another reader is as
    available as it was before the scan.  Both calls return once the
    pending step results bring their loop to an end. *)
Theorem lock_discipline sql params w :
  (ends_write (steps w) → is_Some (executeSQLWithParams sql params w)) ∧
  (∀ res w', executeSQLWithParams sql params w = Some (res, w') →
     ∃ d, trace w' = trace w ++ d ∧
          write_locked (engine d) ∧
          (∀ l d1 e d2, engine d = d1 ++ e :: d2 → is_db_lock e = false →
                        writer (lock_after l d1) = true)) ∧
  (Exists ends_scan (steps w) → is_Some (executeQuery sql params w)) ∧
  (∀ res w', executeQuery sql params w = Some (res, w') →
     ∃ d, trace w' = trace w ++ d ∧
          read_locked (engine d) = true ∧
          (∀ l d1 d2, engine d = d1 ++ d2 →
                      shared_available (lock_after l d1) = shared_available l)).
Proof.
  split; [apply executeSQLWithParams_returns|]. split; [|split].
  - intros res w' H. apply executeSQLWithParams_spec in H as (d & Htr & Hshape & _).
    exists d. split; [done|]. split; [done|].
    intros l d1 e d2 Hd He. by eapply write_locked_held.
  - apply executeQuery_returns.
  - intros res w' H.
    apply executeQuery_spec in H as (d & consumed & Htr & _ & _ & Hlock & _).
    exists d. split; [done|]. split; [done|].
    intros l d1 d2 Hd. by eapply read_locked_shared.
Qed.

(** C5: for a statement that is at hand, both entry points first reset the
    statement and clear its bindings, then bind the parameters in order,
    parameter [j] (0-based) as text at index [j + 1] with
    [SQLITE_TRANSIENT]; lock, step and sleep events follow only when every
    parameter is bound.  When the bind at position [k] fails, the write
    returns [false] and the read the empty sequence, no step is made, and
    the failure goes to the log at ERROR level with the index [k + 1]. *)
Theorem bind_contract sql params w h :
  compiles_to sql w h →
  (∀ (j : nat) p, params !! j = Some p →
     bind_events h 0 params !! j =
       Some (EBindText h (Z.of_nat j + 1) p SQLITE_TRANSIENT
               (sqlite3_bind_text sq h (Z.of_nat j + 1) p))) ∧
  (∀ res w', executeSQLWithParams sql params w = Some (res, w') →
     ∃ d n, trace w' = trace w ++ d ∧
            exec d = EReset h :: EClearBindings h :: bind_events h 0 (take n params)
                     ++ engine d ∧
            (engine d ≠ [] → take n params = params)) ∧
  (∀ res w', executeQuery sql params w = Some (res, w') →
     ∃ d n, trace w' = trace w ++ d ∧
            exec d = EReset h :: EClearBindings h :: bind_events h 0 (take n params)
                     ++ engine d ∧
            (engine d ≠ [] → take n params = params)) ∧
  (∀ (k : nat) p,
     params !! k = Some p → binds_ok h 0 (take k params) →
     sqlite3_bind_text sq h (Z.of_nat k + 1) p ≠ SQLITE_OK →
     (∃ w' d, executeSQLWithParams sql params w = Some (false, w') ∧
              trace w' = trace w ++ d ∧ step_results d = [] ∧
              (log_file_is_open w = true →
               ELog ERROR (bind_failure_message (Z.of_nat k + 1)) ∈ d)) ∧
     (∃ w' d, executeQuery sql params w = Some ([], w') ∧
              trace w' = trace w ++ d ∧ step_results d = [] ∧
              (log_file_is_open w = true →
               ELog ERROR (bind_failure_message (Z.of_nat k + 1)) ∈ d))).
Proof.
  intros Hc. split; [|split; [|split]].
  - intros j p Hj. by rewrite (bind_events_lookup h params 0 j p Hj).
  - intros res w' H. apply executeSQLWithParams_spec in H as (d & Htr & _ & Hex).
    destruct (Hex h Hc) as (n & ? & ?). by exists d, n.
  - intros res w' H.
    apply executeQuery_spec in H as (d & consumed & Htr & _ & _ & _ & _ & _ & _ & Hex).
    destruct (Hex h Hc) as (n & ? & ?). by exists d, n.
  - intros k p Hk Hb Hbad. split.
    + destruct (executeSQLWithParams_bind_fail sql params w h k p Hc Hk Hb Hbad)
        as (w' & d & Hrun & _ & Htr & Hd & Hlog).
      exists w', d. split; [done|]. split; [done|]. split; [|done].
      rewrite <- step_results_exec, Hd.
      change (EReset h :: EClearBindings h :: ?l) with ([EReset h; EClearBindings h] ++ l).
      by rewrite step_results_app, step_results_bind_events.
    + destruct (executeQuery_bind_fail sql params w h k p Hc Hk Hb Hbad)
        as (w' & d & Hrun & _ & Htr & Hd & Hlog).
      exists w', d. split; [done|]. split; [done|]. split; [|done].
      rewrite <- step_results_exec, Hd.
      change (EReset h :: EClearBindings h :: ?l) with ([EReset h; EClearBindings h] ++ l).
      by rewrite step_results_app, step_results_bind_events.
Qed.

(** C6: a read returns as soon as a pending step result is neither a row
    nor contention, and what it returns is one [Book] per row result it
    consumed, in order, whatever ended the scan; in particular when the
    rows [rs] are followed by a result that is neither a row nor
    contention, the read stops there and returns the books of [rs], and
    when that result is not [SQLITE_DONE] the error goes to the log at
    ERROR level. *)
Theorem executeQuery_partial_results sql params w :
  (Exists ends_scan (steps w) → is_Some (executeQuery sql params w)) ∧
  (∀ res w', executeQuery sql params w = Some (res, w') →
     ∃ consumed, steps w = consumed ++ steps w' ∧ res = marshal <$> rows consumed) ∧
  (∀ h rs rc row rest,
     compiles_to sql w h → binds_ok h 0 params →
     steps w = rs ++ (rc, row) :: rest →
     Forall (λ o : Z * sqlite3_row, o.1 = SQLITE_ROW) rs →
     rc ≠ SQLITE_ROW → rc ≠ SQLITE_BUSY →
     ∃ w' d, executeQuery sql params w = Some (marshal <$> rs.*2, w') ∧
             steps w' = rest ∧ trace w' = trace w ++ d ∧
             (rc ≠ SQLITE_DONE → log_file_is_open w = true →
              ELog ERROR ("Failed to execute query: " +:+ sqlite3_errmsg sq) ∈ d)).
Proof.
  split; [apply executeQuery_returns|]. split.
  - intros res w' H. apply executeQuery_spec in H as (d & consumed & _ & Hst & Hres & _).
    by exists consumed.
  - intros h rs rc row rest. apply executeQuery_rows.
Qed.

(** C10: every [Book] a read returns is the marshalling of a row result of
    the scan: its title and author are the column texts, and the empty
    string where the store reports [NULL]. *)
Theorem marshal_null_text_is_empty sql params w res w' b :
  executeQuery sql params w = Some (res, w') → b ∈ res →
  ∃ row, (SQLITE_ROW, row) ∈ steps w ∧
         id b = column_int_0 row ∧
         title b = default "" (column_text_1 row) ∧
         author b = default "" (column_text_2 row) ∧
         (column_text_1 row = None → title b = "") ∧
         (column_text_2 row = None → author b = "").
Proof.
  intros H Hb. apply executeQuery_spec in H as (d & consumed & _ & Hst & -> & _).
  apply list_elem_of_fmap in Hb as (row & -> & Hrow).
  unfold rows in Hrow. apply list_elem_of_omap in Hrow as ([rc row'] & Hin & Hr).
  unfold row_of in Hr. simpl in Hr.
  destruct (rc =? SQLITE_ROW) eqn:Hrc; [|done]. injection Hr as ->.
  apply Z.eqb_eq in Hrc as ->.
  exists row. split.
  { rewrite Hst. apply elem_of_app. by left. }
  unfold marshal. simpl.
  by destruct (column_text_1 row), (column_text_2 row).
Qed.

(** ** Initialization *)

Lemma set_pragma_extend w pragma : set_pragma w pragma = extend (pragma_events w pragma) w.
Proof.
  unfold set_pragma, pragma_events. destruct (sqlite3_exec sq pragma) as [rc errmsg]. simpl.
  destruct (negb (rc =? SQLITE_OK)).
  - by rewrite log_extend, emit_extend, extend_extend.
  - by rewrite emit_extend.
Qed.

Lemma foldl_set_pragma ps : ∀ w,
  foldl set_pragma w ps = extend (ps ≫= pragma_events w) w.
Proof.
  induction ps as [|p ps IH]; intros w; simpl.
  - by rewrite extend_nil.
  - rewrite set_pragma_extend, IH, extend_extend. reflexivity.
Qed.

Lemma set_db_extend b d w : set_db b (extend d w) = extend d (set_db b w).
Proof. reflexivity. Qed.

Lemma pragma_events_frame b d w :
  pragma_events (extend d (set_db b w)) = pragma_events w.
Proof. reflexivity. Qed.

Lemma log_events_set_db level message b w :
  log_events level message (set_db b w) = log_events level message w.
Proof. reflexivity. Qed.

(** Brings the state built by [initializeDatabase] to the form
    [extend d (set_db true w)]. *)
Ltac init_eq :=
  rewrite ?log_extend, ?emit_extend;
  repeat first [ rewrite set_db_extend | rewrite extend_extend ];
  rewrite ?pragma_events_frame, ?log_events_extend, ?log_events_set_db;
  cbn [app]; rewrite <- ?app_assoc; reflexivity.

Lemma initializeDatabase_table_ok db_file w :
  sqlite3_open sq db_file = SQLITE_OK →
  (sqlite3_exec sq createTableSQL).1 = SQLITE_OK →
  initializeDatabase db_file w =
    (true,
     extend ([ELock db_mutex Exclusive; EOpen db_file SQLITE_OK] ++
             (pragmas ≫= pragma_events w) ++
             [EExec createTableSQL SQLITE_OK] ++
             index_events w ++
             [EUnlock db_mutex Exclusive]) (set_db true w)).
Proof.
  intros Hopen Htable.
  unfold initializeDatabase, index_events. rewrite Hopen.
  change (negb (SQLITE_OK =? SQLITE_OK)) with false. cbv iota.
  rewrite foldl_set_pragma.
  destruct (sqlite3_exec sq createTableSQL) as [rc errmsg]. cbn [fst] in Htable. subst rc.
  change (negb (SQLITE_OK =? SQLITE_OK)) with false. cbv iota.
  destruct (sqlite3_exec sq createIndexSQL) as [rc2 errmsg2]. cbn [fst snd].
  destruct (negb (rc2 =? SQLITE_OK)); f_equal; init_eq.
Qed.

Lemma initializeDatabase_table_fails db_file w :
  sqlite3_open sq db_file = SQLITE_OK →
  (sqlite3_exec sq createTableSQL).1 ≠ SQLITE_OK →
  initializeDatabase db_file w =
    (false,
     extend ([ELock db_mutex Exclusive; EOpen db_file SQLITE_OK] ++
             (pragmas ≫= pragma_events w) ++
             [EExec createTableSQL (sqlite3_exec sq createTableSQL).1] ++
             log_events ERROR ("Failed to create table: " +:+
                               (sqlite3_exec sq createTableSQL).2) w ++
             [EUnlock db_mutex Exclusive]) (set_db true w)).
Proof.
  intros Hopen Htable.
  unfold initializeDatabase. rewrite Hopen.
  change (negb (SQLITE_OK =? SQLITE_OK)) with false. cbv iota.
  rewrite foldl_set_pragma.
  destruct (sqlite3_exec sq createTableSQL) as [rc errmsg]. cbn [fst snd] in *.
  apply Z.eqb_neq in Htable. rewrite Htable. cbn [negb]. f_equal. init_eq.
Qed.

(** ** What reaches SQLite, and what a call leaves untouched *)

Lemma omap_loop_events {B} (f : Event → option B) d :
  (∀ e, loop_event e = true → f e = None) →
  Forall (λ e, loop_event e = true) d → omap f d = [].
Proof.
  intros Hf. induction 1 as [|e d He Hd IH]; [done|].
  simpl. by rewrite (Hf e He).
Qed.

Lemma sql_texts_loop e : loop_event e = true → sql_text e = None.
Proof. by destruct e. Qed.

Lemma bound_texts_loop e : loop_event e = true → bound_text e = None.
Proof. by destruct e. Qed.

Lemma loop_event_log_events level message w :
  Forall (λ e, loop_event e = true) (log_events level message w).
Proof. unfold log_events. repeat case_match; by repeat constructor. Qed.

Lemma sql_texts_log_events level message w : sql_texts (log_events level message w) = [].
Proof. apply omap_loop_events; [apply sql_texts_loop|apply loop_event_log_events]. Qed.

Lemma bound_texts_log_events level message w :
  bound_texts (log_events level message w) = [].
Proof. apply omap_loop_events; [apply bound_texts_loop|apply loop_event_log_events]. Qed.

Lemma write_loop_frame h : ∀ script r w rc w',
  write_loop h script r w = Some (rc, w') →
  ∃ d rest, w' = set_steps rest (extend d w) ∧ Forall (λ e, loop_event e = true) d.
Proof.
  induction script as [|[c row] script IH]; intros r w rc w' H; simpl in H; [done|].
  destruct ((c =? SQLITE_BUSY) && (r <? SQLITE_MAX_RETRIES)).
  - apply IH in H as (d & rest & -> & Hd).
    exists ([EStep h c] ++ log_events DEBUG (busy_message r) w ++
            [ESleep (backoff_ms r)] ++ d), rest.
    split; [world_eq|].
    repeat (apply Forall_app; split); try done; try by repeat constructor.
    apply loop_event_log_events.
  - injection H as <- <-. exists [EStep h c], script. split; [world_eq|].
    by repeat constructor.
Qed.

Lemma query_loop_frame h : ∀ script r res w res' w',
  query_loop h script r res w = Some (res', w') →
  ∃ d rest, w' = set_steps rest (extend d w) ∧ Forall (λ e, loop_event e = true) d.
Proof.
  induction script as [|[c row] script IH]; intros r res w res' w' H; simpl in H; [done|].
  destruct (c =? SQLITE_ROW).
  { apply IH in H as (d & rest & -> & Hd).
    exists ([ELock db_mutex Shared; EStep h c; EUnlock db_mutex Shared] ++ d), rest.
    split; [world_eq|]. apply Forall_app; split; [by repeat constructor|done]. }
  destruct ((c =? SQLITE_BUSY) && (r <? SQLITE_MAX_RETRIES)).
  { apply IH in H as (d & rest & -> & Hd).
    exists ([ELock db_mutex Shared; EStep h c; EUnlock db_mutex Shared] ++
            log_events DEBUG (busy_message r) w ++ [ESleep (backoff_ms r)] ++ d), rest.
    split; [world_eq|].
    repeat (apply Forall_app; split); try done; try by repeat constructor.
    apply loop_event_log_events. }
  destruct (c =? SQLITE_DONE); injection H as <- <-.
  - exists [ELock db_mutex Shared; EStep h c; EUnlock db_mutex Shared], script.
    split; [world_eq|]. by repeat constructor.
  - exists ([ELock db_mutex Shared; EStep h c; EUnlock db_mutex Shared] ++
            log_events ERROR ("Failed to execute query: " +:+ sqlite3_errmsg sq) w), script.
    split; [world_eq|]. apply Forall_app; split; [by repeat constructor|].
    apply loop_event_log_events.
Qed.

Lemma getPreparedStatement_texts sql w p w' :
  getPreparedStatement sql w = (p, w') →
  ∃ d, trace w' = trace w ++ d ∧
       sql_texts d = compiled_now w sql ∧ bound_texts d = [].
Proof.
  unfold getPreparedStatement, compiled_now. rewrite lookup_shared_eq.
  destruct (stmt_cache w !! sql) as [q|] eqn:Hc.
  - intros [= <- <-]. by eexists.
  - unfold compile_exclusive. simpl. rewrite Hc.
    destruct (sqlite3_prepare_v2 sq (prepare_calls w) sql) as [rc stmt].
    destruct (rc =? SQLITE_OK); simpl.
    + intros [= <- <-]. simpl. rewrite <- !app_assoc. by eexists.
    + rewrite log_extend. intros [= <- <-]. simpl. rewrite <- !app_assoc.
      eexists; split; [reflexivity|]. simpl.
      unfold sql_texts, bound_texts. rewrite !omap_app.
      fold (sql_texts (log_events ERROR
        ("Failed to prepare statement: " +:+ sqlite3_errmsg sq +:+ " for SQL: " +:+ sql) w)).
      fold (bound_texts (log_events ERROR
        ("Failed to prepare statement: " +:+ sqlite3_errmsg sq +:+ " for SQL: " +:+ sql) w)).
      by rewrite sql_texts_log_events, bound_texts_log_events.
Qed.

Lemma bind_params_texts h params : ∀ i w,
  ∃ ok n d, bind_params h i params w = (ok, extend d w) ∧
            sql_texts d = [] ∧ bound_texts d = take n params.
Proof.
  induction params as [|p params IH]; intros i w; simpl.
  - exists true, 0%nat, []. by rewrite extend_nil.
  - destruct (sqlite3_bind_text sq h (i + 1) p =? SQLITE_OK); simpl.
    + destruct (IH (i + 1) (emit (EBindText h (i + 1) p SQLITE_TRANSIENT
                                    (sqlite3_bind_text sq h (i + 1) p)) w))
        as (ok & n & d & -> & Hs & Hb).
      exists ok, (S n). eexists. rewrite emit_extend, extend_extend.
      split; [reflexivity|]. simpl. by rewrite Hs, Hb.
    + exists false, 1%nat. eexists. rewrite log_extend, emit_extend, extend_extend.
      split; [reflexivity|]. simpl.
      by rewrite sql_texts_log_events, bound_texts_log_events, take_0.
Qed.

Lemma sql_texts_app d1 d2 : sql_texts (d1 ++ d2) = sql_texts d1 ++ sql_texts d2.
Proof. apply omap_app. Qed.

Lemma bound_texts_app d1 d2 : bound_texts (d1 ++ d2) = bound_texts d1 ++ bound_texts d2.
Proof. apply omap_app. Qed.

Lemma executeSQLWithParams_frame sql params w res w' :
  executeSQLWithParams sql params w = Some (res, w') →
  db w' = db w ∧ log_file_is_open w' = log_file_is_open w ∧
  current_log_level w' = current_log_level w ∧ running w' = running w ∧
  passes_template sql params w w'.
Proof.
  unfold executeSQLWithParams, passes_template. rewrite log_extend.
  set (d0 := log_events _ _ w).
  destruct (getPreparedStatement sql (extend d0 w)) as [p w1] eqn:Hg.
  destruct (getPreparedStatement_frame _ _ _ _ Hg) as (_ & _ & _ & _ & Ho & Hl & Hdb & Hr).
  destruct (getPreparedStatement_texts _ _ _ _ Hg) as (dg & Htr & Hsg & Hbg).
  change (compiled_now (extend d0 w) sql) with (compiled_now w sql) in Hsg.
  simpl in Ho, Hl, Hdb, Hr, Htr.
  assert (sql_texts d0 = [] ∧ bound_texts d0 = []) as [Hs0 Hb0].
  { split; [apply sql_texts_log_events|apply bound_texts_log_events]. }
  destruct p as [stmt|]; cycle 1.
  { intros [= <- <-]. repeat (split; [done|]). exists (d0 ++ dg), 0%nat.
    rewrite Htr, <- app_assoc. split; [done|].
    by rewrite sql_texts_app, bound_texts_app, Hs0, Hb0, Hsg, Hbg, take_0. }
  destruct (bind_params_texts stmt params 0
              (emit (EClearBindings stmt) (emit (EReset stmt) w1)))
    as (ok & n & dbind & -> & Hsb & Hbb).
  destruct ok; cycle 1.
  { intros [= <- <-]. simpl. repeat (split; [done|]).
    exists (d0 ++ dg ++ [EReset stmt; EClearBindings stmt] ++ dbind), n.
    split; [simpl; rewrite Htr, <- !app_assoc; done|].
    rewrite !sql_texts_app, !bound_texts_app, Hs0, Hb0, Hsg, Hbg, Hsb, Hbb.
    by rewrite ?app_nil_r. }
  destruct (write_loop _ _ _ _) as [[rc w2]|] eqn:Hw; [|done].
  apply write_loop_frame in Hw as (dl & rest & -> & Hdl).
  pose proof (omap_loop_events sql_text dl sql_texts_loop Hdl) as Hsl.
  pose proof (omap_loop_events bound_text dl bound_texts_loop Hdl) as Hbl.
  fold (sql_texts dl) in Hsl. fold (bound_texts dl) in Hbl.
  set (dlog := if negb (rc =? SQLITE_DONE)
               then log_events ERROR ("Failed to execute SQL: " +:+ sqlite3_errmsg sq) w1
               else []).
  assert (sql_texts dlog = [] ∧ bound_texts dlog = []) as [Hslog Hblog].
  { unfold dlog. destruct (negb _); [|done].
    split; [apply sql_texts_log_events|apply bound_texts_log_events]. }
  intros H.
  assert (db w' = db w ∧ log_file_is_open w' = log_file_is_open w ∧
          current_log_level w' = current_log_level w ∧ running w' = running w ∧
          trace w' = trace w ++ d0 ++ dg ++ [EReset stmt; EClearBindings stmt] ++ dbind ++
                     [ELock db_mutex Exclusive] ++ dl ++
                     [EUnlock db_mutex Exclusive] ++ dlog) as (? & ? & ? & ? & Htr').
  { unfold dlog. destruct (negb (rc =? SQLITE_DONE)); injection H as <- <-;
      rewrite ?log_extend; simpl; rewrite Htr; rewrite <- !app_assoc; done. }
  repeat (split; [done|]).
  eexists _, n. split; [exact Htr'|].
  rewrite !sql_texts_app, !bound_texts_app, Hs0, Hb0, Hsg, Hbg, Hsb, Hbb, Hsl, Hbl,
    Hslog, Hblog.
  by rewrite ?app_nil_r.
Qed.

Lemma executeQuery_frame sql params w res w' :
  executeQuery sql params w = Some (res, w') →
  db w' = db w ∧ log_file_is_open w' = log_file_is_open w ∧
  current_log_level w' = current_log_level w ∧ running w' = running w ∧
  passes_template sql params w w'.
Proof.
  unfold executeQuery, passes_template. rewrite log_extend.
  set (d0 := log_events _ _ w).
  destruct (getPreparedStatement sql (extend d0 w)) as [p w1] eqn:Hg.
  destruct (getPreparedStatement_frame _ _ _ _ Hg) as (_ & _ & _ & _ & Ho & Hl & Hdb & Hr).
  destruct (getPreparedStatement_texts _ _ _ _ Hg) as (dg & Htr & Hsg & Hbg).
  change (compiled_now (extend d0 w) sql) with (compiled_now w sql) in Hsg.
  simpl in Ho, Hl, Hdb, Hr, Htr.
  assert (sql_texts d0 = [] ∧ bound_texts d0 = []) as [Hs0 Hb0].
  { split; [apply sql_texts_log_events|apply bound_texts_log_events]. }
  destruct p as [stmt|]; cycle 1.
  { intros [= <- <-]. repeat (split; [done|]). exists (d0 ++ dg), 0%nat.
    rewrite Htr, <- app_assoc. split; [done|].
    by rewrite sql_texts_app, bound_texts_app, Hs0, Hb0, Hsg, Hbg, take_0. }
  destruct (bind_params_texts stmt params 0
              (emit (EClearBindings stmt) (emit (EReset stmt) w1)))
    as (ok & n & dbind & -> & Hsb & Hbb).
  destruct ok; cycle 1.
  { intros [= <- <-]. simpl. repeat (split; [done|]).
    exists (d0 ++ dg ++ [EReset stmt; EClearBindings stmt] ++ dbind), n.
    split; [simpl; rewrite Htr, <- !app_assoc; done|].
    rewrite !sql_texts_app, !bound_texts_app, Hs0, Hb0, Hsg, Hbg, Hsb, Hbb.
    by rewrite ?app_nil_r. }
  destruct (query_loop _ _ _ _ _) as [[results w2]|] eqn:Hq; [|done].
  apply query_loop_frame in Hq as (dl & rest & -> & Hdl).
  pose proof (omap_loop_events sql_text dl sql_texts_loop Hdl) as Hsl.
  pose proof (omap_loop_events bound_text dl bound_texts_loop Hdl) as Hbl.
  fold (sql_texts dl) in Hsl. fold (bound_texts dl) in Hbl.
  rewrite log_result_count_extend. set (dlog := result_count_events _ _).
  assert (sql_texts dlog = [] ∧ bound_texts dlog = []) as [Hslog Hblog].
  { unfold dlog, result_count_events.
    case_match; (split; [apply sql_texts_log_events|apply bound_texts_log_events]). }
  intros [= <- <-]. simpl. repeat (split; [done|]).
  exists (d0 ++ dg ++ [EReset stmt; EClearBindings stmt] ++ dbind ++ dl ++ dlog), n.
  rewrite Htr, <- !app_assoc. split; [done|].
  rewrite !sql_texts_app, !bound_texts_app, Hs0, Hb0, Hsg, Hbg, Hsb, Hbb, Hsl, Hbl,
    Hslog, Hblog.
  by rewrite ?app_nil_r.
Qed.

Lemma passes_template_wrap sql params w d0 w1 d2 :
  sql_texts d0 = [] → bound_texts d0 = [] →
  sql_texts d2 = [] → bound_texts d2 = [] →
  passes_template sql params (extend d0 w) w1 →
  passes_template sql params w (extend d2 w1).
Proof.
  intros Hs0 Hb0 Hs2 Hb2 (d & n & Htr & Hs & Hb).
  exists (d0 ++ d ++ d2), n. simpl in *. rewrite Htr, <- !app_assoc. split; [done|].
  rewrite !sql_texts_app, !bound_texts_app, Hs0, Hb0, Hs2, Hb2, Hs, Hb.
  by rewrite ?app_nil_r.
Qed.

Lemma passes_template_same_sql sql params1 params2 w w1 w2 :
  passes_template sql params1 w w1 → passes_template sql params2 w w2 →
  sql_requested w w1 = sql_requested w w2.
Proof.
  intros (d1 & n1 & Htr1 & Hs1 & _) (d2 & n2 & Htr2 & Hs2 & _).
  unfold sql_requested. rewrite Htr1, Htr2, !drop_app_length. congruence.
Qed.

(** A tactic for the five record operations: each is a log line, one call
    of the engine, and console output. *)
Ltac operation_frame lemma :=
  rewrite log_extend;
  match goal with
  | |- context [executeSQLWithParams ?s ?ps ?w0] =>
      destruct (executeSQLWithParams s ps w0) as [[[] w1]|] eqn:He; [| |done]
  | |- context [executeQuery ?s ?ps ?w0] =>
      destruct (executeQuery s ps w0) as [[[|b bs] w1]|] eqn:He; [| |done]
  end;
  match goal with
  | H : _ = Some _ |- _ => apply lemma in H as (Hdb & Ho & _ & _ & Hpt)
  end;
  intros [= <-]; subst; rewrite ?log_extend, ?emit_extend, ?extend_extend;
  (split; [assumption|]); (split; [assumption|]);
  (eapply passes_template_wrap; [| | | |eassumption]);
  first [ apply sql_texts_log_events | apply bound_texts_log_events
        | rewrite sql_texts_app, sql_texts_log_events; reflexivity
        | rewrite bound_texts_app, bound_texts_log_events; reflexivity
        | reflexivity ].

Lemma addBook_frame id title author w r w' :
  addBook id title author w = Some (r, w') →
  db w' = db w ∧ log_file_is_open w' = log_file_is_open w ∧
  passes_template "INSERT INTO books (id, title, author) VALUES (?, ?, ?);"
                  [to_string id; title; author] w w'.
Proof. unfold addBook. operation_frame executeSQLWithParams_frame. Qed.

Lemma deleteBook_frame id w r w' :
  deleteBook id w = Some (r, w') →
  db w' = db w ∧ log_file_is_open w' = log_file_is_open w ∧
  passes_template "DELETE FROM books WHERE id = ?;" [to_string id] w w'.
Proof. unfold deleteBook. operation_frame executeSQLWithParams_frame. Qed.

Lemma updateBook_frame id newTitle newAuthor w r w' :
  updateBook id newTitle newAuthor w = Some (r, w') →
  db w' = db w ∧ log_file_is_open w' = log_file_is_open w ∧
  passes_template "UPDATE books SET title = ?, author = ? WHERE id = ?;"
                  [newTitle; newAuthor; to_string id] w w'.
Proof. unfold updateBook. operation_frame executeSQLWithParams_frame. Qed.

Lemma searchBook_frame keyword w r w' :
  searchBook keyword w = Some (r, w') →
  db w' = db w ∧ log_file_is_open w' = log_file_is_open w ∧
  passes_template "SELECT * FROM books WHERE title LIKE ? OR author LIKE ? ORDER BY id;"
                  ["%" +:+ keyword +:+ "%"; "%" +:+ keyword +:+ "%"] w w'.
Proof. unfold searchBook. operation_frame executeQuery_frame. Qed.

Lemma displayBooks_frame w w' :
  displayBooks w = Some w' →
  db w' = db w ∧ log_file_is_open w' = log_file_is_open w ∧
  passes_template "SELECT * FROM books ORDER BY id;" [] w w'.
Proof. unfold displayBooks. operation_frame executeQuery_frame. Qed.

(** C9: each of the five record operations hands SQLite one constant SQL
    template, and only when that template is not yet cached; the argument
    values reach SQLite only as bound parameters, in the order of the
    parameter list.  So two runs of an operation from the same state with
    different arguments hand SQLite the same SQL texts. *)
Theorem record_operations_fixed_sql w :
  (∀ id title author r w', addBook id title author w = Some (r, w') →
     passes_template "INSERT INTO books (id, title, author) VALUES (?, ?, ?);"
                     [to_string id; title; author] w w') ∧
  (∀ id r w', deleteBook id w = Some (r, w') →
     passes_template "DELETE FROM books WHERE id = ?;" [to_string id] w w') ∧
  (∀ id newTitle newAuthor r w', updateBook id newTitle newAuthor w = Some (r, w') →
     passes_template "UPDATE books SET title = ?, author = ? WHERE id = ?;"
                     [newTitle; newAuthor; to_string id] w w') ∧
  (∀ keyword r w', searchBook keyword w = Some (r, w') →
     passes_template
       "SELECT * FROM books WHERE title LIKE ? OR author LIKE ? ORDER BY id;"
       ["%" +:+ keyword +:+ "%"; "%" +:+ keyword +:+ "%"] w w') ∧
  (∀ w', displayBooks w = Some w' →
     passes_template "SELECT * FROM books ORDER BY id;" [] w w') ∧
  (∀ id1 title1 author1 id2 title2 author2 r1 r2 w1 w2,
     addBook id1 title1 author1 w = Some (r1, w1) →
     addBook id2 title2 author2 w = Some (r2, w2) →
     sql_requested w w1 = sql_requested w w2) ∧
  (∀ id1 id2 r1 r2 w1 w2,
     deleteBook id1 w = Some (r1, w1) → deleteBook id2 w = Some (r2, w2) →
     sql_requested w w1 = sql_requested w w2) ∧
  (∀ id1 title1 author1 id2 title2 author2 r1 r2 w1 w2,
     updateBook id1 title1 author1 w = Some (r1, w1) →
     updateBook id2 title2 author2 w = Some (r2, w2) →
     sql_requested w w1 = sql_requested w w2) ∧
  (∀ keyword1 keyword2 r1 r2 w1 w2,
     searchBook keyword1 w = Some (r1, w1) → searchBook keyword2 w = Some (r2, w2) →
     sql_requested w w1 = sql_requested w w2).
Proof.
  repeat split.
  - intros ????? H. by apply addBook_frame in H as (_ & _ & ?).
  - intros ??? H. by apply deleteBook_frame in H as (_ & _ & ?).
  - intros ????? H. by apply updateBook_frame in H as (_ & _ & ?).
  - intros ??? H. by apply searchBook_frame in H as (_ & _ & ?).
  - intros ? H. by apply displayBooks_frame in H as (_ & _ & ?).
  - intros ?????????? H1 H2.
    apply addBook_frame in H1 as (_ & _ & H1). apply addBook_frame in H2 as (_ & _ & H2).
    by eapply passes_template_same_sql.
  - intros ?????? H1 H2.
    apply deleteBook_frame in H1 as (_ & _ & H1).
    apply deleteBook_frame in H2 as (_ & _ & H2).
    by eapply passes_template_same_sql.
  - intros ?????????? H1 H2.
    apply updateBook_frame in H1 as (_ & _ & H1).
    apply updateBook_frame in H2 as (_ & _ & H2).
    by eapply passes_template_same_sql.
  - intros ?????? H1 H2.
    apply searchBook_frame in H1 as (_ & _ & H1).
    apply searchBook_frame in H2 as (_ & _ & H2).
    by eapply passes_template_same_sql.
Qed.

(** ** Teardown *)

Lemma foldl_finalize_entry l : ∀ w,
  foldl finalize_entry w l = extend (omap finalize_event l) w.
Proof.
  induction l as [|[sql [h|]] l IH]; intros w; simpl.
  - by rewrite extend_nil.
  - unfold finalize_entry at 2. simpl. by rewrite IH, emit_extend, extend_extend.
  - unfold finalize_entry at 2. simpl. by rewrite IH.
Qed.

Lemma cache_iteration_Permutation c : cache_iteration c ≡ₚ map_to_list c.
Proof. apply merge_sort_Permutation. Qed.

Lemma elem_of_cache_iteration c sql v :
  (sql, v) ∈ cache_iteration c ↔ c !! sql = Some v.
Proof. rewrite cache_iteration_Permutation. apply elem_of_map_to_list. Qed.

Lemma finalize_events_all (c : gmap string (option sqlite3_stmt)) sql h :
  c !! sql = Some (Some h) → EFinalize h ∈ finalize_events c.
Proof.
  intros Hc. apply list_elem_of_omap. exists (sql, Some h). split; [|done].
  by apply elem_of_cache_iteration.
Qed.

Lemma set_log_file_is_open_id w :
  log_file_is_open w = false → set_log_file_is_open false w = w.
Proof. destruct w. simpl. by intros ->. Qed.

Lemma BookArchive_dtor_eq w :
  db w = true →
  BookArchive_dtor w =
    set_log_file_is_open false (set_db false (set_stmt_cache ∅
      (extend (log_events INFO "Shutting down Book Archive" w ++
               [ELock stmt_cache_mutex Exclusive] ++ finalize_events (stmt_cache w) ++
               [EUnlock stmt_cache_mutex Exclusive; EClose] ++
               (if log_file_is_open w then [ELogClose] else [])) w))).
Proof.
  intros Hdb. unfold BookArchive_dtor, cleanupStatements.
  rewrite log_extend.
  set (dlog := log_events INFO "Shutting down Book Archive" w).
  change (stmt_cache (emit (ELock stmt_cache_mutex Exclusive) (extend dlog w)))
    with (stmt_cache w).
  rewrite foldl_finalize_entry. fold (finalize_events (stmt_cache w)).
  set (fin := finalize_events (stmt_cache w)).
  set (w1 := emit (EUnlock stmt_cache_mutex Exclusive) _).
  change (db w1) with (db w). rewrite Hdb.
  change (log_file_is_open (set_db false (emit EClose w1))) with (log_file_is_open w).
  assert (w1 = set_stmt_cache ∅
                 (extend (dlog ++ [ELock stmt_cache_mutex Exclusive] ++ fin ++
                          [EUnlock stmt_cache_mutex Exclusive]) w)) as ->.
  { unfold w1. rewrite !emit_extend.
    change (extend ?d (set_stmt_cache ?c ?x)) with (set_stmt_cache c (extend d x)).
    by rewrite !extend_extend, <- ?app_assoc. }
  rewrite !emit_extend.
  change (extend ?d (set_stmt_cache ?c ?x)) with (set_stmt_cache c (extend d x)).
  rewrite extend_extend.
  destruct (log_file_is_open w) eqn:Hopen.
  - change (extend ?d (set_db ?b ?x)) with (set_db b (extend d x)).
    change (extend ?d (set_stmt_cache ?c ?x)) with (set_stmt_cache c (extend d x)).
    rewrite extend_extend. do 4 f_equal. by rewrite <- ?app_assoc.
  - rewrite app_nil_r, set_log_file_is_open_id by done.
    do 3 f_equal. by rewrite <- ?app_assoc.
Qed.

Lemma processCommand_frame c w w' :
  processCommand c w = Some w' →
  db w' = db w ∧ log_file_is_open w' = log_file_is_open w.
Proof.
  destruct c; simpl.
  - destruct (addBook _ _ _ _) as [[r w1]|] eqn:H; [|done]. intros [= <-].
    by apply addBook_frame in H as (? & ? & _).
  - destruct (deleteBook _ _) as [[r w1]|] eqn:H; [|done]. intros [= <-].
    by apply deleteBook_frame in H as (? & ? & _).
  - destruct (updateBook _ _ _ _) as [[r w1]|] eqn:H; [|done]. intros [= <-].
    by apply updateBook_frame in H as (? & ? & _).
  - destruct (searchBook _ _) as [[r w1]|] eqn:H; [|done]. intros [= <-].
    by apply searchBook_frame in H as (? & ? & _).
  - intros H. by apply displayBooks_frame in H as (? & ? & _).
  - by intros [= <-].
  - by intros [= <-].
  - unfold setLogLevel. destruct DEBUG_MODE; [|by intros [= <-]].
    destruct (current_log_level w); intros [= <-]; by rewrite log_extend.
  - by intros [= <-].
  - by intros [= <-].
  - intros [= <-]. by rewrite log_extend.
Qed.

Lemma run_loop_frame input : ∀ w w',
  run_loop input w = Some w' →
  db w' = db w ∧ log_file_is_open w' = log_file_is_open w.
Proof.
  induction input as [|c input IH]; intros w w'; simpl.
  - destruct (running w); by intros [= <-].
  - destruct (running w); simpl; [|by intros [= <-]].
    destruct (processCommand c _) as [w1|] eqn:Hc; [|done].
    intros H. apply IH in H as [-> ->]. by apply processCommand_frame in Hc as [-> ->].
Qed.

Lemma BookArchive_ctor_db db_file log_level w w1 :
  BookArchive_ctor db_file log_level w = (None, w1) → db w1 = true.
Proof.
  unfold BookArchive_ctor.
  destruct (initializeDatabase db_file _) as [[] w2] eqn:Hinit; [|by case_match].
  rewrite !log_extend. intros [= <-]. simpl.
  revert Hinit. unfold initializeDatabase.
  destruct (negb (sqlite3_open sq db_file =? SQLITE_OK)); [done|].
  rewrite foldl_set_pragma.
  destruct (sqlite3_exec sq createTableSQL) as [rc errmsg].
  destruct (negb (rc =? SQLITE_OK)); [done|].
  destruct (sqlite3_exec sq createIndexSQL) as [rc2 errmsg2].
  destruct (negb (rc2 =? SQLITE_OK)); rewrite ?log_extend; by intros [= <-].
Qed.

(** ** The statement cache under concurrent callers *)

Lemma thread_run_step fuel sql p w p' w' :
  thread_step sql p w = Some (p', w') →
  thread_run (S fuel) sql p w = thread_run fuel sql p' w'.
Proof. intros H. destruct p; cbn [thread_run]; try (by rewrite H). done. Qed.

(** One operation of a caller running alone. *)
Ltac run_step :=
  erewrite thread_run_step; [|cbn [thread_step]; reflexivity];
  repeat change (stmt_cache (emit ?e ?x)) with (stmt_cache x).

(** A caller running alone makes [getPreparedStatement]. *)
Lemma thread_run_alone sql w :
  thread_run 8 sql Start w = Some (getPreparedStatement sql w).
Proof.
  unfold getPreparedStatement, lookup_shared, compile_exclusive.
  repeat change (stmt_cache (emit ?e ?x)) with (stmt_cache x).
  do 2 run_step.
  destruct (stmt_cache w !! sql) as [r|] eqn:Hc; run_step; [reflexivity|].
  do 2 run_step. rewrite Hc. cbv zeta.
  set (w3 := emit (ELock stmt_cache_mutex Exclusive) _).
  destruct (sqlite3_prepare_v2 sq (prepare_calls w3) sql) as [rc stmt] eqn:Hp.
  erewrite thread_run_step; [|cbn [thread_step]; rewrite Hp; reflexivity].
  destruct (negb (rc =? SQLITE_OK)) eqn:Hrc;
    (erewrite thread_run_step; [|cbn [thread_step]; rewrite Hrc; reflexivity]);
    run_step; reflexivity.
Qed.

Lemma compilations_app sql d1 d2 :
  compilations sql (d1 ++ d2) = (compilations sql d1 + compilations sql d2)%nat.
Proof.
  unfold compilations, prepare_results. by rewrite omap_app, filter_app, length_app.
Qed.

Lemma compilations_log_events sql level message w :
  compilations sql (log_events level message w) = 0%nat.
Proof. unfold log_events. repeat case_match; reflexivity. Qed.

Lemma compilations_prepare sql s rc :
  compilations sql [EPrepare s rc] =
    if bool_decide (s = sql) && (rc =? SQLITE_OK) then 1%nat else 0%nat.
Proof.
  unfold compilations, prepare_results. simpl.
  case_bool_decide; simpl; [|done].
  rewrite filter_cons. case_decide as Hrc.
  - apply Z.eqb_eq in Hrc. by rewrite Hrc.
  - apply Z.eqb_neq in Hrc. by rewrite Hrc.
Qed.

Lemma appended_app w w' d : trace w' = trace w ++ d → appended w w' = d.
Proof. intros H. unfold appended. by rewrite H, drop_app_length. Qed.

Lemma lookup_insert_cases (ts : list Thread) (i j : nat) t' tj :
  <[i := t']> ts !! j = Some tj →
  (j = i ∧ tj = t') ∨ (j ≠ i ∧ ts !! j = Some tj).
Proof.
  intros H. destruct (decide (j = i)) as [->|Hne].
  - left. split; [done|].
    assert (i < length ts)%nat as Hlt.
    { apply lookup_lt_Some in H. by rewrite length_insert in H. }
    rewrite list_lookup_insert_eq in H by done. congruence.
  - right. split; [done|]. by rewrite list_lookup_insert_ne in H.
Qed.

(** What the locks of the other callers permitted. *)
Lemma permitted_spec (ts : list Thread) (i j : nat) tj d :
  permitted (holds <$> delete i ts) d = true →
  j ≠ i → ts !! j = Some tj → forallb (compatible (holds tj)) d = true.
Proof.
  intros Hp Hne Hj. unfold permitted in Hp.
  rewrite List.forallb_forall in Hp. apply Hp.
  apply list_elem_of_In, list_elem_of_fmap_2.
  destruct (decide (j < i)%nat) as [Hlt|Hge].
  - apply (list_elem_of_lookup_2 _ j). by rewrite list_lookup_delete_lt.
  - destruct j as [|j]; [lia|].
    apply (list_elem_of_lookup_2 _ j). rewrite list_lookup_delete_ge by lia. done.
Qed.

Lemma locks_at_cases p :
  locks_at p = [] ∧ in_shared_block p = false ∧ in_exclusive_block p = false ∨
  locks_at p = [(stmt_cache_mutex, Shared)] ∧ in_shared_block p = true ∨
  locks_at p = [(stmt_cache_mutex, Exclusive)] ∧ in_exclusive_block p = true.
Proof. destruct p; simpl; auto. Qed.

(** A caller that takes the lock exclusively found no other caller
    holding it. *)
Lemma exclusive_permitted p d :
  ELock stmt_cache_mutex Exclusive ∈ d →
  forallb (compatible (locks_at p)) d = true → locks_at p = [].
Proof.
  intros Hin Hc. rewrite List.forallb_forall in Hc.
  apply list_elem_of_In, Hc in Hin. by destruct p.
Qed.

(** A caller that takes the lock shared found no other caller holding it
    exclusively. *)
Lemma shared_permitted p d :
  ELock stmt_cache_mutex Shared ∈ d →
  forallb (compatible (locks_at p)) d = true →
  (stmt_cache_mutex, Exclusive) ∉ locks_at p.
Proof.
  intros Hin Hc. rewrite List.forallb_forall in Hc.
  apply list_elem_of_In, Hc in Hin. simpl in Hin.
  apply negb_true_iff, bool_decide_eq_false in Hin. done.
Qed.

(** The locks of the callers after a step of one of them that left the
    others with what they held. *)
Lemma exclusion_step (ts : list Thread) (i : nat) t t' :
  ts !! i = Some t →
  (∀ (j : nat) tj, ts !! j = Some tj → holds tj = locks_at (at_pc tj)) →
  (∀ (a b : nat) ta tb, a ≠ b → ts !! a = Some ta → ts !! b = Some tb →
     (stmt_cache_mutex, Exclusive) ∈ holds ta → holds tb = []) →
  holds t' = holds t ∨ holds t' = [] ∨
    (holds t' = [(stmt_cache_mutex, Exclusive)] ∧
     ∀ (j : nat) tj, j ≠ i → ts !! j = Some tj → holds tj = []) ∨
    (holds t' = [(stmt_cache_mutex, Shared)] ∧
     ∀ (j : nat) tj, j ≠ i → ts !! j = Some tj → (stmt_cache_mutex, Exclusive) ∉ holds tj) →
  ∀ (a b : nat) ta tb, a ≠ b → <[i := t']> ts !! a = Some ta → <[i := t']> ts !! b = Some tb →
    (stmt_cache_mutex, Exclusive) ∈ holds ta → holds tb = [].
Proof.
  intros Hi Hloc Hexcl Hnew a b ta tb Hab Ha Hb Hin.
  apply lookup_insert_cases in Ha as [[-> ->]|[Hai Ha]];
    apply lookup_insert_cases in Hb as [[-> ->]|[Hbi Hb]].
  - done.
  - destruct Hnew as [Heq|[Hnil|[[Hex Hfree]|[Hsh _]]]].
    + rewrite Heq in Hin. by apply (Hexcl i b t tb).
    + rewrite Hnil in Hin. by apply elem_of_nil in Hin.
    + by apply (Hfree b).
    + rewrite Hsh in Hin. apply list_elem_of_singleton in Hin. done.
  - destruct Hnew as [Heq|[Hnil|[[Hex Hfree]|[Hsh Hfree]]]].
    + rewrite Heq. by apply (Hexcl a i ta t).
    + done.
    + rewrite (Hfree a ta) in Hin by done. by apply elem_of_nil in Hin.
    + by destruct (Hfree a ta).
  - by apply (Hexcl a b ta tb).
Qed.

(** A step that neither compiles nor inserts. *)
Lemma cache_inv_quiet w (ts : list Thread) (i : nat) t t' w' d :
  cache_inv (w, ts) → ts !! i = Some t →
  trace w' = trace w ++ d → (∀ s, compilations s d = 0%nat) →
  stmt_cache w' = stmt_cache w →
  request t' = request t →
  holds t' = locks_at (at_pc t') → pc_inv w' t' →
  (∀ stmt, at_pc t ≠ Compiled SQLITE_OK stmt) →
  (∀ rc stmt, at_pc t' ≠ Compiled rc stmt) →
  holds t' = holds t ∨ holds t' = [] ∨
    (holds t' = [(stmt_cache_mutex, Exclusive)] ∧
     ∀ (j : nat) tj, j ≠ i → ts !! j = Some tj → holds tj = []) ∨
    (holds t' = [(stmt_cache_mutex, Shared)] ∧
     ∀ (j : nat) tj, j ≠ i → ts !! j = Some tj → (stmt_cache_mutex, Exclusive) ∉ holds tj) →
  cache_inv (w', <[i := t']> ts).
Proof.
  intros (Hloc & Hexcl & Hcomp & Hmiss & Hhit) Hi Htr Hd Hcache Hreq Hheld Hpc Hnot Hnot'
    Hnew.
  cbn [fst snd] in *.
  assert (∀ s, compilations s (trace w') = compilations s (trace w)) as Hsame.
  { intros s. by rewrite Htr, compilations_app, Hd, Nat.add_0_r. }
  split; [|split; [|split; [|split]]]; cbn [fst snd].
  - intros j tj Hj. apply lookup_insert_cases in Hj as [[-> ->]|[Hne Hj]]; [done|].
    destruct (Hloc j tj Hj) as [Hh Hp]. split; [done|].
    unfold pc_inv in *. destruct (at_pc tj) as [| |[[?|]|]| | | |? ?|[?|]|[?|]];
      rewrite ?Hcache, ?Hsame; exact Hp.
  - eapply exclusion_step; [exact Hi| |exact Hexcl|exact Hnew].
    intros j tj Hj. by apply Hloc in Hj as [? _].
  - intros s. rewrite Hsame. apply Hcomp.
  - intros s Hs. rewrite Hcache in Hs. rewrite Hsame.
    destruct (Hmiss s Hs) as [?|(k & tk & stmt & Hk & Hrk & Hpk)]; [by left|right].
    exists k, tk, stmt. split; [|done].
    destruct (decide (k = i)) as [->|Hne]; [|by rewrite list_lookup_insert_ne].
    rewrite Hi in Hk. injection Hk as <-. by destruct (Hnot stmt).
  - intros s Hs. rewrite Hcache in Hs. rewrite Hsame. by apply Hhit.
Qed.

(** Two callers are never both inside the exclusive block. *)
Lemma alone_in_exclusive_block w (ts : list Thread) (i k : nat) t tk :
  cache_inv (w, ts) → ts !! i = Some t → ts !! k = Some tk →
  in_exclusive_block (at_pc t) = true → in_exclusive_block (at_pc tk) = true → k = i.
Proof.
  intros (Hloc & Hexcl & _) Hi Hk Ht Htk. cbn [fst snd] in *.
  destruct (decide (k = i)) as [|Hne]; [done|exfalso].
  destruct (Hloc i t Hi) as [Hh _]. destruct (Hloc k tk Hk) as [Hhk _].
  assert (holds tk = []) as Hnil.
  { apply (Hexcl i k t tk); [done..|]. rewrite Hh. destruct (at_pc t); try done; in_list. }
  rewrite Hhk in Hnil. by destruct (at_pc tk).
Qed.

(** The compilation. *)
Lemma cache_inv_compile w (ts : list Thread) (i : nat) t rc stmt w' :
  cache_inv (w, ts) → ts !! i = Some t → at_pc t = Compiling →
  trace w' = trace w ++ [EPrepare (request t) rc] →
  stmt_cache w' = stmt_cache w →
  cache_inv (w', <[i := mkThread (request t) (Compiled rc stmt) (holds t)]> ts).
Proof.
  intros Hinv Hi Hp Htr Hcache.
  pose proof Hinv as (Hloc & Hexcl & Hcomp & Hmiss & Hhit). cbn [fst snd] in *.
  destruct (Hloc i t Hi) as [Hh Hpc]. unfold pc_inv in Hpc. rewrite Hp in Hpc, Hh.
  assert (in_exclusive_block (at_pc t) = true) as Hin by (by rewrite Hp).
  assert (compilations (request t) (trace w) = 0%nat) as Hzero.
  { destruct (Hmiss _ Hpc) as [?|(k & tk & stmt' & Hk & Hrk & Hpk)]; [done|exfalso].
    assert (k = i) as ->.
    { eapply alone_in_exclusive_block; [exact Hinv|exact Hi|exact Hk|by rewrite Hp|
        by rewrite Hpk]. }
    rewrite Hi in Hk. injection Hk as <-. by rewrite Hp in Hpk. }
  assert (∀ s, compilations s (trace w') =
               (compilations s (trace w) +
                if bool_decide (request t = s) && (rc =? SQLITE_OK)%Z then 1 else 0)%nat)
    as Hcount.
  { intros s. by rewrite Htr, compilations_app, compilations_prepare. }
  split; [|split; [|split; [|split]]]; cbn [fst snd].
  - intros j tj Hj. apply lookup_insert_cases in Hj as [[-> ->]|[Hne Hj]].
    + split; [done|]. unfold pc_inv. cbn [at_pc request]. rewrite Hcache.
      split; [done|]. intros ->. rewrite Hcount, Hzero.
      by rewrite bool_decide_eq_true_2.
    + destruct (Hloc j tj Hj) as [Hhj Hpj]. split; [done|].
      unfold pc_inv in *. destruct (at_pc tj) as [| |[[?|]|]| | | |? ?|[?|]|[?|]] eqn:Hpj';
        rewrite ?Hcache; try exact Hpj;
        (exfalso; apply Hne; eapply alone_in_exclusive_block;
         [exact Hinv|exact Hi|exact Hj|exact Hin|by rewrite Hpj']).
  - eapply exclusion_step; [exact Hi| |exact Hexcl|by left].
    intros j tj Hj. by apply Hloc in Hj as [? _].
  - intros s. rewrite Hcount. case_bool_decide as Hs; simpl.
    + subst s. rewrite Hzero. destruct (rc =? SQLITE_OK); lia.
    + rewrite Nat.add_0_r. apply Hcomp.
  - intros s Hs. rewrite Hcache in Hs. rewrite Hcount.
    case_bool_decide as Hrs; simpl.
    + subst s. rewrite Hzero. destruct (rc =? SQLITE_OK) eqn:Hrc; [right|by left].
      apply Z.eqb_eq in Hrc. subst rc.
      exists i, (mkThread (request t) (Compiled SQLITE_OK stmt) (holds t)), stmt.
      split; [|done]. apply list_lookup_insert_eq. by eapply lookup_lt_Some.
    + rewrite Nat.add_0_r.
      destruct (Hmiss s Hs) as [?|(k & tk & stmt' & Hk & Hrk & Hpk)]; [by left|right].
      exists k, tk, stmt'. split; [|done].
      destruct (decide (k = i)) as [->|Hne]; [|by rewrite list_lookup_insert_ne].
      rewrite Hi in Hk. injection Hk as <-. done.
  - intros s Hs. rewrite Hcache in Hs. rewrite Hcount.
    case_bool_decide as Hrs; simpl.
    + subst s. rewrite Hpc in Hs. by destruct Hs.
    + rewrite Nat.add_0_r. by apply Hhit.
Qed.

(** The insertion. *)
Lemma cache_inv_insert w (ts : list Thread) (i : nat) t stmt w' :
  cache_inv (w, ts) → ts !! i = Some t → at_pc t = Compiled SQLITE_OK stmt →
  trace w' = trace w →
  stmt_cache w' = <[request t := stmt]> (stmt_cache w) →
  cache_inv (w', <[i := mkThread (request t) (Leaving stmt) (holds t)]> ts).
Proof.
  intros Hinv Hi Hp Htr Hcache.
  pose proof Hinv as (Hloc & Hexcl & Hcomp & Hmiss & Hhit). cbn [fst snd] in *.
  destruct (Hloc i t Hi) as [Hh Hpc]. unfold pc_inv in Hpc. rewrite Hp in Hpc, Hh.
  destruct Hpc as [Hnone Hone]. specialize (Hone eq_refl).
  assert (in_exclusive_block (at_pc t) = true) as Hin by (by rewrite Hp).
  split; [|split; [|split; [|split]]]; cbn [fst snd]; rewrite ?Htr.
  - intros j tj Hj. apply lookup_insert_cases in Hj as [[-> ->]|[Hne Hj]].
    + split; [done|]. unfold pc_inv. cbn [at_pc request]. rewrite Hcache.
      destruct stmt; [by rewrite lookup_insert_eq|done].
    + destruct (Hloc j tj Hj) as [Hhj Hpj]. split; [done|].
      unfold pc_inv in *. destruct (at_pc tj) as [| |[[?|]|]| | | |? ?|[?|]|[?|]] eqn:Hpj';
        try exact I;
        try (exfalso; apply Hne; eapply alone_in_exclusive_block;
             [exact Hinv|exact Hi|exact Hj|exact Hin|by rewrite Hpj']);
        (rewrite Hcache, lookup_insert_ne; [exact Hpj|]; intros Heq;
         rewrite Heq in Hnone; congruence).
  - eapply exclusion_step; [exact Hi| |exact Hexcl|by left].
    intros j tj Hj. by apply Hloc in Hj as [? _].
  - exact Hcomp.
  - intros s Hs. rewrite Hcache in Hs.
    destruct (decide (request t = s)) as [<-|Hne]; [by rewrite lookup_insert_eq in Hs|].
    rewrite lookup_insert_ne in Hs by done.
    destruct (Hmiss s Hs) as [?|(k & tk & stmt' & Hk & Hrk & Hpk)]; [by left|right].
    exists k, tk, stmt'. split; [|done].
    destruct (decide (k = i)) as [->|Hki]; [|by rewrite list_lookup_insert_ne].
    rewrite Hi in Hk. injection Hk as <-. done.
  - intros s Hs. rewrite Hcache in Hs.
    destruct (decide (request t = s)) as [<-|Hne]; [done|].
    rewrite lookup_insert_ne in Hs by done. by apply Hhit.
Qed.

Lemma holds_after_log_events level message w p :
  holds_after (locks_at p) (log_events level message w) = locks_at p.
Proof. unfold log_events. repeat case_match; try done; by destruct p. Qed.

(** Every step of a caller keeps the invariant, and what is cached stays
    cached. *)
Lemma conc_step_inv st st' :
  conc_step st st' → cache_inv st →
  cache_inv st' ∧ stmt_cache st.1 ⊆ stmt_cache st'.1.
Proof.
  intros [w ts i t p' w' Hi Hstep Hperm] Hinv. cbn [fst snd].
  pose proof Hinv as (Hloc & _). cbn [fst snd] in Hloc.
  destruct (Hloc i t Hi) as [Hh Hpc].
  assert (∀ (j : nat) tj, j ≠ i → ts !! j = Some tj →
            forallb (compatible (locks_at (at_pc tj))) (appended w w') = true) as Hothers.
  { intros j tj Hne Hj. destruct (Hloc j tj Hj) as [<- _]. by eapply permitted_spec. }
  assert (∀ (j : nat) tj, ts !! j = Some tj → holds tj = locks_at (at_pc tj)) as Hlocks.
  { intros j tj Hj. by apply Hloc in Hj as [? _]. }
  rewrite Hh. unfold pc_inv in Hpc.
  destruct t as [sql p held]. cbn [request at_pc holds] in *. subst held.
  destruct p as [| |[r|]| | | |rc stmt|r|r]; cbn [thread_step] in Hstep.
  - (* the shared lock is taken *)
    injection Hstep as <- <-.
    rewrite (appended_app w _ [ELock stmt_cache_mutex Shared]) in * by done.
    split; [|done].
    eapply cache_inv_quiet; [exact Hinv|exact Hi|reflexivity|done|done|done|done|done|done|done|].
    right. right. right. split; [done|].
    intros j tj Hne Hj. rewrite (Hlocks j tj Hj).
    eapply shared_permitted; [|by eapply Hothers]. in_list.
  - (* the first lookup *)
    injection Hstep as <- <-.
    rewrite (appended_app w w []) in * by (by rewrite app_nil_r).
    split; [|done].
    eapply cache_inv_quiet; [exact Hinv|exact Hi|by rewrite app_nil_r|done|done|done|done|
                             |done|done|by left].
    unfold pc_inv. cbn [at_pc request]. by destruct (stmt_cache w !! sql) as [[?|]|].
  - (* the shared lock is released after a hit *)
    injection Hstep as <- <-.
    rewrite (appended_app w _ [EUnlock stmt_cache_mutex Shared]) in * by done.
    split; [|done].
    eapply cache_inv_quiet; [exact Hinv|exact Hi|reflexivity|done|done|done|done|
                             |done|done|by right; left].
    unfold pc_inv. cbn [at_pc request]. by destruct r.
  - (* the shared lock is released after a miss *)
    injection Hstep as <- <-.
    rewrite (appended_app w _ [EUnlock stmt_cache_mutex Shared]) in * by done.
    split; [|done].
    eapply cache_inv_quiet; [exact Hinv|exact Hi|reflexivity|done|done|done|done|done
                             |done|done|by right; left].
  - (* the exclusive lock is taken *)
    injection Hstep as <- <-.
    rewrite (appended_app w _ [ELock stmt_cache_mutex Exclusive]) in * by done.
    split; [|done].
    eapply cache_inv_quiet; [exact Hinv|exact Hi|reflexivity|done|done|done|done|done
                             |done|done|].
    right. right. left. split; [done|].
    intros j tj Hne Hj. rewrite (Hlocks j tj Hj).
    eapply exclusive_permitted; [|by eapply Hothers]. in_list.
  - (* the second lookup *)
    injection Hstep as <- <-.
    rewrite (appended_app w w []) in * by (by rewrite app_nil_r).
    split; [|done].
    destruct (stmt_cache w !! sql) as [r|] eqn:Hc.
    + eapply cache_inv_quiet; [exact Hinv|exact Hi|by rewrite app_nil_r|done|done|done|done|
                               |done|done|by left].
      unfold pc_inv. cbn [at_pc request]. by destruct r.
    + eapply cache_inv_quiet; [exact Hinv|exact Hi|by rewrite app_nil_r|done|done|done|done|
                               |done|done|by left].
      done.
  - (* the compilation *)
    destruct (sqlite3_prepare_v2 sq (prepare_calls w) sql) as [rc stmt].
    injection Hstep as <- <-.
    rewrite (appended_app w _ [EPrepare sql rc]) in * by done.
    split; [|done].
    by apply (cache_inv_compile w ts i (mkThread sql Compiling _) rc stmt).
  - (* the log line, or the insertion *)
    destruct Hpc as [Hnone Hone].
    destruct (rc =? SQLITE_OK) eqn:Hrc; cbn [negb] in Hstep; injection Hstep as <- <-.
    + apply Z.eqb_eq in Hrc. subst rc.
      rewrite (appended_app w _ []) in * by (by rewrite app_nil_r).
      split; [|by apply insert_subseteq].
      by apply (cache_inv_insert w ts i (mkThread sql (Compiled SQLITE_OK stmt) _) stmt).
    + rewrite log_extend in *.
      rewrite (appended_app w _ (log_events ERROR _ w)) in * by done.
      rewrite (holds_after_log_events _ _ _ (Compiled rc stmt)).
      split; [|done].
      eapply cache_inv_quiet; [exact Hinv|exact Hi|reflexivity| |done|done|done|done
                               | |done|by left].
      * intros s. apply compilations_log_events.
      * intros stmt' [= -> _]. done.
  - (* the exclusive lock is released *)
    injection Hstep as <- <-.
    rewrite (appended_app w _ [EUnlock stmt_cache_mutex Exclusive]) in * by done.
    split; [|done].
    eapply cache_inv_quiet; [exact Hinv|exact Hi|reflexivity|done|done|done|done|
                             |done|done|by right; left].
    unfold pc_inv. cbn [at_pc request]. by destruct r.
  - done.
Qed.

Lemma conc_steps_inv st0 st :
  rtc conc_step st0 st → cache_inv st0 →
  cache_inv st ∧ stmt_cache st0.1 ⊆ stmt_cache st.1.
Proof.
  induction 1 as [st|st1 st2 st3 Hstep Hrtc IH]; intros Hinv; [done|].
  destruct (conc_step_inv _ _ Hstep Hinv) as [Hinv2 Hsub].
  destruct (IH Hinv2) as [? ?]. split; [done|]. by etrans.
Qed.

Lemma fresh_connection_inv w ts :
  fresh_connection w → Forall (λ t, at_pc t = Start ∧ holds t = []) ts →
  cache_inv (w, ts).
Proof.
  intros [Hc Hp] Hts. rewrite Forall_lookup in Hts.
  assert (∀ sql, compilations sql (trace w) = 0%nat) as Hzero.
  { intros sql. unfold compilations. by rewrite Hp. }
  split; [|split; [|split; [|split]]]; cbn [fst snd].
  - intros i t Hi. destruct (Hts i t Hi) as [Hpc Hh].
    unfold pc_inv. by rewrite Hpc, Hh.
  - intros i j ti tj _ Hi _ Hin. destruct (Hts i ti Hi) as [_ Hh].
    rewrite Hh in Hin. by apply elem_of_nil in Hin.
  - intros sql. rewrite Hzero. lia.
  - intros sql _. by left.
  - intros sql [p Hs]. by rewrite Hc in Hs.
Qed.

Lemma getPreparedStatement_again sql w h w1 :
  getPreparedStatement sql w = (Some h, w1) →
  getPreparedStatement sql w1 =
    (Some h, extend [ELock stmt_cache_mutex Shared; EUnlock stmt_cache_mutex Shared] w1).
Proof.
  intros H.
  assert (stmt_cache w1 !! sql = Some (Some h)) as Hc.
  { revert H. unfold getPreparedStatement. rewrite lookup_shared_eq.
    destruct (stmt_cache w !! sql) as [p|] eqn:Hc.
    - by intros [= -> <-].
    - unfold compile_exclusive. simpl. rewrite Hc.
      destruct (sqlite3_prepare_v2 sq (prepare_calls w) sql) as [rc stmt].
      destruct (rc =? SQLITE_OK); simpl; [|done].
      intros [= -> <-]. simpl. by rewrite lookup_insert_eq. }
  unfold getPreparedStatement. rewrite lookup_shared_eq. by rewrite Hc.
Qed.

(** A compilation that fails leaves the cache as it was: the next request
    for the text finds nothing and compiles again. *)
Lemma getPreparedStatement_not_cached sql w :
  stmt_cache w !! sql = None →
  (sqlite3_prepare_v2 sq (prepare_calls w) sql).1 ≠ SQLITE_OK →
  ∃ w' d, getPreparedStatement sql w = (None, w') ∧
          trace w' = trace w ++ d ∧
          prepare_results sql d = [(sqlite3_prepare_v2 sq (prepare_calls w) sql).1] ∧
          stmt_cache w' = stmt_cache w ∧
          prepare_calls w' = S (prepare_calls w).
Proof.
  intros Hc Hrc. unfold getPreparedStatement. rewrite lookup_shared_eq, Hc.
  unfold compile_exclusive. simpl. rewrite Hc.
  destruct (sqlite3_prepare_v2 sq (prepare_calls w) sql) as [rc stmt]. simpl in Hrc.
  apply Z.eqb_neq in Hrc. rewrite Hrc. simpl. rewrite log_extend.
  pose (dlog := log_events ERROR ("Failed to prepare statement: " +:+ sqlite3_errmsg sq
                                   +:+ " for SQL: " +:+ sql) w).
  assert (prepare_results sql dlog = []) as Hlog.
  { unfold dlog, log_events. by repeat case_match. }
  exists (emit (EUnlock stmt_cache_mutex Exclusive)
            (extend dlog (emit (EPrepare sql rc)
               (set_prepare_calls (S (prepare_calls w))
                  (emit (ELock stmt_cache_mutex Exclusive)
                     (extend [ELock stmt_cache_mutex Shared;
                              EUnlock stmt_cache_mutex Shared] w)))))),
    ([ELock stmt_cache_mutex Shared; EUnlock stmt_cache_mutex Shared] ++
     [ELock stmt_cache_mutex Exclusive] ++ [EPrepare sql rc] ++ dlog ++
     [EUnlock stmt_cache_mutex Exclusive]).
  split; [reflexivity|].
  split; [simpl; by rewrite <- !app_assoc|]. split; [|done].
  unfold prepare_results in *. rewrite !omap_app, Hlog. simpl.
  by rewrite bool_decide_eq_true_2.
Qed.

(** C4 (as amended): on a connection where nothing was compiled yet, and for
    any number of concurrent callers of [getPreparedStatement] whose
    operations are interleaved in any way the two modes of
    [stmt_cache_mutex] permit, every SQL text is compiled successfully at
    most once, and exactly once when a caller has obtained a statement for
    it; a caller between the second lookup and the release of the lock
    holds the lock exclusively while no other caller holds it in any mode,
    and a caller at the first lookup holds it shared while no other caller
    holds it exclusively; an operation of a caller never removes or
    replaces a cache entry (only [cleanupStatements] empties the cache);
    all callers that obtain a statement for the same SQL text obtain the
    same handle.  The operations of one caller, run alone, make up
    [getPreparedStatement]; a request that follows one that returned a
    handle is answered from the cache with that handle, under the shared
    lock alone; and a compilation that fails is not cached, so that the
    next request compiles again. *)
Theorem statement_cache_compiles_once w0 ts0 w ts :
  fresh_connection w0 →
  Forall (λ t, at_pc t = Start ∧ holds t = []) ts0 →
  rtc conc_step (w0, ts0) (w, ts) →
  (∀ sql, (compilations sql (trace w) ≤ 1)%nat) ∧
  (∀ (i : nat) t h, ts !! i = Some t → at_pc t = Done (Some h) →
     compilations (request t) (trace w) = 1%nat) ∧
  (∀ (i : nat) t, ts !! i = Some t → in_exclusive_block (at_pc t) = true →
     (stmt_cache_mutex, Exclusive) ∈ holds t ∧
     ∀ (j : nat) tj, j ≠ i → ts !! j = Some tj → holds tj = []) ∧
  (∀ (i : nat) t, ts !! i = Some t → in_shared_block (at_pc t) = true →
     (stmt_cache_mutex, Shared) ∈ holds t ∧
     ∀ (j : nat) tj, j ≠ i → ts !! j = Some tj →
       (stmt_cache_mutex, Exclusive) ∉ holds tj) ∧
  stmt_cache w0 ⊆ stmt_cache w ∧
  (∀ st', conc_step (w, ts) st' → stmt_cache w ⊆ stmt_cache st'.1) ∧
  (∀ (i j : nat) ti tj h1 h2,
     ts !! i = Some ti → ts !! j = Some tj → request ti = request tj →
     at_pc ti = Done (Some h1) → at_pc tj = Done (Some h2) → h1 = h2) ∧
  (∀ sql w1, thread_run 8 sql Start w1 = Some (getPreparedStatement sql w1)) ∧
  (∀ sql h w1, getPreparedStatement sql w = (Some h, w1) →
     getPreparedStatement sql w1 =
       (Some h, extend [ELock stmt_cache_mutex Shared; EUnlock stmt_cache_mutex Shared] w1)) ∧
  (∀ sql w1, stmt_cache w1 !! sql = None →
     (sqlite3_prepare_v2 sq (prepare_calls w1) sql).1 ≠ SQLITE_OK →
     ∃ w2 d, getPreparedStatement sql w1 = (None, w2) ∧
             trace w2 = trace w1 ++ d ∧
             prepare_results sql d = [(sqlite3_prepare_v2 sq (prepare_calls w1) sql).1] ∧
             stmt_cache w2 = stmt_cache w1 ∧
             prepare_calls w2 = S (prepare_calls w1)) ∧
  stmt_cache (cleanupStatements w) = ∅.
Proof.
  intros Hfresh Hts Hrtc.
  destruct (conc_steps_inv _ _ Hrtc (fresh_connection_inv _ _ Hfresh Hts))
    as [Hinv Hsub]. cbn [fst snd] in Hsub.
  pose proof Hinv as (Hloc & Hexcl & Hcomp & Hmiss & Hhit). cbn [fst snd] in *.
  split; [exact Hcomp|]. split; [|split; [|split; [|split; [|split; [|split; [|split;
    [|split; [|split]]]]]]]].
  - intros i t h Hi Hp. destruct (Hloc i t Hi) as [_ Hpc].
    unfold pc_inv in Hpc. rewrite Hp in Hpc. apply Hhit. by rewrite Hpc.
  - intros i t Hi Hin. destruct (Hloc i t Hi) as [Hh _].
    assert ((stmt_cache_mutex, Exclusive) ∈ holds t) as Hex.
    { rewrite Hh. destruct (at_pc t); try done; in_list. }
    split; [done|]. intros j tj Hne Hj. by apply (Hexcl i j t tj).
  - intros i t Hi Hin. destruct (Hloc i t Hi) as [Hh _].
    split; [rewrite Hh; destruct (at_pc t); try done; in_list|].
    intros j tj Hne Hj Hex.
    assert (holds t = []) as Hnil by (by apply (Hexcl j i tj t)).
    rewrite Hh in Hnil. by destruct (at_pc t).
  - exact Hsub.
  - intros st' Hstep. by apply (conc_step_inv _ _ Hstep).
  - intros i j ti tj h1 h2 Hi Hj Hreq Hp1 Hp2.
    destruct (Hloc i ti Hi) as [_ H1]. destruct (Hloc j tj Hj) as [_ H2].
    unfold pc_inv in H1, H2. rewrite Hp1 in H1. rewrite Hp2 in H2. congruence.
  - apply thread_run_alone.
  - intros sql h w1. apply getPreparedStatement_again.
  - apply getPreparedStatement_not_cached.
  - reflexivity.
Qed.

Lemma schedule_steps callers : ∀ st st',
  schedule callers st = Some st' → rtc conc_step st st'.
Proof.
  induction callers as [|i callers IH]; intros [w ts] st'; cbn [schedule].
  - intros [= <-]. apply rtc_refl.
  - destruct (conc_next i (w, ts)) as [st1|] eqn:Hnext; [|done]. intros Hrest.
    eapply rtc_l; [|by apply IH]. revert Hnext. unfold conc_next. cbn [fst snd].
    destruct (ts !! i) as [t|] eqn:Hi; [|done].
    destruct (thread_step _ _ w) as [[p' w']|] eqn:Hstep; [|done].
    destruct (permitted _ _) eqn:Hperm; [|done].
    intros [= <-]. by apply (conc_step_thread w ts i t p' w').
Qed.

(** ** Histories of whole calls *)

Lemma reaches_refl inside w : reaches inside w w.
Proof. exists []. split; [by rewrite app_nil_r|constructor]. Qed.

Lemma reaches_trans inside w1 w2 w3 :
  reaches inside w1 w2 → reaches inside w2 w3 → reaches inside w1 w3.
Proof.
  intros (d1 & H1 & Hc1) (d2 & H2 & Hc2). exists (d1 ++ d2).
  split; [by rewrite H2, H1, app_assoc|by constructor].
Qed.

Lemma reaches_same inside w w1 w2 :
  trace w2 = trace w1 → reaches inside w w1 → reaches inside w w2.
Proof. intros Heq (d & H & Hc). exists d. by rewrite Heq. Qed.

Lemma reaches_emit inside e w w' :
  plain e = true → reaches inside w w' → reaches inside w (emit e w').
Proof.
  intros He H. eapply reaches_trans; [exact H|].
  exists [e]. split; [reflexivity|by constructor].
Qed.

Lemma reaches_log inside level message w w' :
  reaches inside w w' → reaches inside w (log level message w').
Proof.
  intros H. eapply reaches_trans; [exact H|]. rewrite log_extend.
  eexists. split; [reflexivity|constructor].
Qed.

Lemma reaches_section m mode w w' :
  m ≠ log_mutex → reaches true (emit (ELock m mode) w) w' →
  reaches false w (emit (EUnlock m mode) w').
Proof.
  intros Hm (d & H & Hc). exists (ELock m mode :: d ++ [EUnlock m mode]).
  split; [|by constructor].
  change (trace (emit (EUnlock m mode) w')) with (trace w' ++ [EUnlock m mode]).
  rewrite H. change (trace (emit (ELock m mode) w)) with (trace w ++ [ELock m mode]).
  by rewrite <- !app_assoc.
Qed.

Lemma call_trace_outside inside d : call_trace inside d → call_trace false d.
Proof. induction 1; by constructor. Qed.

Lemma reaches_outside inside w w' : reaches inside w w' → reaches false w w'.
Proof. intros (d & H & Hc). exists d. eauto using call_trace_outside. Qed.

(** Straight-line code: events, log lines and field updates. *)
Ltac straight :=
  repeat first
    [ apply reaches_refl
    | assumption
    | apply reaches_log
    | apply reaches_emit; [reflexivity|]
    | match goal with
      | |- reaches _ _ (set_db _ ?w) => apply (reaches_same _ _ w); [reflexivity|]
      | |- reaches _ _ (set_log_file_is_open _ ?w) => apply (reaches_same _ _ w); [reflexivity|]
      | |- reaches _ _ (set_current_log_level _ ?w) => apply (reaches_same _ _ w); [reflexivity|]
      | |- reaches _ _ (set_stmt_cache _ ?w) => apply (reaches_same _ _ w); [reflexivity|]
      | |- reaches _ _ (set_running _ ?w) => apply (reaches_same _ _ w); [reflexivity|]
      | |- reaches _ _ (set_prepare_calls _ ?w) => apply (reaches_same _ _ w); [reflexivity|]
      | |- reaches _ _ (set_steps _ ?w) => apply (reaches_same _ _ w); [reflexivity|]
      | |- reaches _ _ (extend [] ?w) => apply (reaches_same _ _ w); [apply app_nil_r|]
      end ].










Lemma foldl_set_pragma_reaches inside ps : ∀ w,
  Forall (λ p, p ∈ program_sql) ps → reaches inside w (foldl set_pragma w ps).
Proof.
  induction ps as [|p ps IH]; intros w Hps; simpl; [straight|].
  apply Forall_cons in Hps as [Hp Hps].
  eapply reaches_trans; [|by apply IH]. unfold set_pragma.
  destruct (sqlite3_exec sq p) as [rc errmsg].
  assert (plain (EExec p rc) = true) as Hplain by (by apply bool_decide_eq_true).
  destruct (negb (rc =? SQLITE_OK)); straight; (apply reaches_emit; [exact Hplain|]); straight.
Qed.

Lemma initializeDatabase_reaches db_file w ok w' :
  initializeDatabase db_file w = (ok, w') → reaches false w w'.
Proof.
  unfold initializeDatabase. cbv zeta.
  destruct (negb (sqlite3_open sq db_file =? SQLITE_OK)).
  { intros [= <- <-]. apply reaches_section; [done|]. straight. }
  set (w0 := set_db true _).
  assert (reaches true (emit (ELock db_mutex Exclusive) w) (foldl set_pragma w0 pragmas)) as H0.
  { eapply reaches_trans; [|apply foldl_set_pragma_reaches].
    - unfold w0. straight.
    - unfold program_sql. apply Forall_forall. intros p Hp. apply elem_of_app. by left. }
  destruct (sqlite3_exec sq createTableSQL) as [rc errmsg].
  assert (plain (EExec createTableSQL rc) = true) as Ht.
  { apply bool_decide_eq_true. unfold program_sql. in_list. }
  destruct (negb (rc =? SQLITE_OK)).
  { intros [= <- <-]. apply reaches_section; [done|].
    apply reaches_log. by apply reaches_emit. }
  destruct (sqlite3_exec sq createIndexSQL) as [rc2 errmsg2].
  assert (plain (EExec createIndexSQL rc2) = true) as Hi.
  { apply bool_decide_eq_true. unfold program_sql. in_list. }
  intros [= <- <-]. apply reaches_section; [done|].
  destruct (negb (rc2 =? SQLITE_OK)); straight;
    (apply reaches_emit; [exact Hi|]); by apply reaches_emit.
Qed.

Lemma BookArchive_ctor_reaches db_file log_level w thrown w' :
  BookArchive_ctor db_file log_level w = (thrown, w') → reaches false w w'.
Proof.
  unfold BookArchive_ctor. set (w0 := if log_file_opens sq then _ else _).
  assert (reaches false w w0) as H0 by (unfold w0; destruct (log_file_opens sq); straight).
  destruct (initializeDatabase db_file w0) as [[] w1] eqn:Hi;
    apply initializeDatabase_reaches in Hi;
    assert (reaches false w w1) as H1 by (by eapply reaches_trans).
  - intros [= <- <-]. straight.
  - destruct (log_file_is_open w1); intros [= <- <-]; straight.
Qed.





(** Induction for a loop that takes its arguments one or two at a time. *)
Lemma pairs_ind {A} (P : list A → Prop) :
  P [] → (∀ a, P [a]) → (∀ a b l, P l → P (a :: b :: l)) → ∀ l, P l.
Proof.
  intros Hnil Hone Htwo l.
  assert (P l ∧ ∀ a, P (a :: l)) as [? _]; [|done].
  induction l as [|b l [IH1 IH2]]; [by split|]. split; [apply IH2|].
  intros a. by apply Htwo.
Qed.

Lemma parseLogLevel_console level l out :
  parseLogLevel level = (l, out) → Forall (λ e, console e = true) out.
Proof.
  unfold parseLogLevel. repeat case_bool_decide; intros [= <- <-]; by repeat constructor.
Qed.

(** The option loop writes to the console only. *)
Lemma parse_options_console programName args : ∀ db_file log_level result out,
  parse_options programName args db_file log_level = (result, out) →
  Forall (λ e, console e = true) out.
Proof.
  induction args as [|arg|arg value args IH] using pairs_ind;
    intros db_file log_level result out; simpl.
  - by intros [= <- <-].
  - repeat case_bool_decide; simpl; intros [= <- <-]; by repeat constructor.
  - destruct (bool_decide (arg = "--db") || bool_decide (arg = "-d")); [apply IH|].
    destruct (bool_decide (arg = "--log-level") || bool_decide (arg = "-l")).
    { destruct (parseLogLevel value) as [level warning] eqn:Hl.
      destruct (parse_options _ args db_file level) as [r o] eqn:Hp.
      intros [= <- <-]. apply IH in Hp. apply Forall_app. split; [|done].
      by apply parseLogLevel_console in Hl. }
    repeat case_match; intros [= <- <-]; by repeat constructor.
Qed.



(** *** The order of the locks *)



(** *** The levels of the lines of the log *)

Lemma log_levels_app d1 d2 : log_levels (d1 ++ d2) = log_levels d1 ++ log_levels d2.
Proof. apply omap_app. Qed.

Lemma call_trace_log_levels inside d :
  call_trace inside d →
  Forall (λ level, DEBUG_MODE = true ∨ level = ERROR) (log_levels d).
Proof.
  induction 1 as [|inside d1 d2 _ IH1 _ IH2|inside e He|inside level message w
                  |m mode d Hm _ IH].
  - constructor.
  - rewrite log_levels_app. by apply Forall_app.
  - destruct e; simpl in *; try discriminate; constructor.
  - unfold log_events. destruct (_ <? _); [constructor|].
    destruct (negb DEBUG_MODE && negb (is_ERROR level)) eqn:Hskip; [constructor|].
    destruct (negb (log_file_is_open w)); [constructor|].
    simpl. constructor; [|constructor].
    destruct DEBUG_MODE; [by left|]. destruct level; try discriminate. by right.
  - change (log_levels (ELock m mode :: d ++ [EUnlock m mode]))
      with (log_levels (d ++ [EUnlock m mode])).
    rewrite log_levels_app. simpl. by rewrite app_nil_r.
Qed.

(** *** The SQL texts *)

Lemma call_trace_sql_texts inside d :
  call_trace inside d → Forall (λ sql, sql ∈ program_sql) (sql_texts d).
Proof.
  induction 1 as [|inside d1 d2 _ IH1 _ IH2|inside e He|inside level message w
                  |m mode d Hm _ IH].
  - constructor.
  - rewrite sql_texts_app. by apply Forall_app.
  - destruct e; simpl in *; try discriminate; try apply Forall_nil_2;
      (apply Forall_cons_2; [by apply bool_decide_eq_true in He|apply Forall_nil_2]).
  - rewrite sql_texts_log_events. constructor.
  - change (sql_texts (ELock m mode :: d ++ [EUnlock m mode]))
      with (sql_texts (d ++ [EUnlock m mode])).
    rewrite sql_texts_app. simpl. by rewrite app_nil_r.
Qed.

(** ** What a write makes of the step results *)

Lemma write_loop_outcome h : ∀ script r w rc w',
  0 ≤ r ≤ 5 →
  write_loop h script r w = Some (rc, w') →
  ∃ d (n : nat),
    w' = set_steps (drop (S n) script) (extend d w) ∧
    step_results d = replicate n SQLITE_BUSY ++ [rc] ∧
    sleeps d = take n (drop (Z.to_nat r) backoff_table) ∧
    (n ≤ 5 - Z.to_nat r)%nat ∧
    (rc = SQLITE_BUSY → n = (5 - Z.to_nat r)%nat).
Proof.
  induction script as [|[c row] script IH]; intros r w rc w' Hr H; simpl in H; [done|].
  destruct ((c =? SQLITE_BUSY) && (r <? SQLITE_MAX_RETRIES)) eqn:Hbusy.
  - apply andb_true_iff in Hbusy as [Hc Hlt].
    apply Z.eqb_eq in Hc as ->. apply Z.ltb_lt in Hlt. unfold SQLITE_MAX_RETRIES in Hlt.
    apply IH in H as (d & n & -> & Hst & Hsl & Hn & Hlast); [|lia].
    exists ([EStep h SQLITE_BUSY] ++ log_events DEBUG (busy_message r) w ++
            [ESleep (backoff_ms r)] ++ d), (S n).
    split; [world_eq|].
    rewrite !step_results_app, !sleeps_app, step_results_log_events, sleeps_log_events,
      Hst, Hsl.
    split; [done|]. rewrite (backoff_table_drop r) by lia.
    split; [done|]. split; [lia|]. intros Hb. specialize (Hlast Hb). lia.
  - injection H as <- <-. exists [EStep h c], 0%nat.
    split; [world_eq|]. split; [done|]. split; [done|]. split; [lia|].
    intros ->. simpl in Hbusy. apply Z.ltb_ge in Hbusy. unfold SQLITE_MAX_RETRIES in Hbusy.
    lia.
Qed.

Lemma step_results_nil_of_exec d : exec d = [] → step_results d = [].
Proof. intros H. by rewrite <- step_results_exec, H. Qed.

Lemma sleeps_nil_of_exec d : exec d = [] → sleeps d = [].
Proof. intros H. by rewrite <- sleeps_exec, H. Qed.

Lemma total_sleep_take n : 0 ≤ foldr Z.add 0 (take n backoff_table) ≤ 310.
Proof. do 6 (destruct n as [|n]; [simpl; lia|]). simpl. lia. Qed.

(** X4: a call of [executeSQLWithParams] that returns either does not step at
    all (no statement, or a parameter that does not bind) and returns
    false, or it takes [n + 1] of the pending step results, with [n] at
    most [SQLITE_MAX_RETRIES]: [n] times busy, each followed by the next
    delay of the table, and one last result, which is the only one that can
    be something else than busy, and is busy only when the budget is used
    up; the call returns true exactly when that last result is
    [SQLITE_DONE].  In all it sleeps no more than 310 ms. *)
Theorem executeSQLWithParams_outcome sql params w res w' :
  executeSQLWithParams sql params w = Some (res, w') →
  ∃ d, trace w' = trace w ++ d ∧
       0 ≤ total_sleep d ≤ 310 ∧
       ((step_results d = [] ∧ sleeps d = [] ∧ steps w' = steps w ∧ res = false) ∨
        (∃ (n : nat) rc,
           (n ≤ 5)%nat ∧
           step_results d = replicate n SQLITE_BUSY ++ [rc] ∧
           sleeps d = take n backoff_table ∧
           steps w' = drop (S n) (steps w) ∧
           (rc = SQLITE_BUSY → n = 5%nat) ∧
           res = bool_decide (rc = SQLITE_DONE))).
Proof.
  unfold executeSQLWithParams. rewrite log_extend.
  set (d0 := log_events _ _ w).
  destruct (getPreparedStatement sql (extend d0 w)) as [p w1] eqn:Hg.
  destruct (getPreparedStatement_frame _ _ _ _ Hg) as (dg & Htr & Hdg & Hst & _).
  change (steps (extend d0 w)) with (steps w) in Hst.
  change (trace (extend d0 w)) with (trace w ++ d0) in Htr.
  assert (step_results d0 = [] ∧ sleeps d0 = []) as [Hs0 Hz0].
  { split; [apply step_results_log_events|apply sleeps_log_events]. }
  assert (step_results dg = [] ∧ sleeps dg = []) as [Hsg Hzg].
  { split; [by apply step_results_nil_of_exec|by apply sleeps_nil_of_exec]. }
  destruct p as [stmt|]; cycle 1.
  { intros [= <- <-]. exists (d0 ++ dg). split; [by rewrite Htr, app_assoc|].
    unfold total_sleep. rewrite step_results_app, sleeps_app, Hs0, Hz0, Hsg, Hzg. simpl.
    split; [lia|]. by left. }
  destruct (bind_params_prefix stmt params 0
              (emit (EClearBindings stmt) (emit (EReset stmt) w1)))
    as (ok & k & dbind & -> & Hdb & _).
  assert (step_results dbind = [] ∧ sleeps dbind = []) as [Hsb Hzb].
  { rewrite <- step_results_exec, <- sleeps_exec, Hdb.
    split; [apply step_results_bind_events|apply sleeps_bind_events]. }
  destruct ok; cycle 1.
  { intros [= <- <-].
    exists (d0 ++ dg ++ [EReset stmt; EClearBindings stmt] ++ dbind).
    split; [simpl; rewrite Htr; by rewrite <- !app_assoc|].
    unfold total_sleep.
    rewrite !step_results_app, !sleeps_app, Hs0, Hz0, Hsg, Hzg, Hsb, Hzb. simpl.
    split; [lia|]. by left. }
  change (steps (emit _ (extend dbind (emit _ (emit _ w1))))) with (steps w1).
  rewrite Hst.
  destruct (write_loop stmt (steps w) 0 _) as [[rc w2]|] eqn:Hw; [|done].
  apply write_loop_outcome in Hw as (dl & n & -> & Hsl & Hzl & Hn & Hlast); [|lia].
  change (Z.to_nat 0) with 0%nat in *. rewrite drop_0 in Hzl.
  set (dlog := if negb (rc =? SQLITE_DONE)
               then log_events ERROR ("Failed to execute SQL: " +:+ sqlite3_errmsg sq) w1
               else []).
  assert (step_results dlog = [] ∧ sleeps dlog = []) as [Hslog Hzlog].
  { unfold dlog. destruct (negb _); [|done].
    split; [apply step_results_log_events|apply sleeps_log_events]. }
  intros H.
  assert (steps w' = drop (S n) (steps w) ∧ res = bool_decide (rc = SQLITE_DONE) ∧
          trace w' = trace w ++ d0 ++ dg ++ [EReset stmt; EClearBindings stmt] ++ dbind ++
                     [ELock db_mutex Exclusive] ++ dl ++
                     [EUnlock db_mutex Exclusive] ++ dlog) as (Hsteps & Hres & Htr').
  { unfold dlog. destruct (rc =? SQLITE_DONE) eqn:Hdone; injection H as <- <-;
      rewrite ?log_extend; simpl; rewrite Htr, <- !app_assoc.
    - apply Z.eqb_eq in Hdone. by rewrite bool_decide_eq_true_2.
    - apply Z.eqb_neq in Hdone. by rewrite bool_decide_eq_false_2. }
  eexists. split; [exact Htr'|].
  assert (sleeps (d0 ++ dg ++ [EReset stmt; EClearBindings stmt] ++ dbind ++
                  [ELock db_mutex Exclusive] ++ dl ++
                  [EUnlock db_mutex Exclusive] ++ dlog) = take n backoff_table) as Hz.
  { rewrite !sleeps_app, Hz0, Hzg, Hzb, Hzl, Hzlog. simpl. by rewrite app_nil_r. }
  split; [unfold total_sleep; rewrite Hz; apply total_sleep_take|].
  right. exists n, rc. split; [lia|]. split; [|split; [done|]].
  { rewrite !step_results_app, Hs0, Hsg, Hsb, Hsl, Hslog. simpl. by rewrite app_nil_r. }
  split; [done|]. split; [|done]. intros Hb. specialize (Hlast Hb). lia.
Qed.

(** X5: a statement that cannot be compiled makes both entry points fail
    without any reset, binding or step, nothing of the pending step results
    is used and nothing is added to the cache; the failure is logged as an
    error.  A write returns false, a read no rows. *)
Theorem prepare_failure_ends_the_call sql params w :
  stmt_cache w !! sql = None →
  (sqlite3_prepare_v2 sq (prepare_calls w) sql).1 ≠ SQLITE_OK →
  (∃ w' d, executeSQLWithParams sql params w = Some (false, w') ∧
           trace w' = trace w ++ d ∧ exec d = [] ∧
           EPrepare sql (sqlite3_prepare_v2 sq (prepare_calls w) sql).1 ∈ d ∧
           (log_file_is_open w = true →
            ELog ERROR ("Failed to prepare statement: " +:+ sqlite3_errmsg sq +:+
                        " for SQL: " +:+ sql) ∈ d) ∧
           steps w' = steps w ∧ stmt_cache w' = stmt_cache w) ∧
  (∃ w' d, executeQuery sql params w = Some ([], w') ∧
           trace w' = trace w ++ d ∧ exec d = [] ∧
           EPrepare sql (sqlite3_prepare_v2 sq (prepare_calls w) sql).1 ∈ d ∧
           (log_file_is_open w = true →
            ELog ERROR ("Failed to prepare statement: " +:+ sqlite3_errmsg sq +:+
                        " for SQL: " +:+ sql) ∈ d) ∧
           steps w' = steps w ∧ stmt_cache w' = stmt_cache w).
Proof.
  intros Hc Hrc.
  assert (∀ d0, exec d0 = [] →
    ∃ w' d, getPreparedStatement sql (extend d0 w) = (None, w') ∧
            trace w' = trace w ++ d ∧ exec d = [] ∧
            EPrepare sql (sqlite3_prepare_v2 sq (prepare_calls w) sql).1 ∈ d ∧
            (log_file_is_open w = true →
             ELog ERROR ("Failed to prepare statement: " +:+ sqlite3_errmsg sq +:+
                         " for SQL: " +:+ sql) ∈ d) ∧
            steps w' = steps w ∧ stmt_cache w' = stmt_cache w) as Hget.
  { intros d0 Hd0. unfold getPreparedStatement. rewrite lookup_shared_eq.
    change (stmt_cache (extend d0 w)) with (stmt_cache w). rewrite Hc.
    unfold compile_exclusive. cbv zeta.
    change (stmt_cache (emit ?e (extend ?d (extend d0 w)))) with (stmt_cache w).
    change (prepare_calls (emit ?e (extend ?d (extend d0 w)))) with (prepare_calls w).
    rewrite Hc.
    destruct (sqlite3_prepare_v2 sq (prepare_calls w) sql) as [rc stmt]. simpl in Hrc.
    apply Z.eqb_neq in Hrc. rewrite Hrc. simpl negb. cbv iota.
    rewrite log_extend. eexists _, _. split; [reflexivity|].
    set (dlog := log_events _ _ _).
    split; [simpl; rewrite <- !app_assoc; reflexivity|].
    rewrite !exec_app. rewrite Hd0. unfold dlog. rewrite exec_log_events.
    split; [done|]. split.
    { apply elem_of_app. right. simpl. in_list. }
    split; [|done]. intros Hopen. unfold dlog.
    change (log_events ERROR ?m _) with (log_events ERROR m w).
    rewrite log_events_ERROR by done.
    apply elem_of_app. right. simpl. in_list. }
  split.
  - unfold executeSQLWithParams. rewrite log_extend. set (d0 := log_events _ _ w).
    destruct (Hget d0 (exec_log_events _ _ _)) as (w' & d & -> & H). by exists w', d.
  - unfold executeQuery. rewrite log_extend. set (d0 := log_events _ _ w).
    destruct (Hget d0 (exec_log_events _ _ _)) as (w' & d & -> & H). by exists w', d.
Qed.

(** ** Construction that fails *)

Lemma initializeDatabase_open_fails db_file w :
  sqlite3_open sq db_file ≠ SQLITE_OK →
  initializeDatabase db_file w =
    (false,
     extend ([ELock db_mutex Exclusive; EOpen db_file (sqlite3_open sq db_file)] ++
             log_events ERROR ("Cannot open database: " +:+ sqlite3_errmsg sq) w ++
             [EClose; EUnlock db_mutex Exclusive]) (set_db true w)).
Proof.
  intros Hopen. unfold initializeDatabase. cbv zeta.
  apply Z.eqb_neq in Hopen. rewrite Hopen. cbn [negb]. cbv iota. f_equal. init_eq.
Qed.

Lemma resource_events_app d1 d2 :
  resource_events (d1 ++ d2) = resource_events d1 ++ resource_events d2.
Proof. apply omap_app. Qed.

Lemma resource_events_log_events level message w :
  resource_events (log_events level message w) = [].
Proof. unfold log_events. by repeat case_match. Qed.

Lemma resource_events_pragmas w ps : resource_events (ps ≫= pragma_events w) = [].
Proof.
  induction ps as [|p ps IH]; [done|].
  change ((p :: ps) ≫= pragma_events w) with (pragma_events w p ++ (ps ≫= pragma_events w)).
  rewrite resource_events_app, IH, app_nil_r. unfold pragma_events.
  destruct (negb _); [|done]. apply resource_events_log_events.
Qed.

Lemma step_results_pragmas w ps : step_results (ps ≫= pragma_events w) = [].
Proof.
  induction ps as [|p ps IH]; [done|].
  change ((p :: ps) ≫= pragma_events w) with (pragma_events w p ++ (ps ≫= pragma_events w)).
  rewrite step_results_app, IH, app_nil_r. unfold pragma_events.
  destruct (negb _); [|done]. apply step_results_log_events.
Qed.

Lemma sql_texts_pragmas w ps : sql_texts (ps ≫= pragma_events w) = ps.
Proof.
  induction ps as [|p ps IH]; [done|].
  change ((p :: ps) ≫= pragma_events w) with (pragma_events w p ++ (ps ≫= pragma_events w)).
  rewrite sql_texts_app, IH. unfold pragma_events.
  change (sql_texts (EExec p ?rc :: ?l)) with (p :: sql_texts l).
  destruct (negb _); [|done]. by rewrite sql_texts_log_events.
Qed.

Lemma BookArchive_ctor_throws db_file log_level w d :
  log_file_is_open w = false →
  initializeDatabase db_file (log_opened w) = (false, extend d (set_db true (log_opened w))) →
  ∃ w', BookArchive_ctor db_file log_level w =
          (Some ("Failed to initialize database: " +:+ db_file), w') ∧
        trace w' = trace (log_opened w) ++ d ++
                   (if log_file_opens sq then [ELogClose] else []) ∧
        steps w' = steps w.
Proof.
  intros Hclosed Hinit. unfold BookArchive_ctor. fold (log_opened w). rewrite Hinit.
  change (log_file_is_open (extend d (set_db true (log_opened w))))
    with (log_file_is_open (log_opened w)).
  unfold log_opened. destruct (log_file_opens sq).
  - change (log_file_is_open (set_log_file_is_open true _)) with true. cbv iota.
    eexists. split; [reflexivity|]. split; [|reflexivity]. simpl. by rewrite <- !app_assoc.
  - change (log_file_is_open (emit _ w)) with (log_file_is_open w). rewrite Hclosed.
    eexists. split; [reflexivity|]. split; [|reflexivity]. simpl. by rewrite app_nil_r.
Qed.

Lemma BookArchive_ctor_returns db_file log_level w :
  sqlite3_open sq db_file = SQLITE_OK →
  (sqlite3_exec sq createTableSQL).1 = SQLITE_OK →
  (BookArchive_ctor db_file log_level w).1 = None.
Proof.
  intros Hopen Htable. unfold BookArchive_ctor.
  by rewrite (initializeDatabase_table_ok _ _ Hopen Htable).
Qed.

(** ** Teardown, once and again *)

Lemma BookArchive_dtor_trace w :
  trace (BookArchive_dtor w) =
    trace w ++ log_events INFO "Shutting down Book Archive" w ++
    [ELock stmt_cache_mutex Exclusive] ++ finalize_events (stmt_cache w) ++
    [EUnlock stmt_cache_mutex Exclusive] ++
    (if db w then [EClose] else []) ++
    (if log_file_is_open w then [ELogClose] else []) ∧
  stmt_cache (BookArchive_dtor w) = ∅ ∧
  db (BookArchive_dtor w) = false ∧
  log_file_is_open (BookArchive_dtor w) = false ∧
  steps (BookArchive_dtor w) = steps w ∧
  running (BookArchive_dtor w) = running w.
Proof.
  unfold BookArchive_dtor, cleanupStatements. rewrite log_extend.
  set (dlog := log_events INFO "Shutting down Book Archive" w).
  change (stmt_cache (emit (ELock stmt_cache_mutex Exclusive) (extend dlog w)))
    with (stmt_cache w).
  rewrite foldl_finalize_entry. fold (finalize_events (stmt_cache w)).
  set (fin := finalize_events (stmt_cache w)).
  set (w1 := emit (EUnlock stmt_cache_mutex Exclusive) _).
  assert (trace w1 = trace w ++ dlog ++ [ELock stmt_cache_mutex Exclusive] ++ fin ++
                     [EUnlock stmt_cache_mutex Exclusive]) as Htr.
  { unfold w1. simpl. by rewrite <- !app_assoc. }
  assert (stmt_cache w1 = ∅ ∧ db w1 = db w ∧ log_file_is_open w1 = log_file_is_open w ∧
          steps w1 = steps w ∧ running w1 = running w) as (Hc1 & Hd1 & Ho1 & Hs1 & Hr1) by done.
  clearbody w1.
  destruct (db w1) eqn:Hdb1; rewrite <- Hd1.
  - change (log_file_is_open (set_db false (emit EClose w1))) with (log_file_is_open w1).
    destruct (log_file_is_open w1) eqn:Hopen; rewrite <- Ho1;
      (split; [simpl; rewrite Htr, <- ?app_assoc; simpl; by rewrite ?app_nil_r|done]).
  - destruct (log_file_is_open w1) eqn:Hopen; rewrite <- Ho1;
      (split; [simpl; rewrite Htr, <- ?app_assoc; simpl; by rewrite ?app_nil_r|done]).
Qed.

Lemma NoDup_finalize_events (c : gmap string (option sqlite3_stmt)) :
  (∀ sql1 sql2 h, c !! sql1 = Some (Some h) → c !! sql2 = Some (Some h) → sql1 = sql2) →
  NoDup (finalize_events c).
Proof.
  intros Hinj. unfold finalize_events.
  assert (NoDup (cache_iteration c)) as Hnd.
  { rewrite cache_iteration_Permutation. apply NoDup_map_to_list. }
  assert (∀ p, p ∈ cache_iteration c → c !! p.1 = Some p.2) as Hin.
  { intros [sql v] Hp. by apply elem_of_cache_iteration. }
  induction (cache_iteration c) as [|[sql [h|]] l IH]; simpl.
  - constructor.
  - apply NoDup_cons in Hnd as [Hnotin Hnd].
    apply NoDup_cons. split.
    + intros Hh. apply list_elem_of_omap in Hh as ([sql' v] & Hl & Hv).
      unfold finalize_event in Hv. simpl in Hv. destruct v as [h'|]; [|done].
      injection Hv as ->.
      assert (sql = sql') as <-.
      { apply (Hinj sql sql' h).
        - apply (Hin (sql, Some h)). apply list_elem_of_here.
        - apply (Hin (sql', Some h)). by apply list_elem_of_further. }
      done.
    + apply IH; [done|]. intros p Hp. apply Hin. by apply list_elem_of_further.
  - apply NoDup_cons in Hnd as [_ Hnd].
    apply IH; [done|]. intros p Hp. apply Hin. by apply list_elem_of_further.
Qed.

Lemma finalize_events_only (c : gmap string (option sqlite3_stmt)) h :
  EFinalize h ∈ finalize_events c → ∃ sql, c !! sql = Some (Some h).
Proof.
  intros Hh. apply list_elem_of_omap in Hh as ([sql v] & Hl & Hv).
  unfold finalize_event in Hv. simpl in Hv. destruct v as [h'|]; [|done].
  injection Hv as ->. exists sql. by apply elem_of_cache_iteration.
Qed.

Lemma resource_events_finalize_events c :
  resource_events (finalize_events c) = finalize_events c.
Proof.
  unfold finalize_events, resource_events.
  induction (cache_iteration c) as [|[sql [h|]] l IH]; [done| |].
  - change (omap finalize_event ((sql, Some h) :: l)) with (EFinalize h :: omap finalize_event l).
    change (omap resource_event (EFinalize h :: ?x)) with (EFinalize h :: omap resource_event x).
    by rewrite IH.
  - exact IH.
Qed.

Lemma log_events_no_resource level message w e :
  resource_event e = Some e → e ∈ log_events level message w → False.
Proof.
  intros He Hl.
  assert (e ∈ resource_events (log_events level message w)) as Hin.
  { apply list_elem_of_omap. by exists e. }
  rewrite resource_events_log_events in Hin. by apply elem_of_nil in Hin.
Qed.

(** X7: the destructor finalizes the statements of the cache and nothing else:
    every cached statement that is not null, and each of them once when the
    cached handles are distinct; it closes the connection and the log file
    only when they are open, and leaves the cache empty and both closed.
    So the body of the destructor, run again on the same object, releases
    nothing a second time. *)
Theorem teardown_releases_once w :
  (∃ d, trace (BookArchive_dtor w) = trace w ++ d ∧
        (∀ h, EFinalize h ∈ d ↔ ∃ sql, stmt_cache w !! sql = Some (Some h)) ∧
        (EClose ∈ d ↔ db w = true) ∧
        (ELogClose ∈ d ↔ log_file_is_open w = true) ∧
        ((∀ sql1 sql2 h, stmt_cache w !! sql1 = Some (Some h) →
                         stmt_cache w !! sql2 = Some (Some h) → sql1 = sql2) →
         NoDup (resource_events d))) ∧
  (∃ d, trace (BookArchive_dtor (BookArchive_dtor w)) = trace (BookArchive_dtor w) ++ d ∧
        resource_events d = []).
Proof.
  destruct (BookArchive_dtor_trace w) as (Htr & Hcache & Hdb & Hopen & _).
  split.
  - eexists. split; [exact Htr|].
    set (dlog := log_events INFO "Shutting down Book Archive" w).
    assert (∀ e, resource_event e = Some e → e ∈ dlog ++
              [ELock stmt_cache_mutex Exclusive] ++ finalize_events (stmt_cache w) ++
              [EUnlock stmt_cache_mutex Exclusive] ++
              (if db w then [EClose] else []) ++
              (if log_file_is_open w then [ELogClose] else []) ↔
            e ∈ finalize_events (stmt_cache w) ++ (if db w then [EClose] else []) ++
                (if log_file_is_open w then [ELogClose] else [])) as Hmem.
    { intros e He. rewrite !elem_of_app, !list_elem_of_singleton.
      split; [|tauto].
      intros [Hl|[->|[?|[->|?]]]]; [|done|tauto|done|tauto].
      exfalso. by eapply log_events_no_resource. }
    split; [|split; [|split]].
    + intros h. rewrite (Hmem (EFinalize h) eq_refl), !elem_of_app. split.
      * intros [Hf|[Hc|Hl]].
        -- by apply finalize_events_only.
        -- destruct (db w); [by apply list_elem_of_singleton in Hc|by apply elem_of_nil in Hc].
        -- destruct (log_file_is_open w);
             [by apply list_elem_of_singleton in Hl|by apply elem_of_nil in Hl].
      * intros [sql Hs]. left. by eapply finalize_events_all.
    + rewrite (Hmem EClose eq_refl), !elem_of_app. split.
      * intros [Hf|[Hc|Hl]].
        -- exfalso. apply list_elem_of_omap in Hf as ([sql [h|]] & _ & Hv); done.
        -- destruct (db w); [done|by apply elem_of_nil in Hc].
        -- destruct (log_file_is_open w);
             [by apply list_elem_of_singleton in Hl|by apply elem_of_nil in Hl].
      * intros ->. right. left. apply list_elem_of_here.
    + rewrite (Hmem ELogClose eq_refl), !elem_of_app. split.
      * intros [Hf|[Hc|Hl]].
        -- exfalso. apply list_elem_of_omap in Hf as ([sql [h|]] & _ & Hv); done.
        -- destruct (db w); [by apply list_elem_of_singleton in Hc|by apply elem_of_nil in Hc].
        -- destruct (log_file_is_open w); [done|by apply elem_of_nil in Hl].
      * intros ->. right. right. apply list_elem_of_here.
    + intros Hinj. apply NoDup_finalize_events in Hinj. subst dlog.
      rewrite !resource_events_app, resource_events_log_events, resource_events_finalize_events.
      simpl. apply NoDup_app. split; [done|]. split.
      * intros e He Hin. apply list_elem_of_omap in He as ([sql [h|]] & _ & Hv); [|done].
        injection Hv as <-.
        destruct (db w), (log_file_is_open w); simpl in Hin;
          repeat (apply elem_of_cons in Hin as [?|Hin]; [done|]);
          by apply elem_of_nil in Hin.
      * destruct (db w), (log_file_is_open w); simpl.
        -- apply NoDup_cons. split; [|apply NoDup_singleton].
           by intros ?%list_elem_of_singleton.
        -- apply NoDup_singleton.
        -- apply NoDup_singleton.
        -- apply NoDup_nil_2.
  - destruct (BookArchive_dtor_trace (BookArchive_dtor w)) as (Htr2 & _).
    eexists. split; [exact Htr2|].
    rewrite Hcache, Hdb, Hopen.
    rewrite !resource_events_app, resource_events_log_events.
    unfold finalize_events, cache_iteration. by rewrite map_to_list_empty.
Qed.

(** ** The command loop: what ends it and what changes the log level *)

(** The five record operations leave [running] and the log level alone. *)
Ltac operation_state :=
  rewrite log_extend;
  match goal with
  | |- context [executeSQLWithParams ?s ?ps ?w0] =>
      destruct (executeSQLWithParams s ps w0) as [[[] w1]|] eqn:He; [| |done];
      apply executeSQLWithParams_frame in He as (_ & _ & Hl & Hr & _)
  | |- context [executeQuery ?s ?ps ?w0] =>
      destruct (executeQuery s ps w0) as [[[|b bs] w1]|] eqn:He; [| |done];
      apply executeQuery_frame in He as (_ & _ & Hl & Hr & _)
  end;
  intros [= <-]; rewrite ?log_extend; split; assumption.

Lemma processCommand_state c w w' :
  processCommand c w = Some w' →
  running w' = (if c is CmdExit then false else running w) ∧
  current_log_level w' =
    (if c is CmdDebug
     then if DEBUG_MODE then debug_toggle (current_log_level w) else current_log_level w
     else current_log_level w).
Proof.
  destruct c; simpl.
  - unfold addBook. operation_state.
  - unfold deleteBook. operation_state.
  - unfold updateBook. operation_state.
  - unfold searchBook. operation_state.
  - unfold displayBooks. operation_state.
  - by intros [= <-].
  - by intros [= <-].
  - unfold setLogLevel. destruct DEBUG_MODE; [|by intros [= <-]].
    destruct (current_log_level w); intros [= <-]; by rewrite log_extend.
  - by intros [= <-].
  - by intros [= <-].
  - intros [= <-]. by rewrite log_extend.
Qed.

Lemma run_loop_stopped input w : running w = false → run_loop input w = Some w.
Proof. intros H. destruct input; simpl; by rewrite H. Qed.

(** X8: the command loop ends at the first [exit] and nowhere else: what
    follows an [exit] in the input is never read, and a loop that has
    worked through its input has stopped exactly when the input held an
    [exit]. *)
Theorem session_ends_at_exit :
  (∀ pre post w, run_loop (pre ++ CmdExit :: post) w = run_loop (pre ++ [CmdExit]) w) ∧
  (∀ input w w', run_loop input w = Some w' → running w = true →
                 (running w' = false ↔ CmdExit ∈ input)).
Proof.
  split.
  - induction pre as [|c pre IH]; intros post w; simpl.
    + destruct (negb (running w)); [done|].
      by rewrite !run_loop_stopped.
    + destruct (negb (running w)); [done|].
      destruct (processCommand c _); [apply IH|done].
  - induction input as [|c input IH]; intros w w' H Hrun; simpl in H; rewrite Hrun in H;
      simpl in H.
    + injection H as <-. simpl. rewrite Hrun. split; [done|]. by intros ?%elem_of_nil.
    + destruct (processCommand c _) as [w1|] eqn:Hc; [|done].
      apply processCommand_state in Hc as [Hr _]. simpl in Hr.
      rewrite elem_of_cons.
      destruct c;
        try (rewrite (IH _ _ H) by (by rewrite Hr);
             split; [by right|intros [?|?]; [discriminate|done]]).
      rewrite run_loop_stopped in H by done. injection H as <-.
      split; [by left|done].
Qed.

(** X9: over a command loop the log level changes only by the [debug] command
    of a debug build: in a release build, and on input without [debug], it
    stays what it was, and no command ever sets it to ERROR. *)
Theorem log_level_over_session input w w' :
  run_loop input w = Some w' →
  (DEBUG_MODE = false → current_log_level w' = current_log_level w) ∧
  (CmdDebug ∉ input → current_log_level w' = current_log_level w) ∧
  (current_log_level w' = ERROR → current_log_level w = ERROR).
Proof.
  revert w. induction input as [|c input IH]; intros w; simpl.
  - destruct (negb (running w)); by intros [= <-].
  - destruct (negb (running w)); [by intros [= <-]|].
    destruct (processCommand c _) as [w1|] eqn:Hc; [|done].
    apply processCommand_state in Hc as [_ Hl]. simpl in Hl.
    intros H. apply IH in H as (H1 & H2 & H3).
    split; [|split].
    + intros Hrel. rewrite H1, Hl by done. rewrite Hrel. by destruct c.
    + intros Hno. rewrite H2, Hl.
      * destruct c; try done. exfalso. apply Hno, list_elem_of_here.
      * intros Hin. apply Hno. by apply list_elem_of_further.
    + intros He. apply H3 in He. rewrite Hl in He.
      destruct c; try done. destruct DEBUG_MODE; [|done].
      by destruct (current_log_level w).
Qed.

(** X10: [setLogLevel] sets the level before it logs the change at INFO level,
    so the confirmation is written only when the new level is INFO, in a
    debug build with the log file open: a switch to DEBUG or to ERROR is
    never recorded. *)
Theorem setLogLevel_confirmation level w :
  current_log_level (setLogLevel level w) = level ∧
  trace (setLogLevel level w) =
    trace w ++
    (if DEBUG_MODE && log_file_is_open w && bool_decide (level = INFO)
     then [ELock log_mutex Exclusive;
           ELog INFO ("Log level set to: " +:+ logLevelToString level);
           EUnlock log_mutex Exclusive]
     else []).
Proof.
  unfold setLogLevel. rewrite log_extend. split; [done|].
  unfold log_events. simpl.
  destruct level, DEBUG_MODE, (log_file_is_open w); simpl; by rewrite ?app_nil_r.
Qed.

(** ** Reading numbers *)

Lemma isdigit_pretty_N_char d : isdigit (pretty_N_char d) = true.
Proof. unfold pretty_N_char. by repeat case_match. Qed.

Lemma digit_value_pretty_N_char d :
  (d < 10)%N → digit_value (pretty_N_char d) = Z.of_N d.
Proof.
  intros Hd.
  assert (d = 0 ∨ d = 1 ∨ d = 2 ∨ d = 3 ∨ d = 4 ∨ d = 5 ∨ d = 6 ∨ d = 7 ∨ d = 8 ∨ d = 9)%N
    as Hc by lia.
  repeat (destruct Hc as [->|Hc]; [reflexivity|]). by subst.
Qed.

Lemma isdigit_not_space c : isdigit c = true → isspace c = false.
Proof.
  unfold isdigit, isspace. cbv zeta. intros H.
  apply andb_true_iff in H as [H1 H2]. apply N.leb_le in H1, H2.
  apply orb_false_iff. split; [apply N.eqb_neq; lia|].
  apply andb_false_iff. right. apply N.leb_gt. lia.
Qed.

Lemma append_cons c s1 s2 : String c s1 +:+ s2 = String c (s1 +:+ s2).
Proof. reflexivity. Qed.

Lemma append_nil_l s : "" +:+ s = s.
Proof. reflexivity. Qed.

(** Brings the literal head of a concatenation to the front. *)
Ltac head_append := rewrite ?append_cons, ?append_nil_l.

Lemma append_assoc s1 s2 s3 : (s1 +:+ s2) +:+ s3 = s1 +:+ s2 +:+ s3.
Proof. induction s1 as [|c s1 IH]; head_append; [done|by f_equal]. Qed.

Lemma append_nil_r s : s +:+ "" = s.
Proof. induction s as [|c s IH]; head_append; [done|by f_equal]. Qed.

Lemma chars_app s1 s2 : chars (s1 +:+ s2) = chars s1 ++ chars s2.
Proof. induction s1 as [|c s1 IH]; head_append; simpl; [done|by f_equal]. Qed.

(** [pretty_N_go x s] puts the digits of [x] in front of [s]. *)
Lemma pretty_N_go_app x : ∀ s, pretty_N_go x s = pretty_N_go x "" +:+ s.
Proof.
  induction (N.lt_wf_0 x) as [x _ IH]; intros s.
  assert (x = 0 ∨ 0 < x)%N as [->|Hx] by lia; [done|].
  rewrite (pretty_N_go_step x s), (pretty_N_go_step x "") by done.
  assert (x `div` 10 < x)%N as Hlt by (by apply N.div_lt).
  rewrite (IH _ Hlt (String _ s)), (IH _ Hlt (String _ "")).
  by rewrite append_assoc.
Qed.

Lemma pretty_N_go_digits x : ∀ s,
  Forall (λ c, isdigit c = true) (chars s) →
  Forall (λ c, isdigit c = true) (chars (pretty_N_go x s)).
Proof.
  induction (N.lt_wf_0 x) as [x _ IH]; intros s Hs.
  assert (x = 0 ∨ 0 < x)%N as [->|Hx] by lia; [done|].
  rewrite pretty_N_go_step by done. apply IH; [by apply N.div_lt|].
  simpl. apply Forall_cons_2; [apply isdigit_pretty_N_char|done].
Qed.

Lemma pretty_N_go_read x :
  ∃ p, ∀ acc s, read_digits acc (pretty_N_go x s) = read_digits (acc * p + Z.of_N x) s.
Proof.
  induction (N.lt_wf_0 x) as [x _ IH].
  assert (x = 0 ∨ 0 < x)%N as [->|Hx] by lia.
  { exists 1. intros acc s. rewrite pretty_N_go_0. f_equal. lia. }
  destruct (IH (x `div` 10)%N) as [p Hp]; [by apply N.div_lt|].
  exists (10 * p). intros acc s. rewrite pretty_N_go_step, Hp by done.
  simpl. rewrite isdigit_pretty_N_char, digit_value_pretty_N_char by (by apply N.mod_lt).
  f_equal. rewrite (N.div_mod x 10) at 3 by done. lia.
Qed.

Lemma pretty_N_go_head x s :
  (0 < x)%N → ∃ c s', pretty_N_go x s = String c s' ∧ isdigit c = true.
Proof.
  revert s. induction (N.lt_wf_0 x) as [x _ IH]; intros s Hx.
  rewrite pretty_N_go_step by done.
  destruct (N.eq_0_gt_0_cases (x `div` 10)) as [->|Hd].
  - rewrite pretty_N_go_0. eexists _, _. split; [done|apply isdigit_pretty_N_char].
  - apply IH; [by apply N.div_lt|done].
Qed.

Lemma read_digits_stop acc s : starts_with_digit s = false → read_digits acc s = acc.
Proof. destruct s as [|c s]; cbn [starts_with_digit read_digits]; [done|]. by intros ->. Qed.

(** The text of a natural number: digits only, and at least one. *)
Lemma pretty_N_spec (x : N) :
  ∃ c s', pretty x = String c s' ∧ isdigit c = true ∧
          Forall (λ c, isdigit c = true) (chars (pretty x)) ∧
          ∀ junk, starts_with_digit junk = false →
                  read_digits 0 (pretty x +:+ junk) = Z.of_N x.
Proof.
  unfold pretty, pretty_N. case_decide as Hx.
  - subst x. exists "0"%char, "". split; [done|]. split; [done|].
    split; [by repeat constructor|]. intros junk Hj. head_append. simpl.
    by apply read_digits_stop.
  - destruct (pretty_N_go_head x "") as (c & s' & Hs & Hc); [lia|].
    exists c, s'. split; [done|]. split; [done|].
    split; [by apply pretty_N_go_digits|].
    intros junk Hj. rewrite <- pretty_N_go_app.
    destruct (pretty_N_go_read x) as [p ->]. rewrite read_digits_stop by done. lia.
Qed.

Lemma skip_ws_id s : starts_with_space s = false → skip_ws s = s.
Proof. destruct s as [|c s]; cbn [starts_with_space skip_ws]; [done|]. by intros ->. Qed.

(** [std::stoi] on text that starts with the decimal text of [z]: the
    value is [z] whatever follows the digits, unless [z] is no [int]. *)
Lemma stoi_to_string z junk :
  starts_with_digit junk = false →
  stoi (to_string z +:+ junk) =
    if (INT_MIN <=? z) && (z <=? INT_MAX) then Some z else None.
Proof.
  intros Hj. unfold to_string, pretty, pretty_Z, stoi.
  destruct z as [|x|x].
  - head_append. simpl. by rewrite read_digits_stop.
  - change (pretty x) with (pretty (Npos x)).
    destruct (pretty_N_spec (Npos x)) as (c & s' & Hs & Hc & _ & Hread).
    specialize (Hread junk Hj). rewrite Hs in *. head_append.
    rewrite skip_ws_id by (simpl; by apply isdigit_not_space).
    assert (c ≠ "-"%char ∧ c ≠ "+"%char) as [Hm Hp] by (split; by intros ->).
    assert (match String c (s' +:+ junk) with
            | String "-"%char s0 => (true, s0)
            | String "+"%char s0 => (false, s0)
            | _ => (false, String c (s' +:+ junk))
            end = (false, String c (s' +:+ junk))) as ->.
    { destruct c as [[] [] [] [] [] [] [] []]; done. }
    rewrite Hc. rewrite append_cons in Hread. rewrite Hread. done.
  - change (pretty x) with (pretty (Npos x)).
    destruct (pretty_N_spec (Npos x)) as (c & s' & Hs & Hc & _ & Hread).
    specialize (Hread junk Hj). head_append.
    rewrite skip_ws_id by done. rewrite Hs in *. rewrite append_cons in *.
    rewrite Hc, Hread. done.
Qed.

Lemma to_string_head z :
  ∃ c s', to_string z = String c s' ∧ isspace c = false ∧
          Forall (λ c, isspace c = false) (chars (to_string z)).
Proof.
  assert (∀ x : N, Forall (λ c, isspace c = false) (chars (pretty x))) as Hall.
  { intros x. destruct (pretty_N_spec x) as (_ & _ & _ & _ & Hd & _).
    eapply Forall_impl; [exact Hd|]. apply isdigit_not_space. }
  unfold to_string, pretty, pretty_Z. destruct z as [|x|x].
  - exists "0"%char, "". by repeat constructor.
  - change (pretty x) with (pretty (Npos x)).
    destruct (pretty_N_spec (Npos x)) as (c & s' & Hs & Hc & _).
    exists c, s'. split; [done|]. split; [by apply isdigit_not_space|apply Hall].
  - change (pretty x) with (pretty (Npos x)).
    exists "-"%char, (pretty (Npos x)). split; [done|]. split; [done|].
    simpl. apply Forall_cons_2; [done|apply Hall].
Qed.

(** ** Reading words *)

Lemma read_word_app s rest :
  Forall (λ c, isspace c = false) (chars s) →
  starts_with_space rest = true ∨ rest = "" →
  read_word (s +:+ rest) = (s, rest).
Proof.
  intros Hs Hrest. induction s as [|c s IH]; head_append.
  - destruct Hrest as [Hr| ->]; [|done]. destruct rest as [|c r]; [done|].
    cbn [starts_with_space] in Hr. cbn [read_word]. by rewrite Hr.
  - cbn [chars] in Hs. apply Forall_cons in Hs as [Hc Hs]. cbn [read_word].
    by rewrite Hc, IH.
Qed.

Lemma extract_to_string z rest :
  starts_with_space rest = true ∨ rest = "" →
  extract (" " +:+ to_string z +:+ rest) = (to_string z, rest).
Proof.
  intros Hrest. unfold extract. head_append.
  change (skip_ws (String " " ?s)) with (skip_ws s).
  destruct (to_string_head z) as (c & s' & Hs & Hc & Hall).
  rewrite skip_ws_id by (by rewrite Hs). by apply read_word_app.
Qed.

Lemma getline_id s : "010"%char ∉ chars s → getline s = s.
Proof.
  induction s as [|c s IH]; simpl; [done|]. intros Hn.
  apply not_elem_of_cons in Hn as [Hc Hn].
  destruct (Ascii.eqb c "010") eqn:He; [by apply Ascii.eqb_eq in He|].
  by rewrite IH.
Qed.

Lemma getline_no_newline s : "010"%char ∉ chars (getline s).
Proof.
  induction s as [|c s IH]; simpl; [by intros ?%elem_of_nil|].
  destruct (Ascii.eqb c "010") eqn:He; simpl; [by intros ?%elem_of_nil|].
  apply Ascii.eqb_neq in He. apply not_elem_of_cons. by split.
Qed.

Lemma split_comma_app title rest :
  ","%char ∉ chars title →
  split_comma (title +:+ String "," rest) = Some (title, rest).
Proof.
  induction title as [|c title IH]; head_append; simpl; [done|]. intros Hn.
  apply not_elem_of_cons in Hn as [Hc Hn].
  destruct (Ascii.eqb c ",") eqn:He; [by apply Ascii.eqb_eq in He|].
  by rewrite IH.
Qed.

Lemma split_comma_spec s before after :
  split_comma s = Some (before, after) →
  s = before +:+ String "," after ∧ ","%char ∉ chars before.
Proof.
  revert before. induction s as [|c s IH]; intros before; simpl; [done|].
  destruct (Ascii.eqb c ",") eqn:He.
  - apply Ascii.eqb_eq in He as ->. intros [= <- <-]. split; [done|]. by intros ?%elem_of_nil.
  - destruct (split_comma s) as [[b a]|]; [|done]. intros [= <- <-].
    destruct (IH b eq_refl) as [-> Hn]. split; [done|].
    apply Ascii.eqb_neq in He. simpl. apply not_elem_of_cons. by split.
Qed.

(** ** Trimming *)

Lemma erase_leading_blanks_id s : starts_blank s = false → erase_leading_blanks s = s.
Proof.
  destruct s as [|c s]; cbn [starts_blank erase_leading_blanks]; [done|]. by intros ->.
Qed.

Lemma starts_blank_erase_leading s : starts_blank (erase_leading_blanks s) = false.
Proof.
  induction s as [|c s IH]; cbn [erase_leading_blanks]; [done|].
  destruct (blank c) eqn:Hc; [done|]. cbn [starts_blank]. by rewrite Hc.
Qed.

Lemma erase_trailing_blanks_id s : ends_blank s = false → erase_trailing_blanks s = s.
Proof.
  induction s as [|c s IH]; [done|]. intros He.
  destruct s as [|c' s].
  - cbn [ends_blank erase_trailing_blanks] in *. by rewrite He.
  - change (ends_blank (String c (String c' s))) with (ends_blank (String c' s)) in He.
    change (erase_trailing_blanks (String c (String c' s)))
      with (match erase_trailing_blanks (String c' s) with
            | EmptyString => if blank c then EmptyString else String c EmptyString
            | kept => String c kept
            end).
    by rewrite IH.
Qed.

Lemma ends_blank_erase_trailing s : ends_blank (erase_trailing_blanks s) = false.
Proof.
  induction s as [|c s IH]; [done|]. cbn [erase_trailing_blanks].
  destruct (erase_trailing_blanks s) as [|c' r] eqn:Hr.
  - destruct (blank c) eqn:Hc; [done|]. cbn [ends_blank]. by rewrite Hc.
  - exact IH.
Qed.

Lemma starts_blank_erase_trailing s :
  starts_blank s = false → starts_blank (erase_trailing_blanks s) = false.
Proof.
  destruct s as [|c s]; [done|]. cbn [starts_blank erase_trailing_blanks]. intros Hc.
  rewrite Hc. by destruct (erase_trailing_blanks s); cbn [starts_blank].
Qed.

Lemma trim_trimmed s : trimmed s → trim s = s.
Proof.
  intros [Hs He]. unfold trim.
  by rewrite erase_leading_blanks_id, erase_trailing_blanks_id.
Qed.

Lemma trimmed_trim s : trimmed (trim s).
Proof.
  split; [|apply ends_blank_erase_trailing].
  apply starts_blank_erase_trailing, starts_blank_erase_leading.
Qed.

Lemma chars_erase_leading_blanks s c : c ∈ chars (erase_leading_blanks s) → c ∈ chars s.
Proof.
  induction s as [|c' s IH]; cbn [erase_leading_blanks chars]; [done|].
  destruct (blank c'); [|done]. intros H. apply list_elem_of_further. by apply IH.
Qed.

Lemma chars_erase_trailing_blanks s c : c ∈ chars (erase_trailing_blanks s) → c ∈ chars s.
Proof.
  induction s as [|c' s IH]; cbn [erase_trailing_blanks chars]; [done|].
  destruct (erase_trailing_blanks s) as [|c'' r].
  - destruct (blank c'); cbn [chars]; [by intros ?%elem_of_nil|].
    intros ->%list_elem_of_singleton. apply list_elem_of_here.
  - cbn [chars]. intros [->|H]%elem_of_cons; [apply list_elem_of_here|].
    apply list_elem_of_further. by apply IH.
Qed.

Lemma chars_trim s c : c ∈ chars (trim s) → c ∈ chars s.
Proof. intros H. by apply chars_erase_leading_blanks, chars_erase_trailing_blanks. Qed.

Lemma trim_space s : trim (String " " s) = trim s.
Proof. reflexivity. Qed.

(** ** Command lines *)

Lemma stoi_range s v : stoi s = Some v → INT_MIN ≤ v ≤ INT_MAX.
Proof.
  unfold stoi. destruct (match skip_ws s with
                         | String "-"%char s' => (true, s')
                         | String "+"%char s' => (false, s')
                         | _ => (false, skip_ws s)
                         end) as [negative s0].
  destruct s0 as [|c s0]; [done|]. destruct (isdigit c); [|done].
  destruct (_ && _) eqn:Hr; [|done]. intros [= <-].
  apply andb_true_iff in Hr as [H1 H2]. apply Z.leb_le in H1, H2. done.
Qed.

Lemma parse_id_range s id rest : parse_id s = inr (id, rest) → INT_MIN ≤ id ≤ INT_MAX.
Proof.
  unfold parse_id. destruct (extract s) as [idStr s']. case_bool_decide; [done|].
  destruct (stoi idStr) as [v|] eqn:Hv; [|done]. intros [= <- <-]. by eapply stoi_range.
Qed.

Lemma parse_title_author_fields usage s title author :
  parse_title_author usage s = inr (title, author) →
  field title ∧ field author ∧ ","%char ∉ chars title.
Proof.
  unfold parse_title_author. cbv zeta.
  destruct (split_comma (getline s)) as [[before after]|] eqn:Hsplit; [|done].
  apply split_comma_spec in Hsplit as [Hline Hcomma].
  pose proof (getline_no_newline s) as Hnl. rewrite Hline, chars_app in Hnl.
  destruct (bool_decide (trim before = "")) eqn:Ht; [done|].
  destruct (bool_decide (trim after = "")) eqn:Ha; [done|].
  apply bool_decide_eq_false in Ht, Ha. intros [= <- <-].
  split; [|split].
  - split; [done|]. split; [apply trimmed_trim|].
    intros Hin%chars_trim. apply Hnl, elem_of_app. by left.
  - split; [done|]. split; [apply trimmed_trim|].
    intros Hin%chars_trim. apply Hnl, elem_of_app. right. by apply list_elem_of_further.
  - by intros Hin%chars_trim.
Qed.

Lemma starts_with_space_skip_ws s : starts_with_space (skip_ws s) = false.
Proof.
  induction s as [|c s IH]; cbn [skip_ws]; [done|].
  destruct (isspace c) eqn:Hc; [done|]. cbn [starts_with_space]. by rewrite Hc.
Qed.

Lemma starts_with_space_getline s :
  starts_with_space s = false → starts_with_space (getline s) = false.
Proof.
  destruct s as [|c s]; [done|]. cbn [starts_with_space getline]. intros Hc.
  by destruct (Ascii.eqb c "010").
Qed.

(** X11: whatever the line, a command that [processCommand] passes on to an
    operation is well formed: the id is an [int]; title and author are not
    empty, carry no blank at either end and no newline, and the title has
    no comma; a search keyword is not empty and does not start with white
    space. *)
Theorem parseCommand_well_formed line :
  match parseCommand line with
  | CmdInvalid | CmdMalformed _ _ => True
  | c => well_formed c
  end.
Proof.
  unfold parseCommand. destruct (extract line) as [action s].
  repeat case_bool_decide; try done.
  - destruct (parse_id s) as [what|[id s']] eqn:Hid; [done|].
    apply parse_id_range in Hid.
    destruct (parse_title_author _ s') as [what|[t a]] eqn:Hta; [done|].
    apply parse_title_author_fields in Hta. by split.
  - destruct (parse_id s) as [what|[id s']] eqn:Hid; [done|].
    by apply parse_id_range in Hid.
  - destruct (parse_id s) as [what|[id s']] eqn:Hid; [done|].
    apply parse_id_range in Hid.
    destruct (parse_title_author _ s') as [what|[t a]] eqn:Hta; [done|].
    apply parse_title_author_fields in Hta. by split.
  - split; [done|]. split; [|apply getline_no_newline].
    apply starts_with_space_getline, starts_with_space_skip_ws.
Qed.

Lemma extract_word c word rest :
  Forall (λ c, isspace c = false) (chars (String c word)) →
  starts_with_space rest = true ∨ rest = "" →
  extract (String c word +:+ rest) = (String c word, rest).
Proof.
  intros Hw Hrest. unfold extract. rewrite skip_ws_id.
  - by apply read_word_app.
  - rewrite append_cons. cbn [starts_with_space]. by apply Forall_cons in Hw as [? _].
Qed.

Lemma read_word_junk s junk :
  Forall (λ c, isspace c = false) (chars s) →
  read_word (s +:+ junk) = (s +:+ (read_word junk).1, (read_word junk).2).
Proof.
  intros Hs. induction s as [|c s IH]; head_append.
  - by destruct (read_word junk).
  - cbn [chars] in Hs. apply Forall_cons in Hs as [Hc Hs]. cbn [read_word].
    by rewrite Hc, IH.
Qed.

Lemma starts_with_digit_read_word junk :
  starts_with_digit junk = false → starts_with_digit (read_word junk).1 = false.
Proof.
  destruct junk as [|c junk]; [done|]. cbn [starts_with_digit read_word]. intros Hc.
  destruct (isspace c); [done|]. destruct (read_word junk). cbn [fst starts_with_digit].
  done.
Qed.

(** The head of [add], [delete] and [update] on a line that carries the
    decimal text of [id] as its id. *)
Lemma parse_id_to_string id junk :
  starts_with_digit junk = false →
  parse_id (" " +:+ to_string id +:+ junk) =
    if (INT_MIN <=? id) && (id <=? INT_MAX) then inr (id, (read_word junk).2)
    else inl ("Invalid book ID: " +:+ to_string id +:+ (read_word junk).1).
Proof.
  intros Hj. unfold parse_id, extract. head_append.
  change (skip_ws (String " " ?s)) with (skip_ws s).
  destruct (to_string_head id) as (c & s' & Hs & Hc & Hall).
  rewrite skip_ws_id by (by rewrite Hs, append_cons).
  rewrite read_word_junk by done.
  rewrite bool_decide_eq_false_2 by (by rewrite Hs, append_cons).
  rewrite stoi_to_string by (by apply starts_with_digit_read_word).
  by destruct (_ && _).
Qed.

Lemma parse_title_author_fields_inv usage title author :
  field title → field author → ","%char ∉ chars title →
  parse_title_author usage (" " +:+ title +:+ ", " +:+ author) = inr (title, author).
Proof.
  intros (Ht & Htrim & Htnl) (Ha & Hatrim & Hanl) Hcomma. unfold parse_title_author. cbv zeta.
  rewrite getline_id; cycle 1.
  { head_append. cbn [chars]. rewrite chars_app. head_append. cbn [chars].
    rewrite !not_elem_of_cons, not_elem_of_app, !not_elem_of_cons. done. }
  change (" " +:+ title +:+ ", " +:+ author)
    with ((" " +:+ title) +:+ String "," (" " +:+ author)).
  rewrite split_comma_app; cycle 1.
  { head_append. cbn [chars]. by apply not_elem_of_cons. }
  head_append. rewrite !trim_space, !trim_trimmed by done.
  by rewrite !bool_decide_eq_false_2.
Qed.

(** Rewrites the tests on the action word. *)
Ltac decide_action :=
  repeat first
    [ rewrite (bool_decide_eq_true_2 _ eq_refl)
    | rewrite bool_decide_eq_false_2 by discriminate ];
  cbv iota.

(** X12: a well-formed command is what [processCommand] reads from its line in
    the format of [help]. *)
Theorem parseCommand_command_line c :
  well_formed c → parseCommand (command_line c) = c.
Proof.
  destruct c as [id t a|id|id t a|k| | | | | | |]; simpl; try done.
  - intros (Hid & Ht & Ha & Hc). unfold parseCommand.
    change ("add " +:+ ?s) with ("add" +:+ " " +:+ s).
    rewrite extract_word by (by repeat constructor || by left). decide_action.
    rewrite parse_id_to_string by done.
    assert ((INT_MIN <=? id) && (id <=? INT_MAX) = true) as ->.
    { apply andb_true_iff. split; apply Z.leb_le; lia. }
    change ((read_word (" " +:+ ?s)).2) with (" " +:+ s).
    by rewrite parse_title_author_fields_inv.
  - intros Hid. unfold parseCommand.
    change ("delete " +:+ ?s) with ("delete" +:+ " " +:+ s).
    rewrite extract_word by (by repeat constructor || by left). decide_action.
    rewrite <- (append_nil_r (to_string id)) at 1.
    rewrite parse_id_to_string by done.
    assert ((INT_MIN <=? id) && (id <=? INT_MAX) = true) as ->.
    { apply andb_true_iff. split; apply Z.leb_le; lia. }
    done.
  - intros (Hid & Ht & Ha & Hc). unfold parseCommand.
    change ("update " +:+ ?s) with ("update" +:+ " " +:+ s).
    rewrite extract_word by (by repeat constructor || by left). decide_action.
    rewrite parse_id_to_string by done.
    assert ((INT_MIN <=? id) && (id <=? INT_MAX) = true) as ->.
    { apply andb_true_iff. split; apply Z.leb_le; lia. }
    change ((read_word (" " +:+ ?s)).2) with (" " +:+ s).
    by rewrite parse_title_author_fields_inv.
  - intros (Hk & Hs & Hnl). unfold parseCommand.
    change ("search " +:+ ?s) with ("search" +:+ " " +:+ s).
    rewrite extract_word by (by repeat constructor || by left). decide_action.
    head_append. change (skip_ws (String " " ?s)) with (skip_ws s).
    rewrite skip_ws_id, getline_id by done.
    by rewrite bool_decide_eq_false_2.
Qed.

(** X13: [delete] reads its id as [std::stoi] does: the number at the head of
    the word that follows, whatever comes after its digits on the line; an
    id that is no [int] is refused with the whole word in the message. *)
Theorem delete_reads_leading_number id junk :
  starts_with_digit junk = false →
  parseCommand ("delete " +:+ to_string id +:+ junk) =
    if (INT_MIN <=? id) && (id <=? INT_MAX) then CmdDelete id
    else CmdMalformed ("Invalid book ID: " +:+ to_string id +:+ (read_word junk).1)
                      ("delete " +:+ to_string id +:+ junk).
Proof.
  intros Hj. unfold parseCommand.
  change ("delete " +:+ ?s) with ("delete" +:+ " " +:+ s).
  rewrite extract_word by (by repeat constructor || by left). decide_action.
  rewrite parse_id_to_string by done. by destruct (_ && _).
Qed.

(** X14: the loop of [run] on text is the command loop on what
    [processCommand] reads from each line, as long as no line is empty; an
    empty line only brings the next prompt, while a line of white space is
    answered as an invalid command. *)
Theorem run_lines_reads_commands :
  (∀ lines w, "" ∉ lines → run_lines lines w = run_loop (parseCommand <$> lines) w) ∧
  (∀ lines w, running w = true →
     run_lines ("" :: lines) w = run_lines lines (emit (ECout "> ") w)) ∧
  (∀ line w, skip_ws line = "" →
     processLine line w =
       Some (emit (ECout "Invalid command. Type 'help' for a list of commands.") w)).
Proof.
  split; [|split].
  - induction lines as [|line lines IH]; intros w Hne; [done|].
    apply not_elem_of_cons in Hne as [Hline Hne]. cbn [run_lines fmap list_fmap run_loop].
    destruct (negb (running w)); [done|].
    rewrite bool_decide_eq_false_2 by done. unfold processLine.
    destruct (processCommand _ _); [by apply IH|done].
  - intros lines w Hrun. cbn [run_lines]. by rewrite Hrun.
  - intros line w Hblank. unfold processLine, parseCommand, extract. by rewrite Hblank.
Qed.

(** ** The options of [main] *)

(** X15: [parseLogLevel] accepts exactly the three names [logLevelToString]
    prints, in upper case, and gives back the level of the name; any other
    text is answered with a warning and the level of the build. *)
Theorem parseLogLevel_names level :
  (∀ l, parseLogLevel level = (l, []) ↔ level = logLevelToString l) ∧
  ((∀ l, level ≠ logLevelToString l) →
   parseLogLevel level =
     (default_log_level,
      [ECerr ("Warning: Unknown log level '" +:+ level +:+ "'. Using default.")])).
Proof.
  split.
  - intros l. split.
    + unfold parseLogLevel. repeat case_bool_decide; intros [= <-]; by subst.
    + intros ->. by destruct l.
  - intros Hno. unfold parseLogLevel.
    rewrite !bool_decide_eq_false_2; [done|..].
    + apply (Hno ERROR).
    + apply (Hno INFO).
    + apply (Hno DEBUG).
Qed.

Lemma parse_options_append programName a b :
  ∀ db_file log_level db_file' log_level' out,
  parse_options programName a db_file log_level = (Proceed db_file' log_level', out) →
  parse_options programName (a ++ b) db_file log_level =
    ((parse_options programName b db_file' log_level').1,
     out ++ (parse_options programName b db_file' log_level').2).
Proof.
  induction a as [|arg|arg value a IH] using pairs_ind;
    intros db_file log_level db_file' log_level' out.
  - simpl. intros [= <- <- <-]. by destruct (parse_options _ b _ _).
  - simpl. repeat case_match; intros; simplify_eq.
  - change ((arg :: value :: a) ++ b) with (arg :: value :: (a ++ b)).
    cbn [parse_options].
    destruct (bool_decide (arg = "--db") || bool_decide (arg = "-d")); [apply IH|].
    destruct (bool_decide (arg = "--log-level") || bool_decide (arg = "-l")).
    { destruct (parseLogLevel value) as [level warning].
      destruct (parse_options _ a db_file level) as [r o] eqn:Hp.
      intros [= -> <-]. rewrite (IH _ _ _ _ _ Hp). by rewrite app_assoc. }
    repeat case_match; intros; simplify_eq.
Qed.

(** X16: the options are worked off from left to right, each on the settings
    the ones before it left: after arguments that were read without an
    exit, a further [--db] or [--log-level] replaces the earlier value,
    [--help] ends the program with status 0 whatever follows it, and a
    [--db] or [--log-level] at the very end, without a value, ends it with
    status 1. *)
Theorem parse_options_left_to_right programName a db_file log_level db_file' log_level' out :
  parse_options programName a db_file log_level = (Proceed db_file' log_level', out) →
  (∀ b, parse_options programName (a ++ b) db_file log_level =
          ((parse_options programName b db_file' log_level').1,
           out ++ (parse_options programName b db_file' log_level').2)) ∧
  (∀ file, parse_options programName (a ++ ["--db"; file]) db_file log_level =
             (Proceed file log_level', out)) ∧
  (∀ name, parse_options programName (a ++ ["--log-level"; logLevelToString name])
             db_file log_level = (Proceed db_file' name, out)) ∧
  (∀ rest, parse_options programName (a ++ "--help" :: rest) db_file log_level =
             (Return 0, out ++ [printUsage programName])) ∧
  parse_options programName (a ++ ["--db"]) db_file log_level =
    (Return 1, out ++ [ECerr "Error: Missing database filename after --db"]) ∧
  parse_options programName (a ++ ["--log-level"]) db_file log_level =
    (Return 1, out ++ [ECerr "Error: Missing log level after --log-level"]).
Proof.
  intros Ha. split; [intros b; by apply parse_options_append|].
  split; [|split; [|split; [|split]]].
  - intros file. rewrite (parse_options_append _ _ _ _ _ _ _ _ Ha). simpl.
    by rewrite app_nil_r.
  - intros name. rewrite (parse_options_append _ _ _ _ _ _ _ _ Ha).
    destruct name; simpl; by rewrite app_nil_r.
  - intros rest. by rewrite (parse_options_append _ _ _ _ _ _ _ _ Ha).
  - by rewrite (parse_options_append _ _ _ _ _ _ _ _ Ha).
  - by rewrite (parse_options_append _ _ _ _ _ _ _ _ Ha).
Qed.

(** ** The table of books *)

Lemma length_append s1 s2 :
  String.length (s1 +:+ s2) = (String.length s1 + String.length s2)%nat.
Proof. induction s1 as [|c s1 IH]; head_append; simpl; [done|by f_equal]. Qed.

Lemma length_spaces n : String.length (spaces n) = n.
Proof. induction n as [|n IH]; simpl; [done|by f_equal]. Qed.

Lemma length_substring_0 n : ∀ s,
  String.length (String.substring 0 n s) = (n `min` String.length s)%nat.
Proof.
  induction n as [|n IH]; intros [|c s]; simpl; try done. by rewrite IH.
Qed.

Lemma length_setw n s : String.length (setw n s) = (n `max` String.length s)%nat.
Proof. unfold setw. rewrite length_append, length_spaces. lia. Qed.

Lemma length_shorten width s :
  (3 ≤ width)%nat → (String.length (shorten width s) ≤ width)%nat.
Proof.
  intros Hw. unfold shorten. destruct (width <? String.length s)%nat eqn:Hlong.
  - apply Nat.ltb_lt in Hlong. rewrite length_append, length_substring_0. simpl. lia.
  - by apply Nat.ltb_ge in Hlong.
Qed.

(** X17: the columns of the table line up: the cells of the title and of the
    author are 30 and 20 characters wide whatever the texts, a title of
    more than 30 characters being cut to its first 27 and three dots (an
    author of more than 20 to 17), so a row is as wide as the header, 61
    characters, as long as the id has no more than five characters, and
    wider by the excess of the id otherwise. *)
Theorem table_rows_line_up b :
  String.length (setw 30 (shorten 30 (title b))) = 30%nat ∧
  String.length (setw 20 (shorten 20 (author b))) = 20%nat ∧
  String.length (table_row b) = ((5 `max` String.length (to_string (id b))) + 56)%nat ∧
  String.length table_header = 61%nat ∧
  ((30 < String.length (title b))%nat →
   shorten 30 (title b) = String.substring 0 27 (title b) +:+ "..." ∧
   String.length (String.substring 0 27 (title b)) = 27%nat) ∧
  ((String.length (title b) ≤ 30)%nat → shorten 30 (title b) = title b).
Proof.
  assert (String.length (setw 30 (shorten 30 (title b))) = 30%nat) as Ht.
  { rewrite length_setw. pose proof (length_shorten 30 (title b)). lia. }
  assert (String.length (setw 20 (shorten 20 (author b))) = 20%nat) as Ha.
  { rewrite length_setw. pose proof (length_shorten 20 (author b)). lia. }
  split; [done|]. split; [done|]. split.
  { unfold table_row. rewrite !length_append, Ht, Ha, length_setw. simpl. lia. }
  split; [reflexivity|]. split.
  - intros Hlong. unfold shorten.
    apply Nat.ltb_lt in Hlong as Hlt. rewrite Hlt. split; [done|].
    rewrite length_substring_0. lia.
  - intros Hshort. unfold shorten. apply Nat.ltb_ge in Hshort. by rewrite Hshort.
Qed.

(** ** Compilations over a whole run *)

Lemma prepare_results_app sql d1 d2 :
  prepare_results sql (d1 ++ d2) = prepare_results sql d1 ++ prepare_results sql d2.
Proof. apply omap_app. Qed.

Lemma prepare_results_log_events sql level message w :
  prepare_results sql (log_events level message w) = [].
Proof. unfold log_events. by repeat case_match. Qed.

Lemma omap_console {B} (f : Event → option B) d :
  (∀ e, console e = true → f e = None) →
  Forall (λ e, console e = true) d → omap f d = [].
Proof.
  intros Hf. induction 1 as [|e d He Hd IH]; [done|].
  simpl. by rewrite (Hf e He).
Qed.

Lemma untouched_refl w : untouched w w.
Proof. split; [done|]. exists []. by rewrite app_nil_r. Qed.

Lemma untouched_trans w1 w2 w3 : untouched w1 w2 → untouched w2 w3 → untouched w1 w3.
Proof.
  intros (Hc1 & d1 & H1 & Hn1) (Hc2 & d2 & H2 & Hn2). split; [congruence|].
  exists (d1 ++ d2). split; [by rewrite H2, H1, app_assoc|].
  intros sql. by rewrite prepare_results_app, Hn1, Hn2.
Qed.

Lemma untouched_same w w1 w2 :
  trace w2 = trace w1 → stmt_cache w2 = stmt_cache w1 → untouched w w1 → untouched w w2.
Proof. intros Ht Hc (Hc1 & d & H & Hn). split; [congruence|]. exists d. by rewrite Ht. Qed.

Lemma untouched_emit e w w' :
  (∀ sql, prepare_result sql e = None) → untouched w w' → untouched w (emit e w').
Proof.
  intros He H. eapply untouched_trans; [exact H|]. split; [done|].
  exists [e]. split; [done|]. intros sql. unfold prepare_results. simpl. by rewrite He.
Qed.

Lemma untouched_log level message w w' :
  untouched w w' → untouched w (log level message w').
Proof.
  intros H. eapply untouched_trans; [exact H|]. rewrite log_extend. split; [done|].
  eexists. split; [reflexivity|]. intros sql. apply prepare_results_log_events.
Qed.

(** Straight-line code that neither compiles nor touches the cache. *)
Ltac quiet :=
  repeat first
    [ apply untouched_refl
    | assumption
    | apply untouched_log
    | apply untouched_emit; [by intros ?|]
    | match goal with
      | |- untouched _ (set_db _ ?w) => apply (untouched_same _ w); [reflexivity..|]
      | |- untouched _ (set_log_file_is_open _ ?w) =>
          apply (untouched_same _ w); [reflexivity..|]
      | |- untouched _ (set_current_log_level _ ?w) =>
          apply (untouched_same _ w); [reflexivity..|]
      | |- untouched _ (set_running _ ?w) => apply (untouched_same _ w); [reflexivity..|]
      | |- untouched _ (set_prepare_calls _ ?w) =>
          apply (untouched_same _ w); [reflexivity..|]
      | |- untouched _ (set_steps _ ?w) => apply (untouched_same _ w); [reflexivity..|]
      end ].

Lemma untouched_carries w w' : untouched w w' → carries w w'.
Proof.
  intros (Hc & d & Htr & Hno) Hinv. split; [|by rewrite Hc].
  intros sql. rewrite Htr, compilations_app, Hc.
  assert (compilations sql d = 0%nat) as -> by (unfold compilations; by rewrite Hno).
  rewrite Nat.add_0_r. apply Hinv.
Qed.

Lemma carries_refl w : carries w w.
Proof. by intros H. Qed.

Lemma carries_trans w1 w2 w3 : carries w1 w2 → carries w2 w3 → carries w1 w3.
Proof.
  intros H1 H2 Hinv. destruct (H1 Hinv) as [Hinv2 Hs1]. destruct (H2 Hinv2) as [Hinv3 Hs2].
  split; [done|]. by etrans.
Qed.

Lemma getPreparedStatement_carries sql w p w' :
  getPreparedStatement sql w = (p, w') → carries w w'.
Proof.
  unfold getPreparedStatement. rewrite lookup_shared_eq.
  destruct (stmt_cache w !! sql) as [q|] eqn:Hc.
  { intros [= <- <-]. apply untouched_carries. split; [done|].
    eexists. split; [reflexivity|done]. }
  unfold compile_exclusive. cbv zeta.
  change (stmt_cache (emit _ (extend _ w))) with (stmt_cache w). rewrite Hc.
  change (prepare_calls (emit _ (extend _ w))) with (prepare_calls w).
  destruct (sqlite3_prepare_v2 sq (prepare_calls w) sql) as [rc stmt].
  destruct (rc =? SQLITE_OK) eqn:Hrc; cbn [negb]; rewrite ?log_extend;
    intros [= <- <-] Hinv.
  - change (stmt_cache (emit _ (set_stmt_cache ?c _))) with c.
    split; [|by apply insert_subseteq].
    intros s. destruct (Hinv s) as [Hle Hzero].
    change (stmt_cache (emit _ (set_stmt_cache ?c _))) with c.
    change (trace (emit ?e4 (set_stmt_cache _ (emit ?e3 (set_prepare_calls _
              (emit ?e2 (extend ?d w)))))))
      with ((((trace w ++ d) ++ [e2]) ++ [e3]) ++ [e4]).
    rewrite !compilations_app, compilations_prepare, Hrc, andb_true_r.
    change (compilations s [ELock _ _; EUnlock _ _]) with 0%nat.
    change (compilations s [ELock _ _]) with 0%nat.
    change (compilations s [EUnlock _ _]) with 0%nat.
    rewrite !Nat.add_0_r.
    case_bool_decide as Hs.
    + subst s. rewrite (Hzero Hc), lookup_insert_eq. split; [simpl; lia|done].
    + rewrite lookup_insert_ne by done. rewrite Nat.add_0_r. split; [done|].
      intros Hn. by apply Hzero.
  - change (stmt_cache (emit _ (extend _ (emit _ (set_prepare_calls _ (emit _ (extend _ w)))))))
      with (stmt_cache w).
    split; [|done]. intros s. destruct (Hinv s) as [Hle Hzero].
    change (stmt_cache (emit _ (extend _ (emit _ (set_prepare_calls _ (emit _ (extend _ w)))))))
      with (stmt_cache w).
    change (trace (emit ?e4 (extend ?d3 (emit ?e3 (set_prepare_calls _
              (emit ?e2 (extend ?d w)))))))
      with (((((trace w ++ d) ++ [e2]) ++ [e3]) ++ d3) ++ [e4]).
    rewrite !compilations_app, compilations_prepare, Hrc, andb_false_r.
    change (log_events ?l ?m (emit _ (set_prepare_calls _ (emit _ (extend _ w)))))
      with (log_events l m w).
    rewrite compilations_log_events.
    change (compilations s [ELock _ _; EUnlock _ _]) with 0%nat.
    change (compilations s [ELock _ _]) with 0%nat.
    change (compilations s [EUnlock _ _]) with 0%nat.
    rewrite !Nat.add_0_r. split; [done|]. intros Hn. by apply Hzero.
Qed.

Lemma bind_params_untouched h params : ∀ i w ok w',
  bind_params h i params w = (ok, w') → untouched w w'.
Proof.
  induction params as [|p params IH]; intros i w ok w'; simpl.
  - intros [= <- <-]. quiet.
  - destruct (negb (_ =? SQLITE_OK)).
    + intros [= <- <-]. quiet.
    + intros H. apply IH in H. eapply untouched_trans; [|exact H]. quiet.
Qed.

Lemma write_loop_untouched h : ∀ script r w rc w',
  write_loop h script r w = Some (rc, w') → untouched w w'.
Proof.
  induction script as [|[c row] script IH]; intros r w rc w'; simpl; [done|].
  destruct ((c =? SQLITE_BUSY) && (r <? SQLITE_MAX_RETRIES)).
  - intros H. apply IH in H. eapply untouched_trans; [|exact H]. quiet.
  - intros [= <- <-]. quiet.
Qed.

Lemma query_loop_untouched h : ∀ script r res w res' w',
  query_loop h script r res w = Some (res', w') → untouched w w'.
Proof.
  induction script as [|[c row] script IH]; intros r res w res' w'; simpl; [done|].
  destruct (c =? SQLITE_ROW).
  { intros H. apply IH in H. eapply untouched_trans; [|exact H]. quiet. }
  destruct ((c =? SQLITE_BUSY) && (r <? SQLITE_MAX_RETRIES)).
  { intros H. apply IH in H. eapply untouched_trans; [|exact H]. quiet. }
  destruct (c =? SQLITE_DONE); intros [= <- <-]; quiet.
Qed.

Lemma executeSQLWithParams_carries sql params w res w' :
  executeSQLWithParams sql params w = Some (res, w') → carries w w'.
Proof.
  unfold executeSQLWithParams.
  destruct (getPreparedStatement sql _) as [[stmt|] w1] eqn:Hg;
    apply getPreparedStatement_carries in Hg.
  2: { intros [= <- <-]. eapply carries_trans; [|exact Hg].
       apply untouched_carries. quiet. }
  assert (carries w w1) as H1.
  { eapply carries_trans; [|exact Hg]. apply untouched_carries. quiet. }
  destruct (bind_params stmt 0 params _) as [[] w2] eqn:Hb; apply bind_params_untouched in Hb.
  2: { intros [= <- <-]. eapply carries_trans; [exact H1|].
       apply untouched_carries. eapply untouched_trans; [|exact Hb]. quiet. }
  cbv zeta. change (steps (emit (ELock db_mutex Exclusive) w2)) with (steps w2).
  destruct (write_loop stmt (steps w2) 0 _) as [[rc w3]|] eqn:Hw; [|done].
  apply write_loop_untouched in Hw.
  assert (untouched w1 w3) as H3.
  { eapply untouched_trans; [|exact Hw]. apply untouched_emit; [by intros ?|].
    eapply untouched_trans; [|exact Hb]. quiet. }
  destruct (negb (rc =? SQLITE_DONE)); intros [= <- <-];
    (eapply carries_trans; [exact H1|]); apply untouched_carries; quiet.
Qed.

Lemma executeQuery_carries sql params w res w' :
  executeQuery sql params w = Some (res, w') → carries w w'.
Proof.
  unfold executeQuery.
  destruct (getPreparedStatement sql _) as [[stmt|] w1] eqn:Hg;
    apply getPreparedStatement_carries in Hg.
  2: { intros [= <- <-]. eapply carries_trans; [|exact Hg].
       apply untouched_carries. quiet. }
  assert (carries w w1) as H1.
  { eapply carries_trans; [|exact Hg]. apply untouched_carries. quiet. }
  destruct (bind_params stmt 0 params _) as [[] w2] eqn:Hb; apply bind_params_untouched in Hb.
  2: { intros [= <- <-]. eapply carries_trans; [exact H1|].
       apply untouched_carries. eapply untouched_trans; [|exact Hb]. quiet. }
  destruct (query_loop stmt (steps w2) 0 [] w2) as [[results w3]|] eqn:Hq; [|done].
  apply query_loop_untouched in Hq.
  assert (untouched w1 w3) as H3.
  { eapply untouched_trans; [|exact Hq]. eapply untouched_trans; [|exact Hb]. quiet. }
  intros [= <- <-]. eapply carries_trans; [exact H1|]. apply untouched_carries.
  unfold log_result_count. destruct results; quiet.
Qed.

(** The five record operations: a log line, one call of the engine, and
    console output. *)
Ltac operation_carries :=
  match goal with
  | |- context [executeSQLWithParams ?s ?ps ?w0] =>
      destruct (executeSQLWithParams s ps w0) as [[[] ?w1]|] eqn:He; [| |done];
      apply executeSQLWithParams_carries in He
  | |- context [executeQuery ?s ?ps ?w0] =>
      destruct (executeQuery s ps w0) as [[[|? ?] ?w1]|] eqn:He; [| |done];
      apply executeQuery_carries in He
  end;
  intros [= <-];
  (eapply carries_trans; [apply untouched_carries, untouched_log, untouched_refl|]);
  match goal with H : carries _ _ |- _ => eapply carries_trans; [exact H|] end;
  apply untouched_carries; quiet.

Lemma processCommand_carries c w w' : processCommand c w = Some w' → carries w w'.
Proof.
  destruct c; simpl.
  - unfold addBook. operation_carries.
  - unfold deleteBook. operation_carries.
  - unfold updateBook. operation_carries.
  - unfold searchBook. operation_carries.
  - unfold displayBooks. operation_carries.
  - intros [= <-]. apply untouched_carries. quiet.
  - intros [= <-]. apply untouched_carries. quiet.
  - unfold setLogLevel. destruct DEBUG_MODE; [|intros [= <-]; apply untouched_carries; quiet].
    destruct (current_log_level w); intros [= <-]; apply untouched_carries; quiet.
  - intros [= <-]. apply untouched_carries. quiet.
  - intros [= <-]. apply untouched_carries. quiet.
  - intros [= <-]. apply untouched_carries. quiet.
Qed.

Lemma run_loop_carries input : ∀ w w', run_loop input w = Some w' → carries w w'.
Proof.
  induction input as [|c input IH]; intros w w'; simpl.
  - destruct (negb (running w)); intros [= <-]; apply untouched_carries; quiet.
  - destruct (negb (running w)); [intros [= <-]; apply carries_refl|].
    destruct (processCommand c _) as [w1|] eqn:Hc; [|done].
    apply processCommand_carries in Hc. intros H. apply IH in H.
    eapply carries_trans; [|exact H]. eapply carries_trans; [|exact Hc].
    apply untouched_carries. quiet.
Qed.

Lemma foldl_set_pragma_untouched ps : ∀ w, untouched w (foldl set_pragma w ps).
Proof.
  induction ps as [|p ps IH]; intros w; simpl; [quiet|].
  eapply untouched_trans; [|apply IH]. unfold set_pragma.
  destruct (sqlite3_exec sq p) as [rc errmsg].
  destruct (negb (rc =? SQLITE_OK)); quiet.
Qed.

Lemma BookArchive_ctor_untouched db_file log_level w thrown w' :
  BookArchive_ctor db_file log_level w = (thrown, w') → untouched w w'.
Proof.
  unfold BookArchive_ctor. fold (log_opened w).
  assert (untouched w (log_opened w)) as H0.
  { unfold log_opened. destruct (log_file_opens sq); quiet. }
  assert (∀ ok w1, initializeDatabase db_file (log_opened w) = (ok, w1) →
                   untouched w w1) as Hinit.
  { intros ok w1. unfold initializeDatabase. cbv zeta.
    destruct (negb (sqlite3_open sq db_file =? SQLITE_OK)); [intros [= <- <-]; quiet|].
    set (w0 := set_db true _).
    assert (untouched w (foldl set_pragma w0 pragmas)) as Hp.
    { eapply untouched_trans; [|apply foldl_set_pragma_untouched]. unfold w0. quiet. }
    destruct (sqlite3_exec sq createTableSQL) as [rc errmsg].
    destruct (negb (rc =? SQLITE_OK)); [intros [= <- <-]; quiet|].
    destruct (sqlite3_exec sq createIndexSQL) as [rc2 errmsg2].
    intros [= <- <-]. destruct (negb (rc2 =? SQLITE_OK)); quiet. }
  destruct (initializeDatabase db_file (log_opened w)) as [[] w1] eqn:Hi;
    specialize (Hinit _ _ eq_refl).
  - intros [= <- <-]. quiet.
  - destruct (log_file_is_open w1); intros [= <- <-]; quiet.
Qed.

Lemma prepare_results_finalize_events sql c : prepare_results sql (finalize_events c) = [].
Proof.
  unfold finalize_events, prepare_results.
  induction (cache_iteration c) as [|[s [h|]] l IH]; [done| |exact IH].
  change (omap finalize_event ((s, Some h) :: l)) with (EFinalize h :: omap finalize_event l).
  exact IH.
Qed.

Lemma BookArchive_dtor_compilations sql w :
  compilations sql (trace (BookArchive_dtor w)) = compilations sql (trace w).
Proof.
  destruct (BookArchive_dtor_trace w) as (-> & _).
  rewrite !compilations_app. unfold compilations at 2 3 4 5 6 7.
  rewrite prepare_results_log_events, prepare_results_finalize_events.
  destruct (db w), (log_file_is_open w); simpl; lia.
Qed.

(** ** Whole runs *)

(** *** Interruptible methods *)

Lemma bind_read {A B} (f : World → A) (k : A → Proc B) n w :
  bind (read f) k n w = k (f w) n w.
Proof. reflexivity. Qed.

Lemma bind_write {B} (f : World → World) (k : unit → Proc B) n w :
  bind (write f) k n w = k tt n (f w).
Proof. reflexivity. Qed.

Lemma bind_ret {A B} (a : A) (k : A → Proc B) n w : bind (ret a) k n w = k a n w.
Proof. reflexivity. Qed.

Lemma prepare_count_app d1 d2 :
  prepare_count (d1 ++ d2) = (prepare_count d1 + prepare_count d2)%nat.
Proof. unfold prepare_count. by rewrite omap_app, length_app. Qed.

Lemma prepared_app d1 : ∀ n d2,
  prepared n (d1 ++ d2) = prepared n d1 ++ prepared (n + prepare_count d1) d2.
Proof.
  induction d1 as [|e d1 IH]; intros n d2.
  - simpl. by rewrite Nat.add_0_r.
  - destruct e; simpl; try apply IH.
    rewrite IH, <- app_assoc. do 2 f_equal.
    unfold prepare_count. simpl. by rewrite Nat.add_succ_r.
Qed.

(** A history without a compilation. *)
Lemma prepared_none d : prepare_count d = 0%nat → ∀ n, prepared n d = [].
Proof.
  induction d as [|e d IH]; [done|]. intros H n.
  destruct e; simpl; try (apply IH; exact H). discriminate H.
Qed.

Lemma compilations_none d : prepare_count d = 0%nat → ∀ sql, compilations sql d = 0%nat.
Proof.
  induction d as [|e d IH]; [done|]. intros H sql.
  change (e :: d) with ([e] ++ d). rewrite compilations_app.
  destruct e; try (rewrite IH by exact H; reflexivity). discriminate H.
Qed.

Lemma prepare_count_log_events level message w :
  prepare_count (log_events level message w) = 0%nat.
Proof. unfold log_events. by repeat case_match. Qed.

Lemma tame_log_events level message w : Forall tame (log_events level message w).
Proof.
  unfold log_events.
  destruct (level_rank level <? _); [constructor|].
  destruct (negb DEBUG_MODE && negb (is_ERROR level)) eqn:Hf; [constructor|].
  destruct (negb (log_file_is_open w)); [constructor|].
  apply Forall_cons_2; [exact I|]. apply Forall_cons_2; [|by repeat constructor].
  simpl. destruct DEBUG_MODE; [by left|]. right. by destruct level.
Qed.

Lemma steady_refl w : steady w w.
Proof.
  split; [exists []; rewrite app_nil_r; split; [done|]; split; [constructor|done]|].
  split; [done|]. split; [done|]. by intros.
Qed.

Lemma steady_trans w1 w2 w3 : steady w1 w2 → steady w2 w3 → steady w1 w3.
Proof.
  intros ((d1 & Hd1 & Ht1 & Hr1) & Hdb1 & Hlog1 & Hinv1)
         ((d2 & Hd2 & Ht2 & Hr2) & Hdb2 & Hlog2 & Hinv2).
  split; [|split; [congruence|split; [congruence|]]].
  - exists (d1 ++ d2). rewrite Hd2, Hd1, <- app_assoc. split; [done|].
    split; [by apply Forall_app|]. by rewrite resource_events_app, Hr1, Hr2.
  - intros Hc Ht. destruct (Hinv1 Hc Ht) as [Hc2 Ht2']. by apply Hinv2.
Qed.

(** Events that compile nothing and release nothing keep the state steady,
    and so does a write to a field other than the cache, the connection
    and the log file. *)
Lemma steady_quiet w w' d :
  trace w' = trace w ++ d → Forall tame d → resource_events d = [] →
  prepare_count d = 0%nat →
  db w' = db w → log_file_is_open w' = log_file_is_open w →
  stmt_cache w' = stmt_cache w → prepare_calls w' = prepare_calls w →
  steady w w'.
Proof.
  intros Hd Ht Hr Hp Hdb Hlog Hcache Hcalls.
  split; [by exists d|]. split; [done|]. split; [done|].
  intros Hc [Hn Hperm]. split; [|split].
  - intros sql. rewrite Hd, compilations_app, (compilations_none d Hp), Nat.add_0_r, Hcache.
    apply Hc.
  - by rewrite Hcalls, Hd, prepare_count_app, Hp, Nat.add_0_r.
  - by rewrite Hcache, Hd, prepared_app, (prepared_none d Hp), app_nil_r.
Qed.

Lemma steady_emit w0 w e :
  steady w0 w → tame e → resource_event e = None → prepare_count [e] = 0%nat →
  steady w0 (emit e w).
Proof.
  intros H Ht Hr Hp. eapply steady_trans; [exact H|].
  apply (steady_quiet _ _ [e]); try done.
  - by repeat constructor.
  - unfold resource_events. simpl. by rewrite Hr.
Qed.

Lemma steady_log w0 w level message : steady w0 w → steady w0 (log level message w).
Proof.
  intros H. eapply steady_trans; [exact H|]. rewrite log_extend.
  apply (steady_quiet _ _ (log_events level message w)); try done.
  - apply tame_log_events.
  - apply resource_events_log_events.
  - apply prepare_count_log_events.
Qed.

Lemma steady_write w0 w (f : World → World) :
  steady w0 w →
  trace (f w) = trace w → db (f w) = db w →
  log_file_is_open (f w) = log_file_is_open w →
  stmt_cache (f w) = stmt_cache w → prepare_calls (f w) = prepare_calls w →
  steady w0 (f w).
Proof.
  intros H Htr Hdb Hlog Hc Hn. eapply steady_trans; [exact H|].
  apply (steady_quiet _ _ []); try done. by rewrite app_nil_r.
Qed.

Lemma agrees_steady {A} w0 w (o : Outcome A) r :
  steady w0 w → agrees w o r → agrees w0 o r.
Proof.
  intros H. destruct o as [a n w'|w'|]; simpl; [|apply steady_trans; exact H|done].
  intros [-> H']. split; [done|]. by eapply steady_trans.
Qed.

Lemma agrees_ret {A} w0 (a : A) n w r :
  steady w0 w → r = Some (a, w) → agrees w0 (ret a n w) r.
Proof. intros H ->. by split. Qed.

(** A call: [r1] is what the method called returns. *)
Lemma agrees_bind {A B} w0 (m : Proc A) (k : A → Proc B) n w r1 r :
  agrees w (m n w) r1 → steady w0 w →
  (∀ a n1 w1, r1 = Some (a, w1) → steady w0 w1 → agrees w0 (k a n1 w1) r) →
  agrees w0 (bind m k n w) r.
Proof.
  intros Hm Hw Hk. unfold bind. destruct (m n w) as [a n1 w1|w1|]; simpl in *.
  - destruct Hm as [-> H1]. apply Hk; [done|]. by eapply steady_trans.
  - by eapply steady_trans.
  - done.
Qed.

Lemma agrees_event {B} w0 (e : Event) (k : unit → Proc B) n w r :
  steady w0 w → tame e → resource_event e = None → prepare_count [e] = 0%nat →
  (∀ n1, steady w0 (emit e w) → agrees w0 (k tt n1 (emit e w)) r) →
  agrees w0 (bind (event e) k n w) r.
Proof.
  intros Hw Ht Hr Hp Hk. unfold bind, event.
  destruct n as [[|n]|]; [exact Hw| |]; apply Hk; by apply steady_emit.
Qed.

Lemma agrees_event_advancing {B} w0 (f : World → World) (e : Event)
    (k : unit → Proc B) n w r :
  steady w0 w →
  (∀ n1, agrees w0 (k tt n1 (emit e (f w))) r) →
  agrees w0 (bind (event_advancing f e) k n w) r.
Proof.
  intros Hw Hk. unfold bind, event_advancing.
  destruct n as [[|n]|]; [exact Hw| |]; apply Hk.
Qed.

Lemma agrees_last_event w0 (e : Event) n w r :
  steady w0 w → tame e → resource_event e = None → prepare_count [e] = 0%nat →
  r = Some (tt, emit e w) → agrees w0 (event e n w) r.
Proof.
  intros Hw Ht Hr Hp ->. unfold event.
  destruct n as [[|n]|]; [exact Hw| |]; (split; [done|by apply steady_emit]).
Qed.

(** *** The methods of the command loop, cut short or not *)

(** One event that is no log line, compiles nothing and releases nothing. *)
Ltac plain_event :=
  first
    [ eapply agrees_event; [eassumption|exact I|reflexivity|reflexivity|intros ? ?]
    | eapply agrees_last_event; [eassumption|exact I|reflexivity|reflexivity|reflexivity] ].

(** A call of a method whose agreement is [lemma]. *)
Ltac call lemma :=
  eapply agrees_bind; [apply lemma|eassumption|intros ? ? ? ? ?].

Lemma log_i_agrees level message n w :
  agrees w (log_i level message n w) (Some (tt, log level message w)).
Proof.
  pose proof (steady_refl w) as Hst.
  unfold log_i, log. rewrite bind_read.
  destruct (level_rank level <? _); [by apply agrees_ret|].
  destruct (negb DEBUG_MODE && negb (is_ERROR level)) eqn:Hf; [by apply agrees_ret|].
  rewrite bind_read. destruct (negb (log_file_is_open w)); [by apply agrees_ret|].
  plain_event.
  eapply agrees_event; [eassumption| |reflexivity|reflexivity|intros ? ?].
  { simpl. destruct DEBUG_MODE; [by left|]. right. by destruct level. }
  plain_event.
Qed.

(** A call of [log]. *)
Ltac call_log :=
  eapply agrees_bind;
    [apply log_i_agrees|eassumption|
     let H := fresh in intros ? ? ? H ?; injection H as <- <-].

Lemma steady_prepare_failed w0 w sql rc :
  steady w0 w → sql ∈ program_sql → rc ≠ SQLITE_OK →
  steady w0 (emit (EPrepare sql rc) (set_prepare_calls (S (prepare_calls w)) w)).
Proof.
  intros H Hsql Hrc. eapply steady_trans; [exact H|].
  apply Z.eqb_neq in Hrc.
  split; [exists [EPrepare sql rc]; split; [done|]; split; [|done];
    apply Forall_cons_2; [exact Hsql|constructor]|].
  split; [done|]. split; [done|].
  intros Hc [Hn Hperm]. split; [|split].
  - intros s. change (trace (emit ?e ?x)) with (trace w ++ [e]).
    rewrite compilations_app, compilations_prepare, Hrc, andb_false_r, Nat.add_0_r.
    apply Hc.
  - change (trace (emit ?e ?x)) with (trace w ++ [e]).
    rewrite prepare_count_app. change (prepare_calls (emit _ ?x)) with (S (prepare_calls w)).
    rewrite Hn. change (prepare_count [_]) with 1%nat. lia.
  - change (trace (emit ?e ?x)) with (trace w ++ [e]).
    change (stmt_cache (emit _ ?x)) with (stmt_cache w).
    rewrite prepared_app. simpl. by rewrite Hrc, app_nil_r.
Qed.

Lemma steady_prepare_ok w0 w sql rc stmt :
  steady w0 w → sql ∈ program_sql → stmt_cache w !! sql = None →
  sqlite3_prepare_v2 sq (prepare_calls w) sql = (rc, stmt) → rc = SQLITE_OK →
  steady w0
    (set_stmt_cache (<[sql := stmt]> (stmt_cache w))
       (emit (EPrepare sql rc) (set_prepare_calls (S (prepare_calls w)) w))).
Proof.
  intros H Hsql Hmiss Hp ->. eapply steady_trans; [exact H|].
  split; [exists [EPrepare sql SQLITE_OK]; split; [done|]; split; [|done];
    apply Forall_cons_2; [exact Hsql|constructor]|].
  split; [done|]. split; [done|].
  intros Hc [Hn Hperm]. split; [|split].
  - intros s. change (trace (set_stmt_cache _ (emit ?e ?x))) with (trace w ++ [e]).
    change (stmt_cache (set_stmt_cache ?c _)) with c.
    rewrite compilations_app, compilations_prepare.
    change (SQLITE_OK =? SQLITE_OK) with true. rewrite andb_true_r.
    destruct (Hc s) as [Hle Hnone]. case_bool_decide as Hs.
    + subst s. rewrite (Hnone Hmiss). split; [lia|]. by rewrite lookup_insert_eq.
    + rewrite Nat.add_0_r. split; [done|]. by rewrite lookup_insert_ne.
  - change (trace (set_stmt_cache _ (emit ?e ?x))) with (trace w ++ [e]).
    change (prepare_calls (set_stmt_cache _ (emit _ ?x))) with (S (prepare_calls w)).
    rewrite prepare_count_app, Hn. change (prepare_count [_]) with 1%nat. lia.
  - change (trace (set_stmt_cache _ (emit ?e ?x))) with (trace w ++ [e]).
    change (stmt_cache (set_stmt_cache ?c _)) with c.
    rewrite prepared_app, map_to_list_insert by done. simpl.
    rewrite <- Hn, Hp. simpl. rewrite Hperm. apply Permutation_cons_append.
Qed.

Lemma lookup_shared_i_agrees sql n w :
  agrees w (lookup_shared_i sql n w) (Some (lookup_shared sql w)).
Proof.
  pose proof (steady_refl w) as Hst.
  unfold lookup_shared_i, lookup_shared. cbv zeta.
  plain_event. rewrite bind_read. plain_event. by apply agrees_ret.
Qed.

Lemma compile_exclusive_i_agrees sql n w :
  sql ∈ program_sql →
  agrees w (compile_exclusive_i sql n w) (Some (compile_exclusive sql w)).
Proof.
  intros Hsql. pose proof (steady_refl w) as Hst.
  unfold compile_exclusive_i, compile_exclusive. cbv zeta.
  plain_event. rewrite bind_read.
  set (w1 := emit (ELock stmt_cache_mutex Exclusive) w) in *.
  destruct (stmt_cache w1 !! sql) as [p|] eqn:Hit; [plain_event; by apply agrees_ret|].
  rewrite bind_read.
  destruct (sqlite3_prepare_v2 sq (prepare_calls w1) sql) as [rc stmt] eqn:Hp.
  apply agrees_event_advancing; [eassumption|intros n2].
  destruct (rc =? SQLITE_OK) eqn:Hrc; cbn [negb].
  - apply Z.eqb_eq in Hrc.
    pose proof (steady_prepare_ok w w1 sql rc stmt H Hsql Hit Hp Hrc) as H4.
    rewrite bind_write. plain_event. by apply agrees_ret.
  - apply Z.eqb_neq in Hrc.
    pose proof (steady_prepare_failed w w1 sql rc H Hsql Hrc) as H4.
    call_log. plain_event. by apply agrees_ret.
Qed.

Lemma getPreparedStatement_i_agrees sql n w :
  sql ∈ program_sql →
  agrees w (getPreparedStatement_i sql n w) (Some (getPreparedStatement sql w)).
Proof.
  intros Hsql. pose proof (steady_refl w) as Hst.
  unfold getPreparedStatement_i, getPreparedStatement.
  eapply agrees_bind; [apply lookup_shared_i_agrees|exact Hst|].
  intros it n1 w1 Heq H1. apply (inj Some) in Heq. rewrite Heq.
  destruct it as [p|]; [by apply agrees_ret|].
  eapply agrees_steady; [exact H1|]. by apply compile_exclusive_i_agrees.
Qed.

Lemma bind_params_i_agrees h params : ∀ i n w,
  agrees w (bind_params_i h i params n w) (Some (bind_params h i params w)).
Proof.
  induction params as [|p params IH]; intros i n w; pose proof (steady_refl w) as Hst.
  { by apply agrees_ret. }
  cbn [bind_params_i bind_params]. cbv zeta. plain_event.
  destruct (negb (sqlite3_bind_text sq h (i + 1) p =? SQLITE_OK)).
  - call_log. by apply agrees_ret.
  - eapply agrees_steady; [eassumption|apply IH].
Qed.

Lemma steady_step w0 w h rc script :
  steady w0 w → steady w0 (emit (EStep h rc) (set_steps script w)).
Proof.
  intros H. apply steady_emit; [|done..]. by apply (steady_write _ _ (set_steps script)).
Qed.

Lemma write_loop_i_agrees h script : ∀ retries n w,
  agrees w (write_loop_i h script retries n w) (write_loop h script retries w).
Proof.
  induction script as [|[rc row] script IH]; intros retries n w; [exact I|].
  pose proof (steady_refl w) as Hst.
  cbn [write_loop_i write_loop]. cbv zeta.
  apply agrees_event_advancing; [exact Hst|intros n1].
  pose proof (steady_step w w h rc script Hst) as H1.
  destruct ((rc =? SQLITE_BUSY) && (retries <? SQLITE_MAX_RETRIES)).
  - call_log. plain_event. eapply agrees_steady; [eassumption|apply IH].
  - by apply agrees_ret.
Qed.

Lemma query_loop_i_agrees h script : ∀ retries results n w,
  agrees w (query_loop_i h script retries results n w)
    (query_loop h script retries results w).
Proof.
  induction script as [|[rc row] script IH]; intros retries results n w; [exact I|].
  pose proof (steady_refl w) as Hst.
  cbn [query_loop_i query_loop]. cbv zeta. plain_event.
  apply agrees_event_advancing; [eassumption|intros n2].
  match goal with H : steady w ?x |- _ => pose proof (steady_step w x h rc script H) as H2 end.
  plain_event.
  destruct (rc =? SQLITE_ROW); [eapply agrees_steady; [eassumption|apply IH]|].
  destruct ((rc =? SQLITE_BUSY) && (retries <? SQLITE_MAX_RETRIES)).
  { call_log. plain_event. eapply agrees_steady; [eassumption|apply IH]. }
  destruct (rc =? SQLITE_DONE); [by apply agrees_ret|].
  call_log. by apply agrees_ret.
Qed.

Lemma log_result_count_i_agrees results n w :
  agrees w (log_result_count_i results n w) (Some (tt, log_result_count results w)).
Proof. destruct results; apply log_i_agrees. Qed.

Lemma executeSQLWithParams_i_agrees sql params n w :
  sql ∈ program_sql →
  agrees w (executeSQLWithParams_i sql params n w) (executeSQLWithParams sql params w).
Proof.
  intros Hsql. pose proof (steady_refl w) as Hst.
  unfold executeSQLWithParams_i, executeSQLWithParams. cbv zeta. call_log.
  eapply agrees_bind; [by apply getPreparedStatement_i_agrees|eassumption|].
  intros [stmt|] ? ? Heq ?; apply (inj Some) in Heq; rewrite Heq; clear Heq;
    [|by apply agrees_ret].
  plain_event. plain_event.
  eapply agrees_bind; [apply bind_params_i_agrees|eassumption|].
  intros [|] ? ? Heq ?; apply (inj Some) in Heq; rewrite Heq; clear Heq;
    [|by apply agrees_ret].
  plain_event. rewrite bind_read.
  eapply agrees_bind; [apply write_loop_i_agrees|eassumption|].
  intros rc ? ? Heq ?. rewrite Heq. clear Heq.
  plain_event.
  destruct (negb (rc =? SQLITE_DONE)); [|by apply agrees_ret].
  call_log. by apply agrees_ret.
Qed.

Lemma executeQuery_i_agrees sql params n w :
  sql ∈ program_sql →
  agrees w (executeQuery_i sql params n w) (executeQuery sql params w).
Proof.
  intros Hsql. pose proof (steady_refl w) as Hst.
  unfold executeQuery_i, executeQuery. cbv zeta. call_log.
  eapply agrees_bind; [by apply getPreparedStatement_i_agrees|eassumption|].
  intros [stmt|] ? ? Heq ?; apply (inj Some) in Heq; rewrite Heq; clear Heq;
    [|by apply agrees_ret].
  plain_event. plain_event.
  eapply agrees_bind; [apply bind_params_i_agrees|eassumption|].
  intros [|] ? ? Heq ?; apply (inj Some) in Heq; rewrite Heq; clear Heq;
    [|by apply agrees_ret].
  rewrite bind_read.
  eapply agrees_bind; [apply query_loop_i_agrees|eassumption|].
  intros results ? ? Heq ?. rewrite Heq. clear Heq.
  eapply agrees_bind; [apply log_result_count_i_agrees|eassumption|].
  intros [] ? ? Heq ?. apply (inj Some) in Heq. injection Heq as <-.
  by apply agrees_ret.
Qed.

Ltac program_text := unfold program_sql; rewrite elem_of_app; right; in_list.

Ltac write_operation :=
  let Hst := fresh "Hst" in
  intros n w; pose proof (steady_refl w) as Hst; cbv zeta; call_log;
  (eapply agrees_bind;
     [apply executeSQLWithParams_i_agrees; program_text|eassumption|]);
  let Heq := fresh "Heq" in
  intros [|] ? ? Heq ?; rewrite Heq; clear Heq;
    [plain_event; by apply agrees_ret|call_log; plain_event; by apply agrees_ret].

Lemma addBook_i_agrees id title author : ∀ n w,
  agrees w (addBook_i id title author n w) (addBook id title author w).
Proof. unfold addBook_i, addBook. write_operation. Qed.

Lemma deleteBook_i_agrees id : ∀ n w,
  agrees w (deleteBook_i id n w) (deleteBook id w).
Proof. unfold deleteBook_i, deleteBook. write_operation. Qed.

Lemma updateBook_i_agrees id newTitle newAuthor : ∀ n w,
  agrees w (updateBook_i id newTitle newAuthor n w) (updateBook id newTitle newAuthor w).
Proof. unfold updateBook_i, updateBook. write_operation. Qed.

Lemma searchBook_i_agrees keyword n w :
  agrees w (searchBook_i keyword n w) (searchBook keyword w).
Proof.
  pose proof (steady_refl w) as Hst.
  unfold searchBook_i, searchBook. cbv zeta. call_log.
  eapply agrees_bind; [apply executeQuery_i_agrees; program_text|eassumption|].
  intros [|b results] ? ? Heq ?; rewrite Heq; clear Heq; plain_event; by apply agrees_ret.
Qed.

Lemma displayBooks_i_agrees n w :
  agrees w (displayBooks_i n w) ((λ w', (tt, w')) <$> displayBooks w).
Proof.
  pose proof (steady_refl w) as Hst.
  unfold displayBooks_i, displayBooks. cbv zeta. call_log.
  eapply agrees_bind; [apply executeQuery_i_agrees; program_text|eassumption|].
  intros [|b results] ? ? Heq ?; rewrite Heq; clear Heq; plain_event.
Qed.

Lemma setLogLevel_i_agrees level n w :
  agrees w (setLogLevel_i level n w) (Some (tt, setLogLevel level w)).
Proof.
  unfold setLogLevel_i, setLogLevel. rewrite bind_write.
  eapply agrees_steady; [|apply log_i_agrees].
  by apply (steady_write _ _ (set_current_log_level level)); [apply steady_refl|..].
Qed.

Lemma processCommand_i_agrees c n w :
  agrees w (processCommand_i c n w) ((λ w', (tt, w')) <$> processCommand c w).
Proof.
  pose proof (steady_refl w) as Hst.
  destruct c; cbn [processCommand_i processCommand].
  - eapply agrees_bind; [apply addBook_i_agrees|exact Hst|].
    intros ok ? ? Heq ?. rewrite Heq. by apply agrees_ret.
  - eapply agrees_bind; [apply deleteBook_i_agrees|exact Hst|].
    intros ok ? ? Heq ?. rewrite Heq. by apply agrees_ret.
  - eapply agrees_bind; [apply updateBook_i_agrees|exact Hst|].
    intros ok ? ? Heq ?. rewrite Heq. by apply agrees_ret.
  - eapply agrees_bind; [apply searchBook_i_agrees|exact Hst|].
    intros ok ? ? Heq ?. rewrite Heq. by apply agrees_ret.
  - apply displayBooks_i_agrees.
  - plain_event.
  - plain_event.
  - destruct DEBUG_MODE; [|plain_event]. rewrite bind_read.
    destruct (current_log_level w).
    all: eapply agrees_bind; [apply setLogLevel_i_agrees|exact Hst|];
      intros [] ? ? Heq ?; apply (inj Some) in Heq; injection Heq as <-; plain_event.
  - rewrite bind_write.
    assert (steady w (set_running false w)) by (by apply (steady_write _ _ (set_running false))).
    plain_event.
  - plain_event.
  - plain_event.
    eapply agrees_steady; [eassumption|]. apply log_i_agrees.
Qed.

(** The loop returns when [exit] was read; at the end of the input it
    waits, which the method leaves by returning. *)
Lemma run_loop_i_agrees input : ∀ n w,
  agrees w (run_loop_i input n w) ((λ w', (tt, w')) <$> run_loop input w).
Proof.
  induction input as [|c input IH]; intros n w; pose proof (steady_refl w) as Hst.
  - cbn [run_loop_i run_loop]. rewrite bind_read.
    destruct (negb (running w)); [by apply agrees_ret|]. cbv zeta.
    plain_event. unfold wait. by destruct n1.
  - cbn [run_loop_i run_loop]. rewrite bind_read.
    destruct (negb (running w)); [by apply agrees_ret|]. cbv zeta.
    plain_event.
    eapply agrees_bind; [apply processCommand_i_agrees|eassumption|].
    intros [] ? ? Heq ?.
    destruct (processCommand c _) as [w'|]; [|done]. injection Heq as ->.
    eapply agrees_steady; [eassumption|apply IH].
Qed.

Lemma run_i_agrees input n w :
  agrees w (run_i input n w) ((λ w', (tt, w')) <$> run input w).
Proof.
  pose proof (steady_refl w) as Hst.
  unfold run_i, run. cbv zeta. plain_event. plain_event.
  eapply agrees_steady; [eassumption|apply run_loop_i_agrees].
Qed.

(** *** Construction, cut short or not *)

Lemma cut_of_ret {A} (a : A) n w : cut_of (ret a) n w (a, w).
Proof.
  exists []. split; [by rewrite app_nil_r|].
  destruct n as [k|]; [|done]. simpl. by rewrite Nat.sub_0_r.
Qed.

Lemma cut_of_event e n w : cut_of (event e) n w (tt, emit e w).
Proof.
  exists [e]. split; [done|].
  destruct n as [[|k]|]; simpl; [|by rewrite Nat.sub_0_r|done].
  exists w. by rewrite app_nil_r.
Qed.

Lemma cut_of_bind {A B} (m : Proc A) (k : A → Proc B) n w r1 r :
  cut_of m n w r1 → (∀ n1, cut_of (k r1.1) n1 r1.2 r) → cut_of (bind m k) n w r.
Proof.
  intros (d1 & Hd1 & H1) Hk. unfold bind.
  destruct n as [j|].
  - destruct (Nat.leb_spec (length d1) j) as [Hle|Hlt].
    + destruct (Hk (Some (j - length d1)%nat)) as (d2 & Hd2 & H2).
      exists (d1 ++ d2). split; [by rewrite Hd2, Hd1, <- app_assoc|].
      rewrite H1, length_app.
      destruct (Nat.leb_spec (length d2) (j - length d1)) as [Hle2|Hlt2].
      * rewrite (proj2 (Nat.leb_le _ _)) by lia. rewrite H2. do 2 f_equal. lia.
      * rewrite (proj2 (Nat.leb_gt _ _)) by lia.
        destruct H2 as (w' & -> & Hw'). exists w'. split; [done|].
        rewrite Hw', Hd1, <- app_assoc. f_equal.
        by rewrite take_app_ge by lia.
    + destruct (Hk None) as (d2 & Hd2 & _).
      exists (d1 ++ d2). split; [by rewrite Hd2, Hd1, <- app_assoc|].
      rewrite length_app, (proj2 (Nat.leb_gt _ _)) by lia.
      destruct H1 as (w' & -> & Hw'). exists w'. split; [done|].
      by rewrite take_app_le by lia.
  - destruct (Hk None) as (d2 & Hd2 & H2).
    exists (d1 ++ d2). split; [by rewrite Hd2, Hd1, <- app_assoc|]. by rewrite H1.
Qed.

Lemma cut_of_write {A} (f : World → World) (k : unit → Proc A) n w r :
  trace (f w) = trace w → cut_of (k tt) n (f w) r → cut_of (bind (write f) k) n w r.
Proof.
  intros Hf (d & Hd & H). exists d. rewrite <- Hf. split; [done|].
  rewrite bind_write. exact H.
Qed.

Lemma cut_of_last_write (f : World → World) n w :
  trace (f w) = trace w → cut_of (write f) n w (tt, f w).
Proof.
  intros Hf. exists []. split; [by rewrite app_nil_r|].
  destruct n as [j|]; [|done]. simpl. by rewrite Nat.sub_0_r.
Qed.

Lemma cut_of_read {A B} (f : World → A) (k : A → Proc B) n w r :
  cut_of (k (f w)) n w r → cut_of (bind (read f) k) n w r.
Proof. intros H. exact H. Qed.

Ltac cut_event := eapply cut_of_bind; [apply cut_of_event|intros ?; cbn [fst snd]].

Lemma log_i_cut level message n w :
  cut_of (log_i level message) n w (tt, log level message w).
Proof.
  unfold log_i, log. apply cut_of_read.
  destruct (level_rank level <? _); [apply cut_of_ret|].
  destruct (negb DEBUG_MODE && negb (is_ERROR level)); [apply cut_of_ret|].
  apply cut_of_read.
  destruct (negb (log_file_is_open w)); [apply cut_of_ret|].
  cut_event. cut_event. apply cut_of_event.
Qed.

Ltac cut_log := eapply cut_of_bind; [apply log_i_cut|intros ?; cbn [fst snd]].

Lemma set_pragma_i_cut pragma n w :
  cut_of (set_pragma_i pragma) n w (tt, set_pragma w pragma).
Proof.
  unfold set_pragma_i, set_pragma. destruct (sqlite3_exec sq pragma) as [rc errmsg].
  cut_event. destruct (negb (rc =? SQLITE_OK)); [apply log_i_cut|apply cut_of_ret].
Qed.

Lemma set_pragmas_i_cut l : ∀ n w,
  cut_of (set_pragmas_i l) n w (tt, foldl set_pragma w l).
Proof.
  induction l as [|pragma l IH]; intros n w; [apply cut_of_ret|].
  cbn [set_pragmas_i foldl].
  eapply cut_of_bind; [apply set_pragma_i_cut|intros n1; apply IH].
Qed.

Lemma initializeDatabase_i_cut db_filename n w :
  cut_of (initializeDatabase_i db_filename) n w (initializeDatabase db_filename w).
Proof.
  unfold initializeDatabase_i, initializeDatabase. cbv zeta.
  cut_event. cut_event. apply cut_of_write; [done|].
  destruct (negb (sqlite3_open sq db_filename =? SQLITE_OK)).
  { cut_log. cut_event. cut_event. apply cut_of_ret. }
  eapply cut_of_bind; [apply set_pragmas_i_cut|intros ?; cbn [fst snd]].
  destruct (sqlite3_exec sq createTableSQL) as [rc errmsg]. cut_event.
  destruct (negb (rc =? SQLITE_OK)).
  { cut_log. cut_event. apply cut_of_ret. }
  destruct (sqlite3_exec sq createIndexSQL) as [rc' errmsg']. cut_event.
  destruct (negb (rc' =? SQLITE_OK)).
  - cut_log. cut_event. apply cut_of_ret.
  - eapply cut_of_bind; [apply cut_of_ret|intros ?; cbn [fst snd]].
    cut_event. apply cut_of_ret.
Qed.

Lemma BookArchive_ctor_i_cut db_file log_level n w :
  cut_of (BookArchive_ctor_i db_file log_level) n w (BookArchive_ctor db_file log_level w).
Proof.
  unfold BookArchive_ctor_i, BookArchive_ctor. cbv zeta.
  eapply (cut_of_bind _ _ _ _ (tt, log_opened w)).
  { unfold log_opened. destruct (log_file_opens sq); [|apply cut_of_event].
    cut_event. by apply cut_of_last_write. }
  intros n1. cbn [fst snd]. fold (log_opened w).
  eapply cut_of_bind; [apply initializeDatabase_i_cut|intros n2].
  destruct (initializeDatabase db_file (log_opened w)) as [[|] w1]; cbn [fst snd].
  - cut_log. cut_log. apply cut_of_ret.
  - apply cut_of_read. destruct (log_file_is_open w1).
    + eapply (cut_of_bind _ _ _ _ (tt, set_log_file_is_open false (emit ELogClose w1))).
      { cut_event. by apply cut_of_last_write. }
      intros ?. apply cut_of_ret.
    + eapply cut_of_bind; [apply cut_of_ret|intros ?; apply cut_of_ret].
Qed.

(** *** Teardown, cut short or not *)

Lemma owns_snoc m d e :
  owns m (d ++ [e]) =
    match e with
    | ELock m' _ => if decide (m' = m) then true else owns m d
    | EUnlock m' _ => if decide (m' = m) then false else owns m d
    | _ => owns m d
    end.
Proof. unfold owns. by rewrite foldl_app. Qed.

Lemma owns_finalize_events m d l :
  owns m (d ++ omap finalize_event l) = owns m d.
Proof.
  revert d. induction l as [|[sql [h|]] l IH]; intros d.
  - by rewrite app_nil_r.
  - change (omap finalize_event ((sql, Some h) :: l))
      with ([EFinalize h] ++ omap finalize_event l).
    by rewrite app_assoc, IH, owns_snoc.
  - apply IH.
Qed.

Lemma cleanupStatements_eq w :
  cleanupStatements w =
    set_stmt_cache ∅
      (extend ([ELock stmt_cache_mutex Exclusive] ++ finalize_events (stmt_cache w) ++
               [EUnlock stmt_cache_mutex Exclusive]) w).
Proof.
  unfold cleanupStatements. cbv zeta.
  change (stmt_cache (emit (ELock stmt_cache_mutex Exclusive) w)) with (stmt_cache w).
  rewrite foldl_finalize_entry. fold (finalize_events (stmt_cache w)).
  rewrite !emit_extend.
  change (extend ?d (set_stmt_cache ?c ?x)) with (set_stmt_cache c (extend d x)).
  by rewrite !extend_extend.
Qed.

Lemma tame_finalize_entries (l : list (string * option sqlite3_stmt)) :
  Forall tame (omap finalize_event l) ∧ prepare_count (omap finalize_event l) = 0%nat.
Proof.
  induction l as [|[sql [h|]] l [IH1 IH2]]; [by split; [constructor|]| |by split].
  change (omap finalize_event ((sql, Some h) :: l)) with (EFinalize h :: omap finalize_event l).
  split; [by apply Forall_cons_2|exact IH2].
Qed.

(** Where a signal can find [log]: in front of it, or inside the section
    of [log_mutex]. *)
Lemma log_i_outcomes level message n w :
  match log_i level message n w with
  | Returned _ _ w' => w' = log level message w
  | Signalled w' =>
      ∃ d, w' = extend d w ∧ Forall tame d ∧ prepare_count d = 0%nat ∧
           (d = [] ∨
            owns log_mutex (trace w') = true ∧ log_events level message w ≠ [])
  | Stuck => False
  end.
Proof.
  unfold log_i, log, log_events. rewrite bind_read.
  destruct (level_rank level <? _); [done|].
  destruct (negb DEBUG_MODE && negb (is_ERROR level)) eqn:Hf; [done|].
  rewrite bind_read. destruct (negb (log_file_is_open w)); [done|].
  assert (tame (ELog level message)) as Ht.
  { simpl. destruct DEBUG_MODE; [by left|]. right. by destruct level. }
  unfold bind, event.
  destruct n as [[|[|[|n]]]|]; try done.
  - exists []. rewrite extend_nil. split; [done|]. split; [constructor|]. split; [done|by left].
  - exists [ELock log_mutex Exclusive]. split; [done|].
    split; [by repeat constructor|]. split; [done|]. right. split; [|done].
    change (trace (emit ?e w)) with (trace w ++ [e]). by rewrite owns_snoc.
  - exists [ELock log_mutex Exclusive; ELog level message].
    split; [by rewrite !emit_extend, extend_extend|].
    split; [apply Forall_cons_2; [exact I|]; apply Forall_cons_2; [exact Ht|constructor]|].
    split; [done|]. right. split; [|done].
    change (trace (emit ?e2 (emit ?e1 w))) with ((trace w ++ [e1]) ++ [e2]).
    by rewrite !owns_snoc.
Qed.

Lemma finalize_entries_outcomes l : ∀ n w,
  match finalize_entries l n w with
  | Returned _ _ w' => w' = foldl finalize_entry w l
  | Signalled w' =>
      ∃ l', w' = extend (omap finalize_event l') w
  | Stuck => False
  end.
Proof.
  induction l as [|[sql [h|]] l IH]; intros n w; cbn [finalize_entries foldl]; [done| |].
  - unfold finalize_entry at 2. cbn [snd]. unfold bind at 1, event.
    destruct n as [[|n]|].
    + exists []. by rewrite extend_nil.
    + specialize (IH (Some n) (emit (EFinalize h) w)).
      destruct (finalize_entries l _ _) as [a n' w'|w'|]; [done| |done].
      destruct IH as (l' & ->). exists ((sql, Some h) :: l').
      by rewrite emit_extend, extend_extend.
    + specialize (IH None (emit (EFinalize h) w)).
      destruct (finalize_entries l _ _) as [a n' w'|w'|]; [done| |done].
      destruct IH as (l' & ->). exists ((sql, Some h) :: l').
      by rewrite emit_extend, extend_extend.
  - unfold finalize_entry at 2. cbn [snd]. rewrite bind_ret. apply IH.
Qed.

(** Where a signal can find [cleanupStatements]: in front of it, or inside
    the section of [stmt_cache_mutex]. *)
Lemma cleanupStatements_i_outcomes n w :
  match cleanupStatements_i n w with
  | Returned _ _ w' => w' = cleanupStatements w
  | Signalled w' =>
      ∃ d, trace w' = trace w ++ d ∧ Forall tame d ∧ prepare_count d = 0%nat ∧
           (w' = w ∨ owns stmt_cache_mutex (trace w') = true)
  | Stuck => False
  end.
Proof.
  unfold cleanupStatements_i, cleanupStatements. cbv zeta.
  unfold bind at 1, event at 1.
  assert (∀ n1,
    match (c ← read stmt_cache; finalize_entries (cache_iteration c);;
           write (set_stmt_cache ∅);; event (EUnlock stmt_cache_mutex Exclusive))%proc
            n1 (emit (ELock stmt_cache_mutex Exclusive) w) with
    | Returned _ _ w' =>
        w' = emit (EUnlock stmt_cache_mutex Exclusive)
               (set_stmt_cache ∅
                  (foldl finalize_entry (emit (ELock stmt_cache_mutex Exclusive) w)
                     (cache_iteration (stmt_cache (emit (ELock stmt_cache_mutex Exclusive) w)))))
    | Signalled w' =>
        ∃ d, trace w' = trace w ++ d ∧ Forall tame d ∧ prepare_count d = 0%nat ∧
             owns stmt_cache_mutex (trace w') = true
    | Stuck => False
    end) as Hrest.
  { intros n1. rewrite bind_read. unfold bind at 1.
    set (w1 := emit (ELock stmt_cache_mutex Exclusive) w).
    assert (∀ l c, ∃ d,
      trace (set_stmt_cache c (extend (omap finalize_event l) w1)) = trace w ++ d ∧
      Forall tame d ∧ prepare_count d = 0%nat ∧
      owns stmt_cache_mutex
        (trace (set_stmt_cache c (extend (omap finalize_event l) w1))) = true) as Hcut.
    { intros l c. exists ([ELock stmt_cache_mutex Exclusive] ++ omap finalize_event l).
      destruct (tame_finalize_entries l) as [Ht Hp].
      split; [by simpl; rewrite <- app_assoc|]. split; [by apply Forall_cons_2|].
      split; [exact Hp|].
      change (trace (set_stmt_cache c (extend ?d w1)))
        with ((trace w ++ [ELock stmt_cache_mutex Exclusive]) ++ d).
      by rewrite owns_finalize_events, owns_snoc. }
    pose proof (finalize_entries_outcomes (cache_iteration (stmt_cache w1)) n1 w1) as H.
    destruct (finalize_entries _ n1 w1) as [a n2 w2|w2|]; [| |done].
    - subst w2. rewrite bind_write. rewrite foldl_finalize_entry. unfold event.
      destruct n2 as [[|n2]|]; [|done..]. apply Hcut.
    - destruct H as (l' & ->).
      destruct (Hcut l' (stmt_cache w1)) as (d & Hd). exists d. exact Hd. }
  destruct n as [[|n]|].
  - exists []. rewrite app_nil_r. split; [done|]. split; [constructor|]. split; [done|by left].
  - specialize (Hrest (Some n)). destruct (bind _ _ _ _); [done| |done].
    destruct Hrest as (d & ? & ? & ? & ?). exists d. by repeat split; [..|right].
  - specialize (Hrest None). destruct (bind _ _ _ _); [done| |done].
    destruct Hrest as (d & ? & ? & ? & ?). exists d. by repeat split; [..|right].
Qed.

Lemma finalize_events_empty : finalize_events ∅ = [].
Proof. unfold finalize_events, cache_iteration. by rewrite map_to_list_empty. Qed.

Lemma tame_finalize_events c : Forall tame (finalize_events c).
Proof.
  unfold finalize_events. induction (cache_iteration c) as [|[sql [h|]] l IH];
    [constructor| |exact IH].
  change (omap finalize_event ((sql, Some h) :: l)) with (EFinalize h :: omap finalize_event l).
  by apply Forall_cons_2.
Qed.

Lemma prepare_count_finalize_events c : prepare_count (finalize_events c) = 0%nat.
Proof.
  unfold finalize_events. induction (cache_iteration c) as [|[sql [h|]] l IH];
    [done|exact IH|exact IH].
Qed.

(** What a teardown does, whatever the state it starts in. *)
Lemma teardown_trace w :
  ∃ T, trace (BookArchive_dtor w) = trace w ++ T ∧ Forall tame T ∧
       prepare_count T = 0%nat ∧ resource_events T = teardown_releases w ∧
       torn_down (BookArchive_dtor w).
Proof.
  destruct (BookArchive_dtor_trace w) as (Htr & Hc & Hdb & Hlog & _).
  eexists. split; [exact Htr|]. split; [|split; [|split; [|done]]].
  - apply Forall_app. split; [apply tame_log_events|].
    apply Forall_cons_2; [exact I|]. apply Forall_app. split; [apply tame_finalize_events|].
    apply Forall_cons_2; [exact I|]. by destruct (db w), (log_file_is_open w); repeat constructor.
  - rewrite !prepare_count_app, prepare_count_log_events, prepare_count_finalize_events.
    by destruct (db w), (log_file_is_open w).
  - rewrite !resource_events_app, resource_events_log_events, resource_events_finalize_events.
    unfold teardown_releases. by destruct (db w), (log_file_is_open w).
Qed.

Lemma signalHandler_trace w :
  ∃ T, trace (signalHandler true w) = trace w ++ T ∧ Forall tame T ∧
       prepare_count T = 0%nat ∧ resource_events T = teardown_releases w ∧
       torn_down (signalHandler true w).
Proof.
  unfold signalHandler. cbv zeta.
  set (e := ECout "Received termination signal. Shutting down gracefully...").
  destruct (teardown_trace (emit e w)) as (T & Htr & Ht & Hp & Hr & Hdown).
  exists (e :: T). split; [by rewrite Htr; simpl; rewrite <- app_assoc|].
  split; [by apply Forall_cons_2|]. split; [exact Hp|]. split; [exact Hr|exact Hdown].
Qed.

(** Where a signal can find the destructor, and what is left to release
    there: either the handler would lock a mutex again that the thread
    holds, or the teardown it starts releases what the first one has not
    released yet. *)
Lemma BookArchive_dtor_i_outcomes n w :
  match BookArchive_dtor_i n w with
  | Returned _ _ w' => w' = BookArchive_dtor w
  | Signalled w' =>
      ∃ d, trace w' = trace w ++ d ∧ Forall tame d ∧ prepare_count d = 0%nat ∧
           (relocks w' = true ∨
            resource_events d ++ teardown_releases w' = teardown_releases w)
  | Stuck => False
  end.
Proof.
  unfold BookArchive_dtor_i, BookArchive_dtor. cbv zeta.
  set (message := "Shutting down Book Archive").
  unfold bind at 1.
  pose proof (log_i_outcomes INFO message n w) as Hlog.
  destruct (log_i INFO message n w) as [[] n1 w1|w1|]; [|clear n|done].
  2: { destruct Hlog as (d & -> & Ht & Hp & [->|[Howns Hd]]).
       - exists []. rewrite extend_nil, app_nil_r. split; [done|]. split; [done|].
         split; [done|by right].
       - exists d. split; [done|]. split; [done|]. split; [done|]. left.
         unfold relocks. rewrite Howns, log_events_extend. fold message.
         destruct (log_events INFO message w); [done|]. by rewrite orb_true_r. }
  subst w1. rewrite log_extend. set (dlog := log_events INFO message w).
  unfold bind at 1.
  pose proof (cleanupStatements_i_outcomes n1 (extend dlog w)) as Hclean.
  destruct (cleanupStatements_i n1 (extend dlog w)) as [[] n2 w2|w2|]; [|clear n1|done].
  2: { destruct Hclean as (d & Hd & Ht & Hp & Hw).
       exists (dlog ++ d). split; [by rewrite Hd; simpl; rewrite <- app_assoc|].
       split; [apply Forall_app; split; [apply tame_log_events|done]|].
       split; [by rewrite prepare_count_app, Hp; unfold dlog;
                 rewrite prepare_count_log_events|].
       destruct Hw as [->|Howns]; [right|left; unfold relocks; by rewrite Howns].
       assert (d = []) as ->.
       { apply (f_equal length) in Hd. rewrite length_app in Hd.
         destruct d; [done|]. simpl in Hd. lia. }
       rewrite app_nil_r. unfold dlog. by rewrite resource_events_log_events. }
  subst w2. rewrite cleanupStatements_eq.
  change (stmt_cache (extend dlog w)) with (stmt_cache w).
  set (fin := finalize_events (stmt_cache w)).
  set (d2 := dlog ++ [ELock stmt_cache_mutex Exclusive] ++ fin ++
             [EUnlock stmt_cache_mutex Exclusive]).
  set (w2 := set_stmt_cache ∅ (extend _ (extend dlog w))).
  assert (trace w2 = trace w ++ d2) as Htr2.
  { unfold w2, d2. simpl. by rewrite <- !app_assoc. }
  assert (Forall tame d2) as Ht2.
  { apply Forall_app. split; [apply tame_log_events|].
    apply Forall_cons_2; [exact I|]. apply Forall_app. split; [apply tame_finalize_events|].
    by repeat constructor. }
  assert (prepare_count d2 = 0%nat) as Hp2.
  { unfold d2, dlog, fin. by rewrite !prepare_count_app, prepare_count_log_events,
      prepare_count_finalize_events. }
  assert (resource_events d2 = fin) as Hr2.
  { unfold d2, dlog, fin. rewrite !resource_events_app, resource_events_log_events,
      resource_events_finalize_events. simpl. by rewrite app_nil_r. }
  assert (teardown_releases w2 =
          (if db w then [EClose] else []) ++
          (if log_file_is_open w then [ELogClose] else [])) as Hrel2.
  { unfold teardown_releases. change (stmt_cache w2) with (∅ : gmap string (option sqlite3_stmt)).
    by rewrite finalize_events_empty. }
  rewrite bind_read. change (db w2) with (db w). unfold bind at 1.
  destruct (db w) eqn:Hdb.
  - unfold bind at 1, event at 1.
    assert (∀ j,
      match (is_open ← read log_file_is_open;
             if is_open then event ELogClose;; write (set_log_file_is_open false)
             else ret tt)%proc j (set_db false (emit EClose w2)) with
      | Returned _ _ w' =>
          w' = (if log_file_is_open (set_db false (emit EClose w2))
                then set_log_file_is_open false (emit ELogClose (set_db false (emit EClose w2)))
                else set_db false (emit EClose w2))
      | Signalled w' =>
          ∃ d, trace w' = trace w ++ d ∧ Forall tame d ∧ prepare_count d = 0%nat ∧
               (relocks w' = true ∨
                resource_events d ++ teardown_releases w' = teardown_releases w)
      | Stuck => False
      end) as Hrest.
    { intros j. rewrite bind_read.
      change (log_file_is_open (set_db false (emit EClose w2))) with (log_file_is_open w).
      destruct (log_file_is_open w) eqn:Hopen; [|done].
      unfold bind, event. destruct j as [[|j]|]; [|done..].
      exists (d2 ++ [EClose]).
      split; [change (trace (set_db false (emit EClose w2))) with (trace w2 ++ [EClose]);
              by rewrite Htr2, <- app_assoc|].
      split; [apply Forall_app; split; [done|by repeat constructor]|].
      split; [by rewrite prepare_count_app, Hp2|]. right.
      rewrite resource_events_app, Hr2. unfold teardown_releases.
      change (stmt_cache (set_db false (emit EClose w2)))
        with (∅ : gmap string (option sqlite3_stmt)).
      change (log_file_is_open (set_db false (emit EClose w2))) with (log_file_is_open w).
      change (db (set_db false (emit EClose w2))) with false.
      rewrite finalize_events_empty, Hdb, Hopen. simpl. by rewrite <- app_assoc. }
    destruct n2 as [[|n2]|].
    + exists d2. split; [done|]. split; [done|]. split; [done|]. right.
      rewrite Hr2, Hrel2. unfold teardown_releases. by rewrite Hdb.
    + unfold write at 1. apply Hrest.
    + unfold write at 1. apply Hrest.
  - unfold ret at 1. cbv iota beta. rewrite bind_read.
    change (log_file_is_open w2) with (log_file_is_open w).
    destruct (log_file_is_open w) eqn:Hopen; [|done].
    unfold bind, event. destruct n2 as [[|n2]|]; [|done..].
    exists d2. split; [done|]. split; [done|]. split; [done|]. right.
    rewrite Hr2, Hrel2. unfold teardown_releases. by rewrite Hdb, Hopen.
Qed.

(** *** The exits of [main] *)

Lemma call_trace_tame inside d : call_trace inside d → Forall tame d.
Proof.
  induction 1 as [|inside d1 d2 _ IH1 _ IH2|inside e He|inside level message w
                  |m mode d Hm _ IH].
  - constructor.
  - by apply Forall_app.
  - apply Forall_cons_2; [|constructor].
    destruct e; simpl in *; try done; by apply bool_decide_eq_true in He.
  - apply tame_log_events.
  - apply Forall_cons_2; [exact I|]. apply Forall_app. split; [exact IH|].
    by apply Forall_cons_2.
Qed.

Lemma tame_log_levels d :
  Forall tame d → Forall (λ level, DEBUG_MODE = true ∨ level = ERROR) (log_levels d).
Proof.
  induction 1 as [|e d He _ IH]; [constructor|].
  destruct e; try exact IH. by apply Forall_cons_2.
Qed.

Lemma tame_sql_texts d : Forall tame d → Forall (λ sql, sql ∈ program_sql) (sql_texts d).
Proof.
  induction 1 as [|e d He _ IH]; [constructor|].
  destruct e; try exact IH; by apply Forall_cons_2.
Qed.

Lemma prepare_count_no_results d :
  (∀ sql, prepare_results sql d = []) → prepare_count d = 0%nat.
Proof.
  induction d as [|e d IH]; [done|]. intros H.
  assert (∀ sql, prepare_results sql d = []) as Hd.
  { intros sql. specialize (H sql). unfold prepare_results in *. simpl in H.
    by destruct (prepare_result sql e). }
  destruct e; try (by apply IH).
  specialize (H sql). unfold prepare_results in H. simpl in H.
  by rewrite bool_decide_eq_true_2 in H.
Qed.

Lemma prepare_count_take k d : prepare_count d = 0%nat → prepare_count (take k d) = 0%nat.
Proof.
  intros H. rewrite <- (take_drop k d), prepare_count_app in H. lia.
Qed.

Lemma initializeDatabase_shape db_file w :
  ∃ ok d, initializeDatabase db_file w = (ok, extend d (set_db true w)).
Proof.
  destruct (decide (sqlite3_open sq db_file = SQLITE_OK)) as [Hopen|Hopen];
    [|eexists _, _; by apply initializeDatabase_open_fails].
  destruct (decide ((sqlite3_exec sq createTableSQL).1 = SQLITE_OK)) as [Htable|Htable];
    eexists _, _;
    [by apply initializeDatabase_table_ok|by apply initializeDatabase_table_fails].
Qed.

Lemma BookArchive_ctor_prepare_calls db_file log_level w :
  prepare_calls (BookArchive_ctor db_file log_level w).2 = prepare_calls w.
Proof.
  unfold BookArchive_ctor. fold (log_opened w).
  destruct (initializeDatabase_shape db_file (log_opened w)) as (ok & d & ->).
  assert (prepare_calls (log_opened w) = prepare_calls w) as H0.
  { unfold log_opened. by destruct (log_file_opens sq). }
  destruct ok.
  - by rewrite !log_extend.
  - by destruct (log_file_is_open _).
Qed.

(** The state the constructor leaves. *)
Lemma built_sound db_file log_level script :
  let built := BookArchive_ctor db_file log_level (unconstructed log_level script) in
  Forall tame (trace built.2) ∧ prepare_count (trace built.2) = 0%nat ∧
  compiled_once built.2 ∧ tied built.2.
Proof.
  intros built. subst built. set (w0 := unconstructed log_level script).
  assert (compiled_once w0) as Hinv0.
  { intros s. split; [|done]. unfold w0, compilations. simpl. lia. }
  pose proof (BookArchive_ctor_prepare_calls db_file log_level w0) as Hn.
  destruct (BookArchive_ctor db_file log_level w0) as [thrown w1] eqn:Hctor.
  pose proof (BookArchive_ctor_reaches _ _ _ _ _ Hctor) as (d & Hd & Hc).
  pose proof (BookArchive_ctor_untouched _ _ _ _ _ Hctor) as Hu.
  cbn [snd] in *.
  destruct (untouched_carries _ _ Hu Hinv0) as [Hinv1 _].
  destruct Hu as (Hcache & d' & Hd' & Hno).
  assert (d' = d) as -> by (rewrite Hd in Hd'; by apply app_inv_head in Hd').
  apply prepare_count_no_results in Hno.
  change (trace w0) with (@nil Event) in Hd. rewrite app_nil_l in Hd. rewrite Hd.
  split; [by apply (call_trace_tame false)|]. split; [done|]. split; [done|].
  split; [by rewrite Hn, Hd, Hno|].
  rewrite Hcache, Hd, (prepared_none d Hno). unfold w0. simpl. by rewrite map_to_list_empty.
Qed.

Lemma deliver_exit signal g w e w' :
  deliver signal g w = Some (e, w') →
  ∃ s k, signal = Some (s, k) ∧
    (handled s = true ∧ g && relocks w = false ∧ e = ExitCode 0 ∧ w' = signalHandler g w ∨
     handled s = false ∧ e = Killed s ∧ w' = w).
Proof.
  unfold deliver. destruct signal as [[s k]|]; [|done]. intros H. exists s, k. split; [done|].
  destruct (handled s); [left|right].
  - destruct (g && relocks w); [done|]. by injection H as <- <-.
  - by injection H as <- <-.
Qed.

(** From the return of the constructor on: the state [w2] in which the
    last teardown starts, and the events [T] from there to the exit. *)
Lemma run_then_teardown input signal n w e w' :
  match (run_i input ;; BookArchive_dtor_i)%proc n w with
  | Returned _ _ w => Some (ExitCode 0, w)
  | Signalled w => deliver signal true w
  | Stuck => None
  end = Some (e, w') →
  ∃ w2 T, steady w w2 ∧ trace w' = trace w2 ++ T ∧ Forall tame T ∧
    prepare_count T = 0%nat ∧
    (e = ExitCode 0 ∧ resource_events T = teardown_releases w2 ∧ torn_down w' ∨
     ∃ s k, signal = Some (s, k) ∧ handled s = false ∧ e = Killed s).
Proof.
  unfold bind. pose proof (run_i_agrees input n w) as Hrun.
  destruct (run_i input n w) as [[] n1 w1|w1|]; [| |done]; simpl in Hrun.
  - destruct Hrun as [_ H1].
    pose proof (BookArchive_dtor_i_outcomes n1 w1) as Hd.
    destruct (BookArchive_dtor_i n1 w1) as [[] n2 w2|w2|]; [| |done].
    + intros [= <- <-]. subst w2.
      destruct (teardown_trace w1) as (T & Htr & Ht & Hp & Hr & Hdown).
      exists w1, T. do 4 (split; [done|]). by left.
    + destruct Hd as (d & Htr & Ht & Hp & Hd). intros H.
      apply deliver_exit in H as (s & k & -> & [(Hh & Hre & -> & ->)|(Hh & -> & ->)]).
      * destruct Hd as [Hd|Hd]; [by rewrite Hd in Hre|].
        destruct (signalHandler_trace w2) as (T & HtrT & HtT & HpT & HrT & Hdown).
        exists w1, (d ++ T). split; [done|].
        split; [by rewrite HtrT, Htr, <- app_assoc|].
        split; [by apply Forall_app|]. split; [by rewrite prepare_count_app, Hp, HpT|].
        left. split; [done|]. split; [|done]. by rewrite resource_events_app, HrT.
      * exists w1, d. do 4 (split; [done|]). right. by exists s, k.
  - intros H.
    apply deliver_exit in H as (s & k & -> & [(Hh & Hre & -> & ->)|(Hh & -> & ->)]).
    + destruct (signalHandler_trace w1) as (T & HtrT & HtT & HpT & HrT & Hdown).
      exists w1, T. do 4 (split; [done|]). by left.
    + exists w1, []. rewrite app_nil_r. split; [done|]. split; [done|].
      split; [constructor|]. split; [done|]. right. by exists s, k.
Qed.

(** The three ways in which [main] exits: a signal during the construction
    or in the [catch] block, a failed construction, and a run of the
    archive. *)
Lemma main_cases db_file log_level script input signal e w' :
  main db_file log_level script input signal = Some (e, w') →
  let built := BookArchive_ctor db_file log_level (unconstructed log_level script) in
  (∃ s k, signal = Some (s, k) ∧
      (k < length (trace built.2) +
           match built.1 with Some _ => 1 | None => 0 end)%nat ∧
      e = (if handled s then ExitCode 0 else Killed s) ∧
      trace w' = take k (trace built.2) ++
                 (if handled s
                  then [ECout "Received termination signal. Shutting down gracefully..."]
                  else [])) ∨
  (∃ what, built.1 = Some what ∧ arrives_after (S (length (trace built.2))) signal ∧
      e = ExitCode 1 ∧ w' = emit (ECerr ("Fatal error: " +:+ what)) built.2) ∨
  (built.1 = None ∧ arrives_after (length (trace built.2)) signal ∧
   ∃ w2, steady built.2 w2 ∧ ends_run signal w2 e w').
Proof.
  intros H built. subst built. revert H. unfold main.
  set (w0 := unconstructed log_level script).
  destruct (BookArchive_ctor_i_cut db_file log_level (snd <$> signal) w0) as (d & Hd & Hcut).
  set (built := BookArchive_ctor db_file log_level w0) in *.
  change (trace w0) with (@nil Event) in *.
  rewrite app_nil_l in Hd. subst d.
  assert (∀ wc s k, signal = Some (s, k) → deliver signal false wc = Some (e, w') →
            e = (if handled s then ExitCode 0 else Killed s) ∧
            trace w' = trace wc ++
                 (if handled s
                  then [ECout "Received termination signal. Shutting down gracefully..."]
                  else [])) as Hdel.
  { intros wc s k -> H. apply deliver_exit in H as (s' & k' & [= <- <-] & H).
    destruct H as [(-> & _ & -> & ->)|(-> & -> & ->)]; [done|]. by rewrite app_nil_r. }
  destruct signal as [[s k]|];
    [change (snd <$> Some (s, k)) with (Some k) in *
    |change (snd <$> @None (Z * nat)) with (@None nat) in *];
    cbv beta iota in Hcut.
  - revert Hcut. destruct (Nat.leb_spec (length (trace built.2)) k) as [Hle|Hlt]; intros Hcut.
    + rewrite Hcut. destruct built.1 as [what|] eqn:Hthrown.
      * unfold event. destruct (k - length (trace built.2))%nat as [|j] eqn:Hk.
        { intros H. left. exists s, k. split; [done|]. split; [lia|].
          destruct (Hdel _ s k eq_refl H) as [-> ->]. split; [done|].
          by rewrite take_ge by lia. }
        intros [= <- <-]. right. left. exists what. repeat split; try done. simpl. lia.
      * intros H. right. right. split; [done|]. split; [exact Hle|].
        apply run_then_teardown in H as (w2 & T & H2 & HT). exists w2. split; [done|].
        by exists T.
    + destruct Hcut as (wc & -> & Hwc). intros H. left. exists s, k. split; [done|].
      split; [lia|]. destruct (Hdel _ s k eq_refl H) as [-> ->]. by rewrite Hwc.
  - rewrite Hcut. destruct built.1 as [what|] eqn:Hthrown.
    + intros [= <- <-]. right. left. by exists what.
    + intros H. right. right. split; [done|]. split; [done|].
      apply run_then_teardown in H as (w2 & T & H2 & HT). exists w2. split; [done|].
      by exists T.
Qed.

Lemma resource_events_index_events w : resource_events (index_events w) = [].
Proof.
  unfold index_events. destruct (negb _); [|done].
  change (resource_events (?e :: ?l)) with (resource_events l).
  apply resource_events_log_events.
Qed.

(** The two ways in which the construction ends. *)
Lemma construction_cases db_file log_level script :
  let built := BookArchive_ctor db_file log_level (unconstructed log_level script) in
  built.1 = None ∧
    sqlite3_open sq db_file = SQLITE_OK ∧ (sqlite3_exec sq createTableSQL).1 = SQLITE_OK ∧
    db built.2 = true ∧ log_file_is_open built.2 = log_file_opens sq ∧
    resource_events (trace built.2) =
      (if log_file_opens sq then [ELogOpen] else []) ++ [EOpen db_file SQLITE_OK]
  ∨
  built.1 = Some ("Failed to initialize database: " +:+ db_file) ∧
    (sqlite3_open sq db_file ≠ SQLITE_OK ∨ (sqlite3_exec sq createTableSQL).1 ≠ SQLITE_OK) ∧
    resource_events (trace built.2) =
      (if log_file_opens sq then [ELogOpen] else []) ++
      [EOpen db_file (sqlite3_open sq db_file)] ++
      (if sqlite3_open sq db_file =? SQLITE_OK then [] else [EClose]) ++
      (if log_file_opens sq then [ELogClose] else []) ∧
    step_results (trace built.2) = [] ∧
    sql_texts (trace built.2) =
      (if sqlite3_open sq db_file =? SQLITE_OK then pragmas ++ [createTableSQL] else []) ∧
    steps built.2 = script.
Proof.
  intros built. subst built. set (w := unconstructed log_level script).
  assert (log_file_is_open w = false) as Hclosed by reflexivity.
  assert (trace (log_opened w) =
          if log_file_opens sq then [ELogOpen]
          else [ECerr "Warning: Could not open log file. Logging disabled."]) as Htr0.
  { unfold log_opened. by destruct (log_file_opens sq). }
  destruct (decide (sqlite3_open sq db_file = SQLITE_OK)) as [Hopen|Hopen]; cycle 1.
  { right.
    destruct (BookArchive_ctor_throws db_file log_level w _ Hclosed
                (initializeDatabase_open_fails db_file _ Hopen)) as (w1 & -> & Htr & Hst).
    cbn [fst snd]. split; [done|]. split; [by left|]. rewrite Htr, Htr0.
    apply Z.eqb_neq in Hopen. rewrite Hopen.
    rewrite !resource_events_app, !step_results_app, !sql_texts_app,
      resource_events_log_events, step_results_log_events, sql_texts_log_events.
    split; [by destruct (log_file_opens sq)|].
    split; [by destruct (log_file_opens sq)|].
    split; [by destruct (log_file_opens sq)|done]. }
  destruct (decide ((sqlite3_exec sq createTableSQL).1 = SQLITE_OK)) as [Htable|Htable]; cycle 1.
  { right.
    destruct (BookArchive_ctor_throws db_file log_level w _ Hclosed
                (initializeDatabase_table_fails db_file _ Hopen Htable))
      as (w1 & -> & Htr & Hst).
    cbn [fst snd]. split; [done|]. split; [by right|]. rewrite Htr, Htr0.
    rewrite Hopen. change (SQLITE_OK =? SQLITE_OK) with true. cbv iota.
    rewrite !resource_events_app, !step_results_app, !sql_texts_app,
      resource_events_log_events, step_results_log_events, sql_texts_log_events,
      resource_events_pragmas, step_results_pragmas, sql_texts_pragmas.
    split; [by destruct (log_file_opens sq)|].
    split; [by destruct (log_file_opens sq)|].
    split; [by destruct (log_file_opens sq)|done]. }
  left. unfold BookArchive_ctor. fold (log_opened w).
  rewrite (initializeDatabase_table_ok _ _ Hopen Htable). rewrite !log_extend.
  cbn [fst snd]. split; [done|]. split; [done|]. split; [done|]. split; [done|].
  split; [unfold log_opened; by destruct (log_file_opens sq)|].
  change (trace (extend ?d3 (extend ?d2 (extend ?d1 (set_db true (log_opened w))))))
    with (((trace (log_opened w) ++ d1) ++ d2) ++ d3).
  rewrite Htr0, !resource_events_app, !resource_events_log_events,
    resource_events_pragmas, resource_events_index_events.
  by destruct (log_file_opens sq).
Qed.

(** A construction that fails, with no signal before the exit. *)
Lemma main_failed_construction db_file log_level script input signal what :
  let built := BookArchive_ctor db_file log_level (unconstructed log_level script) in
  built.1 = Some what → arrives_after (S (length (trace built.2))) signal →
  main db_file log_level script input signal =
    Some (ExitCode 1, emit (ECerr ("Fatal error: " +:+ what)) built.2).
Proof.
  intros built Hthrown Hafter. subst built. unfold main.
  set (w0 := unconstructed log_level script) in *.
  destruct (BookArchive_ctor_i_cut db_file log_level (snd <$> signal) w0) as (d & Hd & Hcut).
  set (built := BookArchive_ctor db_file log_level w0) in *.
  change (trace w0) with (@nil Event) in *. rewrite app_nil_l in Hd. subst d.
  destruct signal as [[s k]|];
    [change (snd <$> Some (s, k)) with (Some k) in *
    |change (snd <$> @None (Z * nat)) with (@None nat) in *];
    cbv beta iota in Hcut; simpl in Hafter.
  - rewrite (proj2 (Nat.leb_le _ _)) in Hcut by lia. rewrite Hcut, Hthrown. unfold event.
    destruct (k - length (trace built.2))%nat eqn:Hk; [lia|done].
  - by rewrite Hcut, Hthrown.
Qed.

(** *** Claims and properties of whole runs *)

(** C7: once the database file is open, a pragma or the index creation
    that fails is written to the log at ERROR level and initialization goes
    on: all seven statements are executed and, the table being created,
    [initializeDatabase] returns [true] and the constructor does not throw.
    When the creation of the table fails, [initializeDatabase] returns
    [false], the constructor throws, and [main] exits with status 1, unless
    a signal ends the process before. *)
Theorem initialization_fatality db_file log_level w :
  sqlite3_open sq db_file = SQLITE_OK →
  ((sqlite3_exec sq createTableSQL).1 = SQLITE_OK →
     ∃ w' d, initializeDatabase db_file w = (true, w') ∧ trace w' = trace w ++ d ∧
       (∀ sql, sql ∈ pragmas ++ [createTableSQL; createIndexSQL] →
               EExec sql (sqlite3_exec sq sql).1 ∈ d) ∧
       (log_file_is_open w = true →
        ∀ pragma, pragma ∈ pragmas → (sqlite3_exec sq pragma).1 ≠ SQLITE_OK →
          ELog ERROR ("Failed to set pragma: " +:+ (sqlite3_exec sq pragma).2) ∈ d) ∧
       (log_file_is_open w = true →
        (sqlite3_exec sq createIndexSQL).1 ≠ SQLITE_OK →
          ELog ERROR ("Failed to create index: " +:+
                      (sqlite3_exec sq createIndexSQL).2) ∈ d) ∧
       (BookArchive_ctor db_file log_level w).1 = None) ∧
  ((sqlite3_exec sq createTableSQL).1 ≠ SQLITE_OK →
     ∃ w' d, initializeDatabase db_file w = (false, w') ∧ trace w' = trace w ++ d ∧
       (log_file_is_open w = true →
          ELog ERROR ("Failed to create table: " +:+
                      (sqlite3_exec sq createTableSQL).2) ∈ d) ∧
       (BookArchive_ctor db_file log_level w).1 =
         Some ("Failed to initialize database: " +:+ db_file) ∧
       (∀ script input signal,
          arrives_after
            (S (length (trace (BookArchive_ctor db_file log_level
                                 (unconstructed log_level script)).2))) signal →
          ∃ wm, main db_file log_level script input signal = Some (ExitCode 1, wm))).
Proof.
  intros Hopen. split; intros Htable.
  - eexists _, _. split; [by apply initializeDatabase_table_ok|].
    split; [reflexivity|]. split; [|split; [|split]].
    + intros sql Hsql. apply elem_of_app in Hsql as [Hsql|Hsql].
      * apply elem_of_app. right. apply elem_of_app. left.
        apply list_elem_of_bind. exists sql. split; [|done].
        unfold pragma_events. apply list_elem_of_here.
      * apply elem_of_cons in Hsql as [->|Hsql].
        { rewrite Htable. in_list. }
        apply elem_of_cons in Hsql as [->|Hsql]; [|by apply elem_of_nil in Hsql].
        do 3 (apply elem_of_app; right). apply elem_of_app. left.
        unfold index_events. apply list_elem_of_here.
    + intros Ho pragma Hp Hfail.
      apply elem_of_app. right. apply elem_of_app. left.
      apply list_elem_of_bind. exists pragma. split; [|done].
      unfold pragma_events. apply Z.eqb_neq in Hfail. rewrite Hfail. simpl.
      rewrite log_events_ERROR by done. in_list.
    + intros Ho Hfail.
      do 3 (apply elem_of_app; right). apply elem_of_app. left.
      unfold index_events. apply Z.eqb_neq in Hfail. rewrite Hfail. simpl.
      rewrite log_events_ERROR by done. in_list.
    + unfold BookArchive_ctor. by rewrite initializeDatabase_table_ok.
  - eexists _, _. split; [by apply initializeDatabase_table_fails|].
    split; [reflexivity|]. split; [|split].
    + intros Ho. rewrite log_events_ERROR by done.
      do 3 (apply elem_of_app; right). apply elem_of_app. left. in_list.
    + unfold BookArchive_ctor. by rewrite initializeDatabase_table_fails.
    + intros script input signal Hafter. eexists.
      apply main_failed_construction; [|exact Hafter].
      unfold BookArchive_ctor. by rewrite initializeDatabase_table_fails.
Qed.

(** X6: [main] exits with status 1 exactly when the database file cannot be
    opened or the table cannot be created and no signal ends the process
    before.  Up to that exit no statement is compiled or stepped and no
    command is read; the log file, if it could be opened, is closed again.
    The connection is closed when [sqlite3_open] failed, but it is left
    open when the creation of the table failed: no [sqlite3_close] follows
    the successful [sqlite3_open]. *)
Theorem failed_construction_exit db_file log_level script input signal e w' :
  main db_file log_level script input signal = Some (e, w') →
  (e = ExitCode 1 ↔
     (sqlite3_open sq db_file ≠ SQLITE_OK ∨
      (sqlite3_exec sq createTableSQL).1 ≠ SQLITE_OK) ∧
     arrives_after
       (S (length (trace (BookArchive_ctor db_file log_level
                            (unconstructed log_level script)).2))) signal) ∧
  (e = ExitCode 1 →
     resource_events (trace w') =
       (if log_file_opens sq then [ELogOpen] else []) ++
       [EOpen db_file (sqlite3_open sq db_file)] ++
       (if sqlite3_open sq db_file =? SQLITE_OK then [] else [EClose]) ++
       (if log_file_opens sq then [ELogClose] else []) ∧
     step_results (trace w') = [] ∧
     sql_texts (trace w') =
       (if sqlite3_open sq db_file =? SQLITE_OK then pragmas ++ [createTableSQL] else []) ∧
     steps w' = script ∧
     last (trace w') =
       Some (ECerr ("Fatal error: Failed to initialize database: " +:+ db_file))).
Proof.
  intros H. apply main_cases in H. cbv zeta in H.
  pose proof (construction_cases db_file log_level script) as Hc. cbv zeta in Hc.
  set (built := BookArchive_ctor db_file log_level (unconstructed log_level script)) in *.
  destruct H as [(s & k & -> & Hk & -> & Htr)|[(what & Hthrown & Hafter & -> & ->)
                |(Hbuilt & Hafter & w2 & H2 & T & HT & _ & _ & He)]].
  - assert (ExitCode 1 = (if handled s then ExitCode 0 else Killed s) → False) as Hne
      by (by destruct (handled s)).
    split; [|intros He; by destruct Hne]. split; [intros He; by destruct Hne|].
    intros [Hfail Hafter]. simpl in Hafter.
    destruct Hc as [(Hb & Hopen & Htable & _)|(Hb & _)]; [by destruct Hfail|].
    rewrite Hb in Hk. lia.
  - destruct Hc as [(Hb & _)|(Hb & Hfail & Hres & Hsteps & Hsql & Hscript)];
      [by rewrite Hb in Hthrown|].
    rewrite Hb in Hthrown. injection Hthrown as <-.
    split; [done|]. intros _.
    change (trace (emit ?ev built.2)) with (trace built.2 ++ [ev]).
    rewrite resource_events_app, step_results_app, sql_texts_app, Hres, Hsteps, Hsql.
    change (resource_events [ECerr ?t]) with (@nil Event).
    change (step_results [ECerr ?t]) with (@nil Z).
    change (sql_texts [ECerr ?t]) with (@nil string).
    rewrite !app_nil_r, last_snoc. split; [done|]. split; [done|]. split; [done|].
    split; [exact Hscript|reflexivity].
  - assert (e = ExitCode 1 → False) as Hne.
    { intros ->. by destruct He as [[? _]|(s & k & _ & _ & ?)]. }
    split; [|intros He'; by destruct Hne]. split; [intros He'; by destruct Hne|].
    intros [Hfail _]. destruct Hc as [(_ & Hopen & Htable & _)|(Hb & _)];
      [by destruct Hfail|by rewrite Hb in Hbuilt].
Qed.




(** Every run keeps to the texts of the program and to the levels of the
    build, and compiles no text twice. *)
Lemma main_run db_file log_level script input signal e w' :
  main db_file log_level script input signal = Some (e, w') →
  Forall tame (trace w') ∧ ∀ sql, (compilations sql (trace w') ≤ 1)%nat.
Proof.
  intros H. apply main_cases in H. cbv zeta in H.
  pose proof (built_sound db_file log_level script) as (Ht & Hp & Hinv & Htied).
  set (built := BookArchive_ctor db_file log_level (unconstructed log_level script)) in *.
  destruct H as [(s & k & -> & Hk & -> & Htr)|[(what & Hthrown & Hafter & -> & ->)
                |(Hbuilt & Hafter & w2 & H2 & T & HT & HtT & HpT & He)]].
  - rewrite Htr. split.
    + apply Forall_app. split; [by apply Forall_take|]. destruct (handled s); by repeat constructor.
    + intros sql. rewrite compilations_app, (compilations_none _ (prepare_count_take k _ Hp)).
      destruct (handled s);
        [change (compilations sql [_]) with 0%nat|change (compilations sql []) with 0%nat];
        lia.
  - change (trace (emit ?ev built.2)) with (trace built.2 ++ [ev]). split.
    + apply Forall_app. split; [done|by repeat constructor].
    + intros sql. rewrite compilations_app, (compilations_none _ Hp).
      change (compilations sql [_]) with 0%nat. lia.
  - destruct H2 as ((d & Hd & Htd & _) & _ & _ & Hkeep).
    destruct (Hkeep Hinv Htied) as [Hinv2 _]. rewrite HT. split.
    + apply Forall_app. split; [|done]. rewrite Hd. by apply Forall_app.
    + intros sql. rewrite compilations_app, (compilations_none _ HpT), Nat.add_0_r.
      apply Hinv2.
Qed.

Lemma console_tame out :
  Forall (λ e, console e = true) out → Forall tame out ∧ prepare_count out = 0%nat.
Proof.
  induction 1 as [|e out He _ [IH1 IH2]]; [by split; [constructor|]|].
  destruct e; try discriminate; (split; [by apply Forall_cons_2|exact IH2]).
Qed.

Lemma program_run argv script input signal e tr :
  program argv script input signal = Some (e, tr) →
  Forall tame tr ∧ ∀ sql, (compilations sql tr ≤ 1)%nat.
Proof.
  unfold program.
  destruct (parse_options _ _ _ _) as [options out] eqn:Hp.
  apply parse_options_console, console_tame in Hp as [Ht Hp].
  assert (∀ signal', after_options options out script input signal' = Some (e, tr) →
            Forall tame tr ∧ ∀ sql, (compilations sql tr ≤ 1)%nat) as Hafter.
  { intros signal'. unfold after_options. destruct options as [db_file log_level|status].
    - destruct (main _ _ _ _ _) as [[e' w]|] eqn:Hm; [|done].
      apply main_run in Hm as [Htw Hcw]. intros [= <- <-].
      split; [by apply Forall_app|]. intros sql.
      rewrite compilations_app, (compilations_none _ Hp). apply Hcw.
    - intros [= <- <-]. split; [done|]. intros sql. rewrite (compilations_none _ Hp). lia. }
  destruct signal as [[s k]|]; [|apply Hafter].
  destruct (k <? length out)%nat; [|apply Hafter].
  intros [= <- <-]. split; [by apply Forall_take|]. intros sql.
  rewrite (compilations_none _ (prepare_count_take k _ Hp)). lia.
Qed.


(** X2: in a release build every line the program writes to the log file,
    over a whole run and whatever the log level asked for, is an ERROR
    line. *)
Theorem release_build_logs_errors_only argv script input signal e tr :
  DEBUG_MODE = false →
  program argv script input signal = Some (e, tr) →
  Forall (λ level, level = ERROR) (log_levels tr).
Proof.
  intros Hrelease H. apply program_run in H as [H _]. apply tame_log_levels in H.
  eapply Forall_impl; [exact H|]. intros level [?|?]; [congruence|done].
Qed.

(** X3: whatever the options, the commands and the answers of SQLite, every
    SQL text the program hands to SQLite over a whole run is one of its
    twelve constant texts: the five pragmas, the two schema statements and
    the five templates of the record operations. *)
Theorem only_program_sql_reaches_sqlite argv script input signal e tr :
  program argv script input signal = Some (e, tr) →
  Forall (λ sql, sql ∈ program_sql) (sql_texts tr).
Proof.
  intros H. apply program_run in H as [H _]. by apply tame_sql_texts.
Qed.

(** X18: over a whole run of the program, whatever the commands and the
    answers of SQLite, every SQL text is compiled successfully at most
    once, however many commands use it; and along a command loop the cache
    loses no entry: what one command has compiled, the commands after it
    find. *)
Theorem statements_compiled_once_per_run :
  (∀ argv script input signal e tr,
     program argv script input signal = Some (e, tr) →
     ∀ sql, (compilations sql tr ≤ 1)%nat) ∧
  (∀ input w w', compiled_once w → run_loop input w = Some w' →
     compiled_once w' ∧ stmt_cache w ⊆ stmt_cache w').
Proof.
  split; [|intros input w w' Hinv H; by apply (run_loop_carries _ _ _ H)].
  intros argv script input signal e tr H. by apply program_run in H as [_ H].
Qed.

End Archive.

(** * Witnesses and counterexamples *)

(** C1, counterexample: a write whose every step reports contention calls
    [sqlite3_step] six times before it gives up, not five: the loop retries
    while [retries < SQLITE_MAX_RETRIES], so the first attempt is followed by
    five retries, one after each of the five sleeps. *)
Lemma always_busy_write_steps_six_times :
  ∃ w', executeSQLWithParams false sqlite_ok "DELETE FROM books WHERE id = ?;" ["7"]
          (opened (replicate 8 busy)) = Some (false, w') ∧
        step_results (trace w') = replicate 6 SQLITE_BUSY ∧
        length (step_results (trace w')) ≠ 5%nat ∧
        sleeps (trace w') = [10; 20; 40; 80; 160] ∧
        steps w' = replicate 2 busy.
Proof.
  eexists. split; [vm_compute; reflexivity|]. vm_compute. repeat split. lia.
Qed.

(** C1, witness: a delete on eight busy results, and on two busy results
    followed by done. *)
Lemma executeSQLWithParams_retry_backoff_witness :
  (∃ w' d, executeSQLWithParams false sqlite_ok "DELETE FROM books WHERE id = ?;" ["7"]
             (opened (replicate 8 busy)) = Some (false, w') ∧
           steps w' = replicate 2 busy ∧
           trace w' = trace (opened (replicate 8 busy)) ++ d ∧
           sleeps d = backoff_table ∧ length (step_results d) = 6%nat) ∧
  (∃ w' d, executeSQLWithParams false sqlite_ok "DELETE FROM books WHERE id = ?;" ["7"]
             (opened [busy; busy; finished]) = Some (true, w') ∧
           steps w' = [] ∧
           trace w' = trace (opened [busy; busy; finished]) ++ d).
Proof.
  split.
  - destruct (executeSQLWithParams_retry_backoff false sqlite_ok
                "DELETE FROM books WHERE id = ?;" ["7"] (opened (replicate 8 busy)) 1%nat)
      as [Hbusy _].
    + right. split; reflexivity.
    + intros j p Hj. reflexivity.
    + destruct (Hbusy (replicate 6 busy) (replicate 2 busy))
        as (w' & d & H1 & H2 & H3 & H4 & H5 & H6).
      * reflexivity.
      * reflexivity.
      * repeat constructor.
      * exists w', d. repeat split; assumption.
  - destruct (executeSQLWithParams_retry_backoff false sqlite_ok
                "DELETE FROM books WHERE id = ?;" ["7"] (opened [busy; busy; finished]) 1%nat)
      as [_ Hclear].
    + right. split; reflexivity.
    + intros j p Hj. reflexivity.
    + destruct (Hclear [busy; busy] (mkRow 0 None None) [])
        as (w' & d & H1 & H2 & H3 & H4).
      * reflexivity.
      * simpl. lia.
      * repeat constructor.
      * exists w', d. repeat split; assumption.
Defined.

(** C2, counterexample: in a scan whose first step is retried three times
    before it yields a row, the second step gets two retries only, sleeping
    80 and 160 ms; its third busy result ends the scan with an error, the
    row collected so far is returned and the final result of the statement
    is never fetched.  With a budget per step the second step would have
    slept 10, 20 and 40 ms and reached [SQLITE_DONE]. *)
Lemma retry_budget_not_renewed_per_step :
  ∃ w', executeQuery false sqlite_ok "SELECT * FROM books ORDER BY id;" []
          (opened [busy; busy; busy; dune; busy; busy; busy; finished]) =
          Some ([mkBook 1 "Dune" "Frank Herbert"], w') ∧
        step_results (trace w') =
          [SQLITE_BUSY; SQLITE_BUSY; SQLITE_BUSY; SQLITE_ROW;
           SQLITE_BUSY; SQLITE_BUSY; SQLITE_BUSY] ∧
        sleeps (trace w') = [10; 20; 40; 80; 160] ∧
        steps w' = [finished] ∧
        ELog ERROR "Failed to execute query: database is locked" ∈ trace w'.
Proof.
  eexists. split; [vm_compute; reflexivity|]. vm_compute.
  repeat split. in_list.
Qed.

(** C2, witness: a scan that is busy once before and once after a row, and
    a scan whose sixth busy result comes after a row. *)
Lemma executeQuery_retry_budget_per_scan_witness :
  (∃ res w' d consumed,
     executeQuery false sqlite_ok "SELECT * FROM books ORDER BY id;" []
       (opened [busy; dune; busy; finished]) = Some (res, w') ∧
     trace w' = trace (opened [busy; dune; busy; finished]) ++ d ∧
     steps (opened [busy; dune; busy; finished]) = consumed ++ steps w' ∧
     step_results d = consumed.*1 ∧
     sleeps d = take (busy_count consumed) backoff_table ∧
     res = marshal <$> rows consumed) ∧
  (∃ w' d,
     executeQuery false sqlite_ok "SELECT * FROM books ORDER BY id;" []
       (opened [busy; busy; busy; dune; busy; busy; busy; finished]) =
       Some ([mkBook 1 "Dune" "Frank Herbert"], w') ∧
     steps w' = [finished] ∧
     sleeps d = backoff_table ∧
     ELog ERROR (scan_failure_message sqlite_ok) ∈ d).
Proof.
  split.
  - destruct (executeQuery_retry_budget_per_scan false sqlite_ok
                "SELECT * FROM books ORDER BY id;" []
                (opened [busy; dune; busy; finished])) as (Hret & Hscan & _).
    destruct Hret as [[res w'] Hrun].
    { left. do 3 apply Exists_cons_tl. apply Exists_cons_hd. split; discriminate. }
    destruct (Hscan res w' Hrun) as (d & consumed & H1 & H2 & H3 & H4 & _ & H6 & _).
    exists res, w', d, consumed. repeat split; assumption.
  - destruct (executeQuery_retry_budget_per_scan false sqlite_ok
                "SELECT * FROM books ORDER BY id;" []
                (opened [busy; busy; busy; dune; busy; busy; busy; finished]))
      as (_ & _ & Hsix).
    destruct (Hsix 1%nat [busy; busy; busy; dune; busy; busy] (mkRow 0 None None) [finished])
      as (w' & d & H1 & H2 & _ & _ & H5 & H6).
    + right. split; reflexivity.
    + intros j p Hj. reflexivity.
    + reflexivity.
    + repeat constructor; (by left) || (by right).
    + reflexivity.
    + exists w', d. split; [exact H1|]. split; [exact H2|]. split; [exact H5|].
      apply H6. reflexivity.
Defined.

(** C3, witness: a write that is retried once, and a scan of one row that
    is retried once. *)
Lemma lock_discipline_witness :
  (∃ res w',
     executeSQLWithParams false sqlite_ok "DELETE FROM books WHERE id = ?;" ["7"]
       (opened [busy; finished]) = Some (res, w') ∧
     ∃ d, trace w' = trace (opened [busy; finished]) ++ d ∧ write_locked (engine d)) ∧
  (∃ res w',
     executeQuery false sqlite_ok "SELECT * FROM books ORDER BY id;" []
       (opened [dune; busy; finished]) = Some (res, w') ∧
     ∃ d, trace w' = trace (opened [dune; busy; finished]) ++ d ∧
          read_locked (engine d) = true).
Proof.
  split.
  - destruct (lock_discipline false sqlite_ok "DELETE FROM books WHERE id = ?;" ["7"]
                (opened [busy; finished])) as (Hret & Hw & _).
    destruct Hret as [[res w'] Hrun].
    { left. apply Exists_cons_tl, Exists_cons_hd. discriminate. }
    exists res, w'. split; [exact Hrun|].
    destruct (Hw res w' Hrun) as (d & Htr & Hl & _). by exists d.
  - destruct (lock_discipline false sqlite_ok "SELECT * FROM books ORDER BY id;" []
                (opened [dune; busy; finished])) as (_ & _ & Hret & Hr).
    destruct Hret as [[res w'] Hrun].
    { do 2 apply Exists_cons_tl. apply Exists_cons_hd. split; discriminate. }
    exists res, w'. split; [exact Hrun|].
    destruct (Hr res w' Hrun) as (d & Htr & Hl & _). by exists d.
Defined.

(** C5, witness: an insert whose second parameter does not bind. *)
Lemma bind_contract_witness :
  compiles_to sqlite_bind_fails "INSERT INTO books (id, title, author) VALUES (?, ?, ?);"
    (opened [finished]) 1%nat ∧
  (∃ w' d,
     executeSQLWithParams false sqlite_bind_fails
       "INSERT INTO books (id, title, author) VALUES (?, ?, ?);"
       ["1"; "Dune"; "Frank Herbert"] (opened [finished]) = Some (false, w') ∧
     trace w' = trace (opened [finished]) ++ d ∧ step_results d = [] ∧
     ELog ERROR "Failed to bind parameter 2: column index out of range" ∈ d) ∧
  (∃ w' d,
     executeQuery false sqlite_bind_fails
       "INSERT INTO books (id, title, author) VALUES (?, ?, ?);"
       ["1"; "Dune"; "Frank Herbert"] (opened [finished]) = Some ([], w') ∧
     trace w' = trace (opened [finished]) ++ d ∧ step_results d = [] ∧
     ELog ERROR "Failed to bind parameter 2: column index out of range" ∈ d).
Proof.
  assert (compiles_to sqlite_bind_fails
            "INSERT INTO books (id, title, author) VALUES (?, ?, ?);"
            (opened [finished]) 1%nat) as Hc.
  { right. split; reflexivity. }
  split; [exact Hc|].
  destruct (bind_contract false sqlite_bind_fails
              "INSERT INTO books (id, title, author) VALUES (?, ?, ?);"
              ["1"; "Dune"; "Frank Herbert"] (opened [finished]) 1%nat Hc)
    as (_ & _ & _ & Hfail).
  destruct (Hfail 1%nat "Dune") as [Hw Hr].
  - reflexivity.
  - intros j p Hj. destruct j as [|[|j]]; [reflexivity|discriminate Hj|discriminate Hj].
  - discriminate.
  - destruct Hw as (w' & d & H1 & H2 & H3 & H4).
    destruct Hr as (w'' & d' & H1' & H2' & H3' & H4').
    split.
    + exists w', d. repeat split; [assumption..|]. apply H4. reflexivity.
    + exists w'', d'. repeat split; [assumption..|]. apply H4'. reflexivity.
Defined.

(** C6, witness: a scan of two rows, and a scan that fails after two
    rows. *)
Lemma executeQuery_partial_results_witness :
  (∃ res w',
     executeQuery false sqlite_ok "SELECT * FROM books ORDER BY id;" []
       (opened [dune; busy; untitled; finished]) = Some (res, w') ∧
     ∃ consumed, steps (opened [dune; busy; untitled; finished]) = consumed ++ steps w' ∧
                 res = marshal <$> rows consumed) ∧
  (∃ w' d,
     executeQuery false sqlite_ok "SELECT * FROM books ORDER BY id;" []
       (opened [dune; untitled; failed; finished]) =
       Some ([mkBook 1 "Dune" "Frank Herbert"; mkBook 2 "" "Anonymous"], w') ∧
     steps w' = [finished] ∧
     trace w' = trace (opened [dune; untitled; failed; finished]) ++ d ∧
     ELog ERROR "Failed to execute query: database is locked" ∈ d).
Proof.
  split.
  - destruct (executeQuery_partial_results false sqlite_ok
                "SELECT * FROM books ORDER BY id;" []
                (opened [dune; busy; untitled; finished])) as (Hret & Hsound & _).
    destruct Hret as [[res w'] Hrun].
    { do 3 apply Exists_cons_tl. apply Exists_cons_hd. split; discriminate. }
    exists res, w'. split; [exact Hrun|]. by apply Hsound.
  - destruct (executeQuery_partial_results false sqlite_ok
                "SELECT * FROM books ORDER BY id;" []
                (opened [dune; untitled; failed; finished])) as (_ & _ & Hrows).
    destruct (Hrows 1%nat [dune; untitled] 1 (mkRow 0 None None) [finished])
      as (w' & d & H1 & H2 & H3 & H4).
    + right. split; reflexivity.
    + intros j p Hj. discriminate Hj.
    + reflexivity.
    + repeat constructor.
    + discriminate.
    + discriminate.
    + exists w', d. repeat split; [assumption..|]. apply H4; [discriminate|reflexivity].
Defined.

(** C10, witness: a row whose title is [NULL]. *)
Lemma marshal_null_text_is_empty_witness :
  ∃ res w' b,
    executeQuery false sqlite_ok "SELECT * FROM books ORDER BY id;" []
      (opened [untitled; finished]) = Some (res, w') ∧
    b ∈ res ∧
    ∃ row, (SQLITE_ROW, row) ∈ steps (opened [untitled; finished]) ∧
           id b = column_int_0 row ∧
           title b = default "" (column_text_1 row) ∧
           author b = default "" (column_text_2 row) ∧
           (column_text_1 row = None → title b = "") ∧
           (column_text_2 row = None → author b = "").
Proof.
  eexists _, _, _. split; [vm_compute; reflexivity|].
  split; [apply list_elem_of_here|].
  eapply (marshal_null_text_is_empty false sqlite_ok "SELECT * FROM books ORDER BY id;" []).
  - vm_compute; reflexivity.
  - apply list_elem_of_here.
Defined.

(** C7, witness: a database that refuses one pragma, and a read-only
    database file. *)
Lemma initialization_fatality_witness :
  (∃ w' d,
     initializeDatabase false sqlite_pragma_fails "book_archive.db"
       (opened []) = (true, w') ∧
     trace w' = trace (opened []) ++ d ∧
     ELog ERROR "Failed to set pragma: not authorized" ∈ d ∧
     (BookArchive_ctor false sqlite_pragma_fails "book_archive.db" ERROR (opened [])).1
       = None) ∧
  (∃ w' d,
     initializeDatabase false sqlite_no_table "book_archive.db"
       (opened []) = (false, w') ∧
     trace w' = trace (opened []) ++ d ∧
     ELog ERROR "Failed to create table: attempt to write a readonly database" ∈ d ∧
     ∃ wm, main false sqlite_no_table "book_archive.db" ERROR [] [] None
             = Some (ExitCode 1, wm)).
Proof.
  split.
  - destruct (initialization_fatality false sqlite_pragma_fails "book_archive.db" ERROR
                (opened []) eq_refl) as [Hok _].
    destruct (Hok eq_refl) as (w' & d & H1 & H2 & _ & H4 & _ & H6).
    exists w', d. split; [exact H1|]. split; [exact H2|]. split; [|exact H6].
    apply (H4 eq_refl "PRAGMA journal_mode = WAL;"); [in_list|discriminate].
  - destruct (initialization_fatality false sqlite_no_table "book_archive.db" ERROR
                (opened []) eq_refl) as [_ Hfail].
    destruct Hfail as (w' & d & H1 & H2 & H3 & _ & H5); [discriminate|].
    exists w', d. split; [exact H1|]. split; [exact H2|]. split.
    + apply H3. reflexivity.
    + apply (H5 [] [] None). exact I.
Defined.



(** C4, counterexample: a statement whose compilation fails is compiled
    again by the next request for the same SQL text; nothing is cached. *)
Lemma failed_compilation_is_repeated :
  ∃ w1 w2,
    getPreparedStatement false sqlite_no_compile "SELECT * FROM books ORDER BY id;"
      (opened []) = (None, w1) ∧
    getPreparedStatement false sqlite_no_compile "SELECT * FROM books ORDER BY id;"
      w1 = (None, w2) ∧
    prepare_results "SELECT * FROM books ORDER BY id;" (trace w2) = [1; 1] ∧
    stmt_cache w2 = ∅.
Proof.
  eexists _, _. split; [vm_compute; reflexivity|]. split; [vm_compute; reflexivity|].
  vm_compute. by split.
Qed.

(** C4, witness: two callers racing for the same SQL text.  Both miss
    under the shared lock; the first takes the exclusive lock, compiles and
    inserts; the second finds the statement at its second lookup. *)
Lemma statement_cache_compiles_once_witness :
  ∃ w ts,
    schedule false sqlite_ok [0; 1; 0; 1; 0; 1; 0; 0; 0; 0; 0; 1; 1; 1]%nat
      (opened [], [mkThread "SELECT * FROM books ORDER BY id;" Start [];
                   mkThread "SELECT * FROM books ORDER BY id;" Start []]) =
      Some (w, ts) ∧
    at_pc <$> ts = [Done (Some 1%nat); Done (Some 1%nat)] ∧
    prepare_results "SELECT * FROM books ORDER BY id;" (trace w) = [SQLITE_OK] ∧
    (∀ sql, (compilations sql (trace w) ≤ 1)%nat) ∧
    stmt_cache (opened []) ⊆ stmt_cache w.
Proof.
  destruct (schedule false sqlite_ok [0; 1; 0; 1; 0; 1; 0; 0; 0; 0; 0; 1; 1; 1]%nat
              (opened [], [mkThread "SELECT * FROM books ORDER BY id;" Start [];
                           mkThread "SELECT * FROM books ORDER BY id;" Start []]))
    as [[w ts]|] eqn:Hrace; [|vm_compute in Hrace; discriminate].
  exists w, ts. split; [reflexivity|].
  destruct (statement_cache_compiles_once false sqlite_ok (opened [])
              [mkThread "SELECT * FROM books ORDER BY id;" Start [];
               mkThread "SELECT * FROM books ORDER BY id;" Start []] w ts)
    as (H1 & _ & _ & _ & H5 & _).
  - split; [reflexivity|]. intros sql. reflexivity.
  - repeat constructor.
  - by apply (schedule_steps false sqlite_ok) in Hrace.
  - vm_compute in Hrace. injection Hrace as <- <-.
    split; [reflexivity|]. split; [reflexivity|]. split; [exact H1|exact H5].
Defined.

(** C9, witness: each operation once, and twice with different arguments,
    hostile ones included. *)
Lemma record_operations_fixed_sql_witness :
  (∃ r w', addBook false sqlite_ok 1 "Dune" "Frank Herbert" (opened [finished])
             = Some (r, w') ∧
           passes_template "INSERT INTO books (id, title, author) VALUES (?, ?, ?);"
             ["1"; "Dune"; "Frank Herbert"] (opened [finished]) w') ∧
  (∃ r w', deleteBook false sqlite_ok 1 (opened [finished]) = Some (r, w') ∧
           passes_template "DELETE FROM books WHERE id = ?;" ["1"]
             (opened [finished]) w') ∧
  (∃ r w', updateBook false sqlite_ok 1 "Dune" "F. Herbert" (opened [finished])
             = Some (r, w') ∧
           passes_template "UPDATE books SET title = ?, author = ? WHERE id = ?;"
             ["Dune"; "F. Herbert"; "1"] (opened [finished]) w') ∧
  (∃ r w', searchBook false sqlite_ok "Dune" (opened [dune; finished]) = Some (r, w') ∧
           passes_template
             "SELECT * FROM books WHERE title LIKE ? OR author LIKE ? ORDER BY id;"
             ["%Dune%"; "%Dune%"] (opened [dune; finished]) w') ∧
  (∃ w', displayBooks false sqlite_ok (opened [dune; finished]) = Some w' ∧
         passes_template "SELECT * FROM books ORDER BY id;" []
           (opened [dune; finished]) w') ∧
  (∃ r1 r2 w1 w2,
     addBook false sqlite_ok 1 "Dune" "Frank Herbert" (opened [finished]) = Some (r1, w1) ∧
     addBook false sqlite_ok 2 "x'); DROP TABLE books; --" "Mallory" (opened [finished])
       = Some (r2, w2) ∧
     sql_requested (opened [finished]) w1 = sql_requested (opened [finished]) w2) ∧
  (∃ r1 r2 w1 w2,
     deleteBook false sqlite_ok 1 (opened [finished]) = Some (r1, w1) ∧
     deleteBook false sqlite_ok 2 (opened [finished]) = Some (r2, w2) ∧
     sql_requested (opened [finished]) w1 = sql_requested (opened [finished]) w2) ∧
  (∃ r1 r2 w1 w2,
     updateBook false sqlite_ok 1 "Dune" "F. Herbert" (opened [finished]) = Some (r1, w1) ∧
     updateBook false sqlite_ok 2 "Emma" "Jane Austen" (opened [finished]) = Some (r2, w2) ∧
     sql_requested (opened [finished]) w1 = sql_requested (opened [finished]) w2) ∧
  (∃ r1 r2 w1 w2,
     searchBook false sqlite_ok "Dune" (opened [dune; finished]) = Some (r1, w1) ∧
     searchBook false sqlite_ok "%' OR '1'='1" (opened [dune; finished]) = Some (r2, w2) ∧
     sql_requested (opened [dune; finished]) w1 =
       sql_requested (opened [dune; finished]) w2).
Proof.
  destruct (record_operations_fixed_sql false sqlite_ok (opened [finished]))
    as (Ha & Hd & Hu & _ & _ & Ha2 & Hd2 & Hu2 & _).
  destruct (record_operations_fixed_sql false sqlite_ok (opened [dune; finished]))
    as (_ & _ & _ & Hs & Hl & _ & _ & _ & Hs2).
  repeat split.
  - eexists _, _. split; [vm_compute; reflexivity|].
    eapply (Ha 1 "Dune" "Frank Herbert"). vm_compute; reflexivity.
  - eexists _, _. split; [vm_compute; reflexivity|].
    eapply (Hd 1). vm_compute; reflexivity.
  - eexists _, _. split; [vm_compute; reflexivity|].
    eapply (Hu 1 "Dune" "F. Herbert"). vm_compute; reflexivity.
  - eexists _, _. split; [vm_compute; reflexivity|].
    eapply (Hs "Dune"). vm_compute; reflexivity.
  - eexists. split; [vm_compute; reflexivity|].
    eapply Hl. vm_compute; reflexivity.
  - eexists _, _, _, _. split; [vm_compute; reflexivity|].
    split; [vm_compute; reflexivity|].
    eapply (Ha2 1 "Dune" "Frank Herbert" 2 "x'); DROP TABLE books; --" "Mallory");
      vm_compute; reflexivity.
  - eexists _, _, _, _. split; [vm_compute; reflexivity|].
    split; [vm_compute; reflexivity|].
    eapply (Hd2 1 2); vm_compute; reflexivity.
  - eexists _, _, _, _. split; [vm_compute; reflexivity|].
    split; [vm_compute; reflexivity|].
    eapply (Hu2 1 "Dune" "F. Herbert" 2 "Emma" "Jane Austen"); vm_compute; reflexivity.
  - eexists _, _, _, _. split; [vm_compute; reflexivity|].
    split; [vm_compute; reflexivity|].
    eapply (Hs2 "Dune" "%' OR '1'='1"); vm_compute; reflexivity.
Defined.

(** * Witnesses of the properties of whole runs, of the engine and of the parsers *)


(** X2, witness: a release build asked for level INFO, on a delete that fails: the two
    lines of its log are ERROR lines. *)
Lemma release_build_logs_errors_only_witness :
  ∃ tr, program false sqlite_ok ["book_archive"; "--log-level"; "INFO"] [failed]
          [CmdDelete 7; CmdExit] None = Some (ExitCode 0, tr) ∧
        Forall (λ level, level = ERROR) (log_levels tr) ∧
        log_levels tr = [ERROR; ERROR].
Proof.
  eexists. split; [vm_compute; reflexivity|]. split; [|vm_compute; reflexivity].
  apply (release_build_logs_errors_only false sqlite_ok
           ["book_archive"; "--log-level"; "INFO"] [failed]
           [CmdDelete 7; CmdExit] None (ExitCode 0)); [reflexivity|].
  vm_compute. reflexivity.
Defined.

(** X3, witness: a search for a keyword written like SQL hands SQLite the texts of the
    program only. *)
Lemma only_program_sql_reaches_sqlite_witness :
  ∃ tr, program false sqlite_ok ["book_archive"] [finished]
          [CmdSearch "'; DROP TABLE books; --"; CmdExit] None = Some (ExitCode 0, tr) ∧
        Forall (λ sql, sql ∈ program_sql) (sql_texts tr) ∧
        length (sql_texts tr) = 8%nat.
Proof.
  eexists. split; [vm_compute; reflexivity|]. split; [|vm_compute; reflexivity].
  apply (only_program_sql_reaches_sqlite false sqlite_ok ["book_archive"] [finished]
           [CmdSearch "'; DROP TABLE books; --"; CmdExit] None (ExitCode 0)).
  vm_compute. reflexivity.
Defined.

(** X4, witness: a delete whose third step answers done. *)
Lemma executeSQLWithParams_outcome_witness :
  ∃ w' d, executeSQLWithParams false sqlite_ok "DELETE FROM books WHERE id = ?;" ["7"]
            (opened [busy; busy; finished; dune]) = Some (true, w') ∧
          trace w' = trace (opened [busy; busy; finished; dune]) ++ d ∧
          0 ≤ total_sleep d ≤ 310 ∧
          steps w' = [dune].
Proof.
  destruct (executeSQLWithParams_outcome false sqlite_ok "DELETE FROM books WHERE id = ?;"
              ["7"] (opened [busy; busy; finished; dune]) true
              (default (opened []) (snd <$> executeSQLWithParams false sqlite_ok
                 "DELETE FROM books WHERE id = ?;" ["7"] (opened [busy; busy; finished; dune]))))
    as (d & Htr & Hsleep & _); [vm_compute; reflexivity|].
  eexists _, d. split; [vm_compute; reflexivity|]. split; [exact Htr|].
  split; [exact Hsleep|]. vm_compute. reflexivity.
Defined.

(** X5, witness: on a library that compiles nothing, a delete returns false and a
    listing no rows, and neither touches the pending step results. *)
Lemma prepare_failure_ends_the_call_witness :
  (∃ w', executeSQLWithParams false sqlite_no_compile "DELETE FROM books WHERE id = ?;" ["7"]
           (opened [finished]) = Some (false, w') ∧ steps w' = [finished]) ∧
  (∃ w', executeQuery false sqlite_no_compile "SELECT * FROM books ORDER BY id;" []
           (opened [dune; finished]) = Some ([], w') ∧ steps w' = [dune; finished]).
Proof.
  split.
  - destruct (prepare_failure_ends_the_call false sqlite_no_compile
                "DELETE FROM books WHERE id = ?;" ["7"] (opened [finished]))
      as [(w' & d & H & _ & _ & _ & _ & Hsteps & _) _]; [reflexivity|discriminate|].
    by exists w'.
  - destruct (prepare_failure_ends_the_call false sqlite_no_compile
                "SELECT * FROM books ORDER BY id;" [] (opened [dune; finished]))
      as [_ (w' & d & H & _ & _ & _ & _ & Hsteps & _)]; [reflexivity|discriminate|].
    by exists w'.
Defined.

(** X6, witness: a database file that cannot be opened: [main] exits with status 1 and
    the connection is closed; on a file that cannot be written, the
    connection stays open. *)
Lemma failed_construction_exit_witness :
  (∃ w', main false sqlite_no_open "book_archive.db" ERROR [] [CmdExit] None
           = Some (ExitCode 1, w') ∧
         resource_events (trace w') =
           [ELogOpen; EOpen "book_archive.db" 14; EClose; ELogClose]) ∧
  (∃ w', main false sqlite_no_table "book_archive.db" ERROR [] [CmdExit] None
           = Some (ExitCode 1, w') ∧
         resource_events (trace w') =
           [ELogOpen; EOpen "book_archive.db" SQLITE_OK; ELogClose]).
Proof.
  split.
  - eexists. split; [vm_compute; reflexivity|].
    destruct (failed_construction_exit false sqlite_no_open "book_archive.db" ERROR []
                [CmdExit] None (ExitCode 1)
                (default (opened []) (snd <$> main false sqlite_no_open "book_archive.db"
                                                ERROR [] [CmdExit] None)))
      as [_ H]; [vm_compute; reflexivity|].
    destruct (H eq_refl) as (Hres & _). exact Hres.
  - eexists. split; [vm_compute; reflexivity|].
    destruct (failed_construction_exit false sqlite_no_table "book_archive.db" ERROR []
                [CmdExit] None (ExitCode 1)
                (default (opened []) (snd <$> main false sqlite_no_table "book_archive.db"
                                                ERROR [] [CmdExit] None)))
      as [_ H]; [vm_compute; reflexivity|].
    destruct (H eq_refl) as (Hres & _). exact Hres.
Defined.

(** X7, witness: the archive after one delete: the destructor finalizes its one cached
    statement, and a second destructor releases nothing. *)
Lemma teardown_releases_once_witness :
  ∃ w d, executeSQLWithParams false sqlite_ok "DELETE FROM books WHERE id = ?;" ["7"]
           (opened [finished]) = Some (true, w) ∧
         trace (BookArchive_dtor false sqlite_ok (BookArchive_dtor false sqlite_ok w)) =
           trace (BookArchive_dtor false sqlite_ok w) ++ d ∧
         resource_events d = [].
Proof.
  eexists.
  destruct (teardown_releases_once false sqlite_ok
              (default (opened []) (snd <$> executeSQLWithParams false sqlite_ok
                 "DELETE FROM books WHERE id = ?;" ["7"] (opened [finished]))))
    as [_ (d & Htr & Hres)].
  exists d. split; [vm_compute; reflexivity|]. split; [exact Htr|exact Hres].
Defined.

(** X8, witness: what follows [exit] is not read. *)
Lemma session_ends_at_exit_witness :
  run_loop false sqlite_ok ([CmdHelp] ++ CmdExit :: [CmdDelete 7]) (opened []) =
  run_loop false sqlite_ok ([CmdHelp] ++ [CmdExit]) (opened []) ∧
  ∃ w', run_loop false sqlite_ok [CmdHelp; CmdExit; CmdDelete 7] (opened []) = Some w' ∧
        running w' = false.
Proof.
  split.
  - apply (proj1 (session_ends_at_exit false sqlite_ok)).
  - eexists. split; [vm_compute; reflexivity|].
    apply (proj2 (session_ends_at_exit false sqlite_ok) [CmdHelp; CmdExit; CmdDelete 7]
             (opened [])); [vm_compute; reflexivity|reflexivity|in_list].
Defined.

(** X9, witness: the [debug] command of a release build leaves the level alone. *)
Lemma log_level_over_session_witness :
  ∃ w', run_loop false sqlite_ok [CmdDebug; CmdExit] (opened []) = Some w' ∧
        current_log_level w' = ERROR.
Proof.
  eexists. split; [vm_compute; reflexivity|].
  destruct (log_level_over_session false sqlite_ok [CmdDebug; CmdExit] (opened [])
              (default (opened []) (run_loop false sqlite_ok [CmdDebug; CmdExit] (opened []))))
    as (H & _); [vm_compute; reflexivity|].
  exact (H eq_refl).
Defined.

(** X10, witness: in a debug build with the log open, the switch to INFO is recorded and
    the switch to DEBUG is not. *)
Lemma setLogLevel_confirmation_witness :
  trace (setLogLevel true INFO (opened [])) =
    [ELock log_mutex Exclusive; ELog INFO "Log level set to: INFO";
     EUnlock log_mutex Exclusive] ∧
  trace (setLogLevel true DEBUG (opened [])) = [].
Proof.
  split.
  - exact (proj2 (setLogLevel_confirmation true INFO (opened []))).
  - exact (proj2 (setLogLevel_confirmation true DEBUG (opened []))).
Defined.

(** X11, witness: a line with blanks around its fields. *)
Lemma parseCommand_well_formed_witness :
  parseCommand "add 12   Dune ,  Frank Herbert  " = CmdAdd 12 "Dune" "Frank Herbert" ∧
  well_formed (CmdAdd 12 "Dune" "Frank Herbert").
Proof.
  split; [vm_compute; reflexivity|].
  exact (parseCommand_well_formed "add 12   Dune ,  Frank Herbert  ").
Defined.

(** X12, witness: an update with a negative id and a comma in the author. *)
Lemma parseCommand_command_line_witness :
  parseCommand "update -3 Dune, Herbert, Frank" = CmdUpdate (-3) "Dune" "Herbert, Frank".
Proof.
  apply (parseCommand_command_line (CmdUpdate (-3) "Dune" "Herbert, Frank")).
  split; [unfold INT_MIN, INT_MAX; lia|].
  repeat split; try discriminate; try reflexivity;
    (match goal with |- ?P => apply (bool_decide_unpack P); vm_compute; exact I end).
Defined.

(** X13, witness: letters after the digits, and an id beyond the range of [int]. *)
Lemma delete_reads_leading_number_witness :
  parseCommand "delete 12abc" = CmdDelete 12 ∧
  parseCommand "delete 2147483648" =
    CmdMalformed "Invalid book ID: 2147483648" "delete 2147483648".
Proof.
  split.
  - exact (delete_reads_leading_number 12 "abc" eq_refl).
  - exact (delete_reads_leading_number 2147483648 "" eq_refl).
Defined.

(** X14, witness: lines without an empty one, and a line of two blanks. *)
Lemma run_lines_reads_commands_witness :
  run_lines false sqlite_ok ["help"; "exit"; "display"] (opened []) =
  run_loop false sqlite_ok [CmdHelp; CmdExit; CmdDisplay] (opened []) ∧
  processLine false sqlite_ok "  " (opened []) =
    Some (emit (ECout "Invalid command. Type 'help' for a list of commands.") (opened [])).
Proof.
  split.
  - apply (proj1 (run_lines_reads_commands false sqlite_ok) ["help"; "exit"; "display"]).
    intros H. repeat (apply elem_of_cons in H as [H|H]; [discriminate|]).
    by apply elem_of_nil in H.
  - by apply (proj2 (proj2 (run_lines_reads_commands false sqlite_ok))).
Defined.

(** X15, witness: the three names, and a name in lower case. *)
Lemma parseLogLevel_names_witness :
  parseLogLevel false "INFO" = (INFO, []) ∧
  parseLogLevel false "info" =
    (ERROR, [ECerr "Warning: Unknown log level 'info'. Using default."]).
Proof.
  split.
  - by apply (proj1 (parseLogLevel_names false "INFO")).
  - apply (proj2 (parseLogLevel_names false "info")). by intros [].
Defined.

(** X16, witness: a second [--db] replaces the first, and [--help] ends the program
    even in front of an unknown option. *)
Lemma parse_options_left_to_right_witness :
  parse_options false "book_archive" (["--db"; "a.db"] ++ ["--db"; "b.db"])
    "book_archive.db" ERROR = (Proceed "b.db" ERROR, []) ∧
  parse_options false "book_archive" (["--db"; "a.db"] ++ ["--help"; "--frobnicate"])
    "book_archive.db" ERROR = (Return 0, [printUsage "book_archive"]).
Proof.
  destruct (parse_options_left_to_right false "book_archive" ["--db"; "a.db"]
              "book_archive.db" ERROR "a.db" ERROR [] eq_refl)
    as (_ & Hdb & _ & Hhelp & _).
  split; [apply Hdb|apply Hhelp].
Defined.

(** X17, witness: a title of 36 characters in a row of 61. *)
Lemma table_rows_line_up_witness :
  String.length (table_row (mkBook 7 "The Hitchhiker's Guide to the Galaxy" "Douglas Adams"))
    = 61%nat ∧
  table_row (mkBook 7 "The Hitchhiker's Guide to the Galaxy" "Douglas Adams") =
    "    7 | The Hitchhiker's Guide to t... |        Douglas Adams".
Proof.
  split; [|vm_compute; reflexivity].
  destruct (table_rows_line_up
              (mkBook 7 "The Hitchhiker's Guide to the Galaxy" "Douglas Adams"))
    as (_ & _ & H & _).
  exact H.
Defined.

(** X18, witness: two deletes in one run compile the text of the delete once. *)
Lemma statements_compiled_once_per_run_witness :
  ∃ tr, program false sqlite_ok ["book_archive"] [finished; finished]
          [CmdDelete 1; CmdDelete 2; CmdExit] None = Some (ExitCode 0, tr) ∧
        (compilations "DELETE FROM books WHERE id = ?;" tr ≤ 1)%nat ∧
        prepare_results "DELETE FROM books WHERE id = ?;" tr = [SQLITE_OK] ∧
        step_results tr = [SQLITE_DONE; SQLITE_DONE].
Proof.
  eexists. split; [vm_compute; reflexivity|]. split; [|split; vm_compute; reflexivity].
  apply (proj1 (statements_compiled_once_per_run false sqlite_ok) ["book_archive"]
           [finished; finished] [CmdDelete 1; CmdDelete 2; CmdExit] None (ExitCode 0)).
  vm_compute. reflexivity.
Defined.
